(** * Vela: lexer, type checker and LLVM lowering, embedded in Rocq

    A shallow embedding of [src/frontend/lexer.py], [src/frontend/ast.py],
    [src/frontend/types.py] and [src/backend/llvm_compiler.py], followed by
    the theorems that settle the properties stated for them. *)

From Stdlib Require Import ZArith Ascii String List Bool Lia.
From stdpp Require Import gmap strings list fin_maps.
Set Warnings "-clear-no-such-hyp".
Import ListNotations.
Local Open Scope string_scope.
Local Open Scope Z_scope.

(** ** Python exceptions

    The exceptions the modelled code can raise.  [SyntaxError] is what the
    lexer raises on an unknown character (the lexical error of the language);
    the others are raised by Python itself or by llvmlite. *)

Inductive PyError : Type :=
| SyntaxError (msg : string)
| NameError (msg : string)
| NotImplementedError (msg : string)
| AttributeError
| TypeError
| ValueError
| IndexError
| AssertionError
| DuplicateNameError (name : string).

(** Outcome of running fallible code: a value, a raised exception, or a
    loop model that exhausted its fuel (never reached, see the totality
    lemmas). *)
Inductive Result (A : Type) : Type :=
| Ok (a : A)
| Raise (e : PyError)
| OutOfFuel.
Arguments Ok {A} a.
Arguments Raise {A} e.
Arguments OutOfFuel {A}.

Definition bind {A B : Type} (r : Result A) (k : A -> Result B) : Result B :=
  match r with
  | Ok a => k a
  | Raise e => Raise e
  | OutOfFuel => OutOfFuel
  end.

Notation "'let*' x ':=' c 'in' k" := (bind c (fun x => k))
  (at level 10, x pattern, c at level 100, k at level 200).

(** ** [src/frontend/types.py]: the type model *)

Module Types.

Inductive TypeKind : Type :=
| INT | FLOAT | STRING | BOOL | VOID | NULL | AUTO
| ARRAY | FUNCTION | CLASS | TRAIT | GENERIC.

Definition TypeKind_eqb (a b : TypeKind) : bool :=
  match a, b with
  | INT, INT | FLOAT, FLOAT | STRING, STRING | BOOL, BOOL | VOID, VOID
  | NULL, NULL | AUTO, AUTO | ARRAY, ARRAY | FUNCTION, FUNCTION
  | CLASS, CLASS | TRAIT, TRAIT | GENERIC, GENERIC => true
  | _, _ => false
  end.

(** The dataclass [Type]: the four optional fields default to [None]. *)
#[warnings="-register-all"]
Inductive Type_ : Type :=
| MkType (kind : TypeKind) (name : string)
         (element_type : option Type_)
         (param_types : option (list Type_))
         (return_type : option Type_)
         (generic_params : option (list string)).

Definition kind (t : Type_) : TypeKind :=
  match t with MkType k _ _ _ _ _ => k end.
Definition name (t : Type_) : string :=
  match t with MkType _ n _ _ _ _ => n end.
Definition element_type (t : Type_) : option Type_ :=
  match t with MkType _ _ e _ _ _ => e end.
Definition param_types (t : Type_) : option (list Type_) :=
  match t with MkType _ _ _ p _ _ => p end.
Definition return_type (t : Type_) : option Type_ :=
  match t with MkType _ _ _ _ r _ => r end.

(** [Type(kind, name)] with every optional field left at [None]. *)
Definition Type2 (k : TypeKind) (n : string) : Type_ :=
  MkType k n None None None None.

(** [Type.__eq__].  Optional fields compare as Python compares them:
    [None == None], a type against [None] is [False], lists compare by
    length and element by element. *)
Fixpoint Type_eq (self other : Type_) {struct self} : bool :=
  match self, other with
  | MkType k1 n1 e1 p1 r1 _, MkType k2 n2 e2 p2 r2 _ =>
    if negb (TypeKind_eqb k1 k2) then false
    else if TypeKind_eqb k1 ARRAY then
      match e1, e2 with
      | Some a, Some b => Type_eq a b
      | None, None => true
      | _, _ => false
      end
    else if TypeKind_eqb k1 FUNCTION then
      (match p1, p2 with
       | Some l1, Some l2 =>
         (fix list_eq (l1 l2 : list Type_) {struct l1} : bool :=
            match l1, l2 with
            | [], [] => true
            | a :: l1', b :: l2' => Type_eq a b && list_eq l1' l2'
            | _, _ => false
            end) l1 l2
       | None, None => true
       | _, _ => false
       end)
      &&
      (match r1, r2 with
       | Some a, Some b => Type_eq a b
       | None, None => true
       | _, _ => false
       end)
    else String.eqb n1 n2
  end.

(** Predefined primitive types. *)
Definition INT_TYPE := Type2 INT "int".
Definition FLOAT_TYPE := Type2 FLOAT "float".
Definition STRING_TYPE := Type2 STRING "str".
Definition BOOL_TYPE := Type2 BOOL "bool".
Definition VOID_TYPE := Type2 VOID "void".
Definition NULL_TYPE := Type2 NULL "null".
Definition AUTO_TYPE := Type2 AUTO "auto".

(** [TypeChecker.parse_type_string] *)
Definition parse_type_string (type_str : string) : Type_ :=
  if String.eqb type_str "int" then INT_TYPE
  else if String.eqb type_str "float" then FLOAT_TYPE
  else if String.eqb type_str "str" then STRING_TYPE
  else if String.eqb type_str "bool" then BOOL_TYPE
  else if String.eqb type_str "void" then VOID_TYPE
  else if String.eqb type_str "auto" then AUTO_TYPE
  else Type2 CLASS type_str.

(** [TypeChecker.can_assign] *)
Definition can_assign (target source : Type_) : bool :=
  if TypeKind_eqb (kind target) AUTO then true
  else if Type_eq target source then true
  else if TypeKind_eqb (kind source) NULL then
    existsb (TypeKind_eqb (kind target)) [CLASS; STRING; ARRAY]
  else if TypeKind_eqb (kind target) FLOAT && TypeKind_eqb (kind source) INT
  then true
  else false.

End Types.

(** ** [src/frontend/lexer.py] *)

Module Lexer.

Inductive TokenType : Type :=
| NUMBER | STRING | BOOLEAN | NULL
| IDENTIFIER
| FUNC | RETURN | IF | ELSE | WHILE | FOR | IN | BREAK | CONTINUE
| INT | FLOAT | STR | BOOL | VOID | AUTO
| ASYNC | AWAIT | PARALLEL | PIPE | MATCH | WITH | IMPORT | FROM | AS
| CLASS | TRAIT | IMPL
| PLUS | MINUS | MULTIPLY | DIVIDE | MODULO | POWER
| ASSIGN | PLUS_ASSIGN | MINUS_ASSIGN
| EQ | NEQ | LT | GT | LTE | GTE | AND | OR | NOT
| ARROW | FAT_ARROW | PIPELINE
| LPAREN | RPAREN | LBRACE | RBRACE | LBRACKET | RBRACKET
| COMMA | SEMICOLON | COLON | DOT | QUESTION
| NEWLINE | EOF | COMMENT.

(** The payload of a token ([value: any]).  A float carries the text that
    was handed to [float()]: its binary value is outside the model. *)
Inductive TokenValue : Type :=
| VInt (z : Z)
| VFloat (literal : string)
| VStr (s : string)
| VBool (b : bool)
| VNone.

Record Token : Type := MkToken {
  type : TokenType;
  value : TokenValue;
  line : nat;
  column : nat
}.

(** Characters are code points below 256; the predicates are Python's
    [str.isdigit], [str.isalpha] and [str.isalnum] on that range. *)
Definition code (c : ascii) : nat := nat_of_ascii c.

Definition is_ascii_digit (c : ascii) : bool :=
  (48 <=? code c)%nat && (code c <=? 57)%nat.

Definition isdigit (c : ascii) : bool :=
  is_ascii_digit c
  || (code c =? 178)%nat || (code c =? 179)%nat || (code c =? 185)%nat.

Definition isalpha (c : ascii) : bool :=
  let n := code c in
  ((65 <=? n) && (n <=? 90))%nat || ((97 <=? n) && (n <=? 122))%nat
  || (n =? 170)%nat || (n =? 181)%nat || (n =? 186)%nat
  || ((192 <=? n) && (n <=? 214))%nat || ((216 <=? n) && (n <=? 246))%nat
  || ((248 <=? n) && (n <=? 255))%nat.

Definition isalnum (c : ascii) : bool :=
  let n := code c in
  isalpha c || isdigit c || ((188 <=? n) && (n <=? 190))%nat.

Definition add_char (s : string) (c : ascii) : string :=
  s ++ String c "".

(** [int(num_str)]: accepts decimal digits only, and (CPython 3.11 and
    later) refuses strings longer than the configured digit limit. *)
Fixpoint decimal_value (acc : Z) (s : string) : option Z :=
  match s with
  | EmptyString => Some acc
  | String c s' =>
    if is_ascii_digit c
    then decimal_value (10 * acc + Z.of_nat (code c - 48)) s'
    else None
  end.

Definition py_int (int_max_str_digits : option nat) (s : string) : Result Z :=
  match s with
  | EmptyString => Raise ValueError
  | _ =>
    match decimal_value 0 s with
    | None => Raise ValueError
    | Some z =>
      match int_max_str_digits with
      | Some limit =>
        if (limit <? String.length s)%nat then Raise ValueError else Ok z
      | None => Ok z
      end
    end
  end.

(** [float(num_str)] on the strings [read_number] builds: decimal digits
    with one dot.  The literal text stands for the resulting float. *)
Definition py_float (s : string) : Result TokenValue :=
  if forallb (fun c => is_ascii_digit c || Ascii.eqb c ".")
             (list_ascii_of_string s)
     && existsb is_ascii_digit (list_ascii_of_string s)
  then Ok (VFloat s) else Raise ValueError.

(** CPython's default for [sys.get_int_max_str_digits()]. *)
Definition default_int_max_str_digits : option nat := Some 4300%nat.

Definition keywords : list (string * TokenType) :=
  [ ("func", FUNC); ("return", RETURN); ("if", IF); ("else", ELSE);
    ("while", WHILE); ("for", FOR); ("in", IN); ("break", BREAK);
    ("continue", CONTINUE); ("int", INT); ("float", FLOAT); ("str", STR);
    ("bool", BOOL); ("void", VOID); ("auto", AUTO); ("true", BOOLEAN);
    ("false", BOOLEAN); ("null", NULL); ("async", ASYNC); ("await", AWAIT);
    ("parallel", PARALLEL); ("match", MATCH); ("with", WITH);
    ("import", IMPORT); ("from", FROM); ("as", AS); ("class", CLASS);
    ("trait", TRAIT); ("impl", IMPL); ("and", AND); ("or", OR);
    ("not", NOT) ].

Fixpoint keywords_get (k : string) (table : list (string * TokenType))
    (default : TokenType) : TokenType :=
  match table with
  | [] => default
  | (k', t) :: table' =>
    if String.eqb k k' then t else keywords_get k table' default
  end.

(** The lexer object: [self.source], [self.pos], [self.line],
    [self.column], [self.tokens]. *)
Record Lexer : Type := MkLexer {
  source : list ascii;
  pos : nat;
  cur_line : nat;
  cur_column : nat;
  tokens : list Token
}.

Definition init (src : string) : Lexer :=
  MkLexer (list_ascii_of_string src) 0 1 1 [].

Definition current_char (lx : Lexer) : option ascii :=
  source lx !! pos lx.

Definition peek (lx : Lexer) : option ascii :=
  source lx !! (pos lx + 1)%nat.

Definition advance (lx : Lexer) : Lexer :=
  match source lx !! pos lx with
  | Some "010"%char =>
    MkLexer (source lx) (pos lx + 1) (cur_line lx + 1) 1 (tokens lx)
  | _ =>
    MkLexer (source lx) (pos lx + 1) (cur_line lx) (cur_column lx + 1)
            (tokens lx)
  end.

Definition append_token (t : Token) (lx : Lexer) : Lexer :=
  MkLexer (source lx) (pos lx) (cur_line lx) (cur_column lx)
          (tokens lx ++ [t]).

(** The [while] loops of the lexer consume one character per iteration;
    they are modelled by recursion on a fuel that the callers set to the
    number of characters left plus one. *)
Definition remaining (lx : Lexer) : nat :=
  (length (source lx) - pos lx)%nat.

Fixpoint skip_whitespace_loop (fuel : nat) (lx : Lexer) : Result Lexer :=
  match fuel with
  | O => OutOfFuel
  | S fuel' =>
    match current_char lx with
    | Some c =>
      if existsb (Ascii.eqb c) [" "; "009"; "013"]%char
      then skip_whitespace_loop fuel' (advance lx)
      else Ok lx
    | None => Ok lx
    end
  end.

Definition skip_whitespace (lx : Lexer) : Result Lexer :=
  skip_whitespace_loop (S (remaining lx)) lx.

Fixpoint skip_comment_loop (fuel : nat) (lx : Lexer) : Result Lexer :=
  match fuel with
  | O => OutOfFuel
  | S fuel' =>
    match current_char lx with
    | Some c =>
      if negb (Ascii.eqb c "010")
      then skip_comment_loop fuel' (advance lx)
      else Ok lx
    | None => Ok lx
    end
  end.

Definition skip_comment (lx : Lexer) : Result Lexer :=
  match current_char lx with
  | Some "#"%char => skip_comment_loop (S (remaining lx)) lx
  | _ => Ok lx
  end.

Section ReadNumber.
Variable int_max_str_digits : option nat.

(** The loop of [read_number]: returns the lexer, [num_str], [has_dot]. *)
Fixpoint read_number_loop (fuel : nat) (lx : Lexer) (num_str : string)
    (has_dot : bool) : Result (Lexer * string * bool) :=
  match fuel with
  | O => OutOfFuel
  | S fuel' =>
    match current_char lx with
    | Some c =>
      if isdigit c || Ascii.eqb c "."
      then
        if Ascii.eqb c "."
        then
          if has_dot then Ok (lx, num_str, has_dot)
          else read_number_loop fuel' (advance lx) (add_char num_str c) true
        else read_number_loop fuel' (advance lx) (add_char num_str c) has_dot
      else Ok (lx, num_str, has_dot)
    | None => Ok (lx, num_str, has_dot)
    end
  end.

Definition read_number (lx : Lexer) : Result (Token * Lexer) :=
  let start_line := cur_line lx in
  let start_col := cur_column lx in
  let* (lx', num_str, has_dot) :=
    read_number_loop (S (remaining lx)) lx "" false in
  let* value :=
    if has_dot then py_float num_str
    else let* z := py_int int_max_str_digits num_str in Ok (VInt z) in
  Ok (MkToken NUMBER value start_line start_col, lx').

End ReadNumber.

(** The loop of [read_string].  After a backslash the next character is
    appended; at end of input it is [None], and [str + None] raises
    [TypeError]. *)
Fixpoint read_string_loop (fuel : nat) (quote : ascii) (lx : Lexer)
    (string_val : string) : Result (Lexer * string) :=
  match fuel with
  | O => OutOfFuel
  | S fuel' =>
    match current_char lx with
    | Some c =>
      if negb (Ascii.eqb c quote)
      then
        if Ascii.eqb c "\"
        then
          let lx1 := advance lx in
          match current_char lx1 with
          | Some escape_char =>
            let string_val' :=
              if Ascii.eqb escape_char "n" then add_char string_val "010"
              else if Ascii.eqb escape_char "t" then add_char string_val "009"
              else if Ascii.eqb escape_char "\" then add_char string_val "\"
              else if Ascii.eqb escape_char quote
                   then add_char string_val quote
              else add_char string_val escape_char in
            read_string_loop fuel' quote (advance lx1) string_val'
          | None => Raise TypeError
          end
        else read_string_loop fuel' quote (advance lx) (add_char string_val c)
      else Ok (lx, string_val)
    | None => Ok (lx, string_val)
    end
  end.

Definition read_string (quote : ascii) (lx : Lexer) : Result (Token * Lexer) :=
  let start_line := cur_line lx in
  let start_col := cur_column lx in
  let lx0 := advance lx in
  let* (lx1, string_val) :=
    read_string_loop (S (remaining lx0)) quote lx0 "" in
  Ok (MkToken STRING (VStr string_val) start_line start_col, advance lx1).

Fixpoint read_identifier_loop (fuel : nat) (lx : Lexer) (id_str : string)
    : Result (Lexer * string) :=
  match fuel with
  | O => OutOfFuel
  | S fuel' =>
    match current_char lx with
    | Some c =>
      if isalnum c || Ascii.eqb c "_"
      then read_identifier_loop fuel' (advance lx) (add_char id_str c)
      else Ok (lx, id_str)
    | None => Ok (lx, id_str)
    end
  end.

Definition TokenType_is_BOOLEAN (t : TokenType) : bool :=
  match t with BOOLEAN => true | _ => false end.
Definition TokenType_is_NULL (t : TokenType) : bool :=
  match t with NULL => true | _ => false end.

Definition read_identifier (lx : Lexer) : Result (Token * Lexer) :=
  let start_line := cur_line lx in
  let start_col := cur_column lx in
  let* (lx', id_str) := read_identifier_loop (S (remaining lx)) lx "" in
  let token_type := keywords_get id_str keywords IDENTIFIER in
  let value :=
    if TokenType_is_BOOLEAN token_type then VBool (String.eqb id_str "true")
    else if TokenType_is_NULL token_type then VNone
    else VStr id_str in
  Ok (MkToken token_type value start_line start_col, lx').

(** The two-character operators, tried first, in the order of the source. *)
Definition two_char_operator (char : ascii) (next : option ascii)
    : option (TokenType * string) :=
  match next with
  | None => None
  | Some n =>
    if Ascii.eqb char "=" && Ascii.eqb n "=" then Some (EQ, "==")
    else if Ascii.eqb char "!" && Ascii.eqb n "=" then Some (NEQ, "!=")
    else if Ascii.eqb char "<" && Ascii.eqb n "=" then Some (LTE, "<=")
    else if Ascii.eqb char ">" && Ascii.eqb n "=" then Some (GTE, ">=")
    else if Ascii.eqb char "+" && Ascii.eqb n "=" then Some (PLUS_ASSIGN, "+=")
    else if Ascii.eqb char "-" && Ascii.eqb n "="
         then Some (MINUS_ASSIGN, "-=")
    else if Ascii.eqb char "-" && Ascii.eqb n ">" then Some (ARROW, "->")
    else if Ascii.eqb char "=" && Ascii.eqb n ">" then Some (FAT_ARROW, "=>")
    else if Ascii.eqb char "|" && Ascii.eqb n ">" then Some (PIPELINE, "|>")
    else if Ascii.eqb char "*" && Ascii.eqb n "*" then Some (POWER, "**")
    else None
  end.

(** The single-character operators and delimiters. *)
Definition one_char_operator (char : ascii) : option (TokenType * string) :=
  if Ascii.eqb char "+" then Some (PLUS, "+")
  else if Ascii.eqb char "-" then Some (MINUS, "-")
  else if Ascii.eqb char "*" then Some (MULTIPLY, "*")
  else if Ascii.eqb char "/" then Some (DIVIDE, "/")
  else if Ascii.eqb char "%" then Some (MODULO, "%")
  else if Ascii.eqb char "=" then Some (ASSIGN, "=")
  else if Ascii.eqb char "<" then Some (LT, "<")
  else if Ascii.eqb char ">" then Some (GT, ">")
  else if Ascii.eqb char "(" then Some (LPAREN, "(")
  else if Ascii.eqb char ")" then Some (RPAREN, ")")
  else if Ascii.eqb char "{" then Some (LBRACE, "{")
  else if Ascii.eqb char "}" then Some (RBRACE, "}")
  else if Ascii.eqb char "[" then Some (LBRACKET, "[")
  else if Ascii.eqb char "]" then Some (RBRACKET, "]")
  else if Ascii.eqb char "," then Some (COMMA, ",")
  else if Ascii.eqb char ";" then Some (SEMICOLON, ";")
  else if Ascii.eqb char ":" then Some (COLON, ":")
  else if Ascii.eqb char "." then Some (DOT, ".")
  else if Ascii.eqb char "?" then Some (QUESTION, "?")
  else if Ascii.eqb char "|" then Some (PIPE, "|")
  else None.

Section Tokenize.
Variable int_max_str_digits : option nat.

(** The main loop of [tokenize].  Every iteration that does not leave the
    loop consumes at least one character. *)
Fixpoint tokenize_loop (fuel : nat) (lx : Lexer) : Result Lexer :=
  match fuel with
  | O => OutOfFuel
  | S fuel' =>
    match current_char lx with
    | None => Ok lx
    | Some _ =>
      let* lx := skip_whitespace lx in
      match current_char lx with
      | None => Ok lx
      | Some char =>
        if Ascii.eqb char "#" then
          let* lx := skip_comment lx in tokenize_loop fuel' lx
        else if Ascii.eqb char "010" then
          let token := MkToken NEWLINE (VStr (String "010" ""))
                               (cur_line lx) (cur_column lx) in
          tokenize_loop fuel' (advance (append_token token lx))
        else if isdigit char then
          let* (token, lx) := read_number int_max_str_digits lx in
          tokenize_loop fuel' (append_token token lx)
        else if Ascii.eqb char "034" || Ascii.eqb char "'" then
          let* (token, lx) := read_string char lx in
          tokenize_loop fuel' (append_token token lx)
        else if isalpha char || Ascii.eqb char "_" then
          let* (token, lx) := read_identifier lx in
          tokenize_loop fuel' (append_token token lx)
        else
          let line := cur_line lx in
          let col := cur_column lx in
          match two_char_operator char (peek lx) with
          | Some (ty, text) =>
            tokenize_loop fuel'
              (advance (advance
                 (append_token (MkToken ty (VStr text) line col) lx)))
          | None =>
            match one_char_operator char with
            | Some (ty, text) =>
              tokenize_loop fuel'
                (advance (append_token (MkToken ty (VStr text) line col) lx))
            | None => Raise (SyntaxError (String char ""))
            end
          end
      end
    end
  end.

Definition tokenize (lx : Lexer) : Result (list Token) :=
  let* lx := tokenize_loop (S (remaining lx)) lx in
  Ok (tokens lx ++ [MkToken EOF VNone (cur_line lx) (cur_column lx)])%list.

End Tokenize.

(** [Lexer(source).tokenize()] *)
Definition lex (int_max_str_digits : option nat) (src : string)
    : Result (list Token) :=
  tokenize int_max_str_digits (init src).

End Lexer.

(** ** [src/frontend/ast.py]

    Every node class derives from [ASTNode], and the checker and the
    lowerer dispatch on the class with [isinstance]; the model is one
    inductive type with a constructor per dataclass. *)

Module Ast.

(** The value of a [NumberLiteral]: a Python [int] or a [float] (carried
    as the literal text). *)
Inductive Number : Type :=
| NInt (z : Z)
| NFloat (literal : string).

(** A method signature of a trait: a [FunctionDeclaration] whose body is
    [None]. *)
Record Signature : Type := MkSignature {
  sig_name : string;
  sig_parameters : list (string * string);
  sig_return_type : string
}.

#[warnings="-register-all"]
Inductive ASTNode : Type :=
| NumberLiteral (value : Number)
| StringLiteral (value : string)
| BooleanLiteral (value : bool)
| NullLiteral
| Identifier (name : string)
| BinaryOp (left : ASTNode) (operator : string) (right : ASTNode)
| UnaryOp (operator : string) (operand : ASTNode)
| CallExpr (callee : ASTNode) (arguments : list ASTNode)
| ArrayLiteral (elements : list ASTNode)
| IndexExpr (array index : ASTNode)
| MemberAccess (object : ASTNode) (member : string)
| LambdaExpr (parameters : list (string * string)) (body : ASTNode)
             (return_type : option string)
| PipelineExpr (value : ASTNode) (functions : list ASTNode)
| MatchExpr (value : ASTNode) (cases : list (ASTNode * ASTNode))
| VarDeclaration (name : string) (var_type : option string)
                 (initializer : option ASTNode) (is_const : bool)
| FunctionDeclaration (name : string) (parameters : list (string * string))
                      (return_type : string) (body : list ASTNode)
                      (is_async : bool)
| ClassDeclaration (name : string) (methods : list ASTNode)
                   (fields : list ASTNode) (traits : option (list string))
| TraitDeclaration (name : string) (methods : list Signature)
| Block (statements : list ASTNode)
| ExpressionStatement (expression : ASTNode)
| ReturnStatement (value : option ASTNode)
| IfStatement (condition then_branch : ASTNode)
              (else_branch : option ASTNode)
| WhileStatement (condition body : ASTNode)
| ForStatement (variable : string) (iterable body : ASTNode)
| BreakStatement
| ContinueStatement
| AssignmentStatement (target value : ASTNode) (operator : string)
| ParallelBlock (tasks : list ASTNode)
| AsyncAwait (expression : ASTNode)
| ImportStatement (module : string) (items : option (list string))
                  (alias : option string)
| ObjectLiteral (class_name : string) (fields : list (string * ASTNode)).

(** [Program(statements)], the root. *)
Definition Program : Type := list ASTNode.

End Ast.

(** ** [src/frontend/parser.py]

    The parser object is its token list, which it never changes, and the
    position [self.pos]; a method takes the position and returns its
    result with the new position.  The methods call each other
    recursively and loop; they are modelled by recursion on a fuel that
    bounds the depth of the calls and the number of iterations. *)

Module Parser.
Import Lexer Ast.

#[export] Instance TokenType_eq_dec : EqDecision TokenType.
Proof. solve_decision. Defined.

(** [token.type in token_types] *)
Definition is_one_of (ty : TokenType) (token_types : list TokenType) : bool :=
  existsb (fun x => bool_decide (ty = x)) token_types.

(** [token.value] where the parser stores it in a node.  The lexer gives
    identifiers, strings and operators a string, numbers an [int] or a
    [float] and booleans a [bool]; Python would store any other payload
    as it is, for which the typed nodes of the model have no place: the
    model takes a default there. *)
Definition str_value (t : Token) : string :=
  match value t with VStr s => s | _ => "" end.
Definition number_value (t : Token) : Number :=
  match value t with
  | VInt z => NInt z
  | VFloat literal => NFloat literal
  | _ => NInt 0
  end.
Definition bool_value (t : Token) : bool :=
  match value t with VBool b => b | _ => false end.

Section Parse.
Variable tokens : list Token.

(** [current]: past the end it is the last token; on an empty list
    [self.tokens[-1]] raises. *)
Definition current (pos : nat) : Result Token :=
  match tokens !! pos with
  | Some t => Ok t
  | None =>
    match last tokens with
    | Some t => Ok t
    | None => Raise IndexError
    end
  end.

Definition peek (pos : nat) : Result Token := current (pos + 1).

Definition advance (pos : nat) : Result (Token * nat) :=
  let* token := current pos in
  Ok (token, if bool_decide (type token = EOF) then pos else S pos).

Definition expect (token_type : TokenType) (pos : nat)
    : Result (Token * nat) :=
  let* token := current pos in
  if bool_decide (type token = token_type) then advance pos
  else Raise (SyntaxError "expect").

Definition match_ (token_types : list TokenType) (pos : nat) : Result bool :=
  let* token := current pos in
  Ok (is_one_of (type token) token_types).

Fixpoint skip_newlines (fuel : nat) (pos : nat) : Result nat :=
  match fuel with
  | O => OutOfFuel
  | S fuel =>
    let* m := match_ [NEWLINE] pos in
    if m then let* (_, pos) := advance pos in skip_newlines fuel pos
    else Ok pos
  end.

Definition parse_type (pos : nat) : Result (string * nat) :=
  let* token := current pos in
  let ty := type token in
  if is_one_of ty [INT] then let* (_, pos) := advance pos in Ok ("int", pos)
  else if is_one_of ty [FLOAT] then
    let* (_, pos) := advance pos in Ok ("float", pos)
  else if is_one_of ty [STR] then
    let* (_, pos) := advance pos in Ok ("str", pos)
  else if is_one_of ty [BOOL] then
    let* (_, pos) := advance pos in Ok ("bool", pos)
  else if is_one_of ty [VOID] then
    let* (_, pos) := advance pos in Ok ("void", pos)
  else if is_one_of ty [AUTO] then
    let* (_, pos) := advance pos in Ok ("auto", pos)
  else if is_one_of ty [IDENTIFIER] then
    let* (t, pos) := advance pos in Ok (str_value t, pos)
  else Raise (SyntaxError "parse_type").

(** The [while True] loop of [parse_parameter_list]. *)
Fixpoint parameter_loop (fuel : nat) (pos : nat)
    (parameters : list (string * string))
    : Result (list (string * string) * nat) :=
  match fuel with
  | O => OutOfFuel
  | S fuel =>
    let* (name, pos) := expect IDENTIFIER pos in
    let* (_, pos) := expect COLON pos in
    let* (param_type, pos) := parse_type pos in
    let parameters := (parameters ++ [(str_value name, param_type)])%list in
    let* more := match_ [COMMA] pos in
    if negb more then Ok (parameters, pos)
    else let* (_, pos) := advance pos in parameter_loop fuel pos parameters
  end.

Definition parse_parameter_list (fuel : nat) (pos : nat)
    : Result (list (string * string) * nat) :=
  let* m := match_ [RPAREN] pos in
  if negb m then parameter_loop fuel pos [] else Ok ([], pos).

(** The return type after the parameters: [void] unless an arrow
    follows. *)
Definition parse_return_type (pos : nat) : Result (string * nat) :=
  let* m := match_ [ARROW] pos in
  if m then let* (_, pos) := advance pos in parse_type pos
  else Ok ("void", pos).

Definition parse_function_signature (fuel : nat) (pos : nat)
    : Result (Signature * nat) :=
  let* (_, pos) := expect FUNC pos in
  let* (name, pos) := expect IDENTIFIER pos in
  let* (_, pos) := expect LPAREN pos in
  let* (parameters, pos) := parse_parameter_list fuel pos in
  let* (_, pos) := expect RPAREN pos in
  let* (return_type, pos) := parse_return_type pos in
  Ok (MkSignature (str_value name) parameters return_type, pos).

(** A [while True] loop over identifiers separated by commas (the traits
    of a class, the items of an import). *)
Fixpoint identifier_loop (fuel : nat) (pos : nat) (names : list string)
    : Result (list string * nat) :=
  match fuel with
  | O => OutOfFuel
  | S fuel =>
    let* (name, pos) := expect IDENTIFIER pos in
    let names := (names ++ [str_value name])%list in
    let* more := match_ [COMMA] pos in
    if negb more then Ok (names, pos)
    else let* (_, pos) := advance pos in identifier_loop fuel pos names
  end.

Definition parse_import_statement (fuel : nat) (pos : nat)
    : Result (ASTNode * nat) :=
  let* m := match_ [FROM] pos in
  if m then
    let* (_, pos) := advance pos in
    let* (module, pos) := expect IDENTIFIER pos in
    let* (_, pos) := expect IMPORT pos in
    let* (items, pos) := identifier_loop fuel pos [] in
    Ok (ImportStatement (str_value module) (Some items) None, pos)
  else
    let* (_, pos) := expect IMPORT pos in
    let* (module, pos) := expect IDENTIFIER pos in
    let* m := match_ [AS] pos in
    if m then
      let* (_, pos) := advance pos in
      let* (alias, pos) := expect IDENTIFIER pos in
      Ok (ImportStatement (str_value module) None (Some (str_value alias)),
          pos)
    else Ok (ImportStatement (str_value module) None None, pos).

Fixpoint trait_body_loop (fuel : nat) (pos : nat) (methods : list Signature)
    : Result (list Signature * nat) :=
  match fuel with
  | O => OutOfFuel
  | S fuel =>
    let* m := match_ [RBRACE] pos in
    if m then Ok (methods, pos)
    else
      let* (method, pos) := parse_function_signature fuel pos in
      let* pos := skip_newlines fuel pos in
      trait_body_loop fuel pos (methods ++ [method])%list
  end.

Definition parse_trait_declaration (fuel : nat) (pos : nat)
    : Result (ASTNode * nat) :=
  let* (_, pos) := expect TRAIT pos in
  let* (name, pos) := expect IDENTIFIER pos in
  let* pos := skip_newlines fuel pos in
  let* (_, pos) := expect LBRACE pos in
  let* pos := skip_newlines fuel pos in
  let* (methods, pos) := trait_body_loop fuel pos [] in
  let* (_, pos) := expect RBRACE pos in
  Ok (TraitDeclaration (str_value name) methods, pos).

(** The parameters of a lambda: the type is [auto] unless a colon
    follows the name. *)
Fixpoint lambda_parameter_loop (fuel : nat) (pos : nat)
    (parameters : list (string * string))
    : Result (list (string * string) * nat) :=
  match fuel with
  | O => OutOfFuel
  | S fuel =>
    let* (name, pos) := expect IDENTIFIER pos in
    let* typed := match_ [COLON] pos in
    let* (param_type, pos) :=
      if typed then let* (_, pos) := advance pos in parse_type pos
      else Ok ("auto", pos) in
    let parameters := (parameters ++ [(str_value name, param_type)])%list in
    let* more := match_ [COMMA] pos in
    if negb more then Ok (parameters, pos)
    else
      let* (_, pos) := advance pos in
      lambda_parameter_loop fuel pos parameters
  end.

(** The methods that call each other. *)
Fixpoint parse_statement (fuel : nat) (pos : nat) {struct fuel}
    : Result (ASTNode * nat) :=
  match fuel with
  | O => OutOfFuel
  | S fuel =>
    let* pos := skip_newlines fuel pos in
    let* token := current pos in
    let ty := type token in
    if is_one_of ty [FUNC] then parse_function_declaration fuel pos
    else if is_one_of ty [CLASS] then parse_class_declaration fuel pos
    else if is_one_of ty [TRAIT] then parse_trait_declaration fuel pos
    else if is_one_of ty [RETURN] then parse_return_statement fuel pos
    else if is_one_of ty [IF] then parse_if_statement fuel pos
    else if is_one_of ty [WHILE] then parse_while_statement fuel pos
    else if is_one_of ty [FOR] then parse_for_statement fuel pos
    else if is_one_of ty [BREAK] then
      let* (_, pos) := advance pos in Ok (BreakStatement, pos)
    else if is_one_of ty [CONTINUE] then
      let* (_, pos) := advance pos in Ok (ContinueStatement, pos)
    else if is_one_of ty [PARALLEL] then parse_parallel_block fuel pos
    else if is_one_of ty [IMPORT; FROM] then parse_import_statement fuel pos
    else if is_one_of ty [LBRACE] then
      let* (statements, pos) := parse_block fuel pos in
      Ok (Block statements, pos)
    else if is_one_of ty [INT; FLOAT; STR; BOOL; AUTO] then
      parse_var_declaration fuel pos
    else
      let* (expr, pos) := parse_expression fuel pos in
      let* m := match_ [ASSIGN; PLUS_ASSIGN; MINUS_ASSIGN] pos in
      if m then
        let* (op, pos) := advance pos in
        let* (value, pos) := parse_expression fuel pos in
        Ok (AssignmentStatement expr value (str_value op), pos)
      else Ok (ExpressionStatement expr, pos)
  end

with parse_function_declaration (fuel : nat) (pos : nat) {struct fuel}
    : Result (ASTNode * nat) :=
  match fuel with
  | O => OutOfFuel
  | S fuel =>
    let* (_, pos) := expect FUNC pos in
    let* m := match_ [ASYNC] pos in
    let* (is_async, pos) :=
      if m then let* (_, pos) := advance pos in Ok (true, pos)
      else Ok (false, pos) in
    let* (name, pos) := expect IDENTIFIER pos in
    let* (_, pos) := expect LPAREN pos in
    let* (parameters, pos) := parse_parameter_list fuel pos in
    let* (_, pos) := expect RPAREN pos in
    let* (return_type, pos) := parse_return_type pos in
    let* (body, pos) := parse_block fuel pos in
    Ok (FunctionDeclaration (str_value name) parameters return_type body
                            is_async, pos)
  end

with parse_var_declaration (fuel : nat) (pos : nat) {struct fuel}
    : Result (ASTNode * nat) :=
  match fuel with
  | O => OutOfFuel
  | S fuel =>
    let* (var_type, pos) := parse_type pos in
    let* (name, pos) := expect IDENTIFIER pos in
    let* m := match_ [ASSIGN] pos in
    if m then
      let* (_, pos) := advance pos in
      let* (initializer, pos) := parse_expression fuel pos in
      Ok (VarDeclaration (str_value name) (Some var_type) (Some initializer)
                         false, pos)
    else Ok (VarDeclaration (str_value name) (Some var_type) None false, pos)
  end

with parse_class_declaration (fuel : nat) (pos : nat) {struct fuel}
    : Result (ASTNode * nat) :=
  match fuel with
  | O => OutOfFuel
  | S fuel =>
    let* (_, pos) := expect CLASS pos in
    let* (name, pos) := expect IDENTIFIER pos in
    let* m := match_ [COLON] pos in
    let* (traits, pos) :=
      if m then let* (_, pos) := advance pos in identifier_loop fuel pos []
      else Ok ([], pos) in
    let* pos := skip_newlines fuel pos in
    let* (_, pos) := expect LBRACE pos in
    let* pos := skip_newlines fuel pos in
    let* (methods, fields, pos) := class_body_loop fuel pos [] [] in
    let* (_, pos) := expect RBRACE pos in
    Ok (ClassDeclaration (str_value name) methods fields (Some traits), pos)
  end

with class_body_loop (fuel : nat) (pos : nat) (methods fields : list ASTNode)
    {struct fuel} : Result (list ASTNode * list ASTNode * nat) :=
  match fuel with
  | O => OutOfFuel
  | S fuel =>
    let* m := match_ [RBRACE] pos in
    if m then Ok (methods, fields, pos)
    else
      let* is_method := match_ [FUNC] pos in
      if is_method then
        let* (method, pos) := parse_function_declaration fuel pos in
        let* pos := skip_newlines fuel pos in
        class_body_loop fuel pos (methods ++ [method])%list fields
      else
        let* (field, pos) := parse_var_declaration fuel pos in
        let* pos := skip_newlines fuel pos in
        class_body_loop fuel pos methods (fields ++ [field])%list
  end

with parse_block (fuel : nat) (pos : nat) {struct fuel}
    : Result (list ASTNode * nat) :=
  match fuel with
  | O => OutOfFuel
  | S fuel =>
    let* (_, pos) := expect LBRACE pos in
    let* pos := skip_newlines fuel pos in
    let* (statements, pos) := block_loop fuel pos [] in
    let* (_, pos) := expect RBRACE pos in
    Ok (statements, pos)
  end

with block_loop (fuel : nat) (pos : nat) (statements : list ASTNode)
    {struct fuel} : Result (list ASTNode * nat) :=
  match fuel with
  | O => OutOfFuel
  | S fuel =>
    let* m := match_ [RBRACE] pos in
    if m then Ok (statements, pos)
    else
      let* (stmt, pos) := parse_statement fuel pos in
      let* pos := skip_newlines fuel pos in
      block_loop fuel pos (statements ++ [stmt])%list
  end

with parse_return_statement (fuel : nat) (pos : nat) {struct fuel}
    : Result (ASTNode * nat) :=
  match fuel with
  | O => OutOfFuel
  | S fuel =>
    let* (_, pos) := expect RETURN pos in
    let* m := match_ [NEWLINE; RBRACE; EOF] pos in
    if negb m then
      let* (value, pos) := parse_expression fuel pos in
      Ok (ReturnStatement (Some value), pos)
    else Ok (ReturnStatement None, pos)
  end

with parse_if_statement (fuel : nat) (pos : nat) {struct fuel}
    : Result (ASTNode * nat) :=
  match fuel with
  | O => OutOfFuel
  | S fuel =>
    let* (_, pos) := expect IF pos in
    let* (condition, pos) := parse_expression fuel pos in
    let* (then_branch, pos) := parse_block fuel pos in
    let* m := match_ [ELSE] pos in
    if m then
      let* (_, pos) := advance pos in
      let* nested := match_ [IF] pos in
      if nested then
        let* (else_branch, pos) := parse_if_statement fuel pos in
        Ok (IfStatement condition (Block then_branch) (Some else_branch),
            pos)
      else
        let* (else_branch, pos) := parse_block fuel pos in
        Ok (IfStatement condition (Block then_branch)
                        (Some (Block else_branch)), pos)
    else Ok (IfStatement condition (Block then_branch) None, pos)
  end

with parse_while_statement (fuel : nat) (pos : nat) {struct fuel}
    : Result (ASTNode * nat) :=
  match fuel with
  | O => OutOfFuel
  | S fuel =>
    let* (_, pos) := expect WHILE pos in
    let* (condition, pos) := parse_expression fuel pos in
    let* (body, pos) := parse_block fuel pos in
    Ok (WhileStatement condition (Block body), pos)
  end

with parse_for_statement (fuel : nat) (pos : nat) {struct fuel}
    : Result (ASTNode * nat) :=
  match fuel with
  | O => OutOfFuel
  | S fuel =>
    let* (_, pos) := expect FOR pos in
    let* (variable, pos) := expect IDENTIFIER pos in
    let* (_, pos) := expect IN pos in
    let* (iterable, pos) := parse_expression fuel pos in
    let* (body, pos) := parse_block fuel pos in
    Ok (ForStatement (str_value variable) iterable (Block body), pos)
  end

with parse_parallel_block (fuel : nat) (pos : nat) {struct fuel}
    : Result (ASTNode * nat) :=
  match fuel with
  | O => OutOfFuel
  | S fuel =>
    let* (_, pos) := expect PARALLEL pos in
    let* (_, pos) := expect LBRACE pos in
    let* pos := skip_newlines fuel pos in
    let* (tasks, pos) := parallel_loop fuel pos [] in
    let* (_, pos) := expect RBRACE pos in
    Ok (ParallelBlock tasks, pos)
  end

with parallel_loop (fuel : nat) (pos : nat) (tasks : list ASTNode)
    {struct fuel} : Result (list ASTNode * nat) :=
  match fuel with
  | O => OutOfFuel
  | S fuel =>
    let* m := match_ [RBRACE] pos in
    if m then Ok (tasks, pos)
    else
      let* (task, pos) := parse_expression fuel pos in
      let* pos := skip_newlines fuel pos in
      parallel_loop fuel pos (tasks ++ [task])%list
  end

with parse_expression (fuel : nat) (pos : nat) {struct fuel}
    : Result (ASTNode * nat) :=
  match fuel with
  | O => OutOfFuel
  | S fuel => parse_pipeline fuel pos
  end

with parse_pipeline (fuel : nat) (pos : nat) {struct fuel}
    : Result (ASTNode * nat) :=
  match fuel with
  | O => OutOfFuel
  | S fuel =>
    let* (expr, pos) := parse_logical_or fuel pos in
    let* m := match_ [PIPELINE] pos in
    if m then
      let* (functions, pos) := pipeline_loop fuel pos [] in
      Ok (PipelineExpr expr functions, pos)
    else Ok (expr, pos)
  end

with pipeline_loop (fuel : nat) (pos : nat) (functions : list ASTNode)
    {struct fuel} : Result (list ASTNode * nat) :=
  match fuel with
  | O => OutOfFuel
  | S fuel =>
    let* m := match_ [PIPELINE] pos in
    if m then
      let* (_, pos) := advance pos in
      let* (function, pos) := parse_logical_or fuel pos in
      pipeline_loop fuel pos (functions ++ [function])%list
    else Ok (functions, pos)
  end

with parse_logical_or (fuel : nat) (pos : nat) {struct fuel}
    : Result (ASTNode * nat) :=
  match fuel with
  | O => OutOfFuel
  | S fuel =>
    let* (lhs, pos) := parse_logical_and fuel pos in
    logical_or_loop fuel pos lhs
  end

with logical_or_loop (fuel : nat) (pos : nat) (lhs : ASTNode) {struct fuel}
    : Result (ASTNode * nat) :=
  match fuel with
  | O => OutOfFuel
  | S fuel =>
    let* m := match_ [OR] pos in
    if m then
      let* (op, pos) := advance pos in
      let* (rhs, pos) := parse_logical_and fuel pos in
      logical_or_loop fuel pos (BinaryOp lhs (str_value op) rhs)
    else Ok (lhs, pos)
  end

with parse_logical_and (fuel : nat) (pos : nat) {struct fuel}
    : Result (ASTNode * nat) :=
  match fuel with
  | O => OutOfFuel
  | S fuel =>
    let* (lhs, pos) := parse_equality fuel pos in
    logical_and_loop fuel pos lhs
  end

with logical_and_loop (fuel : nat) (pos : nat) (lhs : ASTNode) {struct fuel}
    : Result (ASTNode * nat) :=
  match fuel with
  | O => OutOfFuel
  | S fuel =>
    let* m := match_ [AND] pos in
    if m then
      let* (op, pos) := advance pos in
      let* (rhs, pos) := parse_equality fuel pos in
      logical_and_loop fuel pos (BinaryOp lhs (str_value op) rhs)
    else Ok (lhs, pos)
  end

with parse_equality (fuel : nat) (pos : nat) {struct fuel}
    : Result (ASTNode * nat) :=
  match fuel with
  | O => OutOfFuel
  | S fuel =>
    let* (lhs, pos) := parse_comparison fuel pos in
    equality_loop fuel pos lhs
  end

with equality_loop (fuel : nat) (pos : nat) (lhs : ASTNode) {struct fuel}
    : Result (ASTNode * nat) :=
  match fuel with
  | O => OutOfFuel
  | S fuel =>
    let* m := match_ [EQ; NEQ] pos in
    if m then
      let* (op, pos) := advance pos in
      let* (rhs, pos) := parse_comparison fuel pos in
      equality_loop fuel pos (BinaryOp lhs (str_value op) rhs)
    else Ok (lhs, pos)
  end

with parse_comparison (fuel : nat) (pos : nat) {struct fuel}
    : Result (ASTNode * nat) :=
  match fuel with
  | O => OutOfFuel
  | S fuel =>
    let* (lhs, pos) := parse_addition fuel pos in
    comparison_loop fuel pos lhs
  end

with comparison_loop (fuel : nat) (pos : nat) (lhs : ASTNode) {struct fuel}
    : Result (ASTNode * nat) :=
  match fuel with
  | O => OutOfFuel
  | S fuel =>
    let* m := match_ [LT; GT; LTE; GTE] pos in
    if m then
      let* (op, pos) := advance pos in
      let* (rhs, pos) := parse_addition fuel pos in
      comparison_loop fuel pos (BinaryOp lhs (str_value op) rhs)
    else Ok (lhs, pos)
  end

with parse_addition (fuel : nat) (pos : nat) {struct fuel}
    : Result (ASTNode * nat) :=
  match fuel with
  | O => OutOfFuel
  | S fuel =>
    let* (lhs, pos) := parse_multiplication fuel pos in
    addition_loop fuel pos lhs
  end

with addition_loop (fuel : nat) (pos : nat) (lhs : ASTNode) {struct fuel}
    : Result (ASTNode * nat) :=
  match fuel with
  | O => OutOfFuel
  | S fuel =>
    let* m := match_ [PLUS; MINUS] pos in
    if m then
      let* (op, pos) := advance pos in
      let* (rhs, pos) := parse_multiplication fuel pos in
      addition_loop fuel pos (BinaryOp lhs (str_value op) rhs)
    else Ok (lhs, pos)
  end

with parse_multiplication (fuel : nat) (pos : nat) {struct fuel}
    : Result (ASTNode * nat) :=
  match fuel with
  | O => OutOfFuel
  | S fuel =>
    let* (lhs, pos) := parse_power fuel pos in
    multiplication_loop fuel pos lhs
  end

with multiplication_loop (fuel : nat) (pos : nat) (lhs : ASTNode)
    {struct fuel} : Result (ASTNode * nat) :=
  match fuel with
  | O => OutOfFuel
  | S fuel =>
    let* m := match_ [MULTIPLY; DIVIDE; MODULO] pos in
    if m then
      let* (op, pos) := advance pos in
      let* (rhs, pos) := parse_power fuel pos in
      multiplication_loop fuel pos (BinaryOp lhs (str_value op) rhs)
    else Ok (lhs, pos)
  end

with parse_power (fuel : nat) (pos : nat) {struct fuel}
    : Result (ASTNode * nat) :=
  match fuel with
  | O => OutOfFuel
  | S fuel =>
    let* (lhs, pos) := parse_unary fuel pos in
    let* m := match_ [POWER] pos in
    if m then
      let* (op, pos) := advance pos in
      let* (rhs, pos) := parse_power fuel pos in
      Ok (BinaryOp lhs (str_value op) rhs, pos)
    else Ok (lhs, pos)
  end

with parse_unary (fuel : nat) (pos : nat) {struct fuel}
    : Result (ASTNode * nat) :=
  match fuel with
  | O => OutOfFuel
  | S fuel =>
    let* m := match_ [NOT; MINUS] pos in
    if m then
      let* (op, pos) := advance pos in
      let* (operand, pos) := parse_unary fuel pos in
      Ok (UnaryOp (str_value op) operand, pos)
    else
      let* m := match_ [AWAIT] pos in
      if m then
        let* (_, pos) := advance pos in
        let* (expr, pos) := parse_unary fuel pos in
        Ok (AsyncAwait expr, pos)
      else parse_postfix fuel pos
  end

with parse_postfix (fuel : nat) (pos : nat) {struct fuel}
    : Result (ASTNode * nat) :=
  match fuel with
  | O => OutOfFuel
  | S fuel =>
    let* (expr, pos) := parse_primary fuel pos in
    postfix_loop fuel pos expr
  end

with postfix_loop (fuel : nat) (pos : nat) (expr : ASTNode) {struct fuel}
    : Result (ASTNode * nat) :=
  match fuel with
  | O => OutOfFuel
  | S fuel =>
    let* token := current pos in
    let ty := type token in
    if is_one_of ty [LPAREN] then
      let* (_, pos) := advance pos in
      let* (args, pos) := parse_argument_list fuel pos in
      let* (_, pos) := expect RPAREN pos in
      postfix_loop fuel pos (CallExpr expr args)
    else if is_one_of ty [LBRACKET] then
      let* (_, pos) := advance pos in
      let* (index, pos) := parse_expression fuel pos in
      let* (_, pos) := expect RBRACKET pos in
      postfix_loop fuel pos (IndexExpr expr index)
    else if is_one_of ty [DOT] then
      let* (_, pos) := advance pos in
      let* (member, pos) := expect IDENTIFIER pos in
      postfix_loop fuel pos (MemberAccess expr (str_value member))
    else Ok (expr, pos)
  end

with parse_argument_list (fuel : nat) (pos : nat) {struct fuel}
    : Result (list ASTNode * nat) :=
  match fuel with
  | O => OutOfFuel
  | S fuel =>
    let* m := match_ [RPAREN] pos in
    if negb m then expression_loop fuel pos [] else Ok ([], pos)
  end

with expression_loop (fuel : nat) (pos : nat) (items : list ASTNode)
    {struct fuel} : Result (list ASTNode * nat) :=
  match fuel with
  | O => OutOfFuel
  | S fuel =>
    let* (item, pos) := parse_expression fuel pos in
    let items := (items ++ [item])%list in
    let* more := match_ [COMMA] pos in
    if negb more then Ok (items, pos)
    else let* (_, pos) := advance pos in expression_loop fuel pos items
  end

with parse_primary (fuel : nat) (pos : nat) {struct fuel}
    : Result (ASTNode * nat) :=
  match fuel with
  | O => OutOfFuel
  | S fuel =>
    let* token := current pos in
    let ty := type token in
    if is_one_of ty [NUMBER] then
      let* (t, pos) := advance pos in Ok (NumberLiteral (number_value t), pos)
    else if is_one_of ty [STRING] then
      let* (t, pos) := advance pos in Ok (StringLiteral (str_value t), pos)
    else if is_one_of ty [BOOLEAN] then
      let* (t, pos) := advance pos in Ok (BooleanLiteral (bool_value t), pos)
    else if is_one_of ty [NULL] then
      let* (_, pos) := advance pos in Ok (NullLiteral, pos)
    else if is_one_of ty [IDENTIFIER] then
      let* (t, pos) := advance pos in Ok (Identifier (str_value t), pos)
    else if is_one_of ty [LBRACKET] then
      let* (_, pos) := advance pos in
      let* m := match_ [RBRACKET] pos in
      let* (elements, pos) :=
        if negb m then expression_loop fuel pos [] else Ok ([], pos) in
      let* (_, pos) := expect RBRACKET pos in
      Ok (ArrayLiteral elements, pos)
    else if is_one_of ty [LPAREN] then
      let* (_, pos) := advance pos in
      let* (expr, pos) := parse_expression fuel pos in
      let* (_, pos) := expect RPAREN pos in
      Ok (expr, pos)
    else if is_one_of ty [MATCH] then parse_match_expression fuel pos
    else if is_one_of ty [PIPE] then parse_lambda fuel pos
    else
      let* is_object :=
        if is_one_of ty [IDENTIFIER] then
          let* next := peek pos in Ok (bool_decide (type next = LBRACE))
        else Ok false in
      if is_object then
        let* (class_name, pos) := advance pos in
        let* (_, pos) := expect LBRACE pos in
        let* m := match_ [RBRACE] pos in
        let* (fields, pos) :=
          if negb m then field_loop fuel pos [] else Ok ([], pos) in
        let* (_, pos) := expect RBRACE pos in
        Ok (ObjectLiteral (str_value class_name) fields, pos)
      else Raise (SyntaxError "parse_primary")
  end

with field_loop (fuel : nat) (pos : nat) (fields : list (string * ASTNode))
    {struct fuel} : Result (list (string * ASTNode) * nat) :=
  match fuel with
  | O => OutOfFuel
  | S fuel =>
    let* (field_name, pos) := expect IDENTIFIER pos in
    let* (_, pos) := expect ASSIGN pos in
    let* (field_value, pos) := parse_expression fuel pos in
    let fields := (fields ++ [(str_value field_name, field_value)])%list in
    let* more := match_ [COMMA] pos in
    if negb more then Ok (fields, pos)
    else let* (_, pos) := advance pos in field_loop fuel pos fields
  end

with parse_match_expression (fuel : nat) (pos : nat) {struct fuel}
    : Result (ASTNode * nat) :=
  match fuel with
  | O => OutOfFuel
  | S fuel =>
    let* (_, pos) := expect MATCH pos in
    let* (value, pos) := parse_expression fuel pos in
    let* (_, pos) := expect LBRACE pos in
    let* pos := skip_newlines fuel pos in
    let* (cases, pos) := case_loop fuel pos [] in
    let* (_, pos) := expect RBRACE pos in
    Ok (MatchExpr value cases, pos)
  end

with case_loop (fuel : nat) (pos : nat) (cases : list (ASTNode * ASTNode))
    {struct fuel} : Result (list (ASTNode * ASTNode) * nat) :=
  match fuel with
  | O => OutOfFuel
  | S fuel =>
    let* m := match_ [RBRACE] pos in
    if m then Ok (cases, pos)
    else
      let* (pattern, pos) := parse_expression fuel pos in
      let* (_, pos) := expect FAT_ARROW pos in
      let* (result, pos) := parse_expression fuel pos in
      let* pos := skip_newlines fuel pos in
      case_loop fuel pos (cases ++ [(pattern, result)])%list
  end

with parse_lambda (fuel : nat) (pos : nat) {struct fuel}
    : Result (ASTNode * nat) :=
  match fuel with
  | O => OutOfFuel
  | S fuel =>
    let* (_, pos) := expect PIPE pos in
    let* m := match_ [PIPE] pos in
    let* (parameters, pos) :=
      if negb m then lambda_parameter_loop fuel pos [] else Ok ([], pos) in
    let* (_, pos) := expect PIPE pos in
    let* m := match_ [ARROW] pos in
    let* (return_type, pos) :=
      if m then
        let* (_, pos) := advance pos in
        let* (t, pos) := parse_type pos in Ok (Some t, pos)
      else Ok (None, pos) in
    let* m := match_ [LBRACE] pos in
    if m then
      let* (body, pos) := parse_block fuel pos in
      Ok (LambdaExpr parameters (Block body) return_type, pos)
    else
      let* (body, pos) := parse_expression fuel pos in
      Ok (LambdaExpr parameters body return_type, pos)
  end.

(** The loop of [parse]. *)
Fixpoint program_loop (fuel : nat) (pos : nat) (statements : list ASTNode)
    : Result (list ASTNode) :=
  match fuel with
  | O => OutOfFuel
  | S fuel =>
    let* m := match_ [EOF] pos in
    if m then Ok statements
    else
      let* (stmt, pos) := parse_statement fuel pos in
      let* pos := skip_newlines fuel pos in
      program_loop fuel pos (statements ++ [stmt])%list
  end.

Definition parse (fuel : nat) : Result Program :=
  let* pos := skip_newlines fuel 0%nat in
  program_loop fuel pos [].

End Parse.

End Parser.

(** ** [src/frontend/types.py]: environments and the checker *)

Module Checker.
Import Types Ast.

(** One [TypeEnvironment] without its parent link.  The checker never
    writes [classes] or [traits]; they are left out. *)
Record Scope : Type := MkScope {
  variables : gmap string Type_;
  functions : gmap string Type_
}.

Definition empty_scope : Scope := MkScope ∅ ∅.

(** A [TypeEnvironment] with its chain of parents, innermost first. *)
Definition TypeEnvironment : Type := list Scope.

Definition define_variable (name : string) (var_type : Type_)
    (env : TypeEnvironment) : TypeEnvironment :=
  match env with
  | [] => []
  | sc :: parents =>
    MkScope (<[name := var_type]> (variables sc)) (functions sc) :: parents
  end.

Fixpoint get_variable (name : string) (env : TypeEnvironment)
    : option Type_ :=
  match env with
  | [] => None
  | sc :: parents =>
    match variables sc !! name with
    | Some t => Some t
    | None => get_variable name parents
    end
  end.

Definition define_function (name : string) (func_type : Type_)
    (env : TypeEnvironment) : TypeEnvironment :=
  match env with
  | [] => []
  | sc :: parents =>
    MkScope (variables sc) (<[name := func_type]> (functions sc)) :: parents
  end.

Fixpoint get_function (name : string) (env : TypeEnvironment)
    : option Type_ :=
  match env with
  | [] => None
  | sc :: parents =>
    match functions sc !! name with
    | Some t => Some t
    | None => get_function name parents
    end
  end.

(** The messages appended to [self.errors]; the text is abstracted to the
    kind of message and the values formatted into it. *)
Inductive Error : Type :=
| UndefinedVariable (name : string)
| CannotAssign (source target : Type_)
| IfConditionNotBool (cond_type : Type_)
| WhileConditionNotBool (cond_type : Type_).

(** The checker object: [self.env] and [self.errors]. *)
Record TypeChecker : Type := MkTypeChecker {
  env : TypeEnvironment;
  errors : list Error
}.

Definition error (message : Error) (tc : TypeChecker) : TypeChecker :=
  MkTypeChecker (env tc) (errors tc ++ [message]).

Definition with_env (e : TypeEnvironment) (tc : TypeChecker) : TypeChecker :=
  MkTypeChecker e (errors tc).

Definition function_type (n : string) (params : list Type_) (ret : Type_)
    : Type_ :=
  MkType FUNCTION n None (Some params) (Some ret) None.

Definition array_type (elem : Type_) : Type_ :=
  MkType ARRAY "array" (Some elem) None None None.

(** [_setup_builtins]: the second definition of [range] replaces the
    first. *)
Definition setup_builtins (e : TypeEnvironment) : TypeEnvironment :=
  let e := define_function "print"
             (function_type "print" [AUTO_TYPE] VOID_TYPE) e in
  let e := define_function "len"
             (function_type "len" [array_type AUTO_TYPE] INT_TYPE) e in
  let e := define_function "range"
             (function_type "range" [INT_TYPE] (array_type INT_TYPE)) e in
  let e := define_function "str"
             (function_type "str" [AUTO_TYPE] STRING_TYPE) e in
  define_function "range"
    (function_type "range" [INT_TYPE; INT_TYPE] (array_type INT_TYPE)) e.

(** [TypeChecker()] *)
Definition new : TypeChecker :=
  MkTypeChecker (setup_builtins [empty_scope]) [].

Definition in_list (s : string) (l : list string) : bool :=
  existsb (String.eqb s) l.

(** [TypeChecker.infer_type].  A function type found for a call has its
    [return_type] set; [None] there would be returned as such, which the
    model renders as the fall-through [AUTO_TYPE]. *)
Fixpoint infer_type (node : ASTNode) (tc : TypeChecker)
    : Type_ * TypeChecker :=
  match node with
  | NumberLiteral (NInt _) => (INT_TYPE, tc)
  | NumberLiteral (NFloat _) => (FLOAT_TYPE, tc)
  | StringLiteral _ => (STRING_TYPE, tc)
  | BooleanLiteral _ => (BOOL_TYPE, tc)
  | NullLiteral => (NULL_TYPE, tc)
  | Identifier name =>
    match get_variable name (env tc) with
    | None => (AUTO_TYPE, error (UndefinedVariable name) tc)
    | Some var_type => (var_type, tc)
    end
  | BinaryOp lhs operator rhs =>
    let (left_type, tc) := infer_type lhs tc in
    let (right_type, tc) := infer_type rhs tc in
    if in_list operator ["+"; "-"; "*"; "/"; "%"; "**"] then
      if TypeKind_eqb (kind left_type) FLOAT
         || TypeKind_eqb (kind right_type) FLOAT
      then (FLOAT_TYPE, tc) else (INT_TYPE, tc)
    else if in_list operator ["=="; "!="; "<"; ">"; "<="; ">="] then
      (BOOL_TYPE, tc)
    else if in_list operator ["and"; "or"] then (BOOL_TYPE, tc)
    else (AUTO_TYPE, tc)
  | UnaryOp operator operand =>
    let (operand_type, tc) := infer_type operand tc in
    if String.eqb operator "not" then (BOOL_TYPE, tc)
    else if String.eqb operator "-" then (operand_type, tc)
    else (AUTO_TYPE, tc)
  | CallExpr (Identifier name) _ =>
    match get_function name (env tc) with
    | Some func_type =>
      match Types.return_type func_type with
      | Some t => (t, tc)
      | None => (AUTO_TYPE, tc)
      end
    | None => (AUTO_TYPE, tc)
    end
  | ArrayLiteral [] => (array_type AUTO_TYPE, tc)
  | ArrayLiteral (first :: _) =>
    let (element_type, tc) := infer_type first tc in
    (array_type element_type, tc)
  | LambdaExpr parameters _ return_type =>
    let param_types := map (fun p => parse_type_string (snd p)) parameters in
    let ret :=
      match return_type with
      | None => VOID_TYPE
      | Some r => parse_type_string r
      end in
    (MkType FUNCTION "lambda" None (Some param_types) (Some ret) None, tc)
  | _ => (AUTO_TYPE, tc)
  end.

(** Truth value of a string used as a condition: empty is false. *)
Definition truthy (s : string) : bool := negb (String.eqb s "").

(** [TypeChecker.check_statement], with [check_function] and
    [check_block] inlined where they recurse. *)
Fixpoint check_statement (stmt : ASTNode) (tc : TypeChecker) : TypeChecker :=
  match stmt with
  | VarDeclaration name var_type initializer _ =>
    match initializer with
    | Some init =>
      let (init_type, tc) := infer_type init tc in
      match var_type with
      | Some vt =>
        if truthy vt && negb (String.eqb vt "auto") then
          let declared_type := parse_type_string vt in
          let tc :=
            if negb (can_assign declared_type init_type)
            then error (CannotAssign init_type declared_type) tc else tc in
          with_env (define_variable name declared_type (env tc)) tc
        else with_env (define_variable name init_type (env tc)) tc
      | None => with_env (define_variable name init_type (env tc)) tc
      end
    | None =>
      match var_type with
      | Some vt =>
        if truthy vt
        then with_env (define_variable name (parse_type_string vt) (env tc)) tc
        else tc
      | None => tc
      end
    end
  | FunctionDeclaration name parameters return_type body _ =>
    (* check_function *)
    let old_env := env tc in
    let func_env := empty_scope :: old_env in
    let func_env :=
      fold_left
        (fun e p => define_variable (fst p) (parse_type_string (snd p)) e)
        parameters func_env in
    let param_types := map (fun p => parse_type_string (snd p)) parameters in
    let func_type :=
      function_type name param_types (parse_type_string return_type) in
    (* old_env is the parent of func_env: the definition is seen through
       the chain *)
    let func_env :=
      match func_env with
      | [] => []
      | sc :: parents => sc :: define_function name func_type parents
      end in
    let tc := with_env func_env tc in
    (* check_block *)
    let tc :=
      (fix check_block (stmts : list ASTNode) (tc : TypeChecker)
         : TypeChecker :=
         match stmts with
         | [] => tc
         | s :: rest => check_block rest (check_statement s tc)
         end) body tc in
    with_env (tl (env tc)) tc
  | AssignmentStatement target value _ =>
    let (target_type, tc) := infer_type target tc in
    let (value_type, tc) := infer_type value tc in
    if negb (can_assign target_type value_type)
    then error (CannotAssign value_type target_type) tc else tc
  | ExpressionStatement expression => snd (infer_type expression tc)
  | ReturnStatement (Some value) => snd (infer_type value tc)
  | ReturnStatement None => tc
  | IfStatement condition then_branch else_branch =>
    let (cond_type, tc) := infer_type condition tc in
    let tc :=
      if negb (TypeKind_eqb (kind cond_type) BOOL)
      then error (IfConditionNotBool cond_type) tc else tc in
    let tc := check_statement then_branch tc in
    match else_branch with
    | Some e => check_statement e tc
    | None => tc
    end
  | WhileStatement condition body =>
    let (cond_type, tc) := infer_type condition tc in
    let tc :=
      if negb (TypeKind_eqb (kind cond_type) BOOL)
      then error (WhileConditionNotBool cond_type) tc else tc in
    check_statement body tc
  | _ => tc
  end.

Definition check_block (stmts : list ASTNode) (tc : TypeChecker)
    : TypeChecker :=
  fold_left (fun tc s => check_statement s tc) stmts tc.

(** [TypeChecker.check_program]: the verdict and the checker afterwards. *)
Definition check_program (program : Program) (tc : TypeChecker)
    : bool * TypeChecker :=
  let tc := check_block program tc in
  (match errors tc with [] => true | _ => false end, tc).

End Checker.

(** ** The llvmlite IR objects used by the lowerer

    [llvmlite.ir] is an external library; what the lowerer relies on is
    modelled here: types, values, instructions, blocks, functions, and the
    checks the [IRBuilder] methods make before they insert an instruction.
    Python objects have an identity; instructions carry a number that is
    fresh at their creation. *)

Module IR.

Inductive LType : Type :=
| IntType (bits : nat)
| DoubleType
| VoidType
| PointerType (pointee : LType)
| ArrayType (element : LType) (count : nat).

Fixpoint LType_eqb (a b : LType) : bool :=
  match a, b with
  | IntType n, IntType m => (n =? m)%nat
  | DoubleType, DoubleType => true
  | VoidType, VoidType => true
  | PointerType x, PointerType y => LType_eqb x y
  | ArrayType x n, ArrayType y m => LType_eqb x y && (n =? m)%nat
  | _, _ => false
  end.

Inductive ConstantValue : Type :=
| CInt (z : Z)
| CFloat (literal : string)
| CBytes (bytes : list ascii).

(** A reference to a block: index of its function in the module, index
    of the block in the function. *)
Definition BlockRef : Type := nat * nat.

(** The name of a global variable: a prefix and the [id()] of a Python
    object, modelled by a fresh number. *)
Definition GlobalName : Type := string * nat.

(** What [compile_expression] can return: an IR value or Python's
    [None]. *)
Inductive Value : Type :=
| PyNone
| Constant (ty : LType) (c : ConstantValue)
| Argument (func : nat) (index : nat) (ty : LType)
| InstrValue (id : nat) (ty : LType)
| GlobalRef (name : GlobalName) (ty : LType).

(** [value.type]; on [None] the attribute access raises. *)
Definition type_of (v : Value) : Result LType :=
  match v with
  | PyNone => Raise AttributeError
  | Constant ty _ => Ok ty
  | Argument _ _ ty => Ok ty
  | InstrValue _ ty => Ok ty
  | GlobalRef _ ty => Ok ty
  end.

Inductive Instruction : Type :=
| Alloca (id : nat) (ty : LType) (name : string)
| Store (value ptr : Value)
| Load (id : nat) (ptr : Value) (name : string)
| BinOp (id : nat) (opname : string) (lhs rhs : Value)
| ICmp (id : nat) (op : string) (lhs rhs : Value)
| FCmp (id : nat) (op : string) (lhs rhs : Value)
| Call (id : nat) (callee : nat) (args : list Value)
| Bitcast (id : nat) (v : Value) (ty : LType)
| Ret (return_value : option Value)
| Branch (target : BlockRef)
| CBranch (cond : Value) (truebr falsebr : BlockRef).

Definition is_terminator (i : Instruction) : bool :=
  match i with
  | Ret _ | Branch _ | CBranch _ _ _ => true
  | _ => false
  end.

Record BasicBlock : Type := MkBlock {
  block_name : string;
  instructions : list Instruction
}.

(** [block.is_terminated]: the [terminator] attribute is set exactly when
    a terminator has been inserted into the block. *)
Definition is_terminated (b : BasicBlock) : bool :=
  existsb is_terminator (instructions b).

Record Function : Type := MkFunction {
  fn_name : string;
  fn_return_type : LType;
  fn_args : list LType;
  fn_var_arg : bool;
  fn_arg_names : list string;
  blocks : list BasicBlock
}.

Record GlobalVariable : Type := MkGlobalVariable {
  g_name : GlobalName;
  g_type : LType;
  g_initializer : ConstantValue
}.

Definition i32 : LType := IntType 32.
Definition i64 : LType := IntType 64.
Definition f64 : LType := DoubleType.
Definition i1 : LType := IntType 1.
Definition void : LType := VoidType.
Definition i8_ptr : LType := PointerType (IntType 8).

(** The operands of an instruction that are values. *)
Definition operands (i : Instruction) : list Value :=
  match i with
  | Alloca _ _ _ => []
  | Store v p => [v; p]
  | Load _ p _ => [p]
  | BinOp _ _ l r => [l; r]
  | ICmp _ _ l r => [l; r]
  | FCmp _ _ l r => [l; r]
  | Call _ _ args => args
  | Bitcast _ v _ => [v]
  | Ret (Some v) => [v]
  | Ret None => []
  | Branch _ => []
  | CBranch c _ _ => [c]
  end.

Definition is_PyNone (v : Value) : bool :=
  match v with PyNone => true | _ => false end.

End IR.

(** ** [src/backend/llvm_compiler.py] *)

Module Compiler.
Import Ast IR.

(** The compiler object.  [self.module] is its list of functions (the
    three C externs first) and its list of global variables;
    [self.builder] is the block the [IRBuilder] is positioned at the end
    of, or [None]; [self.functions] maps a name to the index of the
    function in the module. *)
Record LLVMCompiler : Type := MkCompiler {
  module_functions : list Function;
  module_globals : list GlobalVariable;
  builder : option BlockRef;
  variables : gmap string Value;
  functions : gmap string nat;
  current_function : option nat;
  next_id : nat
}.

Definition set_module_functions (fs : list Function) (c : LLVMCompiler) :=
  MkCompiler fs (module_globals c) (builder c) (variables c) (functions c)
             (current_function c) (next_id c).
Definition set_module_globals (gs : list GlobalVariable) (c : LLVMCompiler) :=
  MkCompiler (module_functions c) gs (builder c) (variables c) (functions c)
             (current_function c) (next_id c).
Definition set_builder (b : option BlockRef) (c : LLVMCompiler) :=
  MkCompiler (module_functions c) (module_globals c) b (variables c)
             (functions c) (current_function c) (next_id c).
Definition set_variables (vs : gmap string Value) (c : LLVMCompiler) :=
  MkCompiler (module_functions c) (module_globals c) (builder c) vs
             (functions c) (current_function c) (next_id c).
Definition set_functions (fs : gmap string nat) (c : LLVMCompiler) :=
  MkCompiler (module_functions c) (module_globals c) (builder c)
             (variables c) fs (current_function c) (next_id c).
Definition set_current_function (f : option nat) (c : LLVMCompiler) :=
  MkCompiler (module_functions c) (module_globals c) (builder c)
             (variables c) (functions c) f (next_id c).
Definition set_next_id (n : nat) (c : LLVMCompiler) :=
  MkCompiler (module_functions c) (module_globals c) (builder c)
             (variables c) (functions c) (current_function c) n.

(** [_setup_builtins] *)
Definition printf : nat := 0%nat.
Definition malloc : nat := 1%nat.
Definition free : nat := 2%nat.

Definition builtins : list Function :=
  [ MkFunction "printf" i32 [i8_ptr] true [] [];
    MkFunction "malloc" i8_ptr [i64] false [] [];
    MkFunction "free" void [i8_ptr] false [] [] ].

(** [LLVMCompiler()] *)
Definition new : LLVMCompiler :=
  MkCompiler builtins [] None ∅ ∅ None 0.

(** Methods run on the compiler object and may raise. *)
Definition M (A : Type) : Type := LLVMCompiler -> Result (A * LLVMCompiler).

Definition ret {A : Type} (a : A) : M A := fun c => Ok (a, c).
Definition raise {A : Type} (e : PyError) : M A := fun _ => Raise e.
Definition mbind {A B : Type} (m : M A) (k : A -> M B) : M B :=
  fun c =>
    match m c with
    | Ok (a, c') => k a c'
    | Raise e => Raise e
    | OutOfFuel => OutOfFuel
    end.
Definition lift {A : Type} (r : Result A) : M A :=
  fun c =>
    match r with
    | Ok a => Ok (a, c)
    | Raise e => Raise e
    | OutOfFuel => OutOfFuel
    end.
Definition modify (f : LLVMCompiler -> LLVMCompiler) : M unit :=
  fun c => Ok (tt, f c).

Notation "'let!' x ':=' m 'in' k" := (mbind m (fun x => k))
  (at level 10, x pattern, m at level 100, k at level 200).
Notation "m ';;' k" := (mbind m (fun _ => k))
  (at level 100, k at level 200, right associativity).

(** A fresh object identity. *)
Definition fresh : M nat :=
  fun c => Ok (next_id c, set_next_id (S (next_id c)) c).

(** *** llvmlite: blocks and the builder *)

Definition update_block (r : BlockRef) (f : BasicBlock -> BasicBlock)
    (fs : list Function) : list Function :=
  alter (fun fn =>
           MkFunction (fn_name fn) (fn_return_type fn) (fn_args fn)
                      (fn_var_arg fn) (fn_arg_names fn)
                      (alter f (snd r) (blocks fn)))
        (fst r) fs.

Definition block_at (r : BlockRef) (fs : list Function) : BasicBlock :=
  match fs !! fst r with
  | Some fn => default (MkBlock "" []) (blocks fn !! snd r)
  | None => MkBlock "" []
  end.

(** [self.builder]: attribute access on [None] raises. *)
Definition get_builder : M BlockRef :=
  fun c =>
    match builder c with
    | Some b => Ok (b, c)
    | None => Raise AttributeError
    end.

(** [IRBuilder._insert]: the builder is always positioned at the end of
    its block. *)
Definition insert (i : Instruction) : M unit :=
  let! b := get_builder in
  modify (fun c =>
    set_module_functions
      (update_block b
         (fun blk => MkBlock (block_name blk) (instructions blk ++ [i]))
         (module_functions c)) c).

(** [self.builder.block.is_terminated] *)
Definition block_is_terminated : M bool :=
  let! b := get_builder in
  fun c => Ok (is_terminated (block_at b (module_functions c)), c).

(** [IRBuilder._set_terminator]: asserts that the block has none yet. *)
Definition set_terminator (term : Instruction) : M unit :=
  let! t := block_is_terminated in
  if t then raise AssertionError else insert term.

(** [Function.append_basic_block] on [self.current_function] *)
Definition append_basic_block (name : string) : M BlockRef :=
  fun c =>
    match current_function c with
    | None => Raise AttributeError
    | Some f =>
      match module_functions c !! f with
      | None => Raise AttributeError
      | Some fn =>
        let r := (f, length (blocks fn)) in
        Ok (r, set_module_functions
                 (alter (fun fn =>
                    MkFunction (fn_name fn) (fn_return_type fn) (fn_args fn)
                               (fn_var_arg fn) (fn_arg_names fn)
                               (blocks fn ++ [MkBlock name []]))
                    f (module_functions c)) c)
      end
    end.

Definition position_at_end (r : BlockRef) : M unit :=
  get_builder ;; modify (set_builder (Some r)).

Definition alloca (ty : LType) (name : string) : M Value :=
  get_builder ;;
  let! id := fresh in
  insert (Alloca id ty name) ;;
  ret (InstrValue id (PointerType ty)).

Definition store (value ptr : Value) : M unit :=
  get_builder ;;
  let! pty := lift (type_of ptr) in
  match pty with
  | PointerType pointee =>
    let! vty := lift (type_of value) in
    if LType_eqb pointee vty then insert (Store value ptr)
    else raise TypeError
  | _ => raise TypeError
  end.

Definition load (ptr : Value) (name : string) : M Value :=
  get_builder ;;
  let! pty := lift (type_of ptr) in
  match pty with
  | PointerType pointee =>
    let! id := fresh in
    insert (Load id ptr name) ;;
    ret (InstrValue id pointee)
  | _ => raise TypeError
  end.

(** The binary instructions ([add], [fadd], [sub], ..., [and], [or],
    [xor]): both operands must have the same type. *)
Definition binop (opname : string) (lhs rhs : Value) : M Value :=
  get_builder ;;
  let! lty := lift (type_of lhs) in
  let! rty := lift (type_of rhs) in
  if negb (LType_eqb lty rty) then raise ValueError
  else
    let! id := fresh in
    insert (BinOp id opname lhs rhs) ;;
    ret (InstrValue id lty).

Definition cmp_map (cmpop : string) : string :=
  if String.eqb cmpop "<" then "lt"
  else if String.eqb cmpop "<=" then "le"
  else if String.eqb cmpop "==" then "eq"
  else if String.eqb cmpop "!=" then "ne"
  else if String.eqb cmpop ">=" then "ge"
  else "gt".

Definition icmp_signed (cmpop : string) (lhs rhs : Value) : M Value :=
  get_builder ;;
  let op :=
    if String.eqb cmpop "==" || String.eqb cmpop "!=" then cmp_map cmpop
    else "s" ++ cmp_map cmpop in
  let! id := fresh in
  insert (ICmp id op lhs rhs) ;;
  ret (InstrValue id i1).

Definition fcmp_ordered (cmpop : string) (lhs rhs : Value) : M Value :=
  get_builder ;;
  let! id := fresh in
  insert (FCmp id ("o" ++ cmp_map cmpop) lhs rhs) ;;
  ret (InstrValue id i1).

Definition not_ (value : Value) : M Value :=
  get_builder ;;
  let! ty := lift (type_of value) in
  binop "xor" value (Constant ty (CInt (-1))).

(** The argument check of [CallInstr]: one argument per declared
    parameter, of the declared type; further arguments are not checked. *)
Fixpoint check_call_args (expected : list LType) (args : list Value)
    : Result unit :=
  match expected with
  | [] => Ok tt
  | ety :: expected' =>
    match args with
    | [] => Raise IndexError
    | a :: args' =>
      let* aty := type_of a in
      if LType_eqb aty ety then check_call_args expected' args'
      else Raise TypeError
    end
  end.

Definition call (fn : nat) (args : list Value) : M Value :=
  get_builder ;;
  fun c =>
    match module_functions c !! fn with
    | None => Raise AttributeError
    | Some f =>
      (lift (check_call_args (fn_args f) args) ;;
       let! id := fresh in
       insert (Call id fn args) ;;
       ret (InstrValue id (fn_return_type f))) c
    end.

Definition bitcast (v : Value) (ty : LType) : M Value :=
  get_builder ;;
  let! id := fresh in
  insert (Bitcast id v ty) ;;
  ret (InstrValue id ty).

(** [builder.ret(value)]: a [None] value gives a [ret] without operand. *)
Definition builder_ret (value : Value) : M unit :=
  get_builder ;;
  set_terminator (Ret (if is_PyNone value then None else Some value)).

Definition ret_void : M unit :=
  get_builder ;; set_terminator (Ret None).

Definition branch (target : BlockRef) : M unit :=
  get_builder ;; set_terminator (Branch target).

Definition cbranch (cond : Value) (truebr falsebr : BlockRef) : M unit :=
  get_builder ;; set_terminator (CBranch cond truebr falsebr).

(** [ir.GlobalVariable(self.module, typ, name)] with internal linkage,
    constant, initialised. *)
Definition add_global (name : GlobalName) (ty : LType)
    (init : ConstantValue) : M Value :=
  fun c =>
    Ok (GlobalRef name (PointerType ty),
        set_module_globals
          (module_globals c ++ [MkGlobalVariable name ty init]) c).

(** [str.encode('utf-8')] on code points below 256. *)
Definition utf8 (s : string) : list ascii :=
  flat_map (fun ch =>
              let n := nat_of_ascii ch in
              if (n <? 128)%nat then [ch]
              else [ascii_of_nat (192 + n / 64); ascii_of_nat (128 + n mod 64)])
           (list_ascii_of_string s).

(** [get_llvm_type] *)
Fixpoint get_llvm_type (vela_type : Types.Type_) : Result LType :=
  match vela_type with
  | Types.MkType k _ element_type _ _ _ =>
    match k with
    | Types.INT => Ok i64
    | Types.FLOAT => Ok f64
    | Types.BOOL => Ok i1
    | Types.VOID => Ok void
    | Types.STRING => Ok i8_ptr
    | Types.ARRAY =>
      match element_type with
      | Some e => let* elem_type := get_llvm_type e in Ok (PointerType elem_type)
      | None => Raise AttributeError
      end
    | _ => Ok i64
    end
  end.

(** The type dispatch shared by [+], [-], [*], [/]: the float
    instruction when the left operand is a double. *)
Definition float_or_int (fop iop : string) (lhs rhs : Value) : M Value :=
  let! lty := lift (type_of lhs) in
  if LType_eqb lty f64 then binop fop lhs rhs else binop iop lhs rhs.

Definition compare (cmpop : string) (lhs rhs : Value) : M Value :=
  let! lty := lift (type_of lhs) in
  if LType_eqb lty f64 then fcmp_ordered cmpop lhs rhs
  else icmp_signed cmpop lhs rhs.

(** The [BinaryOp] branch of [compile_expression], after both operands
    have been compiled. *)
Definition compile_binary (operator : string) (lhs rhs : Value) : M Value :=
  if String.eqb operator "+" then float_or_int "fadd" "add" lhs rhs
  else if String.eqb operator "-" then float_or_int "fsub" "sub" lhs rhs
  else if String.eqb operator "*" then float_or_int "fmul" "mul" lhs rhs
  else if String.eqb operator "/" then float_or_int "fdiv" "sdiv" lhs rhs
  else if String.eqb operator "%" then binop "srem" lhs rhs
  else if String.eqb operator "**" then binop "mul" lhs rhs
  else if String.eqb operator "==" then compare "==" lhs rhs
  else if String.eqb operator "!=" then compare "!=" lhs rhs
  else if String.eqb operator "<" then compare "<" lhs rhs
  else if String.eqb operator ">" then compare ">" lhs rhs
  else if String.eqb operator "<=" then compare "<=" lhs rhs
  else if String.eqb operator ">=" then compare ">=" lhs rhs
  else if String.eqb operator "and" then binop "and" lhs rhs
  else if String.eqb operator "or" then binop "or" lhs rhs
  else ret (Constant i64 (CInt 0)).

(** The [UnaryOp] branch, after the operand has been compiled. *)
Definition compile_unary (operator : string) (operand : Value) : M Value :=
  if String.eqb operator "-" then
    let! ty := lift (type_of operand) in
    if LType_eqb ty f64 then binop "fsub" (Constant f64 (CInt 0)) operand
    else binop "sub" (Constant i64 (CInt 0)) operand
  else if String.eqb operator "not" then not_ operand
  else ret (Constant i64 (CInt 0)).

Definition NUL : ascii := "000"%char.
Definition LF : ascii := "010"%char.

(** [compile_print] for a string literal argument. *)
Definition compile_print_string (text : string) : M Value :=
  let! node_id := fresh in
  let string_bytes := (utf8 (text ++ String LF "") ++ [NUL])%list in
  let! string_global :=
    add_global ("str_", node_id)
               (ArrayType (IntType 8) (length string_bytes))
               (CBytes string_bytes) in
  let! string_ptr := bitcast string_global i8_ptr in
  let fmt := String "%" (String "s" (String NUL "")) in
  let! fmt_global :=
    add_global ("fmt_", node_id)
               (ArrayType (IntType 8) (String.length fmt))
               (CBytes (utf8 fmt)) in
  let! fmt_ptr := bitcast fmt_global i8_ptr in
  call printf [fmt_ptr; string_ptr].

(** [compile_print] for any other argument, once it has been compiled. *)
Definition compile_print_value (arg : Value) : M Value :=
  let! ty := lift (type_of arg) in
  let fmt :=
    if LType_eqb ty i64 || LType_eqb ty i32
    then "%ld" ++ String LF (String NUL "")
    else if LType_eqb ty f64 then "%f" ++ String LF (String NUL "")
    else "%p" ++ String LF (String NUL "") in
  let! value_id := fresh in
  let! fmt_global :=
    add_global ("fmt_", value_id)
               (ArrayType (IntType 8) (String.length fmt))
               (CBytes (utf8 fmt)) in
  let! fmt_ptr := bitcast fmt_global i8_ptr in
  call printf [fmt_ptr; arg].

(** [compile_expression], with [compile_print] inlined where it calls
    back. *)
Fixpoint compile_expression (expr : ASTNode) : M Value :=
  match expr with
  | NumberLiteral (NInt z) => ret (Constant i64 (CInt z))
  | NumberLiteral (NFloat x) => ret (Constant f64 (CFloat x))
  | BooleanLiteral b => ret (Constant i1 (CInt (Z.b2z b)))
  | Identifier name =>
    fun c =>
      match variables c !! name with
      | None => Raise (NameError name)
      | Some ptr => load ptr name c
      end
  | BinaryOp lhs operator rhs =>
    let! l := compile_expression lhs in
    let! r := compile_expression rhs in
    compile_binary operator l r
  | UnaryOp operator operand =>
    let! v := compile_expression operand in
    compile_unary operator v
  | CallExpr (Identifier func_name) arguments =>
    if String.eqb func_name "print" then
      match arguments with
      | [] => ret PyNone
      | StringLiteral text :: _ => compile_print_string text
      | first :: _ =>
        let! arg := compile_expression first in
        compile_print_value arg
      end
    else
      fun c =>
        match functions c !! func_name with
        | None => Raise (NameError func_name)
        | Some func =>
          (let! args :=
             (fix compile_arguments (l : list ASTNode) : M (list Value) :=
                match l with
                | [] => ret []
                | a :: l' =>
                  let! v := compile_expression a in
                  let! vs := compile_arguments l' in
                  ret (v :: vs)
                end) arguments in
           call func args) c
        end
  | _ => ret (Constant i64 (CInt 0))
  end.

Definition compile_arguments (l : list ASTNode) : M (list Value) :=
  (fix compile_arguments (l : list ASTNode) : M (list Value) :=
     match l with
     | [] => ret []
     | a :: l' =>
       let! v := compile_expression a in
       let! vs := compile_arguments l' in
       ret (v :: vs)
     end) l.

(** [compile_print] *)
Definition compile_print (args : list ASTNode) : M Value :=
  match args with
  | [] => ret PyNone
  | StringLiteral text :: _ => compile_print_string text
  | first :: _ =>
    let! arg := compile_expression first in
    compile_print_value arg
  end.

(** [compile_var_declaration] *)
Definition compile_var_declaration (name : string)
    (initializer : option ASTNode) : M unit :=
  fun c =>
    match builder c with
    | None => Ok (tt, c)
    | Some _ =>
      (let var_type := i64 in
       let! ptr := alloca var_type name in
       match initializer with
       | Some init =>
         let! value := compile_expression init in
         store value ptr
       | None => ret tt
       end ;;
       modify (fun c => set_variables (<[name := ptr]> (variables c)) c)) c
    end.

(** [compile_assignment]: [assign.operator] is not read. *)
Definition compile_assignment (target value : ASTNode) (operator : string)
    : M unit :=
  match target with
  | Identifier var_name =>
    fun c =>
      match variables c !! var_name with
      | None => Raise (NameError var_name)
      | Some _ =>
        (let! v := compile_expression value in
         fun c =>
           match variables c !! var_name with
           | Some ptr => store v ptr c
           | None => Raise (NameError var_name)
           end) c
      end
  | _ => raise (NotImplementedError "assignment target")
  end.

(** [compile_return] *)
Definition compile_return (value : option ASTNode) : M unit :=
  match value with
  | Some e =>
    let! v := compile_expression e in
    builder_ret v
  | None => ret_void
  end.

(** [compile_if], given the lowering of its two branches. *)
Definition compile_if_with (condition : ASTNode) (compile_then : M unit)
    (compile_else : option (M unit)) : M unit :=
  let! cond := compile_expression condition in
  let! then_block := append_basic_block "if.then" in
  let! else_block :=
    match compile_else with
    | Some _ => let! b := append_basic_block "if.else" in ret (Some b)
    | None => ret None
    end in
  let! merge_block := append_basic_block "if.end" in
  match else_block with
  | Some eb => cbranch cond then_block eb
  | None => cbranch cond then_block merge_block
  end ;;
  position_at_end then_block ;;
  compile_then ;;
  let! t := block_is_terminated in
  (if negb t then branch merge_block else ret tt) ;;
  match else_block, compile_else with
  | Some eb, Some compile_else =>
    position_at_end eb ;;
    compile_else ;;
    let! t := block_is_terminated in
    if negb t then branch merge_block else ret tt
  | _, _ => ret tt
  end ;;
  position_at_end merge_block.

(** [compile_while], given the lowering of its body. *)
Definition compile_while_with (condition : ASTNode) (compile_body : M unit)
    : M unit :=
  let! cond_block := append_basic_block "while.cond" in
  let! body_block := append_basic_block "while.body" in
  let! end_block := append_basic_block "while.end" in
  branch cond_block ;;
  position_at_end cond_block ;;
  let! cond := compile_expression condition in
  cbranch cond body_block end_block ;;
  position_at_end body_block ;;
  compile_body ;;
  let! t := block_is_terminated in
  (if negb t then branch cond_block else ret tt) ;;
  position_at_end end_block.

(** The names already registered in the module scope when a function is
    created: the functions so far (the names of global variables come from
    object identities and are taken to differ from any function name). *)
Definition name_is_used (name : string) (c : LLVMCompiler) : bool :=
  String.eqb name "" || existsb (fun f => String.eqb (fn_name f) name)
                                (module_functions c).

(** The loop of [compile_function] over the parameters. *)
Fixpoint bind_parameters (func : nat) (i : nat)
    (parameters : list (string * string)) : M unit :=
  match parameters with
  | [] => ret tt
  | (param_name, _) :: rest =>
    let param := Argument func i i64 in
    let! ptr := alloca i64 param_name in
    store param ptr ;;
    modify (fun c => set_variables (<[param_name := ptr]> (variables c)) c) ;;
    bind_parameters func (S i) rest
  end.

(** [compile_function], given the lowering of its body. *)
Definition compile_function_with (name : string)
    (parameters : list (string * string)) (return_type : string)
    (compile_body : M unit) : M unit :=
  let! param_types :=
    lift ((fix types (l : list (string * string)) : Result (list LType) :=
             match l with
             | [] => Ok []
             | _ :: l' =>
               let* t := get_llvm_type (Types.Type2 Types.INT "int") in
               let* ts := types l' in
               Ok (t :: ts)
             end) parameters) in
  let return_type_obj :=
    if String.eqb return_type "int" then Types.Type2 Types.INT "int"
    else Types.Type2 Types.VOID "void" in
  let! return_type := lift (get_llvm_type return_type_obj) in
  let! llvm_func :=
    fun c =>
      if name_is_used name c then Raise (DuplicateNameError name)
      else
        Ok (length (module_functions c),
            set_module_functions
              (module_functions c ++
               [MkFunction name return_type param_types false
                           (map fst parameters) [MkBlock "entry" []]]) c) in
  modify (set_builder (Some (llvm_func, 0%nat))) ;;
  modify (set_current_function (Some llvm_func)) ;;
  modify (fun c => set_functions (<[name := llvm_func]> (functions c)) c) ;;
  bind_parameters llvm_func 0 parameters ;;
  compile_body ;;
  let! t := block_is_terminated in
  (if negb t then
     if LType_eqb return_type void then ret_void
     else builder_ret (Constant return_type (CInt 0))
   else ret tt) ;;
  modify (set_builder None) ;;
  modify (set_current_function None).

(** [compile_statement]; [compile_block] is the inner loop. *)
Fixpoint compile_statement (stmt : ASTNode) : M unit :=
  match stmt with
  | FunctionDeclaration name parameters return_type body _ =>
    compile_function_with name parameters return_type
      ((fix compile_block (l : list ASTNode) : M unit :=
          match l with
          | [] => ret tt
          | s :: l' => compile_statement s ;; compile_block l'
          end) body)
  | VarDeclaration name _ initializer _ =>
    compile_var_declaration name initializer
  | ExpressionStatement expression =>
    compile_expression expression ;; ret tt
  | ReturnStatement value => compile_return value
  | IfStatement condition then_branch else_branch =>
    compile_if_with condition (compile_statement then_branch)
      (match else_branch with
       | Some e => Some (compile_statement e)
       | None => None
       end)
  | WhileStatement condition body =>
    compile_while_with condition (compile_statement body)
  | ForStatement _ _ _ => ret tt
  | AssignmentStatement target value operator =>
    compile_assignment target value operator
  | Block statements =>
    (fix compile_block (l : list ASTNode) : M unit :=
       match l with
       | [] => ret tt
       | s :: l' => compile_statement s ;; compile_block l'
       end) statements
  | _ => ret tt
  end.

(** [compile_block] on the statements of a block *)
Definition compile_block (statements : list ASTNode) : M unit :=
  (fix compile_block (l : list ASTNode) : M unit :=
     match l with
     | [] => ret tt
     | s :: l' => compile_statement s ;; compile_block l'
     end) statements.

Definition compile_function (name : string)
    (parameters : list (string * string)) (return_type : string)
    (body : list ASTNode) : M unit :=
  compile_function_with name parameters return_type (compile_block body).

Definition compile_if (condition then_branch : ASTNode)
    (else_branch : option ASTNode) : M unit :=
  compile_if_with condition (compile_statement then_branch)
    (match else_branch with
     | Some e => Some (compile_statement e)
     | None => None
     end).

Definition compile_while (condition body : ASTNode) : M unit :=
  compile_while_with condition (compile_statement body).

(** [str(self.module)]: printing an instruction reads the type of each
    operand, which raises on [None]. *)
Definition printable (c : LLVMCompiler) : bool :=
  forallb (fun fn =>
    forallb (fun blk =>
      forallb (fun i => negb (existsb is_PyNone (operands i)))
              (instructions blk))
      (blocks fn))
    (module_functions c).

(** [compile_program]: the module after lowering, whose text is returned. *)
Definition compile_program (program : Program) (c : LLVMCompiler)
    : Result LLVMCompiler :=
  let* (_, c) := compile_block program c in
  if printable c then Ok c else Raise AttributeError.

End Compiler.

(** ** Structural induction on the AST *)

Section ASTNode_induction.
Import Ast.
Variable P : ASTNode -> Prop.

Definition OptionP (o : option ASTNode) : Prop :=
  match o with Some e => P e | None => True end.

Hypothesis P_NumberLiteral : forall v, P (NumberLiteral v).
Hypothesis P_StringLiteral : forall v, P (StringLiteral v).
Hypothesis P_BooleanLiteral : forall v, P (BooleanLiteral v).
Hypothesis P_NullLiteral : P NullLiteral.
Hypothesis P_Identifier : forall n, P (Identifier n).
Hypothesis P_BinaryOp :
  forall l op r, P l -> P r -> P (BinaryOp l op r).
Hypothesis P_UnaryOp : forall op e, P e -> P (UnaryOp op e).
Hypothesis P_CallExpr :
  forall f args, P f -> Forall P args -> P (CallExpr f args).
Hypothesis P_ArrayLiteral : forall es, Forall P es -> P (ArrayLiteral es).
Hypothesis P_IndexExpr : forall a i, P a -> P i -> P (IndexExpr a i).
Hypothesis P_MemberAccess : forall o m, P o -> P (MemberAccess o m).
Hypothesis P_LambdaExpr : forall ps b r, P b -> P (LambdaExpr ps b r).
Hypothesis P_PipelineExpr :
  forall v fs, P v -> Forall P fs -> P (PipelineExpr v fs).
Hypothesis P_MatchExpr : forall v cs, P v -> P (MatchExpr v cs).
Hypothesis P_VarDeclaration :
  forall n t i c, OptionP i -> P (VarDeclaration n t i c).
Hypothesis P_FunctionDeclaration :
  forall n ps r body a, Forall P body -> P (FunctionDeclaration n ps r body a).
Hypothesis P_ClassDeclaration :
  forall n ms fs ts, P (ClassDeclaration n ms fs ts).
Hypothesis P_TraitDeclaration : forall n ms, P (TraitDeclaration n ms).
Hypothesis P_Block : forall ss, Forall P ss -> P (Block ss).
Hypothesis P_ExpressionStatement :
  forall e, P e -> P (ExpressionStatement e).
Hypothesis P_ReturnStatement :
  forall v, OptionP v -> P (ReturnStatement v).
Hypothesis P_IfStatement :
  forall c t e, P c -> P t -> OptionP e ->
                P (IfStatement c t e).
Hypothesis P_WhileStatement :
  forall c b, P c -> P b -> P (WhileStatement c b).
Hypothesis P_ForStatement :
  forall v i b, P i -> P b -> P (ForStatement v i b).
Hypothesis P_BreakStatement : P BreakStatement.
Hypothesis P_ContinueStatement : P ContinueStatement.
Hypothesis P_AssignmentStatement :
  forall t v op, P t -> P v -> P (AssignmentStatement t v op).
Hypothesis P_ParallelBlock : forall ts, Forall P ts -> P (ParallelBlock ts).
Hypothesis P_AsyncAwait : forall e, P e -> P (AsyncAwait e).
Hypothesis P_ImportStatement : forall m i a, P (ImportStatement m i a).
Hypothesis P_ObjectLiteral : forall n fs, P (ObjectLiteral n fs).

Fixpoint ASTNode_induction (n : ASTNode) : P n :=
  let all :=
    fix all (l : list ASTNode) : Forall P l :=
      match l with
      | [] => List.Forall_nil P
      | x :: l' => @List.Forall_cons _ P x l' (ASTNode_induction x) (all l')
      end in
  match n with
  | NumberLiteral v => P_NumberLiteral v
  | StringLiteral v => P_StringLiteral v
  | BooleanLiteral v => P_BooleanLiteral v
  | NullLiteral => P_NullLiteral
  | Identifier x => P_Identifier x
  | BinaryOp l op r =>
    P_BinaryOp l op r (ASTNode_induction l) (ASTNode_induction r)
  | UnaryOp op e => P_UnaryOp op e (ASTNode_induction e)
  | CallExpr f args => P_CallExpr f args (ASTNode_induction f) (all args)
  | ArrayLiteral es => P_ArrayLiteral es (all es)
  | IndexExpr a i => P_IndexExpr a i (ASTNode_induction a) (ASTNode_induction i)
  | MemberAccess o m => P_MemberAccess o m (ASTNode_induction o)
  | LambdaExpr ps b r => P_LambdaExpr ps b r (ASTNode_induction b)
  | PipelineExpr v fs => P_PipelineExpr v fs (ASTNode_induction v) (all fs)
  | MatchExpr v cs => P_MatchExpr v cs (ASTNode_induction v)
  | VarDeclaration x t i c => P_VarDeclaration x t i c
      (match i as o return OptionP o with
       | Some x => ASTNode_induction x
       | None => I
       end)
  | FunctionDeclaration x ps r body a =>
    P_FunctionDeclaration x ps r body a (all body)
  | ClassDeclaration x ms fs ts => P_ClassDeclaration x ms fs ts
  | TraitDeclaration x ms => P_TraitDeclaration x ms
  | Block ss => P_Block ss (all ss)
  | ExpressionStatement e => P_ExpressionStatement e (ASTNode_induction e)
  | ReturnStatement v => P_ReturnStatement v
      (match v as o return OptionP o with
       | Some x => ASTNode_induction x
       | None => I
       end)
  | IfStatement c t e =>
    P_IfStatement c t e (ASTNode_induction c) (ASTNode_induction t)
      (match e as o return OptionP o with
       | Some x => ASTNode_induction x
       | None => I
       end)
  | WhileStatement c b =>
    P_WhileStatement c b (ASTNode_induction c) (ASTNode_induction b)
  | ForStatement v i b =>
    P_ForStatement v i b (ASTNode_induction i) (ASTNode_induction b)
  | BreakStatement => P_BreakStatement
  | ContinueStatement => P_ContinueStatement
  | AssignmentStatement t v op =>
    P_AssignmentStatement t v op (ASTNode_induction t) (ASTNode_induction v)
  | ParallelBlock ts => P_ParallelBlock ts (all ts)
  | AsyncAwait e => P_AsyncAwait e (ASTNode_induction e)
  | ImportStatement m i a => P_ImportStatement m i a
  | ObjectLiteral x fs => P_ObjectLiteral x fs
  end.

End ASTNode_induction.

(** ** Notions used to state the properties of the lowering *)

Module Props.
Import Ast IR Compiler.

(** The block with further instructions at its end. *)
Definition append_instructions (extra : list Instruction) (blk : BasicBlock)
    : BasicBlock :=
  MkBlock (block_name blk) (instructions blk ++ extra).

(** The functions of the module after [extra] has been inserted through
    the builder. *)
Definition emit (extra : list Instruction) (c : LLVMCompiler)
    : list Function :=
  match builder c with
  | Some b => update_block b (append_instructions extra) (module_functions c)
  | None => module_functions c
  end.

Definition nonterminators (l : list Instruction) : Prop :=
  forallb (fun i => negb (is_terminator i)) l = true.

(** [c'] is [c] after straight-line code: instructions that are not
    terminators were inserted at the builder's position, global variables
    and object identities may have been created, nothing else changed. *)
Definition emits (c c' : LLVMCompiler) : Prop :=
  exists extra,
    nonterminators extra
    /\ module_functions c' = emit extra c
    /\ builder c' = builder c
    /\ variables c' = variables c
    /\ functions c' = functions c
    /\ current_function c' = current_function c.

(** The blocks of function number [f] of a lowered module, when the
    lowering succeeded. *)
Definition lowered_blocks (r : Result LLVMCompiler) (f : nat)
    : option (list BasicBlock) :=
  match r with
  | Ok c =>
    match module_functions c !! f with
    | Some fn => Some (blocks fn)
    | None => None
    end
  | _ => None
  end.

(** The compiler at the start of the body of a first function [f(a, b)]:
    the entry block holds the two parameter slots and is current. *)
Definition slot (id : nat) : Value := InstrValue id (PointerType i64).

Definition in_body : LLVMCompiler :=
  MkCompiler
    (builtins ++
     [MkFunction "f" void [i64; i64] false ["a"; "b"]
        [MkBlock "entry"
           [Alloca 0 i64 "a"; Store (Argument 3 0 i64) (slot 0);
            Alloca 1 i64 "b"; Store (Argument 3 1 i64) (slot 1)]]])
    [] (Some (3, 0)%nat)
    (<["b" := slot 1]> (<["a" := slot 0]> ∅))
    (<["f" := 3%nat]> ∅) (Some 3%nat) 2.

(** The compiler after one more instruction has been inserted through the
    builder and its identity consumed. *)
Definition inserted (i : Instruction) (c : LLVMCompiler) : LLVMCompiler :=
  set_module_functions (emit [i] c) (set_next_id (S (next_id c)) c).

(** The number a run of decimal digits denotes. *)
Definition digits_value (ds : list ascii) : Z :=
  fold_left (fun acc d => 10 * acc + (Z.of_nat (nat_of_ascii d) - 48)) ds 0.

(** A literal fits the digit limit of [int()]. *)
Definition within_digit_limit (int_max_str_digits : option nat)
    (ds : list ascii) : Prop :=
  match int_max_str_digits with
  | Some limit => (length ds <= limit)%nat
  | None => True
  end.

(** The character after a literal, if any, does not continue a number. *)
Definition ends_number (rest : list ascii) : Prop :=
  match rest with
  | [] => True
  | ch :: _ => Lexer.isdigit ch = false /\ ch <> "."%char
  end.

(** Where an [auto] that [infer_type] returns without recording an error
    can come from: a variable, or a function result, whose declared type
    is [auto] (also under a unary minus), or a node for which the checker
    has no rule and falls through to [AUTO_TYPE]: index and member
    access, pipeline, match, object literal, [await], a statement node, a
    call whose callee is not the name of a registered function, an
    operator outside the tables of the checker. *)
Fixpoint auto_without_error (tc : Checker.TypeChecker) (node : ASTNode)
    : bool :=
  match node with
  | NumberLiteral _ | StringLiteral _ | BooleanLiteral _ | NullLiteral =>
    false
  | Identifier name =>
    match Checker.get_variable name (Checker.env tc) with
    | Some t => Types.TypeKind_eqb (Types.kind t) Types.AUTO
    | None => false
    end
  | BinaryOp _ operator _ =>
    negb (Checker.in_list operator
            ["+"; "-"; "*"; "/"; "%"; "**"; "=="; "!="; "<"; ">"; "<="; ">=";
             "and"; "or"])
  | UnaryOp operator operand =>
    if String.eqb operator "not" then false
    else if String.eqb operator "-" then auto_without_error tc operand
    else true
  | CallExpr (Identifier name) _ =>
    match Checker.get_function name (Checker.env tc) with
    | Some func_type =>
      match Types.return_type func_type with
      | Some t => Types.TypeKind_eqb (Types.kind t) Types.AUTO
      | None => true
      end
    | None => true
    end
  | ArrayLiteral _ | LambdaExpr _ _ _ => false
  | _ => true
  end.

(** The number of blocks of function number [f]. *)
Definition nblocks (f : nat) (fs : list Function) : nat :=
  match fs !! f with
  | Some fn => length (blocks fn)
  | None => 0%nat
  end.

(** The reference [r] names a block of the module. *)
Definition valid (r : BlockRef) (fs : list Function) : Prop :=
  (snd r < nblocks (fst r) fs)%nat.

(** The number of terminator instructions in a block. *)
Definition terminators (b : BasicBlock) : nat :=
  length (List.filter is_terminator (instructions b)).

(** The functions of the module after a block named [name] has been
    appended to function number [f]. *)
Definition add_block (f : nat) (name : string) (fs : list Function)
    : list Function :=
  alter (fun fn =>
           MkFunction (fn_name fn) (fn_return_type fn) (fn_args fn)
                      (fn_var_arg fn) (fn_arg_names fn)
                      (blocks fn ++ [MkBlock name []]))
        f fs.

(** Outside any function: no builder, no current function. *)
Definition Idle (c : LLVMCompiler) : Prop :=
  builder c = None /\ current_function c = None.

(** Inside a function: the builder is positioned in block [r] of the
    current function. *)
Definition InSync (c : LLVMCompiler) (r : BlockRef) : Prop :=
  builder c = Some r
  /\ current_function c = Some (fst r)
  /\ valid r (module_functions c).

(** The blocks a statement appends: three per [while], three per [if]
    with an [else], two per [if] without. *)
Fixpoint new_blocks (stmt : ASTNode) : nat :=
  match stmt with
  | IfStatement _ then_branch None => (2 + new_blocks then_branch)%nat
  | IfStatement _ then_branch (Some else_branch) =>
    (3 + new_blocks then_branch + new_blocks else_branch)%nat
  | WhileStatement _ body => (3 + new_blocks body)%nat
  | Block statements =>
    (fix sum (l : list ASTNode) : nat :=
       match l with
       | [] => 0%nat
       | s :: l' => (new_blocks s + sum l')%nat
       end) statements
  | _ => 0%nat
  end.

Definition new_blocks_list (l : list ASTNode) : nat :=
  (fix sum (l : list ASTNode) : nat :=
     match l with
     | [] => 0%nat
     | s :: l' => (new_blocks s + sum l')%nat
     end) l.

(** [c'] is [c] after instructions that are not terminators were
    inserted at the builder's position; the symbol tables may differ. *)
Definition inserts (c c' : LLVMCompiler) : Prop :=
  exists extra,
    nonterminators extra
    /\ module_functions c' = emit extra c
    /\ builder c' = builder c
    /\ current_function c' = current_function c.

(** How the module changes while code is lowered inside a function, from
    the builder in block [r] to the builder in block [r']: [n] blocks are
    appended to the function; no block but [r] that existed before is
    touched; [r] only grows at its end; the blocks appended hold exactly
    one terminator, apart from [r'] and from the blocks of [pending],
    which were appended and not entered yet; [r] holds exactly one once
    the builder has left it; [r'] holds at most one. *)
Record Lowered (pending : list BlockRef) (c : LLVMCompiler) (r : BlockRef)
    (c' : LLVMCompiler) (r' : BlockRef) (n : nat) : Prop := MkLowered {
  low_sync : InSync c' r';
  low_function : fst r' = fst r;
  low_nblocks :
    forall f,
      nblocks f (module_functions c')
      = (nblocks f (module_functions c)
         + if decide (f = fst r) then n else 0)%nat;
  low_frame :
    forall q, valid q (module_functions c) -> q <> r ->
      block_at q (module_functions c') = block_at q (module_functions c);
  low_prefix :
    exists extra,
      block_at r (module_functions c')
      = append_instructions extra (block_at r (module_functions c));
  low_fresh : r' = r \/ ~ valid r' (module_functions c);
  low_closed_new :
    forall q, valid q (module_functions c') ->
      ~ valid q (module_functions c) -> q <> r' -> q ∉ pending ->
      terminators (block_at q (module_functions c')) = 1%nat;
  low_pending :
    forall p, p ∈ pending ->
      fst p = fst r
      /\ valid p (module_functions c') /\ ~ valid p (module_functions c)
      /\ p <> r'
      /\ (terminators (block_at p (module_functions c')) <= 1)%nat;
  low_open_same :
    r' = r ->
    (terminators (block_at r (module_functions c)) <= 1)%nat ->
    (terminators (block_at r' (module_functions c')) <= 1)%nat;
  low_open_new :
    r' <> r ->
    (terminators (block_at r' (module_functions c')) <= 1)%nat;
  low_switch :
    r' <> r -> terminators (block_at r (module_functions c')) = 1%nat
}.

(** Every block of the module holds exactly one terminator. *)
Definition AllClosed (fs : list Function) : Prop :=
  forall q, valid q fs -> terminators (block_at q fs) = 1%nat.

(** An action of the lowerer that, run inside a function, either leaves
    the compiler idle (it lowered a nested function) or appends [n]
    blocks and changes the module as [Lowered] says. *)
Definition lowers (m : M unit) (n : nat) : Prop :=
  forall c c' r,
    m c = Ok (tt, c') -> InSync c r ->
    Idle c' \/ exists r', Lowered [] c r c' r' n.

(** An action that, run outside any function, ends outside any. *)
Definition stays_idle (m : M unit) : Prop :=
  forall c c', m c = Ok (tt, c') -> Idle c -> Idle c'.

(** An action that, run outside any function on a module whose blocks
    are all closed, leaves all blocks closed. *)
Definition keeps_closed (m : M unit) : Prop :=
  forall c c',
    m c = Ok (tt, c') -> Idle c ->
    AllClosed (module_functions c) -> AllClosed (module_functions c').

(** [func f() -> int { return 1; auto x = 2 }] *)
Definition return_then_declare : Program :=
  [FunctionDeclaration "f" [] "int"
     [ReturnStatement (Some (NumberLiteral (NInt 1)));
      VarDeclaration "x" (Some "auto") (Some (NumberLiteral (NInt 2))) false]
     false].

(** [func h() -> void { if true { auto y = 1 } }] *)
Definition declare_in_branch : Program :=
  [FunctionDeclaration "h" [] "void"
     [IfStatement (BooleanLiteral true)
        (Block [VarDeclaration "y" (Some "auto")
                  (Some (NumberLiteral (NInt 1))) false])
        None]
     false].

(** [func k() -> void { auto x = 1; auto x = 2 }] *)
Definition declare_twice : Program :=
  [FunctionDeclaration "k" [] "void"
     [VarDeclaration "x" (Some "auto") (Some (NumberLiteral (NInt 1))) false;
      VarDeclaration "x" (Some "auto") (Some (NumberLiteral (NInt 2))) false]
     false].

(** The module of [declare_in_branch], and the compiler after
    [auto x = 5] has been lowered at the start of the body of [f]. *)
Definition declare_in_branch_module : LLVMCompiler :=
  match compile_program declare_in_branch new with
  | Ok c => c
  | _ => new
  end.

Definition after_declaration : LLVMCompiler :=
  match compile_var_declaration "x" (Some (NumberLiteral (NInt 5))) in_body
  with
  | Ok (_, c) => c
  | _ => in_body
  end.

(** The compiler after [while a < b { a = a + 1 }] has been lowered at
    the start of the body of [f]. *)
Definition sample_loop : ASTNode :=
  WhileStatement (BinaryOp (Identifier "a") "<" (Identifier "b"))
    (Block [AssignmentStatement (Identifier "a")
              (BinaryOp (Identifier "a") "+" (NumberLiteral (NInt 1))) "="]).

Definition after_sample_loop : LLVMCompiler :=
  match compile_statement sample_loop in_body with
  | Ok (_, c) => c
  | _ => in_body
  end.

(** The names a statement declares when it is lowered: its variable
    declarations, also in nested blocks and branches, and for a function
    declaration its parameters and the names its body declares. *)
Fixpoint declared_names (stmt : ASTNode) : list string :=
  match stmt with
  | VarDeclaration name _ _ _ => [name]
  | FunctionDeclaration _ parameters _ body _ =>
    (map fst parameters ++
     (fix names (l : list ASTNode) : list string :=
        match l with
        | [] => []
        | s :: l' => (declared_names s ++ names l')%list
        end) body)%list
  | Block statements =>
    (fix names (l : list ASTNode) : list string :=
       match l with
       | [] => []
       | s :: l' => (declared_names s ++ names l')%list
       end) statements
  | IfStatement _ then_branch else_branch =>
    (declared_names then_branch ++
     match else_branch with
     | Some e => declared_names e
     | None => []
     end)%list
  | WhileStatement _ body => declared_names body
  | _ => []
  end.

Definition declared_names_list (l : list ASTNode) : list string :=
  (fix names (l : list ASTNode) : list string :=
     match l with
     | [] => []
     | s :: l' => (declared_names s ++ names l')%list
     end) l.

(** The table entry is a stack slot. *)
Definition is_slot (o : option Value) : Prop :=
  exists id, o = Some (slot id).

(** An action that changes the table of variables only at names of [D],
    which it binds to stack slots. *)
Definition binds {A : Type} (m : M A) (D : string -> Prop) : Prop :=
  forall c a c' x,
    m c = Ok (a, c') ->
    variables c' !! x = variables c !! x
    \/ (D x /\ is_slot (variables c' !! x)).

(** The compiler when [compile_function] has created the function object
    and its entry block, before the parameters are bound. *)
Definition function_entry (name : string)
    (parameters : list (string * string)) (return_type : string)
    (c : LLVMCompiler) : LLVMCompiler :=
  let f := length (module_functions c) in
  let rty := if String.eqb return_type "int" then i64 else void in
  set_functions (<[name := f]> (functions c))
    (set_current_function (Some f)
       (set_builder (Some (f, 0%nat))
          (set_module_functions
             (module_functions c ++
              [MkFunction name rty (map (fun _ => i64) parameters) false
                          (map fst parameters) [MkBlock "entry" []]]) c))).

(** Membership in the characters [skip_whitespace] skips: space, tab and
    carriage return. *)
Definition is_blank (ch : ascii) : bool :=
  existsb (Ascii.eqb ch) [" "; "009"; "013"]%char.

(** The characters an identifier goes on with. *)
Definition is_identifier_char (ch : ascii) : bool :=
  Lexer.isalnum ch || Ascii.eqb ch "_".

(** The input ends, or goes on with a character for which [continue] is
    false. *)
Definition stops_at (continue : ascii -> bool) (rest : list ascii) : Prop :=
  match rest with
  | [] => True
  | ch :: _ => continue ch = false
  end.

(** The token an identifier or keyword [id_str] is lexed into. *)
Definition word_token (id_str : string) (line column : nat) : Lexer.Token :=
  let token_type := Lexer.keywords_get id_str Lexer.keywords Lexer.IDENTIFIER in
  Lexer.MkToken token_type
    (match token_type with
     | Lexer.BOOLEAN => Lexer.VBool (String.eqb id_str "true")
     | Lexer.NULL => Lexer.VNone
     | _ => Lexer.VStr id_str
     end)
    line column.

(** The text a string body denotes: a backslash takes the character after
    it, [n] and [t] standing for a newline and a tab.  [None] when the
    body holds a bare [quote] or ends in a backslash. *)
Fixpoint unescape (quote : ascii) (body : list ascii) : option string :=
  match body with
  | [] => Some ""
  | ch :: body' =>
    if Ascii.eqb ch quote then None
    else if Ascii.eqb ch "\" then
      match body' with
      | [] => None
      | e :: body'' =>
        option_map
          (String (if Ascii.eqb e "n" then "010"%char
                   else if Ascii.eqb e "t" then "009"%char else e))
          (unescape quote body'')
      end
    else option_map (String ch) (unescape quote body')
  end.

(** The character [ch], followed by [next], starts nothing the lexer
    knows. *)
Definition starts_no_token (ch : ascii) (next : option ascii) : Prop :=
  is_blank ch = false
  /\ Ascii.eqb ch "#" = false
  /\ Ascii.eqb ch "010" = false
  /\ Lexer.isdigit ch = false
  /\ Ascii.eqb ch "034" = false
  /\ Ascii.eqb ch "'" = false
  /\ Lexer.isalpha ch = false
  /\ Ascii.eqb ch "_" = false
  /\ Lexer.two_char_operator ch next = None
  /\ Lexer.one_char_operator ch = None.

(** The exceptions that leave the lexer: its own [SyntaxError], the
    [ValueError] of [int()] and [float()], the [TypeError] of [str + None]. *)
Definition lexer_error (e : PyError) : Prop :=
  (exists msg, e = SyntaxError msg) \/ e = ValueError \/ e = TypeError.

(** An action of the lowerer that always returns or raises, and relates
    the compiler it starts from to the compiler it returns by [R]. *)
Definition preserves {A : Type}
    (R : LLVMCompiler -> LLVMCompiler -> Prop) (m : M A) : Prop :=
  forall c,
    match m c with
    | Ok (_, c') => R c c'
    | Raise _ => True
    | OutOfFuel => False
    end.

(** A relation between compiler states that holds across every single
    change the lowerer makes to its state: taking an object identity,
    inserting an instruction, appending a block, a function or a global
    variable, moving the builder, changing the current function, binding
    a name in one of the symbol tables. *)
Record Extension (R : LLVMCompiler -> LLVMCompiler -> Prop) : Prop :=
  MkExtension {
  ext_refl : forall c, R c c;
  ext_trans : forall a b c, R a b -> R b c -> R a c;
  ext_next_id : forall c, R c (set_next_id (S (next_id c)) c);
  ext_insert :
    forall c b i,
      R c (set_module_functions
             (update_block b (append_instructions [i]) (module_functions c))
             c);
  ext_append_block :
    forall c f name,
      R c (set_module_functions (add_block f name (module_functions c)) c);
  ext_new_function :
    forall c fn, R c (set_module_functions (module_functions c ++ [fn]) c);
  ext_new_global :
    forall c g, R c (set_module_globals (module_globals c ++ [g]) c);
  ext_builder : forall c b, R c (set_builder b c);
  ext_current_function : forall c f, R c (set_current_function f c);
  ext_variables :
    forall c x v, R c (set_variables (<[x := v]> (variables c)) c);
  ext_functions :
    forall c x f, R c (set_functions (<[x := f]> (functions c)) c)
}.

(** What a function of the module is declared as. *)
Definition signature (fn : Function)
    : string * LType * list LType * list string :=
  (fn_name fn, fn_return_type fn, fn_args fn, fn_arg_names fn).

(** The functions of [c] are still in [c'], in the same places and with
    the same signatures. *)
Definition keeps_functions (c c' : LLVMCompiler) : Prop :=
  exists added,
    map signature (module_functions c')
    = (map signature (module_functions c) ++ added)%list.

(** The names bound in the symbol tables of [c] are still bound in
    [c']. *)
Definition keeps_symbols (c c' : LLVMCompiler) : Prop :=
  (forall x, is_Some (variables c !! x) -> is_Some (variables c' !! x))
  /\ (forall f, is_Some (functions c !! f) -> is_Some (functions c' !! f)).

(** Every block of [c] is still in [c'], under the same name and with the
    same instructions at its start. *)
Definition only_appends (c c' : LLVMCompiler) : Prop :=
  forall q,
    valid q (module_functions c) ->
    valid q (module_functions c')
    /\ exists extra,
         block_at q (module_functions c')
         = append_instructions extra (block_at q (module_functions c)).


(** What the parser builds.  [parsed n] holds when [n] has the shape of
    a node the parser returns: no object literal anywhere in it; the
    body of a [while] and of a [for] and the first branch of an [if] are
    blocks, the [else] branch is a block or another [if]; a variable
    declaration has its type and is not constant; the methods of a class
    are function declarations and its fields variable declarations. *)
Definition is_block (n : ASTNode) : bool :=
  match n with Block _ => true | _ => false end.
Definition is_if (n : ASTNode) : bool :=
  match n with IfStatement _ _ _ => true | _ => false end.
Definition is_function (n : ASTNode) : bool :=
  match n with FunctionDeclaration _ _ _ _ _ => true | _ => false end.
Definition is_variable (n : ASTNode) : bool :=
  match n with VarDeclaration _ _ _ _ => true | _ => false end.

Fixpoint parsed (n : ASTNode) : bool :=
  match n with
  | NumberLiteral _ | StringLiteral _ | BooleanLiteral _ | NullLiteral
  | Identifier _ => true
  | BinaryOp l _ r => parsed l && parsed r
  | UnaryOp _ e => parsed e
  | CallExpr f args => parsed f && forallb parsed args
  | ArrayLiteral es => forallb parsed es
  | IndexExpr a i => parsed a && parsed i
  | MemberAccess o _ => parsed o
  | LambdaExpr _ b _ => parsed b
  | PipelineExpr v fs => parsed v && forallb parsed fs
  | MatchExpr v cs =>
    parsed v
    && forallb (fun c => match c with (p, r) => parsed p && parsed r end) cs
  | VarDeclaration _ t i c =>
    match t with Some _ => true | None => false end
    && negb c
    && match i with Some e => parsed e | None => true end
  | FunctionDeclaration _ _ _ body _ => forallb parsed body
  | ClassDeclaration _ ms fs ts =>
    match ts with Some _ => true | None => false end
    && forallb (fun m => is_function m && parsed m) ms
    && forallb (fun f => is_variable f && parsed f) fs
  | TraitDeclaration _ _ => true
  | Block ss => forallb parsed ss
  | ExpressionStatement e => parsed e
  | ReturnStatement v => match v with Some e => parsed e | None => true end
  | IfStatement c t e =>
    parsed c && is_block t && parsed t
    && match e with
       | Some x => (is_block x || is_if x) && parsed x
       | None => true
       end
  | WhileStatement c b => parsed c && is_block b && parsed b
  | ForStatement _ i b => parsed i && is_block b && parsed b
  | BreakStatement | ContinueStatement => true
  | AssignmentStatement t v _ => parsed t && parsed v
  | ParallelBlock ts => forallb parsed ts
  | AsyncAwait e => parsed e
  | ImportStatement _ _ _ => true
  | ObjectLiteral _ _ => false
  end.

(** A result that, when it is a value, satisfies [P]. *)
Definition yields {A : Type} (P : A -> Prop) (r : Result A) : Prop :=
  match r with
  | Ok a => P a
  | _ => True
  end.


(** What each method of the parser returns, for one amount of fuel. *)
Definition node_ok (r : ASTNode * nat) : Prop := parsed (fst r) = true.
Definition nodes_ok (r : list ASTNode * nat) : Prop :=
  forallb parsed (fst r) = true.

Definition shape_invariant (tokens : list Lexer.Token) (fuel : nat)
    : Prop :=
  (forall pos, yields node_ok (Parser.parse_statement tokens fuel pos))
  /\ (forall pos,
        yields (fun r => is_function (fst r) = true /\ node_ok r)
               (Parser.parse_function_declaration tokens fuel pos))
  /\ (forall pos,
        yields (fun r => is_variable (fst r) = true /\ node_ok r)
               (Parser.parse_var_declaration tokens fuel pos))
  /\ (forall pos, yields node_ok (Parser.parse_class_declaration tokens fuel pos))
  /\ (forall pos ms fs,
        forallb (fun m => is_function m && parsed m) ms = true ->
        forallb (fun f => is_variable f && parsed f) fs = true ->
        yields (fun r =>
                  forallb (fun m => is_function m && parsed m) r.1.1 = true
                  /\ forallb (fun f => is_variable f && parsed f) r.1.2
                     = true)
               (Parser.class_body_loop tokens fuel pos ms fs))
  /\ (forall pos, yields nodes_ok (Parser.parse_block tokens fuel pos))
  /\ (forall pos acc, forallb parsed acc = true ->
        yields nodes_ok (Parser.block_loop tokens fuel pos acc))
  /\ (forall pos, yields node_ok (Parser.parse_return_statement tokens fuel pos))
  /\ (forall pos,
        yields (fun r => is_if (fst r) = true /\ node_ok r)
               (Parser.parse_if_statement tokens fuel pos))
  /\ (forall pos, yields node_ok (Parser.parse_while_statement tokens fuel pos))
  /\ (forall pos, yields node_ok (Parser.parse_for_statement tokens fuel pos))
  /\ (forall pos, yields node_ok (Parser.parse_parallel_block tokens fuel pos))
  /\ (forall pos acc, forallb parsed acc = true ->
        yields nodes_ok (Parser.parallel_loop tokens fuel pos acc))
  /\ (forall pos, yields node_ok (Parser.parse_expression tokens fuel pos))
  /\ (forall pos, yields node_ok (Parser.parse_pipeline tokens fuel pos))
  /\ (forall pos acc, forallb parsed acc = true ->
        yields nodes_ok (Parser.pipeline_loop tokens fuel pos acc))
  /\ (forall pos, yields node_ok (Parser.parse_logical_or tokens fuel pos))
  /\ (forall pos lhs, parsed lhs = true ->
        yields node_ok (Parser.logical_or_loop tokens fuel pos lhs))
  /\ (forall pos, yields node_ok (Parser.parse_logical_and tokens fuel pos))
  /\ (forall pos lhs, parsed lhs = true ->
        yields node_ok (Parser.logical_and_loop tokens fuel pos lhs))
  /\ (forall pos, yields node_ok (Parser.parse_equality tokens fuel pos))
  /\ (forall pos lhs, parsed lhs = true ->
        yields node_ok (Parser.equality_loop tokens fuel pos lhs))
  /\ (forall pos, yields node_ok (Parser.parse_comparison tokens fuel pos))
  /\ (forall pos lhs, parsed lhs = true ->
        yields node_ok (Parser.comparison_loop tokens fuel pos lhs))
  /\ (forall pos, yields node_ok (Parser.parse_addition tokens fuel pos))
  /\ (forall pos lhs, parsed lhs = true ->
        yields node_ok (Parser.addition_loop tokens fuel pos lhs))
  /\ (forall pos, yields node_ok (Parser.parse_multiplication tokens fuel pos))
  /\ (forall pos lhs, parsed lhs = true ->
        yields node_ok (Parser.multiplication_loop tokens fuel pos lhs))
  /\ (forall pos, yields node_ok (Parser.parse_power tokens fuel pos))
  /\ (forall pos, yields node_ok (Parser.parse_unary tokens fuel pos))
  /\ (forall pos, yields node_ok (Parser.parse_postfix tokens fuel pos))
  /\ (forall pos expr, parsed expr = true ->
        yields node_ok (Parser.postfix_loop tokens fuel pos expr))
  /\ (forall pos, yields nodes_ok (Parser.parse_argument_list tokens fuel pos))
  /\ (forall pos acc, forallb parsed acc = true ->
        yields nodes_ok (Parser.expression_loop tokens fuel pos acc))
  /\ (forall pos, yields node_ok (Parser.parse_primary tokens fuel pos))
  /\ (forall pos, yields node_ok (Parser.parse_match_expression tokens fuel pos))
  /\ (forall pos acc,
        forallb (fun c => match c with (p, r) => parsed p && parsed r end)
                acc = true ->
        yields (fun r =>
                  forallb (fun c => match c with
                                    | (p, r) => parsed p && parsed r
                                    end) (fst r) = true)
               (Parser.case_loop tokens fuel pos acc))
  /\ (forall pos, yields node_ok (Parser.parse_lambda tokens fuel pos)).


(** A result that is a value satisfying [P] or the parser's
    [SyntaxError]: not another exception, and the fuel did not run
    out. *)
Definition finishes {A : Type} (P : A -> Prop) (r : Result A) : Prop :=
  match r with
  | Ok a => P a
  | Raise e => exists msg, e = SyntaxError msg
  | OutOfFuel => False
  end.


(** What each of the methods that call each other does, with fuel for
    what is left of the input: twenty units per token and a few more for
    the calls that come before a token is consumed. *)
Definition moves (tokens : list Lexer.Token) (pos : nat) (r : nat) : Prop :=
  (pos < r /\ r < length tokens)%nat.
Definition stays (tokens : list Lexer.Token) (pos : nat) (r : nat) : Prop :=
  (pos <= r /\ r < length tokens)%nat.

Definition ends_invariant (tokens : list Lexer.Token) (fuel : nat) : Prop :=
  (forall pos, (pos < length tokens)%nat -> (20 * (length tokens - pos) + 13 <= fuel)%nat ->
     finishes (fun r => moves tokens pos (snd r)) (Parser.parse_statement tokens fuel pos))
  /\ (forall pos, (pos < length tokens)%nat -> (20 * (length tokens - pos) <= fuel)%nat ->
        finishes (fun r => moves tokens pos (snd r))
                 (Parser.parse_function_declaration tokens fuel pos))
  /\ (forall pos, (pos < length tokens)%nat -> (20 * (length tokens - pos) <= fuel)%nat ->
        finishes (fun r => moves tokens pos (snd r))
                 (Parser.parse_var_declaration tokens fuel pos))
  /\ (forall pos, (pos < length tokens)%nat -> (20 * (length tokens - pos) <= fuel)%nat ->
        finishes (fun r => moves tokens pos (snd r))
                 (Parser.parse_class_declaration tokens fuel pos))
  /\ (forall pos ms fs, (pos < length tokens)%nat ->
        (20 * (length tokens - pos) + 1 <= fuel)%nat ->
        finishes (fun r => stays tokens pos (snd r))
                 (Parser.class_body_loop tokens fuel pos ms fs))
  /\ (forall pos, (pos < length tokens)%nat -> (20 * (length tokens - pos) <= fuel)%nat ->
        finishes (fun r => moves tokens pos (snd r)) (Parser.parse_block tokens fuel pos))
  /\ (forall pos acc, (pos < length tokens)%nat ->
        (20 * (length tokens - pos) + 14 <= fuel)%nat ->
        finishes (fun r => stays tokens pos (snd r))
                 (Parser.block_loop tokens fuel pos acc))
  /\ (forall pos, (pos < length tokens)%nat -> (20 * (length tokens - pos) <= fuel)%nat ->
        finishes (fun r => moves tokens pos (snd r))
                 (Parser.parse_return_statement tokens fuel pos))
  /\ (forall pos, (pos < length tokens)%nat -> (20 * (length tokens - pos) <= fuel)%nat ->
        finishes (fun r => moves tokens pos (snd r))
                 (Parser.parse_if_statement tokens fuel pos))
  /\ (forall pos, (pos < length tokens)%nat -> (20 * (length tokens - pos) <= fuel)%nat ->
        finishes (fun r => moves tokens pos (snd r))
                 (Parser.parse_while_statement tokens fuel pos))
  /\ (forall pos, (pos < length tokens)%nat -> (20 * (length tokens - pos) <= fuel)%nat ->
        finishes (fun r => moves tokens pos (snd r))
                 (Parser.parse_for_statement tokens fuel pos))
  /\ (forall pos, (pos < length tokens)%nat -> (20 * (length tokens - pos) <= fuel)%nat ->
        finishes (fun r => moves tokens pos (snd r))
                 (Parser.parse_parallel_block tokens fuel pos))
  /\ (forall pos acc, (pos < length tokens)%nat ->
        (20 * (length tokens - pos) + 13 <= fuel)%nat ->
        finishes (fun r => stays tokens pos (snd r))
                 (Parser.parallel_loop tokens fuel pos acc))
  /\ (forall pos, (pos < length tokens)%nat ->
        (20 * (length tokens - pos) + 12 <= fuel)%nat ->
        finishes (fun r => moves tokens pos (snd r))
                 (Parser.parse_expression tokens fuel pos))
  /\ (forall pos, (pos < length tokens)%nat ->
        (20 * (length tokens - pos) + 11 <= fuel)%nat ->
        finishes (fun r => moves tokens pos (snd r))
                 (Parser.parse_pipeline tokens fuel pos))
  /\ (forall pos acc, (pos < length tokens)%nat ->
        (20 * (length tokens - pos) <= fuel)%nat ->
        finishes (fun r => stays tokens pos (snd r))
                 (Parser.pipeline_loop tokens fuel pos acc))
  /\ (forall pos, (pos < length tokens)%nat ->
        (20 * (length tokens - pos) + 10 <= fuel)%nat ->
        finishes (fun r => moves tokens pos (snd r))
                 (Parser.parse_logical_or tokens fuel pos))
  /\ (forall pos lhs, (pos < length tokens)%nat ->
        (20 * (length tokens - pos) <= fuel)%nat ->
        finishes (fun r => stays tokens pos (snd r))
                 (Parser.logical_or_loop tokens fuel pos lhs))
  /\ (forall pos, (pos < length tokens)%nat ->
        (20 * (length tokens - pos) + 9 <= fuel)%nat ->
        finishes (fun r => moves tokens pos (snd r))
                 (Parser.parse_logical_and tokens fuel pos))
  /\ (forall pos lhs, (pos < length tokens)%nat ->
        (20 * (length tokens - pos) <= fuel)%nat ->
        finishes (fun r => stays tokens pos (snd r))
                 (Parser.logical_and_loop tokens fuel pos lhs))
  /\ (forall pos, (pos < length tokens)%nat ->
        (20 * (length tokens - pos) + 8 <= fuel)%nat ->
        finishes (fun r => moves tokens pos (snd r))
                 (Parser.parse_equality tokens fuel pos))
  /\ (forall pos lhs, (pos < length tokens)%nat ->
        (20 * (length tokens - pos) <= fuel)%nat ->
        finishes (fun r => stays tokens pos (snd r))
                 (Parser.equality_loop tokens fuel pos lhs))
  /\ (forall pos, (pos < length tokens)%nat ->
        (20 * (length tokens - pos) + 7 <= fuel)%nat ->
        finishes (fun r => moves tokens pos (snd r))
                 (Parser.parse_comparison tokens fuel pos))
  /\ (forall pos lhs, (pos < length tokens)%nat ->
        (20 * (length tokens - pos) <= fuel)%nat ->
        finishes (fun r => stays tokens pos (snd r))
                 (Parser.comparison_loop tokens fuel pos lhs))
  /\ (forall pos, (pos < length tokens)%nat ->
        (20 * (length tokens - pos) + 6 <= fuel)%nat ->
        finishes (fun r => moves tokens pos (snd r))
                 (Parser.parse_addition tokens fuel pos))
  /\ (forall pos lhs, (pos < length tokens)%nat ->
        (20 * (length tokens - pos) <= fuel)%nat ->
        finishes (fun r => stays tokens pos (snd r))
                 (Parser.addition_loop tokens fuel pos lhs))
  /\ (forall pos, (pos < length tokens)%nat ->
        (20 * (length tokens - pos) + 5 <= fuel)%nat ->
        finishes (fun r => moves tokens pos (snd r))
                 (Parser.parse_multiplication tokens fuel pos))
  /\ (forall pos lhs, (pos < length tokens)%nat ->
        (20 * (length tokens - pos) <= fuel)%nat ->
        finishes (fun r => stays tokens pos (snd r))
                 (Parser.multiplication_loop tokens fuel pos lhs))
  /\ (forall pos, (pos < length tokens)%nat ->
        (20 * (length tokens - pos) + 4 <= fuel)%nat ->
        finishes (fun r => moves tokens pos (snd r)) (Parser.parse_power tokens fuel pos))
  /\ (forall pos, (pos < length tokens)%nat ->
        (20 * (length tokens - pos) + 3 <= fuel)%nat ->
        finishes (fun r => moves tokens pos (snd r)) (Parser.parse_unary tokens fuel pos))
  /\ (forall pos, (pos < length tokens)%nat ->
        (20 * (length tokens - pos) + 2 <= fuel)%nat ->
        finishes (fun r => moves tokens pos (snd r))
                 (Parser.parse_postfix tokens fuel pos))
  /\ (forall pos expr, (pos < length tokens)%nat ->
        (20 * (length tokens - pos) <= fuel)%nat ->
        finishes (fun r => stays tokens pos (snd r))
                 (Parser.postfix_loop tokens fuel pos expr))
  /\ (forall pos, (pos < length tokens)%nat ->
        (20 * (length tokens - pos) + 14 <= fuel)%nat ->
        finishes (fun r => stays tokens pos (snd r))
                 (Parser.parse_argument_list tokens fuel pos))
  /\ (forall pos acc, (pos < length tokens)%nat ->
        (20 * (length tokens - pos) + 13 <= fuel)%nat ->
        finishes (fun r => moves tokens pos (snd r))
                 (Parser.expression_loop tokens fuel pos acc))
  /\ (forall pos, (pos < length tokens)%nat ->
        (20 * (length tokens - pos) + 1 <= fuel)%nat ->
        finishes (fun r => moves tokens pos (snd r))
                 (Parser.parse_primary tokens fuel pos))
  /\ (forall pos acc, (pos < length tokens)%nat ->
        (20 * (length tokens - pos) <= fuel)%nat ->
        finishes (fun r => moves tokens pos (snd r))
                 (Parser.field_loop tokens fuel pos acc))
  /\ (forall pos, (pos < length tokens)%nat -> (20 * (length tokens - pos) <= fuel)%nat ->
        finishes (fun r => moves tokens pos (snd r))
                 (Parser.parse_match_expression tokens fuel pos))
  /\ (forall pos acc, (pos < length tokens)%nat ->
        (20 * (length tokens - pos) + 13 <= fuel)%nat ->
        finishes (fun r => stays tokens pos (snd r))
                 (Parser.case_loop tokens fuel pos acc))
  /\ (forall pos, (pos < length tokens)%nat -> (20 * (length tokens - pos) <= fuel)%nat ->
        finishes (fun r => moves tokens pos (snd r)) (Parser.parse_lambda tokens fuel pos)).


(** The payload the parser reads from a token of each type: a number
    from a [NUMBER], a boolean from a [BOOLEAN], nothing from a [NULL]
    and from the end of input, a string from any other; and the token is
    not a [COMMENT]. *)
Definition lexed (t : Lexer.Token) : bool :=
  match Lexer.type t, Lexer.value t with
  | Lexer.COMMENT, _ => false
  | Lexer.NUMBER, (Lexer.VInt _ | Lexer.VFloat _) => true
  | Lexer.NUMBER, _ => false
  | Lexer.BOOLEAN, Lexer.VBool _ => true
  | Lexer.BOOLEAN, _ => false
  | (Lexer.NULL | Lexer.EOF), Lexer.VNone => true
  | (Lexer.NULL | Lexer.EOF), _ => false
  | _, Lexer.VStr _ => true
  | _, _ => false
  end.

(** The token types of words: neither a number, nor the end of input,
    nor a comment. *)
Definition is_word_type (ty : Lexer.TokenType) : bool :=
  match ty with
  | Lexer.NUMBER | Lexer.EOF | Lexer.COMMENT => false
  | _ => true
  end.

End Props.

(** * Theorems *)

(** ** Assignability *)

Section Assignability.
Import Types.

Lemma TypeKind_eqb_eq (a b : TypeKind) : TypeKind_eqb a b = true <-> a = b.
Proof. destruct a, b; simpl; split; congruence. Qed.

(** [Type.__eq__] compares a type equal to itself, so Python's identity
    shortcut in list comparison changes nothing. *)
Lemma Type_eq_refl (t : Type_) : Type_eq t t = true.
Proof.
  revert t. fix IH 1. intros [k n e p r g]. simpl.
  replace (TypeKind_eqb k k) with true
    by (symmetry; apply TypeKind_eqb_eq; reflexivity).
  simpl.
  destruct (TypeKind_eqb k ARRAY).
  - destruct e as [a|]; [apply IH | reflexivity].
  - destruct (TypeKind_eqb k FUNCTION).
    + apply andb_true_iff. split.
      * destruct p as [l|]; [| reflexivity].
        induction l as [|a l IHl]; [reflexivity |].
        apply andb_true_iff. split; [apply IH | exact IHl].
      * destruct r as [a|]; [apply IH | reflexivity].
    + apply String.eqb_refl.
Qed.


End Assignability.

(** ** Straight-line lowering: expressions *)

Section Expressions.
Import Ast IR Compiler Props.
Local Open Scope list_scope.

Lemma mbind_Ok {A B : Type} (m : M A) (k : A -> M B) c r :
  mbind m k c = Ok r -> exists a c1, m c = Ok (a, c1) /\ k a c1 = Ok r.
Proof.
  unfold mbind. destruct (m c) as [[a c1]| |]; try discriminate.
  intros H. exists a, c1. split; [reflexivity | exact H].
Qed.

Lemma lift_Ok {A : Type} (r : Result A) c a c' :
  lift r c = Ok (a, c') -> r = Ok a /\ c' = c.
Proof. unfold lift. destruct r; intros H; inversion H; auto. Qed.

Lemma get_builder_Ok c b c' :
  get_builder c = Ok (b, c') -> builder c = Some b /\ c' = c.
Proof.
  unfold get_builder. destruct (builder c); intros H; inversion H; auto.
Qed.

Lemma update_block_id r g fs :
  (forall b, g b = b) -> update_block r g fs = fs.
Proof.
  intros Hg. unfold update_block. apply list_alter_id.
  intros [n rt a va an bs]. simpl. f_equal. apply list_alter_id. exact Hg.
Qed.

Lemma update_block_update_block r g h fs :
  update_block r g (update_block r h fs) = update_block r (g ∘ h) fs.
Proof.
  unfold update_block. rewrite list_alter_alter_eq.
  apply list_alter_ext; [| reflexivity].
  intros [n rt a va an bs] _. simpl. f_equal. apply list_alter_alter_eq.
Qed.

Lemma update_block_ext r g h fs :
  (forall b, g b = h b) -> update_block r g fs = update_block r h fs.
Proof.
  intros E. unfold update_block. apply list_alter_ext; [| reflexivity].
  intros [n rt a va an bs] _. simpl. f_equal.
  apply list_alter_ext; [| reflexivity]. intros b _. apply E.
Qed.

Lemma nonterminators_app l1 l2 :
  nonterminators l1 -> nonterminators l2 -> nonterminators (l1 ++ l2).
Proof.
  unfold nonterminators. rewrite forallb_app. intros -> ->. reflexivity.
Qed.

Lemma emits_refl c : emits c c.
Proof.
  exists []. repeat split. unfold emit. destruct (builder c); [| reflexivity].
  symmetry. apply update_block_id. intros [n l]. unfold append_instructions.
  simpl. rewrite app_nil_r. reflexivity.
Qed.

Lemma emits_trans c1 c2 c3 : emits c1 c2 -> emits c2 c3 -> emits c1 c3.
Proof.
  intros (e1 & N1 & F1 & B1 & V1 & G1 & C1) (e2 & N2 & F2 & B2 & V2 & G2 & C2).
  exists (e1 ++ e2). split; [apply nonterminators_app; assumption |].
  repeat split; try congruence.
  rewrite F2. unfold emit. rewrite B1, F1. unfold emit.
  destruct (builder c1) as [b|]; [| reflexivity].
  rewrite update_block_update_block. apply update_block_ext.
  intros [n l]. unfold append_instructions. simpl.
  rewrite app_assoc. reflexivity.
Qed.

(** What an action of the lowerer does when it is straight-line code. *)
Definition straight {A : Type} (m : M A) : Prop :=
  forall c a c', m c = Ok (a, c') -> emits c c'.

Lemma straight_ret {A : Type} (a : A) : straight (ret a).
Proof. intros c a' c' H. inversion H. apply emits_refl. Qed.

Lemma straight_raise {A : Type} e : straight (@raise A e).
Proof. intros c a c' H. discriminate. Qed.

Lemma straight_lift {A : Type} (r : Result A) : straight (lift r).
Proof. intros c a c' H. apply lift_Ok in H as [_ ->]. apply emits_refl. Qed.

Lemma straight_bind {A B : Type} (m : M A) (k : A -> M B) :
  straight m -> (forall a, straight (k a)) -> straight (mbind m k).
Proof.
  intros Hm Hk c b c' H. apply mbind_Ok in H as (a & c1 & H1 & H2).
  eapply emits_trans; [eapply Hm | eapply Hk]; eassumption.
Qed.

Lemma straight_get_builder : straight get_builder.
Proof.
  intros c b c' H. apply get_builder_Ok in H as [_ ->]. apply emits_refl.
Qed.

Lemma straight_fresh : straight fresh.
Proof.
  intros c n c' H. inversion H. subst. exists []. repeat split.
  simpl. unfold emit. simpl. destruct (builder c); [| reflexivity].
  symmetry. apply update_block_id. intros [m l]. unfold append_instructions.
  simpl. rewrite app_nil_r. reflexivity.
Qed.

Lemma straight_add_global n ty init : straight (add_global n ty init).
Proof.
  intros c v c' H. inversion H. subst. exists []. repeat split.
  simpl. unfold emit. simpl. destruct (builder c); [| reflexivity].
  symmetry. apply update_block_id. intros [m l]. unfold append_instructions.
  simpl. rewrite app_nil_r. reflexivity.
Qed.

Lemma straight_insert i : is_terminator i = false -> straight (insert i).
Proof.
  intros Hi c a c' H. unfold insert in H.
  apply mbind_Ok in H as (b & c1 & H1 & H2).
  apply get_builder_Ok in H1 as [Hb ->]. inversion H2. subst.
  exists [i]. repeat split.
  - unfold nonterminators. simpl. rewrite Hi. reflexivity.
  - simpl. unfold emit. rewrite Hb. reflexivity.
Qed.

Lemma straight_fun {A : Type} (f : LLVMCompiler -> M A) :
  (forall c, straight (f c)) -> straight (fun c => f c c).
Proof. intros H c a c' E. eapply H. exact E. Qed.

Ltac straight_step :=
  match goal with
  | |- straight (mbind _ _) => apply straight_bind; [| intros ?]
  | |- straight (ret _) => apply straight_ret
  | |- straight (raise _) => apply straight_raise
  | |- straight (lift _) => apply straight_lift
  | |- straight get_builder => apply straight_get_builder
  | |- straight fresh => apply straight_fresh
  | |- straight (insert _) => apply straight_insert; reflexivity
  | |- straight (add_global _ _ _) => apply straight_add_global
  | |- straight (if ?b then _ else _) => destruct b
  | |- straight (match ?x with _ => _ end) => destruct x
  end.

Lemma straight_alloca ty name : straight (alloca ty name).
Proof. unfold alloca. repeat straight_step. Qed.

Lemma straight_store v p : straight (store v p).
Proof. unfold store. repeat straight_step. Qed.

Lemma straight_load p name : straight (load p name).
Proof. unfold load. repeat straight_step. Qed.

Lemma straight_binop op l r : straight (binop op l r).
Proof. unfold binop. repeat straight_step. Qed.

Lemma straight_icmp_signed op l r : straight (icmp_signed op l r).
Proof. unfold icmp_signed. repeat straight_step. Qed.

Lemma straight_fcmp_ordered op l r : straight (fcmp_ordered op l r).
Proof. unfold fcmp_ordered. repeat straight_step. Qed.

Lemma straight_not_ v : straight (not_ v).
Proof.
  unfold not_. repeat straight_step; apply straight_binop.
Qed.

Lemma straight_bitcast v ty : straight (bitcast v ty).
Proof. unfold bitcast. repeat straight_step. Qed.

Lemma straight_call fn args : straight (call fn args).
Proof.
  unfold call. apply straight_bind; [apply straight_get_builder |].
  intros _ c a c' H. destruct (module_functions c !! fn); [| discriminate].
  revert c a c' H. change (straight
    (lift (check_call_args (fn_args f) args) ;;
     let! id := fresh in
     insert (Call id fn args) ;; ret (InstrValue id (fn_return_type f)))).
  repeat straight_step.
Qed.

Lemma straight_compile_binary op l r : straight (compile_binary op l r).
Proof.
  unfold compile_binary, float_or_int, compare.
  repeat first
    [ apply straight_binop | apply straight_icmp_signed
    | apply straight_fcmp_ordered | straight_step ].
Qed.

Lemma straight_compile_unary op v : straight (compile_unary op v).
Proof.
  unfold compile_unary.
  repeat first [ apply straight_binop | apply straight_not_ | straight_step ].
Qed.

Lemma straight_compile_print_string text :
  straight (compile_print_string text).
Proof.
  unfold compile_print_string.
  repeat first [ apply straight_bitcast | apply straight_call | straight_step ].
Qed.

Lemma straight_compile_print_value v : straight (compile_print_value v).
Proof.
  unfold compile_print_value.
  repeat first [ apply straight_bitcast | apply straight_call | straight_step ].
Qed.

(** Lowering an expression is straight-line code: it only inserts
    instructions that are not terminators at the builder's position. *)
Lemma straight_compile_expression (e : ASTNode) :
  straight (compile_expression e).
Proof.
  induction e using ASTNode_induction; simpl;
    try (apply straight_ret).
  - destruct v; apply straight_ret.
  - intros c a c' H. destruct (variables c !! n); [| discriminate].
    eapply straight_load. exact H.
  - repeat straight_step; auto. apply straight_compile_binary.
  - repeat straight_step; auto. apply straight_compile_unary.
  - destruct e; try apply straight_ret.
    destruct (String.eqb name "print").
    + destruct args as [|first rest]; [apply straight_ret |].
      inversion H as [|? ? Hfirst Hrest]; subst.
      destruct first; try (apply straight_bind;
        [exact Hfirst | intros ?; apply straight_compile_print_value]).
      apply straight_compile_print_string.
    + intros c a c' E. destruct (functions c !! name); [| discriminate].
      revert c a c' E. apply straight_bind; [| intros; apply straight_call].
      induction H; [apply straight_ret |].
      repeat straight_step; auto.
Qed.

End Expressions.

(** ** Operators, [parallel] and [await] *)

Section Operators.
Import Ast IR Compiler Props.
Local Open Scope list_scope.

(** [in_body] is the state in which the body of [func f(a: int, b: int)]
    is lowered. *)
Lemma in_body_reached (compile_body : M unit) :
  compile_function_with "f" [("a", "int"); ("b", "int")] "void"
    compile_body new
  = (compile_body ;;
     let! t := block_is_terminated in
     (if negb t then ret_void else ret tt) ;;
     modify (set_builder None) ;;
     modify (set_current_function None)) in_body.
Proof. reflexivity. Qed.






(** C6, as stated, fails: a [parallel] block inserts nothing where its
    tasks as statements insert their code, and [await e] yields the
    constant 0 where [e] yields its value. *)
Lemma parallel_and_await_are_dropped :
  compile_statement (ParallelBlock [Identifier "a"]) in_body
  = Ok (tt, in_body)
  /\ compile_block [ExpressionStatement (Identifier "a")] in_body
     = Ok (tt, inserted (Load 2 (slot 0) "a") in_body)
  /\ inserted (Load 2 (slot 0) "a") in_body <> in_body
  /\ compile_expression (AsyncAwait (NumberLiteral (NInt 1))) in_body
     = Ok (Constant i64 (CInt 0), in_body)
  /\ compile_expression (NumberLiteral (NInt 1)) in_body
     = Ok (Constant i64 (CInt 1), in_body).
Proof.
  repeat split; try reflexivity.
  intros H. apply (f_equal next_id) in H. discriminate H.
Qed.

(** C6, amended.  The lowerer has no case for a [parallel] block nor for
    [await]: the block inserts no instruction and leaves the compiler as
    it was, its tasks are not lowered; [await e] inserts nothing either
    and yields the 64-bit constant 0 without lowering [e]. *)
Theorem parallel_and_await_are_not_lowered (tasks : list ASTNode)
    (e : ASTNode) (c : LLVMCompiler) :
  compile_statement (ParallelBlock tasks) c = Ok (tt, c)
  /\ compile_expression (AsyncAwait e) c = Ok (Constant i64 (CInt 0), c).
Proof. split; reflexivity. Qed.

End Operators.

(** ** Compound assignment *)

Section CompoundAssignment.
Import Ast IR Compiler Props.
Local Open Scope list_scope.

(** The lowering of an assignment to a variable: only the right-hand side
    is lowered, and its value stored into the slot of the variable. *)
Lemma compile_assignment_stores (x : string) (value : ASTNode)
    (op : string) (c : LLVMCompiler) :
  compile_statement (AssignmentStatement (Identifier x) value op) c
  = match variables c !! x with
    | None => Raise (NameError x)
    | Some ptr =>
      match compile_expression value c with
      | Ok (v, c1) => store v ptr c1
      | Raise e => Raise e
      | OutOfFuel => OutOfFuel
      end
    end.
Proof.
  simpl. destruct (variables c !! x) as [ptr|] eqn:Hx; [| reflexivity].
  unfold mbind.
  destruct (compile_expression value c) as [[v c1]| |] eqn:Hv;
    try reflexivity.
  apply straight_compile_expression in Hv as (_ & _ & _ & _ & Hvars & _).
  rewrite Hvars, Hx. reflexivity.
Qed.

(** C9. For [+=] and [-=] the checker and the lowerer do what they do for
    [=]: the checker makes the same [can_assign] test on the types of the
    target and of the value, and the lowerer lowers the right-hand side
    only and stores its value into the slot of the target, without
    loading the old value. *)
Theorem compound_assignment_is_plain_assignment (target value : ASTNode)
    (x : string) (tc : Checker.TypeChecker) (c : LLVMCompiler) :
  (Checker.check_statement (AssignmentStatement target value "+=") tc
   = Checker.check_statement (AssignmentStatement target value "=") tc
   /\ Checker.check_statement (AssignmentStatement target value "-=") tc
      = Checker.check_statement (AssignmentStatement target value "=") tc
   /\ Checker.check_statement (AssignmentStatement target value "+=") tc
      = let (target_type, tc1) := Checker.infer_type target tc in
        let (value_type, tc2) := Checker.infer_type value tc1 in
        if Types.can_assign target_type value_type then tc2
        else Checker.error (Checker.CannotAssign value_type target_type) tc2)
  /\ (compile_statement (AssignmentStatement target value "+=") c
      = compile_statement (AssignmentStatement target value "=") c
      /\ compile_statement (AssignmentStatement target value "-=") c
         = compile_statement (AssignmentStatement target value "=") c
      /\ compile_statement (AssignmentStatement (Identifier x) value "+=") c
         = match variables c !! x with
           | None => Raise (NameError x)
           | Some ptr =>
             match compile_expression value c with
             | Ok (v, c1) => store v ptr c1
             | Raise e => Raise e
             | OutOfFuel => OutOfFuel
             end
           end).
Proof.
  split; [split; [reflexivity | split; [reflexivity |]] |].
  - simpl. destruct (Checker.infer_type target tc) as [tt tc1].
    destruct (Checker.infer_type value tc1) as [vt tc2].
    destruct (Types.can_assign tt vt); reflexivity.
  - split; [reflexivity | split; [reflexivity |]].
    apply compile_assignment_stores.
Qed.

End CompoundAssignment.

(** ** The lexer: strings and numbers *)

Section LexerFacts.
Import Lexer Props.
Local Open Scope list_scope.

Lemma current_char_middle pre ch rest l c toks :
  current_char (MkLexer (pre ++ ch :: rest) (length pre) l c toks) = Some ch.
Proof. unfold current_char. simpl. apply list_lookup_middle. reflexivity. Qed.

Lemma current_char_end src l c toks :
  current_char (MkLexer src (length src) l c toks) = None.
Proof. unfold current_char. simpl. apply lookup_ge_None. lia. Qed.

Lemma advance_at_end src l c toks :
  advance (MkLexer src (length src) l c toks)
  = MkLexer src (length src + 1) l (c + 1) toks.
Proof.
  unfold advance. simpl.
  rewrite (proj2 (lookup_ge_None src (length src))) by lia. reflexivity.
Qed.

(** [advance] over a character other than a newline moves one column. *)
Lemma advance_same_line pre ch rest l c toks :
  Ascii.eqb ch "010" = false ->
  advance (MkLexer (pre ++ ch :: rest) (length pre) l c toks)
  = MkLexer ((pre ++ [ch]) ++ rest) (length (pre ++ [ch])) l (c + 1) toks.
Proof.
  intros Hnl. unfold advance. simpl.
  rewrite list_lookup_middle by reflexivity.
  rewrite <- app_assoc, length_app. simpl.
  destruct ch as [[] [] [] [] [] [] [] []]; try reflexivity; discriminate Hnl.
Qed.

(** [advance] over any character moves one position. *)
Lemma advance_any pre ch rest l c toks :
  exists l' c',
    advance (MkLexer (pre ++ ch :: rest) (length pre) l c toks)
    = MkLexer ((pre ++ [ch]) ++ rest) (length (pre ++ [ch])) l' c' toks.
Proof.
  unfold advance. simpl. rewrite list_lookup_middle by reflexivity.
  rewrite <- app_assoc, length_app. simpl.
  destruct ch as [[] [] [] [] [] [] [] []]; eauto.
Qed.

Lemma string_app_nil_r (a : string) : (a ++ "")%string = a.
Proof.
  induction a as [|ch a IH]; [reflexivity |].
  change (String ch (a ++ "")%string = String ch a). rewrite IH. reflexivity.
Qed.

Lemma string_app_assoc (a b c : string) :
  ((a ++ b) ++ c = a ++ (b ++ c))%string.
Proof.
  induction a as [|ch a IH]; [reflexivity |].
  change (String ch ((a ++ b) ++ c)%string = String ch (a ++ (b ++ c))%string).
  rewrite IH. reflexivity.
Qed.

(** The loop of [read_string] runs to the end of the input when no
    closing quote and no backslash is met. *)
Lemma read_string_loop_to_end quote body :
  Forall (fun ch => Ascii.eqb ch quote = false /\ Ascii.eqb ch "\" = false)
         body ->
  forall fuel pre l c toks acc,
    (length body < fuel)%nat ->
    exists l' c',
      read_string_loop fuel quote
        (MkLexer (pre ++ body) (length pre) l c toks) acc
      = Ok (MkLexer (pre ++ body) (length (pre ++ body)) l' c' toks,
            (acc ++ string_of_list_ascii body)%string).
Proof.
  induction 1 as [|ch body [Hq Hb] _ IH]; intros fuel pre l c toks acc Hf.
  - destruct fuel; [simpl in Hf; lia |]. simpl.
    rewrite app_nil_r, current_char_end.
    exists l, c. rewrite string_app_nil_r.
    reflexivity.
  - destruct fuel; [simpl in Hf; lia |]. simpl in Hf. simpl.
    rewrite current_char_middle, Hq, Hb. simpl.
    destruct (advance_any pre ch body l c toks) as (l1 & c1 & ->).
    destruct (IH fuel (pre ++ [ch]) l1 c1 toks (add_char acc ch))
      as (l' & c' & E); [lia |].
    exists l', c'. rewrite E. rewrite <- app_assoc. simpl.
    unfold add_char. rewrite string_app_assoc. reflexivity.
Qed.

(** One iteration of [tokenize] at an opening quote. *)
Lemma tokenize_loop_at_quote limit fuel lx quote :
  current_char lx = Some quote ->
  quote = "'"%char \/ quote = "034"%char ->
  tokenize_loop limit (S fuel) lx
  = (let* (token, lx1) := read_string quote lx in
     tokenize_loop limit fuel (append_token token lx1)).
Proof.
  intros Hc Hq. simpl. rewrite Hc. unfold skip_whitespace. simpl.
  rewrite Hc. destruct Hq as [-> | ->]; simpl; rewrite Hc; reflexivity.
Qed.

(** C4: the code does not do what the claim says.  A string whose closing
    quote is missing (and that holds no backslash) is lexed without error:
    [read_string] runs to the end of the input and the lexer returns a
    STRING token made of the rest of the input, followed by end-of-file. *)
Theorem unterminated_string_is_accepted (limit : option nat) (quote : ascii)
    (body : string) :
  quote = "'"%char \/ quote = "034"%char ->
  Forall (fun ch => Ascii.eqb ch quote = false /\ Ascii.eqb ch "\" = false)
         (list_ascii_of_string body) ->
  exists l c,
    lex limit (String quote body)
    = Ok [MkToken STRING (VStr body) 1 1; MkToken EOF VNone l c].
Proof.
  intros Hq Hbody. unfold lex, tokenize, init.
  change (list_ascii_of_string (String quote body))
    with ([] ++ quote :: list_ascii_of_string body).
  set (bs := list_ascii_of_string body) in *.
  unfold remaining. simpl source. simpl pos.
  rewrite Nat.sub_0_r. simpl length.
  rewrite tokenize_loop_at_quote with (quote := quote);
    [| apply (current_char_middle []) | exact Hq].
  unfold read_string.
  assert (Hnl : Ascii.eqb quote "010" = false)
    by (destruct Hq as [-> | ->]; reflexivity).
  assert (Hadv : advance (MkLexer ([] ++ quote :: bs) 0 1 1 [])
                 = MkLexer (([] ++ [quote]) ++ bs) (length ([] ++ [quote]))
                           1 (1 + 1) [])
    by apply (advance_same_line [] quote bs 1 1 [] Hnl).
  rewrite !Hadv.
  destruct (read_string_loop_to_end quote bs Hbody
              (S (remaining (MkLexer (([] ++ [quote]) ++ bs)
                                     (length ([] ++ [quote])) 1 (1 + 1) [])))
              ([] ++ [quote]) 1%nat (1 + 1)%nat [] "")
    as (l1 & c1 & E).
  { unfold remaining. simpl. rewrite Nat.sub_0_r. lia. }
  rewrite E. simpl bind.
  unfold bs. rewrite string_of_list_ascii_of_string. fold bs.
  rewrite advance_at_end.
  set (lx := MkLexer _ _ _ _ _).
  assert (Hend : current_char (append_token
                   (MkToken STRING (VStr body) 1 1) lx) = None).
  { unfold current_char, append_token, lx. simpl.
    apply lookup_ge_None. simpl. lia. }
  assert (Htok : tokens lx = []) by reflexivity.
  clearbody lx. simpl tokenize_loop.
  change ("" ++ body)%string with body. rewrite Hend. simpl.
  rewrite Htok. eexists _, _. reflexivity.
Qed.

Lemma unterminated_string_is_accepted_witness :
  exists l c,
    lex default_int_max_str_digits "'abc"
    = Ok [MkToken STRING (VStr "abc") 1 1; MkToken EOF VNone l c].
Proof.
  apply (unterminated_string_is_accepted default_int_max_str_digits
           "'"%char "abc").
  - left. reflexivity.
  - repeat constructor.
Defined.

(** The same on a concrete input, with the position of end-of-file. *)
Lemma unterminated_string_example :
  lex default_int_max_str_digits "'abc"
  = Ok [MkToken STRING (VStr "abc") 1 1; MkToken EOF VNone 1 6].
Proof. reflexivity. Qed.

Lemma ascii_digit_facts d :
  is_ascii_digit d = true ->
  isdigit d = true /\ Ascii.eqb d "." = false /\ Ascii.eqb d "010" = false
  /\ (48 <= nat_of_ascii d)%nat.
Proof.
  destruct d as [[] [] [] [] [] [] [] []]; vm_compute; intros H;
    try discriminate H; repeat split; try reflexivity; lia.
Qed.

(** The loop of [read_number] over a run of decimal digits. *)
Lemma read_number_loop_digits ds rest :
  Forall (fun d => is_ascii_digit d = true) ds ->
  ends_number rest ->
  forall fuel pre l c toks acc,
    (length ds < fuel)%nat ->
    read_number_loop fuel (MkLexer (pre ++ ds ++ rest) (length pre) l c toks)
                     acc false
    = Ok (MkLexer (pre ++ ds ++ rest) (length (pre ++ ds)) l
                  (c + length ds) toks,
          (acc ++ string_of_list_ascii ds)%string, false).
Proof.
  intros Hds Hrest. induction Hds as [|d ds Hd _ IH];
    intros fuel pre l c toks acc Hf.
  - destruct fuel; [simpl in Hf; lia |]. simpl.
    rewrite app_nil_r, Nat.add_0_r, string_app_nil_r.
    destruct rest as [|ch rest].
    + rewrite app_nil_r, current_char_end. reflexivity.
    + rewrite current_char_middle. destruct Hrest as [Hdig Hdot].
      rewrite Hdig. simpl.
      destruct (Ascii.eqb ch ".") eqn:E; [| reflexivity].
      apply Ascii.eqb_eq in E. contradiction.
  - destruct fuel; [simpl in Hf; lia |]. simpl in Hf.
    destruct (ascii_digit_facts d Hd) as (Hdig & Hdot & Hnl & _).
    simpl. rewrite current_char_middle, Hdig, Hdot. simpl.
    rewrite (advance_same_line pre d (ds ++ rest) l c toks Hnl).
    rewrite (IH fuel (pre ++ [d]) l (c + 1)%nat toks (add_char acc d))
      by lia.
    unfold add_char. rewrite string_app_assoc.
    rewrite <- !app_assoc. simpl.
    replace (c + 1 + length ds)%nat with (c + S (length ds))%nat by lia.
    reflexivity.
Qed.

Lemma decimal_value_digits ds :
  Forall (fun d => is_ascii_digit d = true) ds ->
  forall acc,
    decimal_value acc (string_of_list_ascii ds)
    = Some (fold_left
              (fun acc d => 10 * acc + (Z.of_nat (nat_of_ascii d) - 48))
              ds acc).
Proof.
  induction 1 as [|d ds Hd _ IH]; intros acc; [reflexivity |].
  simpl. rewrite Hd, IH. unfold code.
  destruct (ascii_digit_facts d Hd) as (_ & _ & _ & Hge).
  rewrite Nat2Z.inj_sub by exact Hge. reflexivity.
Qed.

Lemma length_string_of_list_ascii ds :
  String.length (string_of_list_ascii ds) = length ds.
Proof. induction ds; simpl; congruence. Qed.

(** C5, as stated, fails: a literal above 2^63 is lexed into a NUMBER
    token that carries its value, whether or not [int()] has a digit
    limit. *)
Lemma integer_above_2_63_is_lexed :
  lex default_int_max_str_digits "9223372036854775809"
  = Ok [MkToken NUMBER (VInt 9223372036854775809) 1 1;
        MkToken EOF VNone 1 20]
  /\ lex None "9223372036854775809"
     = Ok [MkToken NUMBER (VInt 9223372036854775809) 1 1;
           MkToken EOF VNone 1 20]
  /\ 2 ^ 63 < 9223372036854775809.
Proof. repeat split; vm_compute; reflexivity. Qed.

(** C5, amended.  The number read of the lexer puts no bound on the value
    of an integer literal: a run of decimal digits, of a length that
    [int()] converts, followed by the end of the input or by a character
    that is not a digit or a dot, gives a NUMBER token carrying the value
    the digits denote, however large. *)
Theorem integer_literal_of_any_magnitude (limit : option nat)
    (pre ds rest : list ascii) (l c : nat) (toks : list Token) :
  ds <> [] ->
  Forall (fun d => is_ascii_digit d = true) ds ->
  within_digit_limit limit ds ->
  ends_number rest ->
  read_number limit (MkLexer (pre ++ ds ++ rest) (length pre) l c toks)
  = Ok (MkToken NUMBER (VInt (digits_value ds)) l c,
        MkLexer (pre ++ ds ++ rest) (length (pre ++ ds)) l (c + length ds)
                toks).
Proof.
  intros Hne Hds Hlim Hrest. unfold read_number.
  rewrite (read_number_loop_digits ds rest Hds Hrest).
  2:{ unfold remaining. simpl. rewrite !length_app. lia. }
  simpl bind. change ("" ++ string_of_list_ascii ds)%string
    with (string_of_list_ascii ds).
  unfold py_int. rewrite (decimal_value_digits ds Hds 0).
  fold (digits_value ds). rewrite length_string_of_list_ascii.
  destruct ds as [|d ds]; [contradiction |].
  simpl string_of_list_ascii. cbv iota.
  destruct limit as [n|]; simpl in Hlim |- *.
  - destruct (n <? S (length ds))%nat eqn:E; [| reflexivity].
    apply Nat.ltb_lt in E. lia.
  - reflexivity.
Qed.

Lemma integer_literal_of_any_magnitude_witness :
  read_number default_int_max_str_digits
    (MkLexer (list_ascii_of_string "x = 9223372036854775809;") 4 1 5 [])
  = Ok (MkToken NUMBER (VInt 9223372036854775809) 1 5,
        MkLexer (list_ascii_of_string "x = 9223372036854775809;") 23 1 24 []).
Proof.
  apply (integer_literal_of_any_magnitude default_int_max_str_digits
           (list_ascii_of_string "x = ")
           (list_ascii_of_string "9223372036854775809")
           [";"%char] 1 5 []).
  - discriminate.
  - repeat constructor.
  - simpl. lia.
  - split; [reflexivity | discriminate].
Defined.

End LexerFacts.

(** ** The type checker *)

Section CheckerFacts.
Import Ast Types Checker Props.
Local Open Scope list_scope.

(** C2, as stated, fails: the check of a program whose only statement
    indexes an array literal succeeds, and the index expression is typed
    [auto] without any error. *)
Lemma index_access_is_silently_auto :
  let e := IndexExpr (ArrayLiteral [NumberLiteral (NInt 1)])
                     (NumberLiteral (NInt 0)) in
  fst (check_program [ExpressionStatement e] new) = true
  /\ infer_type e new = (AUTO_TYPE, new)
  /\ infer_type (CallExpr (Identifier "undeclared") []) new
     = (AUTO_TYPE, new).
Proof. repeat split; vm_compute; reflexivity. Qed.

Lemma in_list_app s l1 l2 :
  in_list s (l1 ++ l2) = in_list s l1 || in_list s l2.
Proof. unfold in_list. apply existsb_app. Qed.

(** C2, amended.  [check_program] is a total function whose verdict is
    the emptiness of the error list.  When [infer_type] gives an
    expression the type [auto] and records no error, the [auto] is a
    declared one (a variable or a function result of declared type
    [auto], possibly under a unary minus) or the expression is one the
    checker has no rule for, which it types [auto] silently: index and
    member access, pipeline, match, object literal, [await], a call of
    something that is not a registered function name, an unknown
    operator. *)
Theorem auto_only_declared_or_unhandled (program : Program)
    (node : ASTNode) (tc tc' : TypeChecker) (t : Type_) :
  infer_type node tc = (t, tc') ->
  errors tc' = errors tc ->
  kind t = AUTO ->
  (exists tc1, check_program program tc
               = (match errors tc1 with [] => true | _ => false end, tc1))
  /\ auto_without_error tc node = true.
Proof.
  intros Hinf Herr Hk. split; [eexists; reflexivity |].
  revert tc tc' t Hinf Herr Hk.
  induction node using ASTNode_induction; intros st st' ty Hinf Herr Hk;
    simpl in *; try reflexivity;
    try (inversion Hinf; subst; discriminate Hk).
  - destruct v; inversion Hinf; subst; discriminate Hk.
  - destruct (get_variable n (env st)) as [vt|].
    + inversion Hinf; subst. rewrite Hk. reflexivity.
    + inversion Hinf; subst. simpl in Herr.
      apply (f_equal (@length _)) in Herr. rewrite length_app in Herr.
      simpl in Herr. lia.
  - destruct (infer_type node1 st) as [lt tc1].
    destruct (infer_type node2 tc1) as [rt tc2].
    repeat match goal with
    | |- context [String.eqb op ?s] =>
      destruct (String.eqb op s); simpl in *;
      try (repeat match type of Hinf with
                  | context [if ?b then _ else _] => destruct b
                  end;
           inversion Hinf; subst; discriminate Hk)
    end.
    reflexivity.
  - destruct (infer_type node st) as [ot tc1] eqn:Hop.
    destruct (String.eqb op "not").
    { inversion Hinf; subst; discriminate Hk. }
    destruct (String.eqb op "-"); [| reflexivity].
    inversion Hinf; subst. eapply IHnode; eauto.
  - destruct node; try reflexivity.
    destruct (get_function _ (env st)) as [ft|]; [| reflexivity].
    destruct (return_type ft) as [rt|]; [| reflexivity].
    inversion Hinf; subst. rewrite Hk. reflexivity.
  - destruct es as [|first rest].
    + inversion Hinf; subst; discriminate Hk.
    + destruct (infer_type first st). inversion Hinf; subst; discriminate Hk.
Qed.

Lemma auto_only_declared_or_unhandled_witness :
  auto_without_error new
    (MemberAccess (StringLiteral "s") "length") = true.
Proof.
  exact (proj2 (auto_only_declared_or_unhandled []
                  (MemberAccess (StringLiteral "s") "length")
                  new new AUTO_TYPE eq_refl eq_refl eq_refl)).
Defined.

End CheckerFacts.

(** ** Blocks of the module under the builder's operations *)

Section Blocks.
Import Ast IR Compiler Props.
Local Open Scope list_scope.
Local Open Scope nat_scope.

Lemma nblocks_update_block f r g fs :
  nblocks f (update_block r g fs) = nblocks f fs.
Proof.
  unfold nblocks, update_block. rewrite list_lookup_alter.
  case_decide; [subst | reflexivity].
  destruct (fs !! r.1) as [fn|]; simpl; [| reflexivity].
  apply length_alter.
Qed.

Lemma valid_update_block q r g fs :
  valid q (update_block r g fs) <-> valid q fs.
Proof. unfold valid. rewrite nblocks_update_block. reflexivity. Qed.

Lemma block_at_update_block_ne q r g fs :
  q <> r -> block_at q (update_block r g fs) = block_at q fs.
Proof.
  intros Hne. unfold block_at, update_block. rewrite list_lookup_alter.
  case_decide as Hf; [| reflexivity].
  destruct (fs !! r.1) as [fn|] eqn:E; simpl; rewrite <- Hf, E;
    [| reflexivity].
  rewrite list_lookup_alter_ne; [reflexivity |].
  intros Hb. apply Hne. destruct q, r. simpl in *. congruence.
Qed.

Lemma block_at_update_block_eq r g fs :
  valid r fs -> block_at r (update_block r g fs) = g (block_at r fs).
Proof.
  unfold valid, nblocks, block_at, update_block. intros Hv.
  rewrite list_lookup_alter_eq.
  destruct (fs !! r.1) as [fn|]; simpl in *; [| lia].
  rewrite list_lookup_alter_eq.
  destruct (lookup_lt_is_Some_2 (blocks fn) r.2 Hv) as [b ->].
  reflexivity.
Qed.

Lemma nblocks_add_block_eq f name fs :
  f < length fs -> nblocks f (add_block f name fs) = S (nblocks f fs).
Proof.
  intros Hf. unfold nblocks, add_block. rewrite list_lookup_alter_eq.
  destruct (lookup_lt_is_Some_2 fs f Hf) as [fn ->]. simpl.
  rewrite length_app. simpl. lia.
Qed.

Lemma nblocks_add_block_ne f f' name fs :
  f' <> f -> nblocks f' (add_block f name fs) = nblocks f' fs.
Proof.
  intros Hne. unfold nblocks, add_block.
  rewrite list_lookup_alter_ne by congruence. reflexivity.
Qed.

Lemma valid_add_block q f name fs :
  valid q fs -> valid q (add_block f name fs).
Proof.
  unfold valid. intros Hv. destruct (decide (q.1 = f)) as [E|Hne].
  - subst f. destruct (decide (q.1 < length fs)) as [Hf|Hf].
    + rewrite nblocks_add_block_eq by exact Hf. lia.
    + unfold nblocks in Hv.
      rewrite (proj2 (lookup_ge_None fs q.1)) in Hv by lia. lia.
  - rewrite nblocks_add_block_ne by exact Hne. exact Hv.
Qed.

Lemma block_at_add_block_old q f name fs :
  valid q fs -> block_at q (add_block f name fs) = block_at q fs.
Proof.
  unfold valid, nblocks, block_at, add_block. intros Hv.
  rewrite list_lookup_alter. case_decide as Hf; [| reflexivity].
  subst f. destruct (fs !! q.1) as [fn|]; simpl in *; [| reflexivity].
  rewrite lookup_app_l by exact Hv. reflexivity.
Qed.

Lemma block_at_add_block_new f name fs :
  f < length fs ->
  block_at (f, nblocks f fs) (add_block f name fs) = MkBlock name [].
Proof.
  intros Hf. unfold nblocks, block_at, add_block. simpl.
  rewrite list_lookup_alter_eq.
  destruct (lookup_lt_is_Some_2 fs f Hf) as [fn ->]. simpl.
  rewrite list_lookup_middle by reflexivity. reflexivity.
Qed.

Lemma filter_nonterminators extra :
  nonterminators extra -> List.filter is_terminator extra = [].
Proof.
  unfold nonterminators. induction extra as [|i l IH]; simpl;
    [reflexivity |].
  destruct (is_terminator i); simpl; [discriminate | exact IH].
Qed.

Lemma terminators_append extra b :
  terminators (append_instructions extra b)
  = terminators b + length (List.filter is_terminator extra).
Proof.
  unfold terminators, append_instructions. simpl.
  rewrite List.filter_app, length_app. reflexivity.
Qed.

Lemma is_terminated_terminators b :
  is_terminated b = negb (terminators b =? 0).
Proof.
  unfold is_terminated, terminators.
  induction (instructions b) as [|i l IH]; simpl; [reflexivity |].
  destruct (is_terminator i); simpl; [reflexivity | exact IH].
Qed.

(** *** The builder's primitives *)

Lemma insert_Ok i c c' :
  insert i c = Ok (tt, c') ->
  exists r, builder c = Some r
            /\ c' = set_module_functions
                      (update_block r (append_instructions [i])
                                    (module_functions c)) c.
Proof.
  unfold insert. intros H. apply mbind_Ok in H as (r & c1 & H1 & H2).
  apply get_builder_Ok in H1 as [Hb ->]. inversion H2. eauto.
Qed.

Lemma set_terminator_Ok t c c' :
  set_terminator t c = Ok (tt, c') ->
  exists r, builder c = Some r
            /\ is_terminated (block_at r (module_functions c)) = false
            /\ c' = set_module_functions
                      (update_block r (append_instructions [t])
                                    (module_functions c)) c.
Proof.
  unfold set_terminator, block_is_terminated. intros H.
  apply mbind_Ok in H as (b & c1 & H1 & H2).
  apply mbind_Ok in H1 as (r & c2 & H3 & H4).
  apply get_builder_Ok in H3 as [Hb ->]. inversion H4; subst.
  destruct (is_terminated _) eqn:E; [discriminate H2 |].
  apply insert_Ok in H2 as (r' & Hb' & ->).
  rewrite Hb in Hb'. inversion Hb'; subst. eauto.
Qed.

Lemma append_basic_block_Ok name c q c' :
  append_basic_block name c = Ok (q, c') ->
  exists f, current_function c = Some f
            /\ f < length (module_functions c)
            /\ q = (f, nblocks f (module_functions c))
            /\ c' = set_module_functions
                      (add_block f name (module_functions c)) c.
Proof.
  unfold append_basic_block. intros H.
  destruct (current_function c) as [f|]; [| discriminate].
  destruct (module_functions c !! f) as [fn|] eqn:E; [| discriminate].
  inversion H. exists f. repeat split.
  - eapply lookup_lt_Some. exact E.
  - unfold nblocks. rewrite E. reflexivity.
Qed.

Lemma position_at_end_Ok q c c' :
  position_at_end q c = Ok (tt, c') ->
  builder c <> None /\ c' = set_builder (Some q) c.
Proof.
  unfold position_at_end. intros H.
  apply mbind_Ok in H as (r & c1 & H1 & H2).
  apply get_builder_Ok in H1 as [Hb ->]. inversion H2.
  split; [congruence | reflexivity].
Qed.

Lemma block_is_terminated_Ok t c c' :
  block_is_terminated c = Ok (t, c') ->
  exists r, builder c = Some r /\ c' = c
            /\ t = is_terminated (block_at r (module_functions c)).
Proof.
  unfold block_is_terminated. intros H.
  apply mbind_Ok in H as (r & c1 & H1 & H2).
  apply get_builder_Ok in H1 as [Hb ->]. inversion H2; subst.
  exists r. auto.
Qed.

End Blocks.

(** ** Lowering inside a function: the relation [Lowered] *)

Section LoweredRules.
Import Ast IR Compiler Props.
Local Open Scope list_scope.
Local Open Scope nat_scope.

Lemma emits_inserts c c' : emits c c' -> inserts c c'.
Proof. intros (e & N & F & B & _ & _ & C). exists e. auto. Qed.

Lemma low_valid P c r c' r' n q :
  Lowered P c r c' r' n ->
  valid q (module_functions c) -> valid q (module_functions c').
Proof.
  intros L. unfold valid. rewrite (low_nblocks _ _ _ _ _ _ L). lia.
Qed.

Lemma Lowered_inserts c r c' :
  InSync c r -> inserts c c' -> Lowered [] c r c' r 0.
Proof.
  intros (Hb & Hc & Hv) (extra & N & F & B & C).
  unfold emit in F. rewrite Hb in F.
  assert (Hat : block_at r (module_functions c')
                = append_instructions extra (block_at r (module_functions c)))
    by (rewrite F; apply block_at_update_block_eq; exact Hv).
  split.
  - split; [congruence | split; [congruence |]].
    rewrite F. apply valid_update_block. exact Hv.
  - reflexivity.
  - intros f. rewrite F, nblocks_update_block. case_decide; lia.
  - intros q _ Hne. rewrite F. apply block_at_update_block_ne. exact Hne.
  - exists extra. exact Hat.
  - left. reflexivity.
  - intros q Hq Hnq. exfalso. apply Hnq. rewrite F in Hq.
    apply valid_update_block in Hq. exact Hq.
  - intros p Hp. inversion Hp.
  - intros _ Hle. rewrite Hat, terminators_append.
    rewrite (filter_nonterminators extra N). simpl. lia.
  - intros Hne. congruence.
  - intros Hne. congruence.
Qed.

Lemma Lowered_refl c r : InSync c r -> Lowered [] c r c r 0.
Proof.
  intros H. apply Lowered_inserts; [exact H |].
  apply emits_inserts, emits_refl.
Qed.

(** Inserting a terminator in a block that has none. *)
Lemma Lowered_terminate c r t c' :
  InSync c r -> is_terminator t = true ->
  set_terminator t c = Ok (tt, c') ->
  Lowered [] c r c' r 0
  /\ block_at r (module_functions c')
     = append_instructions [t] (block_at r (module_functions c))
  /\ terminators (block_at r (module_functions c')) = 1.
Proof.
  intros (Hb & Hc & Hv) Ht H.
  apply set_terminator_Ok in H as (r0 & Hb0 & Hnt & ->).
  rewrite Hb in Hb0. inversion Hb0; subst r0. simpl.
  assert (Hat : block_at r (update_block r (append_instructions [t])
                              (module_functions c))
                = append_instructions [t] (block_at r (module_functions c)))
    by (apply block_at_update_block_eq; exact Hv).
  assert (Hone : terminators (append_instructions [t]
                   (block_at r (module_functions c))) = 1).
  { rewrite terminators_append. simpl. rewrite Ht. simpl.
    rewrite is_terminated_terminators in Hnt.
    destruct (terminators _ =? 0) eqn:E; [| discriminate].
    apply Nat.eqb_eq in E. lia. }
  split; [| split; [exact Hat | rewrite Hat; exact Hone]].
  split; simpl.
  - split; [exact Hb | split; [exact Hc |]].
    apply valid_update_block. exact Hv.
  - reflexivity.
  - intros f. rewrite nblocks_update_block. case_decide; lia.
  - intros q _ Hne. apply block_at_update_block_ne. exact Hne.
  - exists [t]. exact Hat.
  - left. reflexivity.
  - intros q Hq Hnq. exfalso. apply Hnq.
    apply valid_update_block in Hq. exact Hq.
  - intros p Hp. inversion Hp.
  - intros _ _. rewrite Hat, Hone. lia.
  - intros Hne. congruence.
  - intros Hne. congruence.
Qed.

Lemma Lowered_trans P1 P2 c r c1 r1 c2 r2 n1 n2 :
  valid r (module_functions c) ->
  Lowered P1 c r c1 r1 n1 -> Lowered P2 c1 r1 c2 r2 n2 ->
  Lowered (P1 ++ P2) c r c2 r2 (n1 + n2).
Proof.
  intros Hv L1 L2.
  pose proof (low_sync _ _ _ _ _ _ L1) as (_ & _ & Hv1).
  assert (Hr1 : forall q, valid q (module_functions c) -> q <> r -> q <> r1).
  { intros q Hq Hne ->. destruct (low_fresh _ _ _ _ _ _ L1); congruence. }
  assert (Hr2 : forall q, valid q (module_functions c1) -> q <> r1 -> q <> r2).
  { intros q Hq Hne ->. destruct (low_fresh _ _ _ _ _ _ L2); congruence. }
  split.
  - exact (low_sync _ _ _ _ _ _ L2).
  - rewrite (low_function _ _ _ _ _ _ L2). exact (low_function _ _ _ _ _ _ L1).
  - intros f. rewrite (low_nblocks _ _ _ _ _ _ L2), (low_nblocks _ _ _ _ _ _ L1).
    rewrite (low_function _ _ _ _ _ _ L1). case_decide; lia.
  - intros q Hq Hne.
    rewrite (low_frame _ _ _ _ _ _ L2) by eauto using low_valid.
    apply (low_frame _ _ _ _ _ _ L1); assumption.
  - destruct (low_prefix _ _ _ _ _ _ L1) as (e1 & E1).
    destruct (decide (r1 = r)) as [->|Hne].
    + destruct (low_prefix _ _ _ _ _ _ L2) as (e2 & E2).
      exists (e1 ++ e2). rewrite E2, E1. unfold append_instructions. simpl.
      rewrite app_assoc. reflexivity.
    + exists e1. rewrite (low_frame _ _ _ _ _ _ L2); eauto using low_valid.
  - destruct (low_fresh _ _ _ _ _ _ L2) as [->|Hn].
    + exact (low_fresh _ _ _ _ _ _ L1).
    + right. intros Hq. apply Hn. eauto using low_valid.
  - intros q Hq2 Hnq Hne Hnp.
    apply not_elem_of_app in Hnp as [Hnp1 Hnp2].
    destruct (decide (q.2 < nblocks q.1 (module_functions c1)))
      as [Hq1|Hq1]; fold (valid q (module_functions c1)) in Hq1.
    + destruct (decide (q = r1)) as [->|Hne1].
      * apply (low_switch _ _ _ _ _ _ L2). congruence.
      * rewrite (low_frame _ _ _ _ _ _ L2) by assumption.
        apply (low_closed_new _ _ _ _ _ _ L1); assumption.
    + apply (low_closed_new _ _ _ _ _ _ L2); assumption.
  - intros p Hp. apply elem_of_app in Hp as [Hp|Hp].
    + destruct (low_pending _ _ _ _ _ _ L1 p Hp)
        as (Hpf & Hp1 & Hp0 & Hpr & Hpt).
      repeat split; eauto using low_valid.
      rewrite (low_frame _ _ _ _ _ _ L2) by assumption. exact Hpt.
    + destruct (low_pending _ _ _ _ _ _ L2 p Hp)
        as (Hpf & Hp2 & Hp1 & Hpr & Hpt).
      repeat split; eauto using low_valid.
      rewrite Hpf. exact (low_function _ _ _ _ _ _ L1).
  - intros -> Hle.
    assert (r1 = r) as ->.
    { destruct (low_fresh _ _ _ _ _ _ L2) as [E|Hn]; [congruence |].
      exfalso. apply Hn. eauto using low_valid. }
    apply (low_open_same _ _ _ _ _ _ L2); [reflexivity |].
    apply (low_open_same _ _ _ _ _ _ L1); [reflexivity | exact Hle].
  - intros Hne. destruct (decide (r2 = r1)) as [->|Hne1].
    + apply (low_open_same _ _ _ _ _ _ L2); [reflexivity |].
      apply (low_open_new _ _ _ _ _ _ L1). exact Hne.
    + apply (low_open_new _ _ _ _ _ _ L2). exact Hne1.
  - intros Hne. destruct (decide (r1 = r)) as [->|Hne1].
    + apply (low_switch _ _ _ _ _ _ L2). exact Hne.
    + rewrite (low_frame _ _ _ _ _ _ L2); eauto using low_valid.
      apply (low_switch _ _ _ _ _ _ L1). exact Hne1.
Qed.

Lemma append_instructions_nil b : append_instructions [] b = b.
Proof.
  destruct b. unfold append_instructions. simpl. rewrite app_nil_r.
  reflexivity.
Qed.

(** Appending a block to the current function: the block is pending. *)
Lemma Lowered_append c r name q c' :
  InSync c r -> append_basic_block name c = Ok (q, c') ->
  Lowered [q] c r c' r 1
  /\ q = (fst r, nblocks (fst r) (module_functions c))
  /\ block_at q (module_functions c') = MkBlock name []
  /\ (forall q', valid q' (module_functions c) ->
                 block_at q' (module_functions c')
                 = block_at q' (module_functions c)).
Proof.
  intros (Hb & Hc & Hv) H.
  apply append_basic_block_Ok in H as (f & Hf & Hlt & -> & ->).
  rewrite Hc in Hf. inversion Hf; subst f. simpl.
  assert (Hnew : block_at (r.1, nblocks r.1 (module_functions c))
                          (add_block r.1 name (module_functions c))
                 = MkBlock name [])
    by (apply block_at_add_block_new; exact Hlt).
  split; [| split; [reflexivity | split; [exact Hnew |]]].
  2:{ intros q' Hq'. apply block_at_add_block_old. exact Hq'. }
  split; simpl.
  - split; [exact Hb | split; [exact Hc |]].
    apply valid_add_block. exact Hv.
  - reflexivity.
  - intros f. case_decide as E.
    + subst f. rewrite nblocks_add_block_eq by exact Hlt. lia.
    + rewrite nblocks_add_block_ne by exact E. lia.
  - intros q Hq _. apply block_at_add_block_old. exact Hq.
  - exists []. rewrite append_instructions_nil.
    apply block_at_add_block_old. exact Hv.
  - left. reflexivity.
  - intros q Hq Hnq _ Hnp. exfalso. apply Hnp. apply list_elem_of_singleton.
    unfold valid in *. destruct q as [qf qb]. simpl in *.
    destruct (decide (qf = r.1)) as [->|E].
    + rewrite nblocks_add_block_eq in Hq by exact Hlt. f_equal. lia.
    + rewrite nblocks_add_block_ne in Hq by exact E. contradiction.
  - intros p Hp. apply list_elem_of_singleton in Hp. subst p. simpl.
    split; [reflexivity |]. split; [| split; [| split]].
    + unfold valid. simpl. rewrite nblocks_add_block_eq by exact Hlt. lia.
    + unfold valid. simpl. lia.
    + intros E. unfold valid in Hv. rewrite <- E in Hv. simpl in Hv. lia.
    + rewrite Hnew. unfold terminators. simpl. lia.
  - intros _ Hle. rewrite block_at_add_block_old by exact Hv. exact Hle.
  - intros Hne. congruence.
  - intros Hne. congruence.
Qed.

(** Moving the builder from a closed block to a pending block. *)
Lemma Lowered_position P P' c r c1 r1 n p c2 :
  valid r (module_functions c) ->
  Lowered P c r c1 r1 n ->
  terminators (block_at r1 (module_functions c1)) = 1 ->
  p ∈ P -> p ∉ P' -> (forall q, q ∈ P -> q = p \/ q ∈ P') ->
  (forall q, q ∈ P' -> q ∈ P) ->
  position_at_end p c1 = Ok (tt, c2) ->
  Lowered P' c r c2 p n.
Proof.
  intros Hv L Hone Hp Hnp Hcover Hsub H.
  apply position_at_end_Ok in H as (_ & ->).
  destruct (low_pending _ _ _ _ _ _ L p Hp) as (Hpf & Hp1 & Hp0 & Hpr & Hpt).
  pose proof (low_sync _ _ _ _ _ _ L) as (Hb1 & Hc1 & Hv1).
  assert (Hpr' : p <> r) by (intros ->; contradiction).
  split; simpl.
  - split; [reflexivity | split; [| exact Hp1]].
    simpl. rewrite Hc1, Hpf. f_equal. exact (low_function _ _ _ _ _ _ L).
  - exact Hpf.
  - exact (low_nblocks _ _ _ _ _ _ L).
  - exact (low_frame _ _ _ _ _ _ L).
  - exact (low_prefix _ _ _ _ _ _ L).
  - right. exact Hp0.
  - intros q Hq Hnq Hne Hnq'.
    assert (q ∉ P) by (intros Hin; destruct (Hcover q Hin); congruence).
    destruct (decide (q = r1)) as [->|Hne1]; [exact Hone |].
    apply (low_closed_new _ _ _ _ _ _ L); assumption.
  - intros p' Hp'.
    destruct (low_pending _ _ _ _ _ _ L p' (Hsub p' Hp'))
      as (Hf' & Hv' & Hn' & _ & Ht').
    repeat split; try assumption. intros ->. contradiction.
  - intros E. congruence.
  - intros _. exact Hpt.
  - intros _. destruct (decide (r1 = r)) as [<-|Hne1]; [exact Hone |].
    apply (low_switch _ _ _ _ _ _ L). exact Hne1.
Qed.

End LoweredRules.

(** ** Lowering of statements *)

Section Statements.
Import Ast IR Compiler Props.
Local Open Scope list_scope.
Local Open Scope nat_scope.

Lemma modify_Ok f c c' : modify f c = Ok (tt, c') -> c' = f c.
Proof. intros H. inversion H. reflexivity. Qed.

Lemma inserts_refl c : inserts c c.
Proof. apply emits_inserts, emits_refl. Qed.

Lemma inserts_trans c1 c2 c3 : inserts c1 c2 -> inserts c2 c3 -> inserts c1 c3.
Proof.
  intros (e1 & N1 & F1 & B1 & C1) (e2 & N2 & F2 & B2 & C2).
  exists (e1 ++ e2). split; [apply nonterminators_app; assumption |].
  repeat split; try congruence.
  rewrite F2. unfold emit. rewrite B1, F1. unfold emit.
  destruct (builder c1) as [b|]; [| reflexivity].
  rewrite update_block_update_block. apply update_block_ext.
  intros [n l]. unfold append_instructions. simpl.
  rewrite app_assoc. reflexivity.
Qed.

Lemma inserts_set_variables c c1 vs :
  inserts c c1 -> inserts c (set_variables vs c1).
Proof. intros (e & N & F & B & C). exists e. auto. Qed.

Lemma inserts_Idle c c' : inserts c c' -> Idle c -> Idle c'.
Proof. intros (e & _ & _ & B & C) [Hb Hc]. split; congruence. Qed.

Lemma straight_inserts {A : Type} (m : M A) c a c' :
  straight m -> m c = Ok (a, c') -> inserts c c'.
Proof. intros Hm H. apply emits_inserts. eapply Hm. exact H. Qed.

Lemma compile_var_declaration_inserts name init c c' :
  compile_var_declaration name init c = Ok (tt, c') -> inserts c c'.
Proof.
  unfold compile_var_declaration. intros H.
  destruct (builder c) as [r|].
  - apply mbind_Ok in H as (ptr & c1 & H1 & H).
    apply mbind_Ok in H as ([] & c2 & H2 & H).
    apply modify_Ok in H. subst c'. apply inserts_set_variables.
    eapply inserts_trans.
    + eapply straight_inserts; [apply straight_alloca | exact H1].
    + destruct init as [e|].
      * apply mbind_Ok in H2 as (v & c3 & H3 & H4).
        eapply inserts_trans.
        -- eapply straight_inserts;
             [apply straight_compile_expression | exact H3].
        -- eapply straight_inserts; [apply straight_store | exact H4].
      * inversion H2. apply inserts_refl.
  - inversion H. apply inserts_refl.
Qed.

Lemma compile_assignment_inserts target value op c c' :
  compile_assignment target value op c = Ok (tt, c') -> inserts c c'.
Proof.
  unfold compile_assignment. intros H.
  destruct target; try discriminate H.
  destruct (variables c !! _); [| discriminate H].
  apply mbind_Ok in H as (val & c1 & H1 & H).
  destruct (variables c1 !! _); [| discriminate H].
  eapply inserts_trans.
  - eapply straight_inserts; [apply straight_compile_expression | exact H1].
  - eapply straight_inserts; [apply straight_store | exact H].
Qed.

Lemma bind_parameters_inserts ps : forall f i c c',
  bind_parameters f i ps c = Ok (tt, c') -> inserts c c'.
Proof.
  induction ps as [|[pn pt] ps IH]; intros f i c c' H.
  - inversion H. apply inserts_refl.
  - simpl in H. apply mbind_Ok in H as (ptr & c1 & H1 & H).
    apply mbind_Ok in H as ([] & c2 & H2 & H).
    apply mbind_Ok in H as ([] & c3 & H3 & H).
    apply modify_Ok in H3. subst c3.
    eapply inserts_trans; [| eapply IH; exact H].
    apply inserts_set_variables. eapply inserts_trans.
    + eapply straight_inserts; [apply straight_alloca | exact H1].
    + eapply straight_inserts; [apply straight_store | exact H2].
Qed.

(** The steps of [compile_function]. *)
Lemma compile_function_with_Ok name ps rt body c c' :
  compile_function_with name ps rt body c = Ok (tt, c') ->
  exists c1 c2 c3 c4 fn,
    module_functions c1 = module_functions c ++ [fn]
    /\ blocks fn = [MkBlock "entry" []]
    /\ fn_name fn = name
    /\ name_is_used name c = false
    /\ builder c1 = Some (length (module_functions c), 0)
    /\ current_function c1 = Some (length (module_functions c))
    /\ variables c1 = variables c
    /\ bind_parameters (length (module_functions c)) 0 ps c1 = Ok (tt, c2)
    /\ body c2 = Ok (tt, c3)
    /\ (exists r, builder c3 = Some r
          /\ ((is_terminated (block_at r (module_functions c3)) = true
               /\ c4 = c3)
              \/ (exists t, is_terminator t = true
                           /\ set_terminator t c3 = Ok (tt, c4))))
    /\ c' = set_current_function None (set_builder None c4).
Proof.
  unfold compile_function_with. intros H.
  apply mbind_Ok in H as (pts & c0 & H0 & H).
  apply lift_Ok in H0 as [_ ->].
  apply mbind_Ok in H as (rty & c0 & H0 & H).
  apply lift_Ok in H0 as [_ ->].
  apply mbind_Ok in H as (f & c0 & H0 & H).
  destruct (name_is_used name c) eqn:Hused; [discriminate H0 |].
  inversion H0; subst f c0; clear H0.
  apply mbind_Ok in H as ([] & c0 & H0 & H). apply modify_Ok in H0. subst c0.
  apply mbind_Ok in H as ([] & c0 & H0 & H). apply modify_Ok in H0. subst c0.
  apply mbind_Ok in H as ([] & c0 & H0 & H). apply modify_Ok in H0. subst c0.
  apply mbind_Ok in H as ([] & c2 & H2 & H).
  apply mbind_Ok in H as ([] & c3 & H3 & H).
  apply mbind_Ok in H as (t & c3' & Ht & H).
  apply block_is_terminated_Ok in Ht as (r & Hr & -> & ->).
  apply mbind_Ok in H as ([] & c4 & H4 & H).
  apply mbind_Ok in H as ([] & c5 & H5 & H).
  apply modify_Ok in H5. apply modify_Ok in H. subst c5 c'.
  match type of H2 with bind_parameters _ _ _ ?x = _ => exists x end.
  exists c2, c3, c4. eexists.
  repeat split; try reflexivity; try eassumption.
  exists r. split; [exact Hr |].
  destruct (is_terminated _); simpl in H4.
  - left. inversion H4. auto.
  - right. destruct (LType_eqb rty void).
    + apply mbind_Ok in H4 as (r0 & c0 & Hg & H4).
      apply get_builder_Ok in Hg as [_ ->]. eexists. split; [| exact H4].
      reflexivity.
    + apply mbind_Ok in H4 as (r0 & c0 & Hg & H4).
      apply get_builder_Ok in Hg as [_ ->]. eexists. split; [| exact H4].
      reflexivity.
Qed.

Lemma compile_function_with_Idle name ps rt body c c' :
  compile_function_with name ps rt body c = Ok (tt, c') -> Idle c'.
Proof.
  intros H. apply compile_function_with_Ok in H
    as (c1 & c2 & c3 & c4 & fn & _ & _ & _ & _ & _ & _ & _ & _ & _ & _ & ->).
  split; reflexivity.
Qed.

Lemma Lowered_cast P P' c r c' r' n n' :
  Lowered P c r c' r' n -> P' = P -> n' = n -> Lowered P' c r c' r' n'.
Proof. intros L -> ->. exact L. Qed.

(** The end of an arm of [if] or of the body of [while]: branch to the
    target unless the block is terminated. *)
Lemma close_arm target c r c1 :
  InSync c r ->
  terminators (block_at r (module_functions c)) <= 1 ->
  forall t c0,
  block_is_terminated c = Ok (t, c0) ->
  (if negb t then branch target else ret tt) c0 = Ok (tt, c1) ->
  Lowered [] c r c1 r 0
  /\ terminators (block_at r (module_functions c1)) = 1
  /\ (is_terminated (block_at r (module_functions c)) = false ->
      block_at r (module_functions c1)
      = append_instructions [Branch target]
          (block_at r (module_functions c)))
  /\ (is_terminated (block_at r (module_functions c)) = true -> c1 = c).
Proof.
  intros Hs Hle t c0 Ht H.
  apply block_is_terminated_Ok in Ht as (r0 & Hr & -> & ->).
  destruct Hs as (Hb & Hc & Hv). rewrite Hb in Hr. inversion Hr; subst r0.
  destruct (is_terminated _) eqn:E; simpl in H.
  - inversion H; subst c1. split; [apply Lowered_refl; repeat split; auto |].
    split; [| split; [discriminate | reflexivity]].
    rewrite is_terminated_terminators in E.
    destruct (terminators _ =? 0) eqn:E0; [discriminate |].
    apply Nat.eqb_neq in E0. lia.
  - unfold branch in H. apply mbind_Ok in H as (r0 & c0 & Hg & H).
    apply get_builder_Ok in Hg as [_ ->].
    destruct (Lowered_terminate c r (Branch target) c1) as (L & Hat & Hone);
      [repeat split; auto | reflexivity | exact H |].
    split; [exact L |]. split; [exact Hone |].
    split; [intros _; exact Hat | discriminate].
Qed.

(** Lowering an arm in a block just entered. *)
Lemma Lowered_arm P c r c1 q m body n target c2 :
  valid r (module_functions c) ->
  Lowered P c r c1 q m -> q <> r ->
  lowers body n ->
  forall cb t c0,
  body c1 = Ok (tt, cb) ->
  block_is_terminated cb = Ok (t, c0) ->
  (if negb t then branch target else ret tt) c0 = Ok (tt, c2) ->
  exists rb, Lowered P c r c2 rb (m + n)
             /\ terminators (block_at rb (module_functions c2)) = 1.
Proof.
  intros Hv L Hne Hbody cb t c0 Hb Ht H.
  pose proof (low_sync _ _ _ _ _ _ L) as Hs1.
  destruct (Hbody c1 cb q Hb Hs1) as [[Hidle _] | (rb & Lb)].
  { apply block_is_terminated_Ok in Ht as (r0 & Hr & _). congruence. }
  pose proof (low_sync _ _ _ _ _ _ Lb) as Hsb.
  assert (Hle : terminators (block_at rb (module_functions cb)) <= 1).
  { destruct (decide (rb = q)) as [E|E].
    - apply (low_open_same _ _ _ _ _ _ Lb E).
      subst rb. apply (low_open_new _ _ _ _ _ _ L Hne).
    - apply (low_open_new _ _ _ _ _ _ Lb E). }
  destruct (close_arm target cb rb c2 Hsb Hle t c0 Ht H) as (Lc & Hone & _).
  exists rb. split; [| exact Hone].
  eapply Lowered_cast.
  - eapply Lowered_trans; [exact Hv | exact L |].
    eapply Lowered_trans; [destruct Hs1 as (_ & _ & ?); assumption
                          | exact Lb | exact Lc].
  - simpl. rewrite app_nil_r. reflexivity.
  - lia.
Qed.

Lemma pair_ne (f a b : nat) : a <> b -> (f, a) <> (f, b).
Proof. intros H E. inversion E. contradiction. Qed.

(** [compile_while]: three blocks and what the body appends. *)
Lemma lowers_while cond body n :
  lowers body n -> lowers (compile_while_with cond body) (3 + n).
Proof.
  intros Hbody c c' r H Hs. right.
  pose proof Hs as (Hb & Hc & Hv).
  unfold compile_while_with in H.
  apply mbind_Ok in H as (qc & c1 & H1 & H).
  apply mbind_Ok in H as (qb & c2 & H2 & H).
  apply mbind_Ok in H as (qe & c3 & H3 & H).
  apply mbind_Ok in H as ([] & c4 & H4 & H).
  apply mbind_Ok in H as ([] & c5 & H5 & H).
  apply mbind_Ok in H as (v & c6 & H6 & H).
  apply mbind_Ok in H as ([] & c7 & H7 & H).
  apply mbind_Ok in H as ([] & c8 & H8 & H).
  apply mbind_Ok in H as ([] & c9 & H9 & H).
  apply mbind_Ok in H as (t & c9' & Ht & H).
  apply mbind_Ok in H as ([] & c10 & H10 & H).
  (* the three blocks *)
  destruct (Lowered_append c r _ qc c1 Hs H1) as (L1 & Eqc & _).
  pose proof (low_sync _ _ _ _ _ _ L1) as Hs1.
  destruct (Lowered_append c1 r _ qb c2 Hs1 H2) as (L2 & Eqb & _).
  pose proof (low_sync _ _ _ _ _ _ L2) as Hs2.
  destruct (Lowered_append c2 r _ qe c3 Hs2 H3) as (L3 & Eqe & _).
  pose proof (low_sync _ _ _ _ _ _ L3) as Hs3.
  rewrite (low_nblocks _ _ _ _ _ _ L2), (low_nblocks _ _ _ _ _ _ L1) in Eqe.
  rewrite (low_nblocks _ _ _ _ _ _ L1) in Eqb.
  rewrite decide_True in Eqb, Eqe by reflexivity.
  set (n0 := nblocks r.1 (module_functions c)) in *.
  assert (Hcb : qc <> qb) by (subst qc qb; apply pair_ne; lia).
  assert (Hce : qc <> qe) by (subst qc qe; apply pair_ne; lia).
  assert (Hbe : qb <> qe) by (subst qb qe; apply pair_ne; lia).
  assert (L123 : Lowered [qc; qb; qe] c r c3 r 3).
  { eapply Lowered_cast.
    - eapply Lowered_trans; [exact Hv | exact L1 |].
      eapply Lowered_trans; [destruct Hs1 as (_ & _ & ?); assumption
                            | exact L2 | exact L3].
    - reflexivity.
    - reflexivity. }
  (* leave the current block *)
  unfold branch in H4. apply mbind_Ok in H4 as (r0 & c0 & Hg & H4).
  apply get_builder_Ok in Hg as [_ ->].
  destruct (Lowered_terminate c3 r (Branch qc) c4 Hs3 eq_refl H4)
    as (L4 & _ & Hone4).
  assert (L1234 : Lowered [qc; qb; qe] c r c4 r 3).
  { eapply Lowered_cast; [eapply Lowered_trans; [exact Hv | exact L123
                                                | exact L4] | |];
      [rewrite app_nil_r; reflexivity | lia]. }
  assert (L5 : Lowered [qb; qe] c r c5 qc 3).
  { eapply (Lowered_position [qc; qb; qe] [qb; qe]);
      [exact Hv | exact L1234 | exact Hone4 | | | | | exact H5].
    - apply elem_of_cons. auto.
    - rewrite !not_elem_of_cons. repeat split; auto. apply not_elem_of_nil.
    - intros q Hq. apply elem_of_cons in Hq. tauto.
    - intros q Hq. apply elem_of_cons. auto. }
  assert (Hqc_r : qc <> r).
  { destruct (low_fresh _ _ _ _ _ _ L5) as [E|E]; [| congruence].
    intros E'. subst qc. rewrite <- E' in Hv. unfold valid in Hv.
    simpl in Hv. fold n0 in Hv. lia. }
  (* the condition and its branch *)
  pose proof (low_sync _ _ _ _ _ _ L5) as Hs5.
  assert (L6 : Lowered [] c5 qc c6 qc 0).
  { apply Lowered_inserts; [exact Hs5 |].
    eapply straight_inserts; [apply straight_compile_expression | exact H6]. }
  pose proof (low_sync _ _ _ _ _ _ L6) as Hs6.
  unfold cbranch in H7. apply mbind_Ok in H7 as (r7 & c0 & Hg & H7).
  apply get_builder_Ok in Hg as [_ ->].
  destruct (Lowered_terminate c6 qc (CBranch v qb qe) c7 Hs6 eq_refl H7)
    as (L7 & _ & Hone7).
  assert (L567 : Lowered [qb; qe] c r c7 qc 3).
  { eapply Lowered_cast.
    - eapply Lowered_trans; [exact Hv | exact L5 |].
      eapply Lowered_trans; [destruct Hs5 as (_ & _ & ?); assumption
                            | exact L6 | exact L7].
    - rewrite app_nil_r. reflexivity.
    - lia. }
  assert (L8 : Lowered [qe] c r c8 qb 3).
  { eapply (Lowered_position [qb; qe] [qe]);
      [exact Hv | exact L567 | exact Hone7 | | | | | exact H8].
    - apply elem_of_cons. auto.
    - rewrite !not_elem_of_cons. repeat split; auto. apply not_elem_of_nil.
    - intros q Hq. apply elem_of_cons in Hq. tauto.
    - intros q Hq. apply elem_of_cons. auto. }
  assert (Hqb_r : qb <> r).
  { intros E'. subst qb. rewrite <- E' in Hv. unfold valid in Hv.
    simpl in Hv. fold n0 in Hv. lia. }
  (* the body *)
  destruct (Lowered_arm [qe] c r c8 qb 3 body n qc c10 Hv L8 Hqb_r Hbody
              c9 t c9' H9 Ht H10) as (rb & L10 & Hone10).
  exists qe.
  eapply (Lowered_position [qe] []);
    [exact Hv | exact L10 | exact Hone10 | | | | | exact H].
  - apply elem_of_cons. auto.
  - apply not_elem_of_nil.
  - intros q Hq. apply elem_of_cons in Hq. tauto.
  - intros q Hq. apply elem_of_nil in Hq. contradiction.
Qed.

Ltac lowered_chain :=
  eapply Lowered_cast;
  [ eapply Lowered_trans; [eassumption | eassumption | eassumption]
  | try rewrite app_nil_r; reflexivity
  | lia ].

Ltac lowered_position P P' :=
  eapply (Lowered_position P P');
  [ eassumption | eassumption | eassumption
  | set_solver | set_solver | set_solver | set_solver | eassumption ].

Lemma fresh_block_ne c r (k : nat) :
  valid r (module_functions c) ->
  (r.1, nblocks r.1 (module_functions c) + k) <> r.
Proof.
  intros Hv E. unfold valid in Hv. rewrite <- E in Hv. simpl in Hv. lia.
Qed.

(** [compile_if] without [else]: two blocks and what the branch appends. *)
Lemma lowers_if cond then_ n :
  lowers then_ n -> lowers (compile_if_with cond then_ None) (2 + n).
Proof.
  intros Hthen c c' r H Hs. right.
  pose proof Hs as (Hb & Hc & Hv).
  unfold compile_if_with in H.
  apply mbind_Ok in H as (v & c0 & H0 & H).
  apply mbind_Ok in H as (qt & c1 & H1 & H).
  apply mbind_Ok in H as (eb & c1' & He & H).
  inversion He; subst eb c1'; clear He.
  apply mbind_Ok in H as (qm & c2 & H2 & H).
  apply mbind_Ok in H as ([] & c3 & H3 & H).
  apply mbind_Ok in H as ([] & c4 & H4 & H).
  apply mbind_Ok in H as ([] & c5 & H5 & H).
  apply mbind_Ok in H as (t & c5' & Ht & H).
  apply mbind_Ok in H as ([] & c6 & H6 & H).
  apply mbind_Ok in H as ([] & c7 & H7 & H).
  inversion H7; subst c7; clear H7.
  assert (L0 : Lowered [] c r c0 r 0).
  { apply Lowered_inserts; [exact Hs |].
    eapply straight_inserts; [apply straight_compile_expression | exact H0]. }
  pose proof (low_sync _ _ _ _ _ _ L0) as Hs0. pose proof Hs0 as (_ & _ & Hv0).
  destruct (Lowered_append c0 r _ qt c1 Hs0 H1) as (L1 & Eqt & _).
  pose proof (low_sync _ _ _ _ _ _ L1) as Hs1. pose proof Hs1 as (_ & _ & Hv1).
  destruct (Lowered_append c1 r _ qm c2 Hs1 H2) as (L2 & Eqm & _).
  pose proof (low_sync _ _ _ _ _ _ L2) as Hs2. pose proof Hs2 as (_ & _ & Hv2).
  rewrite (low_nblocks _ _ _ _ _ _ L1) in Eqm.
  rewrite (low_nblocks _ _ _ _ _ _ L0) in Eqt, Eqm.
  destruct (decide (r.1 = r.1)) as [_|]; [| congruence].
  set (n0 := nblocks r.1 (module_functions c)) in *.
  assert (Htm : qt <> qm) by (subst qt qm; apply pair_ne; lia).
  assert (Hqt : qt <> r) by (subst qt; apply fresh_block_ne; exact Hv).
  assert (L12 : Lowered [qt; qm] c0 r c2 r 2) by lowered_chain.
  assert (L012 : Lowered [qt; qm] c r c2 r 2) by lowered_chain.
  unfold cbranch in H3. apply mbind_Ok in H3 as (r3 & c3' & Hg & H3).
  apply get_builder_Ok in Hg as [_ ->].
  destruct (Lowered_terminate c2 r (CBranch v qt qm) c3 Hs2 eq_refl H3)
    as (L3 & _ & Hone3).
  assert (L0123 : Lowered [qt; qm] c r c3 r 2) by lowered_chain.
  assert (L4 : Lowered [qm] c r c4 qt 2)
    by lowered_position [qt; qm] [qm].
  destruct (Lowered_arm [qm] c r c4 qt 2 then_ n qm c6 Hv L4 Hqt Hthen
              c5 t c5' H5 Ht H6) as (rb & L6 & Hone6).
  exists qm. lowered_position [qm] (@nil BlockRef).
Qed.

(** [compile_if] with [else]: three blocks and what the branches append. *)
Lemma lowers_if_else cond then_ else_ n m :
  lowers then_ n -> lowers else_ m ->
  lowers (compile_if_with cond then_ (Some else_)) (3 + n + m).
Proof.
  intros Hthen Helse c c' r H Hs. right.
  pose proof Hs as (Hb & Hc & Hv).
  unfold compile_if_with in H.
  apply mbind_Ok in H as (v & c0 & H0 & H).
  apply mbind_Ok in H as (qt & c1 & H1 & H).
  apply mbind_Ok in H as (eb & c1' & He & H).
  apply mbind_Ok in He as (qe & c1e & He & Hr).
  inversion Hr; subst eb c1'; clear Hr.
  apply mbind_Ok in H as (qm & c2 & H2 & H).
  apply mbind_Ok in H as ([] & c3 & H3 & H).
  apply mbind_Ok in H as ([] & c4 & H4 & H).
  apply mbind_Ok in H as ([] & c5 & H5 & H).
  apply mbind_Ok in H as (t & c5' & Ht & H).
  apply mbind_Ok in H as ([] & c6 & H6 & H).
  apply mbind_Ok in H as ([] & c10 & H7 & H).
  apply mbind_Ok in H7 as ([] & c7 & H7 & H8).
  apply mbind_Ok in H8 as ([] & c8 & H8 & H9).
  apply mbind_Ok in H9 as (t' & c8' & Ht' & H9).
  assert (L0 : Lowered [] c r c0 r 0).
  { apply Lowered_inserts; [exact Hs |].
    eapply straight_inserts; [apply straight_compile_expression | exact H0]. }
  pose proof (low_sync _ _ _ _ _ _ L0) as Hs0. pose proof Hs0 as (_ & _ & Hv0).
  destruct (Lowered_append c0 r _ qt c1 Hs0 H1) as (L1 & Eqt & _).
  pose proof (low_sync _ _ _ _ _ _ L1) as Hs1. pose proof Hs1 as (_ & _ & Hv1).
  destruct (Lowered_append c1 r _ qe c1e Hs1 He) as (L1e & Eqe & _).
  pose proof (low_sync _ _ _ _ _ _ L1e) as Hs1e.
  pose proof Hs1e as (_ & _ & Hv1e).
  destruct (Lowered_append c1e r _ qm c2 Hs1e H2) as (L2 & Eqm & _).
  pose proof (low_sync _ _ _ _ _ _ L2) as Hs2. pose proof Hs2 as (_ & _ & Hv2).
  rewrite (low_nblocks _ _ _ _ _ _ L1e) in Eqm.
  rewrite (low_nblocks _ _ _ _ _ _ L1) in Eqe, Eqm.
  rewrite (low_nblocks _ _ _ _ _ _ L0) in Eqt, Eqe, Eqm.
  destruct (decide (r.1 = r.1)) as [_|]; [| congruence].
  set (n0 := nblocks r.1 (module_functions c)) in *.
  assert (Hte : qt <> qe) by (subst qt qe; apply pair_ne; lia).
  assert (Htm : qt <> qm) by (subst qt qm; apply pair_ne; lia).
  assert (Hem : qe <> qm) by (subst qe qm; apply pair_ne; lia).
  assert (Hqt : qt <> r) by (subst qt; apply fresh_block_ne; exact Hv).
  assert (Hqe : qe <> r).
  { subst qe. rewrite <- Nat.add_assoc. apply fresh_block_ne. exact Hv. }
  assert (La : Lowered [qe; qm] c1 r c2 r 2) by lowered_chain.
  assert (Lb : Lowered [qt; qe; qm] c0 r c2 r 3) by lowered_chain.
  assert (Lc : Lowered [qt; qe; qm] c r c2 r 3) by lowered_chain.
  unfold cbranch in H3. apply mbind_Ok in H3 as (r3 & c3' & Hg & H3).
  apply get_builder_Ok in Hg as [_ ->].
  destruct (Lowered_terminate c2 r (CBranch v qt qe) c3 Hs2 eq_refl H3)
    as (L3 & _ & Hone3).
  assert (Ld : Lowered [qt; qe; qm] c r c3 r 3) by lowered_chain.
  assert (L4 : Lowered [qe; qm] c r c4 qt 3)
    by lowered_position [qt; qe; qm] [qe; qm].
  destruct (Lowered_arm [qe; qm] c r c4 qt 3 then_ n qm c6 Hv L4 Hqt Hthen
              c5 t c5' H5 Ht H6) as (rb & L6 & Hone6).
  assert (L7 : Lowered [qm] c r c7 qe (3 + n))
    by lowered_position [qe; qm] [qm].
  destruct (Lowered_arm [qm] c r c7 qe (3 + n) else_ m qm c10 Hv L7 Hqe Helse
              c8 t' c8' H8 Ht' H9) as (rb' & L10 & Hone10).
  exists qm. lowered_position [qm] (@nil BlockRef).
Qed.

Lemma get_builder_Idle {A : Type} (k : BlockRef -> M A) c r :
  Idle c -> mbind get_builder k c = Ok r -> False.
Proof.
  intros [Hb _] H. apply mbind_Ok in H as (b & c1 & H1 & _).
  apply get_builder_Ok in H1 as [H1 _]. congruence.
Qed.

Lemma append_basic_block_Idle name c r :
  Idle c -> append_basic_block name c = Ok r -> False.
Proof.
  intros [_ Hc] H. unfold append_basic_block in H. rewrite Hc in H.
  discriminate H.
Qed.

Lemma stays_idle_block l :
  Forall (fun s => stays_idle (compile_statement s)) l ->
  stays_idle (compile_block l).
Proof.
  induction 1 as [|s l Hs _ IH]; intros c c' H Hi.
  - inversion H. subst. exact Hi.
  - simpl in H. apply mbind_Ok in H as ([] & c1 & H1 & H).
    apply (IH c1 c' H). eapply Hs; eassumption.
Qed.

(** Outside a function, a statement that is lowered without error leaves
    the compiler outside any function. *)
Lemma stays_idle_compile_statement (stmt : ASTNode) :
  stays_idle (compile_statement stmt).
Proof.
  induction stmt using ASTNode_induction; intros c0 c' E Hi; simpl in E;
    try (inversion E; subst; exact Hi).
  - eapply inserts_Idle; [| exact Hi].
    eapply compile_var_declaration_inserts. exact E.
  - eapply compile_function_with_Idle. exact E.
  - eapply (stays_idle_block ss); eassumption.
  - apply mbind_Ok in E as (v & c1 & H1 & E). inversion E; subst.
    eapply inserts_Idle; [| exact Hi].
    eapply straight_inserts; [apply straight_compile_expression | exact H1].
  - exfalso. destruct v as [e|].
    + unfold compile_return in E.
      apply mbind_Ok in E as (v & c1 & H1 & E).
      eapply (get_builder_Idle _ c1); [| exact E].
      eapply inserts_Idle; [| exact Hi].
      eapply straight_inserts; [apply straight_compile_expression | exact H1].
    + eapply (get_builder_Idle _ c0); [exact Hi | exact E].
  - exfalso. unfold compile_if_with in E.
    apply mbind_Ok in E as (v & c1 & H1 & E).
    apply mbind_Ok in E as (q & c2 & H2 & _).
    eapply (append_basic_block_Idle _ c1); [| exact H2].
    eapply inserts_Idle; [| exact Hi].
    eapply straight_inserts; [apply straight_compile_expression | exact H1].
  - exfalso. unfold compile_while_with in E.
    apply mbind_Ok in E as (q & c2 & H2 & _).
    eapply append_basic_block_Idle; eassumption.
  - eapply inserts_Idle; [| exact Hi].
    eapply compile_assignment_inserts. exact E.
Qed.

Lemma lowers_block l :
  Forall (fun s => lowers (compile_statement s) (new_blocks s)) l ->
  lowers (compile_block l) (new_blocks_list l).
Proof.
  induction 1 as [|s l Hs _ IH]; intros c c' r H Hsync.
  - inversion H. subst. right. exists r. apply Lowered_refl. exact Hsync.
  - simpl in H. apply mbind_Ok in H as ([] & c1 & H1 & H).
    destruct (Hs c c1 r H1 Hsync) as [Hi | (r1 & L1)].
    + left. eapply (stays_idle_block l); [| exact H | exact Hi].
      apply Forall_forall. intros. apply stays_idle_compile_statement.
    + destruct (IH c1 c' r1 H (low_sync _ _ _ _ _ _ L1)) as [Hi | (r2 & L2)];
        [left; exact Hi |].
      right. exists r2. destruct Hsync as (_ & _ & Hv).
      change (new_blocks_list (s :: l))
        with (new_blocks s + new_blocks_list l).
      lowered_chain.
Qed.

(** Inside a function, a statement that is lowered without error either
    was a nested function declaration, which leaves the compiler outside
    any function, or changed the blocks as [Lowered] says. *)
Lemma lowers_compile_statement (stmt : ASTNode) :
  lowers (compile_statement stmt) (new_blocks stmt).
Proof.
  induction stmt using ASTNode_induction;
    try (intros c0 c' r_ E Hs; simpl in E; inversion E; subst; right;
         exists r_; apply Lowered_refl; exact Hs).
  - intros c0 c' r_ E Hs. right. exists r_. apply Lowered_inserts; [exact Hs |].
    eapply compile_var_declaration_inserts. exact E.
  - intros c0 c' r_ E Hs. left. eapply compile_function_with_Idle. exact E.
  - apply (lowers_block ss). assumption.
  - intros c0 c' r_ E Hs. simpl in E.
    apply mbind_Ok in E as (v & c1 & H1 & E). inversion E; subst.
    right. exists r_. apply Lowered_inserts; [exact Hs |].
    eapply straight_inserts; [apply straight_compile_expression | exact H1].
  - intros c0 c' r_ E Hs. right. exists r_. simpl in E.
    pose proof Hs as (_ & _ & Hv).
    destruct v as [e|]; unfold compile_return in E.
    + apply mbind_Ok in E as (v & c1 & H1 & E).
      assert (L1 : Lowered [] c0 r_ c1 r_ 0).
      { apply Lowered_inserts; [exact Hs |].
        eapply straight_inserts;
          [apply straight_compile_expression | exact H1]. }
      unfold builder_ret in E. apply mbind_Ok in E as (r0 & c2 & Hg & E).
      apply get_builder_Ok in Hg as [_ ->].
      destruct (Lowered_terminate c1 r_
                  (Ret (if is_PyNone v then None else Some v)) c'
                  (low_sync _ _ _ _ _ _ L1) eq_refl E) as (L2 & _).
      change (new_blocks (ReturnStatement (Some e))) with 0.
      lowered_chain.
    + unfold ret_void in E. apply mbind_Ok in E as (r0 & c2 & Hg & E).
      apply get_builder_Ok in Hg as [_ ->].
      destruct (Lowered_terminate c0 r_ (Ret None) c' Hs eq_refl E)
        as (L2 & _).
      exact L2.
  - destruct e as [e|]; simpl in *.
    + apply lowers_if_else; assumption.
    + apply lowers_if; assumption.
  - simpl. apply lowers_while. assumption.
  - intros c0 c' r_ E Hs. right. exists r_. apply Lowered_inserts; [exact Hs |].
    eapply compile_assignment_inserts. exact E.
Qed.

(** *** Whole functions and programs *)

Lemma nblocks_valid_lt q fs : valid q fs -> q.1 < length fs.
Proof.
  unfold valid, nblocks. intros H.
  destruct (fs !! q.1) eqn:E; [| lia]. eapply lookup_lt_Some. exact E.
Qed.

Lemma block_at_app_old q fs fn :
  q.1 < length fs -> block_at q (fs ++ [fn]) = block_at q fs.
Proof.
  intros H. unfold block_at. rewrite lookup_app_l by exact H. reflexivity.
Qed.

Lemma nblocks_app_old f fs fn :
  f < length fs -> nblocks f (fs ++ [fn]) = nblocks f fs.
Proof.
  intros H. unfold nblocks. rewrite lookup_app_l by exact H. reflexivity.
Qed.

Lemma nblocks_app_new fs fn :
  nblocks (length fs) (fs ++ [fn]) = length (blocks fn).
Proof.
  unfold nblocks. rewrite list_lookup_middle by reflexivity. reflexivity.
Qed.

Lemma nblocks_app_beyond f fs fn :
  length fs < f -> nblocks f (fs ++ [fn]) = 0.
Proof.
  intros H. unfold nblocks.
  rewrite (proj2 (lookup_ge_None (fs ++ [fn]) f));
    [reflexivity | rewrite length_app; simpl; lia].
Qed.

Lemma block_at_app_new fs fn b :
  blocks fn = [b] -> block_at (length fs, 0) (fs ++ [fn]) = b.
Proof.
  intros H. unfold block_at. simpl.
  rewrite list_lookup_middle by reflexivity. rewrite H. reflexivity.
Qed.

Lemma inserts_Idle_functions c c' :
  inserts c c' -> Idle c -> module_functions c' = module_functions c.
Proof.
  intros (e & _ & F & _) [Hb _]. rewrite F. unfold emit. rewrite Hb.
  reflexivity.
Qed.

(** The state in which [compile_function] lowers the body, and the state
    it reaches, related by [Lowered]: the final block is closed. *)
Lemma compile_function_with_Lowered name ps rt body n c c' :
  lowers body n ->
  compile_function_with name ps rt body c = Ok (tt, c') ->
  exists c1 c2 c3 c4 fn rb,
    module_functions c1 = module_functions c ++ [fn]
    /\ blocks fn = [MkBlock "entry" []]
    /\ InSync c1 (length (module_functions c), 0)
    /\ variables c1 = variables c
    /\ bind_parameters (length (module_functions c)) 0 ps c1 = Ok (tt, c2)
    /\ body c2 = Ok (tt, c3)
    /\ Lowered [] c1 (length (module_functions c), 0) c3 rb n
    /\ Lowered [] c1 (length (module_functions c), 0) c4 rb n
    /\ terminators (block_at rb (module_functions c4)) = 1
    /\ module_functions c' = module_functions c4
    /\ variables c' = variables c3.
Proof.
  intros Hbody H.
  apply compile_function_with_Ok in H
    as (c1 & c2 & c3 & c4 & fn & Hfs & Hblocks & _ & _ & Hb & Hc & Hvars & Hbp
        & Hbd & (r & Hr & Hclose) & ->).
  set (f := length (module_functions c)) in *.
  assert (Hs1 : InSync c1 (f, 0)).
  { split; [exact Hb | split; [exact Hc |]].
    unfold valid. simpl. rewrite Hfs. unfold f. rewrite nblocks_app_new.
    rewrite Hblocks. simpl. lia. }
  pose proof Hs1 as (_ & _ & Hv1).
  assert (L2 : Lowered [] c1 (f, 0) c2 (f, 0) 0).
  { apply Lowered_inserts; [exact Hs1 |].
    eapply bind_parameters_inserts. exact Hbp. }
  pose proof (low_sync _ _ _ _ _ _ L2) as Hs2. pose proof Hs2 as (_ & _ & Hv2).
  destruct (Hbody c2 c3 (f, 0) Hbd Hs2) as [[Hi _] | (rb & L3)];
    [congruence |].
  pose proof (low_sync _ _ _ _ _ _ L3) as Hs3. pose proof Hs3 as (Hb3 & _ & Hv3).
  rewrite Hb3 in Hr. inversion Hr; subst r; clear Hr.
  assert (L13 : Lowered [] c1 (f, 0) c3 rb n) by lowered_chain.
  assert (Hentry : terminators (block_at (f, 0) (module_functions c1)) <= 1).
  { rewrite Hfs. unfold f.
    rewrite (block_at_app_new _ fn _ Hblocks). unfold terminators. simpl. lia. }
  assert (Hle : terminators (block_at rb (module_functions c3)) <= 1).
  { destruct (decide (rb = (f, 0))) as [E|E].
    - apply (low_open_same _ _ _ _ _ _ L13 E). exact Hentry.
    - apply (low_open_new _ _ _ _ _ _ L13 E). }
  exists c1, c2, c3, c4, fn, rb.
  repeat (split; [first [assumption | reflexivity] |]).
  destruct Hclose as [[Ht ->] | (t & Ht & Hset)]; simpl.
  - split; [exact L13 |]. split; [| split; reflexivity].
    rewrite is_terminated_terminators in Ht.
    destruct (terminators _ =? 0) eqn:E0; [discriminate |].
    apply Nat.eqb_neq in E0. lia.
  - destruct (Lowered_terminate c3 rb t c4 Hs3 Ht Hset) as (L4 & _ & Hone).
    assert (L14 : Lowered [] c1 (f, 0) c4 rb n) by lowered_chain.
    split; [exact L14 |]. split; [exact Hone |]. split; [reflexivity |].
    apply set_terminator_Ok in Hset as (? & _ & _ & ->). reflexivity.
Qed.

Lemma closed_compile_function name ps rt body n c c' :
  lowers body n ->
  compile_function_with name ps rt body c = Ok (tt, c') ->
  AllClosed (module_functions c) -> AllClosed (module_functions c').
Proof.
  intros Hbody H Hclosed.
  destruct (compile_function_with_Lowered name ps rt body n c c' Hbody H)
    as (c1 & c2 & c3 & c4 & fn & rb & Hfs & Hblocks & Hs1 & _ & _ & _ & _ & L
        & Hone & -> & _).
  set (f := length (module_functions c)) in *.
  intros q Hq.
  destruct (decide (q = rb)) as [->|Hrb]; [exact Hone |].
  destruct (decide (q.2 < nblocks q.1 (module_functions c1))) as [Hq1|Hq1];
    fold (valid q (module_functions c1)) in Hq1.
  - destruct (decide (q = (f, 0))) as [->|Hq0].
    + apply (low_switch _ _ _ _ _ _ L). congruence.
    + rewrite (low_frame _ _ _ _ _ _ L) by assumption.
      assert (Hlt : q.1 < f).
      { unfold valid in Hq1. rewrite Hfs in Hq1.
        destruct (lt_eq_lt_dec q.1 f) as [[Hlt|Heq]|Hgt]; [exact Hlt | |].
        - exfalso. apply Hq0. destruct q as [qf qb]. simpl in *. subst qf.
          unfold f in Hq1. rewrite nblocks_app_new, Hblocks in Hq1.
          simpl in Hq1. f_equal. lia.
        - unfold f in Hgt. rewrite nblocks_app_beyond in Hq1 by exact Hgt.
          lia. }
      rewrite Hfs. rewrite block_at_app_old by exact Hlt.
      apply Hclosed. unfold valid in *. rewrite Hfs in Hq1.
      rewrite nblocks_app_old in Hq1 by exact Hlt. exact Hq1.
  - apply (low_closed_new _ _ _ _ _ _ L); try assumption.
    apply not_elem_of_nil.
Qed.

Lemma keeps_closed_block l :
  Forall (fun s => keeps_closed (compile_statement s)) l ->
  keeps_closed (compile_block l).
Proof.
  induction 1 as [|s l Hs _ IH]; intros c c' H Hi Hc.
  - inversion H. subst. exact Hc.
  - simpl in H. apply mbind_Ok in H as ([] & c1 & H1 & H).
    apply (IH c1 c' H).
    + eapply stays_idle_compile_statement; eassumption.
    + eapply Hs; eassumption.
Qed.

(** Outside a function, lowering a statement keeps every block of the
    module closed: the blocks of a function just lowered hold exactly one
    terminator each. *)
Lemma keeps_closed_compile_statement (stmt : ASTNode) :
  keeps_closed (compile_statement stmt).
Proof.
  induction stmt using ASTNode_induction; intros c0 c' E Hi Hc;
    try (simpl in E; inversion E; subst; exact Hc);
    try (pose proof (stays_idle_compile_statement _ c0 c' E Hi) as Hi';
         simpl in E).
  - rewrite (inserts_Idle_functions c0 c'); [exact Hc | | exact Hi].
    eapply compile_var_declaration_inserts. exact E.
  - eapply (closed_compile_function n ps r _ (new_blocks_list body));
      [| exact E | exact Hc].
    apply lowers_block. apply Forall_forall. intros.
    apply lowers_compile_statement.
  - eapply (keeps_closed_block ss); eassumption.
  - apply mbind_Ok in E as (v & c1 & H1 & E). inversion E; subst.
    rewrite (inserts_Idle_functions c0 c'); [exact Hc | | exact Hi].
    eapply straight_inserts; [apply straight_compile_expression | exact H1].
  - exfalso. destruct v as [e|].
    + unfold compile_return in E.
      apply mbind_Ok in E as (v & c1 & H1 & E).
      eapply (get_builder_Idle _ c1); [| exact E].
      eapply inserts_Idle; [| exact Hi].
      eapply straight_inserts; [apply straight_compile_expression | exact H1].
    + eapply (get_builder_Idle _ c0); [exact Hi | exact E].
  - exfalso. unfold compile_if_with in E.
    apply mbind_Ok in E as (v & c1 & H1 & E).
    apply mbind_Ok in E as (q & c2 & H2 & _).
    eapply (append_basic_block_Idle _ c1); [| exact H2].
    eapply inserts_Idle; [| exact Hi].
    eapply straight_inserts; [apply straight_compile_expression | exact H1].
  - exfalso. unfold compile_while_with in E.
    apply mbind_Ok in E as (q & c2 & H2 & _).
    eapply (append_basic_block_Idle _ c0); eassumption.
  - rewrite (inserts_Idle_functions c0 c'); [exact Hc | | exact Hi].
    eapply compile_assignment_inserts. exact E.
Qed.

(** Every block of a module that [compile_program] returns holds exactly
    one terminator. *)
Lemma compile_program_AllClosed (program : Program) (c : LLVMCompiler) :
  compile_program program new = Ok c -> AllClosed (module_functions c).
Proof.
  unfold compile_program. intros H.
  destruct (compile_block program new) as [[[] c1]| |] eqn:E;
    try discriminate H.
  simpl in H. destruct (printable c1); inversion H; subst c1.
  eapply (keeps_closed_block program); [| exact E | split; reflexivity |].
  - apply Forall_forall. intros. apply keeps_closed_compile_statement.
  - intros [[|[|[|f]]] b] Hq; unfold valid, nblocks in Hq; simpl in Hq; lia.
Qed.

Lemma alloca_Ok ty name c v c' :
  alloca ty name c = Ok (v, c') ->
  exists r, builder c = Some r
            /\ v = InstrValue (next_id c) (PointerType ty)
            /\ c' = inserted (Alloca (next_id c) ty name) c.
Proof.
  unfold alloca. intros H. apply mbind_Ok in H as (r & c0 & Hg & H).
  apply get_builder_Ok in Hg as [Hb ->].
  apply mbind_Ok in H as (id & c1 & Hf & H). inversion Hf; subst id c1.
  apply mbind_Ok in H as ([] & c2 & Hi & H).
  apply insert_Ok in Hi as (r' & Hb' & ->). simpl in Hb'.
  rewrite Hb in Hb'. inversion Hb'; subst r'. inversion H; subst.
  exists r. repeat split; [exact Hb |].
  unfold inserted, emit. rewrite Hb. reflexivity.
Qed.

(** A variable declaration lowered inside a function: its slot is
    allocated where the builder stands, and the name is bound to it. *)
Lemma compile_var_declaration_slot name init c r c' :
  InSync c r ->
  compile_var_declaration name init c = Ok (tt, c') ->
  exists code,
    nonterminators code
    /\ block_at r (module_functions c')
       = append_instructions (Alloca (next_id c) i64 name :: code)
           (block_at r (module_functions c))
    /\ variables c' = <[name := slot (next_id c)]> (variables c).
Proof.
  intros (Hb & Hc & Hv) H. unfold compile_var_declaration in H.
  rewrite Hb in H.
  apply mbind_Ok in H as (ptr & c1 & H1 & H).
  apply mbind_Ok in H as ([] & c2 & H2 & H).
  apply modify_Ok in H. subst c'.
  apply alloca_Ok in H1 as (r' & Hb' & -> & ->).
  assert (Hem : emits (inserted (Alloca (next_id c) i64 name) c) c2).
  { destruct init as [e|].
    - apply mbind_Ok in H2 as (v & c3 & H3 & H4).
      eapply emits_trans; [eapply straight_compile_expression; exact H3 |].
      eapply straight_store. exact H4.
    - inversion H2. apply emits_refl. }
  destruct Hem as (code & N & F & B & V & _).
  exists code. split; [exact N |]. simpl. split.
  - rewrite F. unfold inserted. unfold emit. simpl. rewrite Hb.
    rewrite block_at_update_block_eq
      by (apply valid_update_block; exact Hv).
    rewrite block_at_update_block_eq by exact Hv.
    unfold append_instructions. simpl. rewrite <- app_assoc. reflexivity.
  - rewrite V. reflexivity.
Qed.

(** C1, as stated, fails on programs the checker accepts: a declaration
    after a [return] puts instructions behind the terminator of the entry
    block; a local declared in the body of an [if] has its slot in
    [if.then], not in the entry block; a name declared twice has two
    slots. *)
Lemma terminator_not_last_and_slot_not_in_entry :
  fst (Checker.check_program return_then_declare Checker.new) = true
  /\ lowered_blocks (compile_program return_then_declare new) 3
     = Some [MkBlock "entry"
               [Ret (Some (Constant i64 (CInt 1)));
                Alloca 0 i64 "x";
                Store (Constant i64 (CInt 2)) (slot 0)]]
  /\ fst (Checker.check_program declare_in_branch Checker.new) = true
  /\ lowered_blocks (compile_program declare_in_branch new) 3
     = Some [MkBlock "entry"
               [CBranch (Constant i1 (CInt 1)) (3, 1) (3, 2)];
             MkBlock "if.then"
               [Alloca 0 i64 "y";
                Store (Constant i64 (CInt 1)) (slot 0);
                Branch (3, 2)];
             MkBlock "if.end" [Ret None]]
  /\ fst (Checker.check_program declare_twice Checker.new) = true
  /\ lowered_blocks (compile_program declare_twice new) 3
     = Some [MkBlock "entry"
               [Alloca 0 i64 "x";
                Store (Constant i64 (CInt 1)) (slot 0);
                Alloca 1 i64 "x";
                Store (Constant i64 (CInt 2)) (slot 1);
                Ret None]].
Proof. repeat split; vm_compute; reflexivity. Qed.

(** C1, amended.  In the module of every program that is lowered without
    error, each basic block of each function holds exactly one terminator
    instruction.  A variable declaration lowered inside a function
    allocates one fresh stack slot at the builder's position, that is in
    the block that is current where the declaration is lowered, followed
    there by the code of its initialiser, and binds the name to that slot
    in the table of variables. *)
Theorem one_terminator_per_block_and_slot_at_declaration
    (program : Program) (c : LLVMCompiler)
    (name : string) (init : option ASTNode) (c0 c0' : LLVMCompiler)
    (r : BlockRef) :
  compile_program program new = Ok c ->
  InSync c0 r ->
  compile_var_declaration name init c0 = Ok (tt, c0') ->
  (forall q, valid q (module_functions c) ->
             terminators (block_at q (module_functions c)) = 1)
  /\ exists code,
       nonterminators code
       /\ block_at r (module_functions c0')
          = append_instructions (Alloca (next_id c0) i64 name :: code)
              (block_at r (module_functions c0))
       /\ variables c0' = <[name := slot (next_id c0)]> (variables c0).
Proof.
  intros Hp Hs Hd. split.
  - exact (compile_program_AllClosed program c Hp).
  - exact (compile_var_declaration_slot name init c0 r c0' Hs Hd).
Qed.

Lemma one_terminator_per_block_and_slot_at_declaration_witness :
  (forall q, valid q (module_functions declare_in_branch_module) ->
             terminators (block_at q (module_functions
                                        declare_in_branch_module)) = 1)
  /\ exists code,
       nonterminators code
       /\ block_at (3, 0) (module_functions after_declaration)
          = append_instructions (Alloca 2 i64 "x" :: code)
              (block_at (3, 0) (module_functions in_body))
       /\ variables after_declaration
          = <["x" := slot 2]> (variables in_body).
Proof.
  apply (one_terminator_per_block_and_slot_at_declaration
           declare_in_branch declare_in_branch_module
           "x" (Some (NumberLiteral (NInt 5))) in_body after_declaration
           (3, 0)).
  - vm_compute. reflexivity.
  - repeat split. unfold valid. vm_compute. lia.
  - reflexivity.
Defined.

End Statements.

(** ** The [while] statement *)

Section WhileLowering.
Import Ast IR Compiler Props.
Local Open Scope list_scope.
Local Open Scope nat_scope.

Lemma inserts_block_at c r c' :
  InSync c r -> inserts c c' ->
  exists code,
    nonterminators code
    /\ block_at r (module_functions c')
       = append_instructions code (block_at r (module_functions c)).
Proof.
  intros (Hb & _ & Hv) (code & N & F & _). exists code. split; [exact N |].
  rewrite F. unfold emit. rewrite Hb. apply block_at_update_block_eq.
  exact Hv.
Qed.

Lemma block_name_append code b :
  block_name (append_instructions code b) = block_name b.
Proof. reflexivity. Qed.

(** C8. Lowering a [while] statement appends three blocks to the current
    function, asked for under the names while.cond, while.body and
    while.end (the blocks that statements nested in the body append come
    after them); the block that was current gets a branch to while.cond
    at its end; while.cond holds the code of the condition and ends with
    the conditional branch to while.body or while.end; while.body, if
    lowering the body has left it without terminator, gets a branch back
    to while.cond at its end, and holds exactly one terminator in any
    case; lowering goes on in while.end, which is empty. *)
Theorem while_statement_lowering (condition body : ASTNode)
    (c c' : LLVMCompiler) (r : BlockRef) :
  compile_statement (WhileStatement condition body) c = Ok (tt, c') ->
  InSync c r ->
  let f := fst r in
  let n0 := nblocks f (module_functions c) in
  let cond_block := (f, n0) in
  let body_block := (f, n0 + 1) in
  let end_block := (f, n0 + 2) in
  nblocks f (module_functions c') = n0 + 3 + new_blocks body
  /\ block_at r (module_functions c')
     = append_instructions [Branch cond_block]
         (block_at r (module_functions c))
  /\ (exists code v,
        nonterminators code
        /\ block_at cond_block (module_functions c')
           = MkBlock "while.cond" (code ++ [CBranch v body_block end_block]))
  /\ (exists c_in c_out,
        builder c_in = Some body_block
        /\ block_at body_block (module_functions c_in)
           = MkBlock "while.body" []
        /\ compile_statement body c_in = Ok (tt, c_out)
        /\ (is_terminated (block_at body_block (module_functions c_out))
            = false ->
            block_at body_block (module_functions c')
            = append_instructions [Branch cond_block]
                (block_at body_block (module_functions c_out))))
  /\ block_name (block_at body_block (module_functions c')) = "while.body"
  /\ terminators (block_at body_block (module_functions c')) = 1
  /\ builder c' = Some end_block
  /\ block_at end_block (module_functions c') = MkBlock "while.end" [].
Proof.
  intros H Hs. cbv zeta.
  pose proof (lowers_compile_statement (WhileStatement condition body)
                c c' r H Hs) as Hlow.
  pose proof (lowers_compile_statement body) as Hbody.
  pose proof Hs as (Hb & Hc & Hv).
  simpl in H. unfold compile_while_with in H.
  apply mbind_Ok in H as (qc & c1 & H1 & H).
  apply mbind_Ok in H as (qb & c2 & H2 & H).
  apply mbind_Ok in H as (qe & c3 & H3 & H).
  apply mbind_Ok in H as ([] & c4 & H4 & H).
  apply mbind_Ok in H as ([] & c5 & H5 & H).
  apply mbind_Ok in H as (v & c6 & H6 & H).
  apply mbind_Ok in H as ([] & c7 & H7 & H).
  apply mbind_Ok in H as ([] & c8 & H8 & H).
  apply mbind_Ok in H as ([] & c9 & H9 & H).
  apply mbind_Ok in H as (t & c9' & Ht & H).
  apply mbind_Ok in H as ([] & c10 & H10 & H).
  destruct (Lowered_append c r _ qc c1 Hs H1) as (L1 & Eqc & Nc & F1).
  pose proof (low_sync _ _ _ _ _ _ L1) as Hs1. pose proof Hs1 as (_ & _ & Hv1).
  destruct (Lowered_append c1 r _ qb c2 Hs1 H2) as (L2 & Eqb & Nb & F2).
  pose proof (low_sync _ _ _ _ _ _ L2) as Hs2. pose proof Hs2 as (_ & _ & Hv2).
  destruct (Lowered_append c2 r _ qe c3 Hs2 H3) as (L3 & Eqe & Ne & F3).
  pose proof (low_sync _ _ _ _ _ _ L3) as Hs3. pose proof Hs3 as (_ & _ & Hv3).
  rewrite (low_nblocks _ _ _ _ _ _ L2), (low_nblocks _ _ _ _ _ _ L1) in Eqe.
  rewrite (low_nblocks _ _ _ _ _ _ L1) in Eqb.
  destruct (decide (r.1 = r.1)) as [_|]; [| congruence].
  set (n0 := nblocks r.1 (module_functions c)) in *.
  replace (n0 + 1 + 1) with (n0 + 2) in Eqe by lia.
  assert (Hcb : qc <> qb) by (subst qc qb; apply pair_ne; lia).
  assert (Hce : qc <> qe) by (subst qc qe; apply pair_ne; lia).
  assert (Hbe : qb <> qe) by (subst qb qe; apply pair_ne; lia).
  assert (Hrc : r <> qc).
  { intros E. rewrite E in Hv. subst qc. unfold valid in Hv. simpl in Hv.
    fold n0 in Hv. lia. }
  assert (Hrb : r <> qb).
  { intros E. rewrite E in Hv. subst qb. unfold valid in Hv. simpl in Hv.
    fold n0 in Hv. lia. }
  assert (Hre : r <> qe).
  { intros E. rewrite E in Hv. subst qe. unfold valid in Hv. simpl in Hv.
    fold n0 in Hv. lia. }
  assert (Hbc : qb <> qc) by congruence.
  assert (Hec : qe <> qc) by congruence.
  assert (Heb : qe <> qb) by congruence.
  assert (Hcr : qc <> r) by congruence.
  assert (Hbr : qb <> r) by congruence.
  assert (Her : qe <> r) by congruence.
  (* validity of the three blocks *)
  assert (Vc1 : valid qc (module_functions c1))
    by (apply (low_pending _ _ _ _ _ _ L1 qc); set_solver).
  assert (Vb2 : valid qb (module_functions c2))
    by (apply (low_pending _ _ _ _ _ _ L2 qb); set_solver).
  assert (Ve3 : valid qe (module_functions c3))
    by (apply (low_pending _ _ _ _ _ _ L3 qe); set_solver).
  assert (Vc2 : valid qc (module_functions c2)) by eauto using low_valid.
  assert (Vc3 : valid qc (module_functions c3)) by eauto using low_valid.
  assert (Vb3 : valid qb (module_functions c3)) by eauto using low_valid.
  assert (Vr1 : valid r (module_functions c1)) by eauto using low_valid.
  assert (Vr2 : valid r (module_functions c2)) by eauto using low_valid.
  (* leaving the current block *)
  unfold branch in H4. apply mbind_Ok in H4 as (r0 & c0 & Hg & H4).
  apply get_builder_Ok in Hg as [_ ->].
  destruct (Lowered_terminate c3 r (Branch qc) c4 Hs3 eq_refl H4)
    as (L4 & Hat4 & Hone4).
  apply position_at_end_Ok in H5 as (_ & ->).
  assert (Hs5 : InSync (set_builder (Some qc) c4) qc).
  { destruct (low_sync _ _ _ _ _ _ L4) as (_ & Hc4 & _).
    split; [reflexivity | split]; simpl.
    - rewrite Hc4. subst qc. reflexivity.
    - eapply low_valid; [exact L4 | exact Vc3]. }
  assert (I6 : inserts (set_builder (Some qc) c4) c6).
  { eapply straight_inserts; [apply straight_compile_expression | exact H6]. }
  destruct (inserts_block_at _ qc c6 Hs5 I6) as (code & Ncode & Hat6).
  pose proof (Lowered_inserts _ qc c6 Hs5 I6) as L6.
  pose proof (low_sync _ _ _ _ _ _ L6) as Hs6.
  unfold cbranch in H7. apply mbind_Ok in H7 as (r7 & c0 & Hg & H7).
  apply get_builder_Ok in Hg as [_ ->].
  destruct (Lowered_terminate c6 qc (CBranch v qb qe) c7 Hs6 eq_refl H7)
    as (L7 & Hat7 & Hone7).
  apply position_at_end_Ok in H8 as (_ & ->).
  (* blocks in the state where the body is lowered *)
  simpl in Hat6, L6.
  assert (V4 : forall q, valid q (module_functions c3) ->
                         valid q (module_functions c4))
    by (intros; eapply low_valid; eassumption).
  assert (V7 : forall q, valid q (module_functions c4) ->
                         valid q (module_functions c7)).
  { intros q Hq. eapply low_valid; [exact L7 |].
    eapply low_valid; [exact L6 | exact Hq]. }
  assert (F47 : forall q, valid q (module_functions c4) -> q <> qc ->
                  block_at q (module_functions c7)
                  = block_at q (module_functions c4)).
  { intros q Hq Hne. rewrite (low_frame _ _ _ _ _ _ L7).
    - apply (low_frame _ _ _ _ _ _ L6); assumption.
    - eapply low_valid; [exact L6 | exact Hq].
    - exact Hne. }
  assert (Vr4 : valid r (module_functions c4)) by auto.
  assert (Vc4 : valid qc (module_functions c4)) by auto.
  assert (Vb4 : valid qb (module_functions c4)) by auto.
  assert (Ve4 : valid qe (module_functions c4)) by auto.
  assert (Vr7 : valid r (module_functions c7)) by auto.
  assert (Vc7 : valid qc (module_functions c7)) by auto.
  assert (Vb7 : valid qb (module_functions c7)) by auto.
  assert (Ve7 : valid qe (module_functions c7)) by auto.
  assert (Hs8 : InSync (set_builder (Some qb) c7) qb).
  { destruct (low_sync _ _ _ _ _ _ L7) as (_ & Hc7 & _).
    split; [reflexivity | split]; simpl.
    - rewrite Hc7. subst qc qb. reflexivity.
    - auto. }
  destruct (Hbody _ c9 qb H9 Hs8) as [[Hi _] | (rb & Lb)].
  { apply block_is_terminated_Ok in Ht as (? & ? & _). congruence. }
  pose proof (low_sync _ _ _ _ _ _ Lb) as Hs9.
  simpl in Lb.
  assert (Hle : terminators (block_at rb (module_functions c9)) <= 1).
  { destruct (decide (rb = qb)) as [E|E].
    - apply (low_open_same _ _ _ _ _ _ Lb E). simpl.
      rewrite F47 by auto. rewrite (low_frame _ _ _ _ _ _ L4) by auto.
      rewrite F3 by exact Vb2. rewrite Nb. unfold terminators. simpl. lia.
    - apply (low_open_new _ _ _ _ _ _ Lb E). }
  destruct (close_arm qc c9 rb c10 Hs9 Hle t c9' Ht H10)
    as (Lc & Hone & Hopen & Hdone).
  apply position_at_end_Ok in H as (_ & ->). simpl.
  assert (Hfresh : forall q, valid q (module_functions c7) -> q <> qb ->
                             q <> rb).
  { intros q Hq Hne ->. destruct (low_fresh _ _ _ _ _ _ Lb) as [E|E];
      [congruence | apply E; exact Hq]. }
  assert (Fend : forall q, valid q (module_functions c7) -> q <> qb ->
                   block_at q (module_functions c10)
                   = block_at q (module_functions c7)).
  { intros q Hq Hne. rewrite (low_frame _ _ _ _ _ _ Lc).
    - apply (low_frame _ _ _ _ _ _ Lb); assumption.
    - eapply low_valid; [exact Lb | exact Hq].
    - apply Hfresh; assumption. }
  (* the eight facts *)
  rewrite <- Eqc, <- Eqb, <- Eqe.
  split.
  { destruct Hlow as [[Hi _] | (r' & L)]; [discriminate Hi |].
    rewrite (low_nblocks _ _ _ _ _ _ L). rewrite decide_True by reflexivity.
    fold n0. simpl. lia. }
  split.
  { rewrite Fend by auto. rewrite F47 by auto. rewrite Hat4.
    rewrite F3, F2, F1 by auto. reflexivity. }
  split.
  { exists code, v. split; [exact Ncode |].
    rewrite Fend by auto. rewrite Hat7, Hat6.
    rewrite (low_frame _ _ _ _ _ _ L4) by auto.
    rewrite F3, F2 by auto. rewrite Nc. reflexivity. }
  assert (Hbody_in : block_at qb (module_functions c7) = MkBlock "while.body" []).
  { rewrite F47 by auto. rewrite (low_frame _ _ _ _ _ _ L4) by auto.
    rewrite F3 by auto. exact Nb. }
  split.
  { exists (set_builder (Some qb) c7), c9.
    split; [reflexivity |].
    split; [exact Hbody_in |].
    split; [exact H9 |].
    intros Hnt.
    destruct (decide (rb = qb)) as [->|E].
    - apply Hopen. exact Hnt.
    - pose proof (low_switch _ _ _ _ _ _ Lb E) as Hsw.
      rewrite is_terminated_terminators, Hsw in Hnt. discriminate Hnt. }
  destruct (low_prefix _ _ _ _ _ _ Lb) as (extra & Hpre). simpl in Hpre.
  split.
  { destruct (decide (rb = qb)) as [->|E].
    - destruct (low_prefix _ _ _ _ _ _ Lc) as (extra' & Hpre').
      rewrite Hpre', Hpre, Hbody_in. reflexivity.
    - rewrite (low_frame _ _ _ _ _ _ Lc); auto.
      + rewrite Hpre, Hbody_in. reflexivity.
      + eapply low_valid; [exact Lb | simpl; auto]. }
  split.
  { destruct (decide (rb = qb)) as [->|E]; [exact Hone |].
    rewrite (low_frame _ _ _ _ _ _ Lc); auto.
    - apply (low_switch _ _ _ _ _ _ Lb E).
    - eapply low_valid; [exact Lb | simpl; auto]. }
  split; [reflexivity |].
  rewrite Fend by auto. rewrite F47 by auto.
  rewrite (low_frame _ _ _ _ _ _ L4) by auto. exact Ne.
Qed.

Lemma while_statement_lowering_witness :
  nblocks 3 (module_functions after_sample_loop) = 1 + 3 + 0
  /\ builder after_sample_loop = Some (3, 3)
  /\ block_at (3, 3) (module_functions after_sample_loop)
     = MkBlock "while.end" [].
Proof.
  pose proof (while_statement_lowering
                (BinaryOp (Identifier "a") "<" (Identifier "b"))
                (Block [AssignmentStatement (Identifier "a")
                          (BinaryOp (Identifier "a") "+"
                                    (NumberLiteral (NInt 1))) "="])
                in_body after_sample_loop (3, 0)) as H.
  cbv zeta in H.
  destruct H as (H1 & _ & _ & _ & _ & _ & H7 & H8).
  - vm_compute. reflexivity.
  - repeat split. unfold valid. vm_compute. lia.
  - split; [exact H1 | split; [exact H7 | exact H8]].
Defined.

End WhileLowering.

(** ** The type model: equality and assignability as relations *)

Section TypeRelations.
Import Types.

Lemma TypeKind_eqb_sym (a b : TypeKind) : TypeKind_eqb a b = TypeKind_eqb b a.
Proof. destruct a, b; reflexivity. Qed.

Lemma Type_eq_kind (a b : Type_) : Type_eq a b = true -> kind a = kind b.
Proof.
  destruct a as [k1 n1 e1 p1 r1 g1], b as [k2 n2 e2 p2 r2 g2]. simpl.
  destruct (TypeKind_eqb k1 k2) eqn:E; simpl; [| discriminate].
  intros _. apply TypeKind_eqb_eq. exact E.
Qed.

Lemma Type_eq_sym : forall a b : Type_, Type_eq a b = Type_eq b a.
Proof.
  fix IH 1. intros [k1 n1 e1 p1 r1 g1] [k2 n2 e2 p2 r2 g2]. simpl.
  rewrite (TypeKind_eqb_sym k2 k1).
  destruct (TypeKind_eqb k1 k2) eqn:Ek; simpl; [| reflexivity].
  apply TypeKind_eqb_eq in Ek. subst k2.
  destruct (TypeKind_eqb k1 ARRAY).
  - destruct e1 as [a|], e2 as [b|]; try reflexivity. apply IH.
  - destruct (TypeKind_eqb k1 FUNCTION).
    + f_equal.
      * destruct p1 as [l1|], p2 as [l2|]; try reflexivity.
        revert l2. induction l1 as [|a l1 IHl]; intros [|b l2];
          try reflexivity.
        rewrite (IH a b), IHl. reflexivity.
      * destruct r1 as [a|], r2 as [b|]; try reflexivity. apply IH.
    + apply String.eqb_sym.
Qed.

Lemma Type_eq_trans :
  forall a b c : Type_,
    Type_eq a b = true -> Type_eq b c = true -> Type_eq a c = true.
Proof.
  fix IH 1.
  intros [k1 n1 e1 p1 r1 g1] [k2 n2 e2 p2 r2 g2] [k3 n3 e3 p3 r3 g3]. simpl.
  destruct (TypeKind_eqb k1 k2) eqn:E12; simpl; [| discriminate].
  destruct (TypeKind_eqb k2 k3) eqn:E23; simpl; [| discriminate].
  apply TypeKind_eqb_eq in E12, E23. subst k2 k3.
  replace (TypeKind_eqb k1 k1) with true
    by (symmetry; apply TypeKind_eqb_eq; reflexivity).
  simpl.
  destruct (TypeKind_eqb k1 ARRAY).
  - destruct e1 as [a|], e2 as [b|], e3 as [c|]; try discriminate; auto.
    apply IH.
  - destruct (TypeKind_eqb k1 FUNCTION).
    + rewrite !andb_true_iff. intros [Hp Hr] [Hp' Hr']. split.
      * destruct p1 as [l1|], p2 as [l2|], p3 as [l3|]; try discriminate;
          auto.
        revert l2 l3 Hp Hp'.
        induction l1 as [|a l1 IHl]; intros [|b l2] [|c l3];
          try discriminate; auto.
        rewrite !andb_true_iff. intros [H1 H2] [H3 H4]. split.
        -- exact (IH a b c H1 H3).
        -- exact (IHl l2 l3 H2 H4).
      * destruct r1 as [a|], r2 as [b|], r3 as [c|]; try discriminate; auto.
        revert Hr Hr'. apply IH.
    + intros H1 H2. apply String.eqb_eq in H1, H2. subst.
      apply String.eqb_refl.
Qed.

(** X1. [Type.__eq__] is an equivalence relation on types: reflexive,
    symmetric and transitive (the optional fields compared as Python
    compares them). *)
Theorem Type_eq_is_an_equivalence :
  Equivalence (fun a b : Type_ => Type_eq a b = true).
Proof.
  split.
  - intros a. apply Type_eq_refl.
  - intros a b H. rewrite Type_eq_sym. exact H.
  - intros a b c. apply Type_eq_trans.
Qed.

(** X2. Assignability is a preorder: every type can be assigned to
    itself, and if [b] can be assigned to [a] and [c] to [b] then [c] can
    be assigned to [a]. *)
Theorem can_assign_is_a_preorder :
  PreOrder (fun target source : Type_ => can_assign target source = true).
Proof.
  split.
  - intros a. unfold can_assign. rewrite Type_eq_refl.
    destruct (TypeKind_eqb (kind a) AUTO); reflexivity.
  - intros a b c. unfold can_assign.
    destruct (TypeKind_eqb (kind a) AUTO) eqn:Ea; [reflexivity |].
    destruct (Type_eq a b) eqn:Eab.
    + pose proof (Type_eq_kind a b Eab) as Hk. rewrite <- Hk, Ea. intros _.
      destruct (Type_eq b c) eqn:Ebc.
      * rewrite (Type_eq_trans a b c Eab Ebc). reflexivity.
      * destruct (Type_eq a c); [reflexivity |]. exact (fun H => H).
    + destruct (TypeKind_eqb (kind b) NULL) eqn:Eb.
      * apply TypeKind_eqb_eq in Eb. intros Ha. rewrite Eb. simpl.
        destruct (Type_eq b c) eqn:Ebc.
        -- pose proof (Type_eq_kind b c Ebc) as Hk. rewrite Eb in Hk.
           rewrite <- Hk. simpl. intros _.
           destruct (Type_eq a c); [reflexivity | exact Ha].
        -- destruct (TypeKind_eqb (kind c) NULL); simpl; discriminate.
      * destruct (TypeKind_eqb (kind a) FLOAT) eqn:Ef; simpl;
          [| discriminate].
        destruct (TypeKind_eqb (kind b) INT) eqn:Ei; [| discriminate].
        intros _. apply TypeKind_eqb_eq in Ei. rewrite Ei. simpl.
        destruct (Type_eq b c) eqn:Ebc.
        -- pose proof (Type_eq_kind b c Ebc) as Hk. rewrite Ei in Hk.
           rewrite <- Hk. simpl. intros _.
           destruct (Type_eq a c); reflexivity.
        -- destruct (TypeKind_eqb (kind c) NULL); simpl; discriminate.
Qed.

(** X3. [parse_type_string] keeps the text as the name of the type, and
    two texts give equal types exactly when they are the same text: a
    class can never be confused with a primitive type. *)
Theorem parse_type_string_is_injective (s s' : string) :
  name (parse_type_string s) = s
  /\ (Type_eq (parse_type_string s) (parse_type_string s') = true
      <-> s = s').
Proof.
  assert (Hname : forall t, name (parse_type_string t) = t).
  { intros t. unfold parse_type_string.
    repeat match goal with
    | |- context [String.eqb t ?x] =>
      destruct (String.eqb_spec t x); [subst; reflexivity |]
    end.
    reflexivity. }
  split; [apply Hname |].
  split.
  - intros H.
    assert (Hn : String.eqb (name (parse_type_string s))
                            (name (parse_type_string s')) = true).
    { revert H. unfold parse_type_string.
      repeat match goal with
      | |- context [String.eqb s ?x] => destruct (String.eqb s x)
      end;
      repeat match goal with
      | |- context [String.eqb s' ?x] => destruct (String.eqb s' x)
      end; simpl; try discriminate; auto. }
    rewrite !Hname in Hn. apply String.eqb_eq. exact Hn.
  - intros ->. apply Type_eq_refl.
Qed.

End TypeRelations.

(** ** The type checker: what a check changes *)

Section CheckerInvariants.
Import Ast Types Checker Props.
Local Open Scope list_scope.

(** [infer_type] leaves the environment alone and only appends to the
    error list. *)
Lemma infer_type_effect (node : ASTNode) (tc : TypeChecker) :
  env (snd (infer_type node tc)) = env tc
  /\ exists new_errors,
       errors (snd (infer_type node tc)) = errors tc ++ new_errors.
Proof.
  revert tc.
  induction node using ASTNode_induction; intros tc; simpl;
    try (split; [reflexivity | exists []; rewrite app_nil_r; reflexivity]).
  - destruct v; simpl;
      (split; [reflexivity | exists []; rewrite app_nil_r; reflexivity]).
  - destruct (get_variable n (env tc)); simpl.
    + split; [reflexivity | exists []; rewrite app_nil_r; reflexivity].
    + split; [reflexivity | eexists; reflexivity].
  - destruct (IHnode1 tc) as (E1 & l1 & L1).
    destruct (infer_type node1 tc) as [lt tc1]. simpl in E1, L1.
    destruct (IHnode2 tc1) as (E2 & l2 & L2).
    destruct (infer_type node2 tc1) as [rt tc2]. simpl in E2, L2.
    assert (G : env tc2 = env tc
                /\ exists l, errors tc2 = errors tc ++ l).
    { split; [congruence |]. exists (l1 ++ l2).
      rewrite L2, L1, app_assoc. reflexivity. }
    repeat match goal with
    | |- context [if ?b then _ else _] => destruct b
    end; exact G.
  - destruct (IHnode tc) as (E1 & l1 & L1).
    destruct (infer_type node tc) as [ot tc1]. simpl in E1, L1.
    repeat match goal with
    | |- context [if ?b then _ else _] => destruct b
    end; simpl; (split; [exact E1 | exists l1; exact L1]).
  - destruct node; simpl;
      try (split; [reflexivity | exists []; rewrite app_nil_r; reflexivity]).
    destruct (get_function _ (env tc)) as [ft|]; simpl;
      [destruct (return_type ft) |]; simpl;
      (split; [reflexivity | exists []; rewrite app_nil_r; reflexivity]).
  - destruct es as [|first rest]; simpl.
    + split; [reflexivity | exists []; rewrite app_nil_r; reflexivity].
    + inversion H as [|? ? Hfirst _]; subst.
      destruct (Hfirst tc) as (E1 & l1 & L1).
      destruct (infer_type first tc) as [et tc1]. simpl in *.
      split; [exact E1 | exists l1; exact L1].
Qed.

Lemma infer_type_env (node : ASTNode) (tc tc' : TypeChecker) (t : Type_) :
  infer_type node tc = (t, tc') -> env tc' = env tc.
Proof.
  intros H. pose proof (proj1 (infer_type_effect node tc)) as E.
  rewrite H in E. exact E.
Qed.

Lemma infer_type_errors (node : ASTNode) (tc tc' : TypeChecker) (t : Type_) :
  infer_type node tc = (t, tc') ->
  exists new_errors, errors tc' = errors tc ++ new_errors.
Proof.
  intros H. pose proof (proj2 (infer_type_effect node tc)) as E.
  rewrite H in E. exact E.
Qed.

(** X4. Inferring the type of an expression never changes the
    environment, never removes an error, and the only errors it adds are
    reports of undefined variables. *)
Theorem infer_type_only_reports_undefined_variables (node : ASTNode)
    (tc : TypeChecker) :
  env (snd (infer_type node tc)) = env tc
  /\ exists reported,
       errors (snd (infer_type node tc))
       = errors tc ++ map UndefinedVariable reported.
Proof.
  split; [apply infer_type_effect |].
  revert tc.
  induction node using ASTNode_induction; intros tc; simpl;
    try (exists []; simpl; rewrite app_nil_r; reflexivity).
  - destruct v; exists []; simpl; rewrite app_nil_r; reflexivity.
  - destruct (get_variable n (env tc)); simpl.
    + exists []; simpl; rewrite app_nil_r; reflexivity.
    + exists [n]. reflexivity.
  - destruct (IHnode1 tc) as (l1 & L1).
    destruct (infer_type node1 tc) as [lt tc1]. simpl in L1.
    destruct (IHnode2 tc1) as (l2 & L2).
    destruct (infer_type node2 tc1) as [rt tc2]. simpl in L2.
    assert (G : exists l, errors tc2 = errors tc ++ map UndefinedVariable l).
    { exists (l1 ++ l2). rewrite L2, L1, map_app, app_assoc. reflexivity. }
    repeat match goal with
    | |- context [if ?b then _ else _] => destruct b
    end; exact G.
  - destruct (IHnode tc) as (l1 & L1).
    destruct (infer_type node tc) as [ot tc1]. simpl in L1.
    repeat match goal with
    | |- context [if ?b then _ else _] => destruct b
    end; simpl; exists l1; exact L1.
  - destruct node; simpl;
      try (exists []; simpl; rewrite app_nil_r; reflexivity).
    destruct (get_function _ (env tc)) as [ft|]; simpl;
      [destruct (return_type ft) |]; simpl;
      exists []; simpl; rewrite app_nil_r; reflexivity.
  - destruct es as [|first rest]; simpl.
    + exists []; simpl; rewrite app_nil_r; reflexivity.
    + inversion H as [|? ? Hfirst _]; subst.
      destruct (Hfirst tc) as (l1 & L1).
      destruct (infer_type first tc) as [et tc1]. simpl in *.
      exists l1; exact L1.
Qed.

Lemma tl_define_variable x t e : tl (define_variable x t e) = tl e.
Proof. destruct e; reflexivity. Qed.

Lemma tl_define_function x t e : tl (define_function x t e) = tl e.
Proof. destruct e; reflexivity. Qed.

Lemma get_variable_define_function x f t e :
  get_variable x (define_function f t e) = get_variable x e.
Proof. destruct e; reflexivity. Qed.

Lemma fold_define_variable_cons (ps : list (string * string)) sc e :
  exists sc',
    fold_left
      (fun e p => define_variable (fst p) (parse_type_string (snd p)) e)
      ps (sc :: e)
    = sc' :: e.
Proof.
  revert sc. induction ps as [|p ps IH]; intros sc; simpl; [eauto |].
  apply IH.
Qed.

(** What a statement check changes: the innermost scope and the error
    list, which only grows. *)
Lemma check_statement_effect (stmt : ASTNode) (tc : TypeChecker) :
  tl (env (check_statement stmt tc)) = tl (env tc)
  /\ exists new_errors,
       errors (check_statement stmt tc) = errors tc ++ new_errors.
Proof.
  revert tc.
  induction stmt using ASTNode_induction; intros tc;
    try (simpl; split;
         [reflexivity | exists []; rewrite app_nil_r; reflexivity]).
  - (* VarDeclaration *)
    simpl. destruct i as [init|].
    + destruct (infer_type init tc) as [it tc1] eqn:Hi.
      pose proof (infer_type_env _ _ _ _ Hi) as E.
      destruct (infer_type_errors _ _ _ _ Hi) as (l1 & L1).
      destruct t as [vt|]; simpl.
      * destruct (truthy vt && negb (vt =? "auto")%string); simpl.
        -- destruct (negb (can_assign (parse_type_string vt) it)); simpl;
             rewrite tl_define_variable, E;
             (split; [reflexivity |]).
           ++ exists (l1 ++ [CannotAssign it (parse_type_string vt)]).
              rewrite L1, app_assoc. reflexivity.
           ++ exists l1. exact L1.
        -- rewrite tl_define_variable, E. split; [reflexivity |].
           exists l1. exact L1.
      * rewrite tl_define_variable, E. split; [reflexivity |].
        exists l1. exact L1.
    + destruct t as [vt|]; simpl.
      * destruct (truthy vt); simpl.
        -- rewrite tl_define_variable. split; [reflexivity |].
           exists []. rewrite app_nil_r. reflexivity.
        -- split; [reflexivity | exists []; rewrite app_nil_r; reflexivity].
      * split; [reflexivity | exists []; rewrite app_nil_r; reflexivity].
  - (* FunctionDeclaration *)
    simpl.
    destruct (fold_define_variable_cons ps empty_scope (env tc))
      as (sc & Hfe).
    rewrite Hfe.
    set (ft := function_type n _ _).
    set (tc0 := with_env _ tc).
    assert (H0 : tl (env tc0) = define_function n ft (env tc)
                 /\ errors tc0 = errors tc).
    { unfold tc0. simpl. split; reflexivity. }
    clearbody tc0. clear Hfe.
    assert (G : forall tc1,
              tl (env tc1) = define_function n ft (env tc) ->
              (exists l, errors tc1 = errors tc ++ l) ->
              let tc2 :=
                (fix check_block (stmts : list ASTNode) (tc : TypeChecker)
                   : TypeChecker :=
                   match stmts with
                   | [] => tc
                   | s :: rest => check_block rest (check_statement s tc)
                   end) body tc1 in
              tl (env tc2) = define_function n ft (env tc)
              /\ exists l, errors tc2 = errors tc ++ l).
    { induction H as [|s body Hs _ IHbody]; intros tc1 Ht He; simpl.
      - split; assumption.
      - apply IHbody.
        + rewrite (proj1 (Hs tc1)). exact Ht.
        + destruct He as (l & L). destruct (proj2 (Hs tc1)) as (l' & L').
          exists (l ++ l'). rewrite L', L, app_assoc. reflexivity. }
    destruct (G tc0 (proj1 H0)) as [G1 G2].
    { exists []. rewrite app_nil_r. apply H0. }
    simpl in G1, G2. rewrite G1, tl_define_function.
    split; [reflexivity | exact G2].
  - (* ExpressionStatement *)
    simpl. destruct (infer_type stmt tc) as [t tc1] eqn:Hi. simpl.
    rewrite (infer_type_env _ _ _ _ Hi). split; [reflexivity |].
    apply (infer_type_errors _ _ _ _ Hi).
  - (* ReturnStatement *)
    simpl. destruct v as [e|]; simpl.
    + destruct (infer_type e tc) as [t tc1] eqn:Hi. simpl.
      rewrite (infer_type_env _ _ _ _ Hi). split; [reflexivity |].
      apply (infer_type_errors _ _ _ _ Hi).
    + split; [reflexivity | exists []; rewrite app_nil_r; reflexivity].
  - (* IfStatement *)
    simpl. destruct (infer_type stmt1 tc) as [ct tc1] eqn:Hi.
    pose proof (infer_type_env _ _ _ _ Hi) as E.
    destruct (infer_type_errors _ _ _ _ Hi) as (l1 & L1).
    set (tc2 := if negb (TypeKind_eqb (kind ct) BOOL)
                then error (IfConditionNotBool ct) tc1 else tc1).
    assert (H2 : env tc2 = env tc /\ exists l, errors tc2 = errors tc ++ l).
    { unfold tc2. destruct (negb _); simpl.
      - split; [exact E |]. eexists. rewrite L1, <- app_assoc. reflexivity.
      - split; [exact E | exists l1; exact L1]. }
    clearbody tc2. destruct H2 as (E2 & l2 & L2).
    destruct (IHstmt2 tc2) as (E3 & l3 & L3).
    destruct e as [el|]; simpl.
    + destruct (H (check_statement stmt2 tc2)) as (E4 & l4 & L4).
      rewrite E4, E3, E2. split; [reflexivity |].
      exists (l2 ++ l3 ++ l4). rewrite L4, L3, L2, <- !app_assoc.
      reflexivity.
    + rewrite E3, E2. split; [reflexivity |].
      exists (l2 ++ l3). rewrite L3, L2, <- app_assoc. reflexivity.
  - (* WhileStatement *)
    simpl. destruct (infer_type stmt1 tc) as [ct tc1] eqn:Hi.
    pose proof (infer_type_env _ _ _ _ Hi) as E.
    destruct (infer_type_errors _ _ _ _ Hi) as (l1 & L1).
    set (tc2 := if negb (TypeKind_eqb (kind ct) BOOL)
                then error (WhileConditionNotBool ct) tc1 else tc1).
    assert (H2 : env tc2 = env tc /\ exists l, errors tc2 = errors tc ++ l).
    { unfold tc2. destruct (negb _); simpl.
      - split; [exact E |]. eexists. rewrite L1, <- app_assoc. reflexivity.
      - split; [exact E | exists l1; exact L1]. }
    clearbody tc2. destruct H2 as (E2 & l2 & L2).
    destruct (IHstmt2 tc2) as (E3 & l3 & L3).
    rewrite E3, E2. split; [reflexivity |].
    exists (l2 ++ l3). rewrite L3, L2, <- app_assoc. reflexivity.
  - (* AssignmentStatement *)
    simpl. destruct (infer_type stmt1 tc) as [tt tc1] eqn:Hi.
    destruct (infer_type stmt2 tc1) as [vt tc2] eqn:Hj.
    pose proof (infer_type_env _ _ _ _ Hi) as E.
    destruct (infer_type_errors _ _ _ _ Hi) as (l1 & L1).
    pose proof (infer_type_env _ _ _ _ Hj) as E'.
    destruct (infer_type_errors _ _ _ _ Hj) as (l2 & L2).
    destruct (negb (can_assign tt vt)); simpl; rewrite E', E;
      (split; [reflexivity |]).
    + eexists. rewrite L2, L1, <- !app_assoc. reflexivity.
    + exists (l1 ++ l2). rewrite L2, L1, <- app_assoc. reflexivity.
Qed.

Lemma check_body_eq (body : list ASTNode) (tc : TypeChecker) :
  (fix check_block (stmts : list ASTNode) (tc : TypeChecker)
     : TypeChecker :=
     match stmts with
     | [] => tc
     | s :: rest => check_block rest (check_statement s tc)
     end) body tc
  = check_block body tc.
Proof.
  revert tc. induction body as [|s body IH]; intros tc; [reflexivity |].
  simpl. apply IH.
Qed.

Lemma check_block_effect (stmts : list ASTNode) (tc : TypeChecker) :
  tl (env (check_block stmts tc)) = tl (env tc)
  /\ exists new_errors,
       errors (check_block stmts tc) = errors tc ++ new_errors.
Proof.
  revert tc. induction stmts as [|s stmts IH]; intros tc.
  - split; [reflexivity | exists []; rewrite app_nil_r; reflexivity].
  - change (check_block (s :: stmts) tc)
      with (check_block stmts (check_statement s tc)).
    destruct (IH (check_statement s tc)) as (E1 & l1 & L1).
    destruct (check_statement_effect s tc) as (E2 & l2 & L2).
    split; [congruence |].
    exists (l2 ++ l1). rewrite L1, L2, app_assoc. reflexivity.
Qed.

(** X5. Checking a function declaration restores the scope it was met
    in: afterwards the environment is the old one with the function
    registered in its innermost scope, so the parameters and the local
    variables of the function are not visible after it. *)
Theorem function_declaration_restores_the_scope (name : string)
    (parameters : list (string * string)) (return_type : string)
    (body : list ASTNode) (is_async : bool) (tc : TypeChecker) :
  let tc' :=
    check_statement
      (FunctionDeclaration name parameters return_type body is_async) tc in
  env tc'
  = define_function name
      (function_type name
         (map (fun p => parse_type_string (snd p)) parameters)
         (parse_type_string return_type))
      (env tc)
  /\ forall x, get_variable x (env tc') = get_variable x (env tc).
Proof.
  assert (E : env (check_statement
                     (FunctionDeclaration name parameters return_type body
                        is_async) tc)
              = define_function name
                  (function_type name
                     (map (fun p => parse_type_string (snd p)) parameters)
                     (parse_type_string return_type))
                  (env tc)).
  { simpl.
    destruct (fold_define_variable_cons parameters empty_scope (env tc))
      as (sc & Hfe).
    rewrite Hfe, check_body_eq.
    rewrite (proj1 (check_block_effect body _)). reflexivity. }
  cbv zeta. split; [exact E |].
  intros x. rewrite E. apply get_variable_define_function.
Qed.

(** X6. A check changes only the innermost scope of the environment and
    only appends to the error list: the enclosing scopes and the errors
    recorded so far are still there after a whole program was checked. *)
Theorem check_program_only_appends_errors (program : Program)
    (tc : TypeChecker) :
  tl (env (snd (check_program program tc))) = tl (env tc)
  /\ exists new_errors,
       errors (snd (check_program program tc)) = errors tc ++ new_errors.
Proof. unfold check_program. simpl. apply check_block_effect. Qed.

Lemma check_block_app (pre post : list ASTNode) (tc : TypeChecker) :
  check_block (pre ++ post) tc = check_block post (check_block pre tc).
Proof. unfold check_block. apply fold_left_app. Qed.

Lemma rejected_after_an_error (post : list ASTNode) (tc : TypeChecker) :
  errors tc <> [] -> fst (check_program post tc) = false.
Proof.
  intros H. unfold check_program. simpl.
  destruct (proj2 (check_block_effect post tc)) as (l & L). rewrite L.
  destruct (errors tc); [contradiction | reflexivity].
Qed.

(** X7. A program with an [if] or a [while] statement at its top level
    whose condition is not typed [bool] is rejected, whatever comes
    before and after the statement. *)
Theorem non_boolean_condition_is_rejected (pre post : list ASTNode)
    (cond body : ASTNode) (else_branch : option ASTNode)
    (tc : TypeChecker) :
  kind (fst (infer_type cond (check_block pre tc))) <> BOOL ->
  fst (check_program (pre ++ IfStatement cond body else_branch :: post) tc)
  = false
  /\ fst (check_program (pre ++ WhileStatement cond body :: post) tc)
     = false.
Proof.
  intros Hk.
  assert (Hb : TypeKind_eqb
                 (kind (fst (infer_type cond (check_block pre tc)))) BOOL
               = false).
  { destruct (TypeKind_eqb _ BOOL) eqn:E; [| reflexivity].
    apply TypeKind_eqb_eq in E. contradiction. }
  assert (Hne : forall (l1 : list Error) e l2, l1 ++ e :: l2 <> []).
  { intros [|] ? ?; discriminate. }
  split.
  - change (check_program (pre ++ IfStatement cond body else_branch :: post)
              tc)
      with (check_program
              (pre ++ [IfStatement cond body else_branch] ++ post) tc).
    unfold check_program at 1. simpl fst.
    rewrite check_block_app.
    change (check_block ([IfStatement cond body else_branch] ++ post)
              (check_block pre tc))
      with (check_block post
              (check_statement (IfStatement cond body else_branch)
                 (check_block pre tc))).
    apply (rejected_after_an_error post).
    simpl. destruct (infer_type cond (check_block pre tc)) as [ct tc1].
    simpl in Hb. rewrite Hb. simpl.
    destruct (check_statement_effect body
                (error (IfConditionNotBool ct) tc1)) as (_ & l & L).
    destruct else_branch as [e|].
    + destruct (check_statement_effect e
                  (check_statement body
                     (error (IfConditionNotBool ct) tc1)))
        as (_ & l' & L').
      rewrite L', L. simpl. rewrite <- !app_assoc. apply Hne.
    + rewrite L. simpl. rewrite <- !app_assoc. apply Hne.
  - change (check_program (pre ++ WhileStatement cond body :: post) tc)
      with (check_program (pre ++ [WhileStatement cond body] ++ post) tc).
    unfold check_program at 1. simpl fst.
    rewrite check_block_app.
    change (check_block ([WhileStatement cond body] ++ post)
              (check_block pre tc))
      with (check_block post
              (check_statement (WhileStatement cond body)
                 (check_block pre tc))).
    apply (rejected_after_an_error post).
    simpl. destruct (infer_type cond (check_block pre tc)) as [ct tc1].
    simpl in Hb. rewrite Hb. simpl.
    destruct (check_statement_effect body
                (error (WhileConditionNotBool ct) tc1)) as (_ & l & L).
    rewrite L. simpl. rewrite <- !app_assoc. apply Hne.
Qed.

Lemma non_boolean_condition_is_rejected_witness :
  fst (check_program
         ([] ++ IfStatement (NumberLiteral (NInt 1)) (Block []) None :: [])
         new) = false
  /\ fst (check_program
            ([] ++ WhileStatement (NumberLiteral (NInt 1)) (Block []) :: [])
            new) = false.
Proof.
  apply (non_boolean_condition_is_rejected [] []
           (NumberLiteral (NInt 1)) (Block []) None new).
  simpl. discriminate.
Defined.

(** X8. The checker has no rule for a block statement, so the statements
    of a block that is the body of a [while] or a branch of an [if] are
    never checked: the result is the one for empty blocks. *)
Theorem statements_of_a_block_are_not_checked (cond : ASTNode)
    (body else_body : list ASTNode) (tc : TypeChecker) :
  check_statement (Block body) tc = tc
  /\ check_statement (WhileStatement cond (Block body)) tc
     = check_statement (WhileStatement cond (Block [])) tc
  /\ check_statement
       (IfStatement cond (Block body) (Some (Block else_body))) tc
     = check_statement (IfStatement cond (Block []) None) tc.
Proof.
  repeat split; simpl; destruct (infer_type cond tc); reflexivity.
Qed.

End CheckerInvariants.

(** ** The lexer: its loops *)

Section LexerLoops.
Import Lexer Props.
Local Open Scope list_scope.

Lemma blank_facts ch :
  is_blank ch = true -> Ascii.eqb ch "010" = false.
Proof.
  destruct ch as [[] [] [] [] [] [] [] []]; vm_compute; intros H;
    try discriminate H; reflexivity.
Qed.

Lemma identifier_char_facts ch :
  is_identifier_char ch = true -> Ascii.eqb ch "010" = false.
Proof.
  destruct ch as [[] [] [] [] [] [] [] []]; vm_compute; intros H;
    try discriminate H; reflexivity.
Qed.

Lemma skip_whitespace_loop_run ws rest :
  Forall (fun ch => is_blank ch = true) ws ->
  stops_at is_blank rest ->
  forall fuel pre l c toks,
    (length ws < fuel)%nat ->
    skip_whitespace_loop fuel
      (MkLexer (pre ++ ws ++ rest) (length pre) l c toks)
    = Ok (MkLexer (pre ++ ws ++ rest) (length (pre ++ ws)) l
                  (c + length ws) toks).
Proof.
  intros Hws Hrest. induction Hws as [|ch ws Hch _ IH];
    intros fuel pre l c toks Hf.
  - destruct fuel; [simpl in Hf; lia |]. cbn [skip_whitespace_loop app].
    rewrite app_nil_r, Nat.add_0_r.
    destruct rest as [|ch rest].
    + rewrite app_nil_r, current_char_end. reflexivity.
    + rewrite current_char_middle. simpl in Hrest.
      fold (is_blank ch). rewrite Hrest. reflexivity.
  - destruct fuel; [simpl in Hf; lia |]. simpl in Hf.
    pose proof (blank_facts ch Hch) as Hnl.
    cbn [skip_whitespace_loop app]. rewrite current_char_middle.
    fold (is_blank ch). rewrite Hch.
    rewrite (advance_same_line pre ch (ws ++ rest) l c toks Hnl).
    rewrite (IH fuel (pre ++ [ch]) l (c + 1)%nat toks) by lia.
    rewrite <- !app_assoc. simpl.
    replace (c + 1 + length ws)%nat with (c + S (length ws))%nat by lia.
    reflexivity.
Qed.

(** X9. [skip_whitespace] skips exactly the run of spaces, tabs and
    carriage returns at the current position: it stops at the first other
    character or at the end of the input, moves the column by the length
    of the run, and changes neither the line nor the tokens. *)
Theorem skip_whitespace_skips_the_blank_run (pre ws rest : list ascii)
    (l c : nat) (toks : list Token) :
  Forall (fun ch => is_blank ch = true) ws ->
  stops_at is_blank rest ->
  skip_whitespace (MkLexer (pre ++ ws ++ rest) (length pre) l c toks)
  = Ok (MkLexer (pre ++ ws ++ rest) (length (pre ++ ws)) l
                (c + length ws) toks).
Proof.
  intros Hws Hrest. unfold skip_whitespace.
  apply skip_whitespace_loop_run; try assumption.
  unfold remaining. simpl. rewrite !length_app. lia.
Qed.

Lemma skip_whitespace_skips_the_blank_run_witness :
  skip_whitespace (MkLexer (list_ascii_of_string "x =  y") 3 1 4 [])
  = Ok (MkLexer (list_ascii_of_string "x =  y") 5 1 6 []).
Proof.
  apply (skip_whitespace_skips_the_blank_run
           (list_ascii_of_string "x =") (list_ascii_of_string "  ")
           (list_ascii_of_string "y") 1 4 []).
  - repeat constructor.
  - reflexivity.
Defined.

Lemma skip_comment_loop_run body rest :
  Forall (fun ch => Ascii.eqb ch "010" = false) body ->
  stops_at (fun ch => negb (Ascii.eqb ch "010")) rest ->
  forall fuel pre l c toks,
    (length body < fuel)%nat ->
    skip_comment_loop fuel
      (MkLexer (pre ++ body ++ rest) (length pre) l c toks)
    = Ok (MkLexer (pre ++ body ++ rest) (length (pre ++ body)) l
                  (c + length body) toks).
Proof.
  intros Hb Hrest. induction Hb as [|ch body Hch _ IH];
    intros fuel pre l c toks Hf.
  - destruct fuel; [simpl in Hf; lia |]. simpl.
    rewrite app_nil_r, Nat.add_0_r.
    destruct rest as [|ch rest].
    + rewrite app_nil_r, current_char_end. reflexivity.
    + rewrite current_char_middle. simpl in Hrest.
      rewrite Hrest. reflexivity.
  - destruct fuel; [simpl in Hf; lia |]. simpl in Hf.
    simpl. rewrite current_char_middle. rewrite Hch. simpl.
    rewrite (advance_same_line pre ch (body ++ rest) l c toks Hch).
    rewrite (IH fuel (pre ++ [ch]) l (c + 1)%nat toks) by lia.
    rewrite <- !app_assoc. simpl.
    replace (c + 1 + length body)%nat with (c + S (length body))%nat by lia.
    reflexivity.
Qed.

(** X10. [skip_comment] at a [#] skips to the end of the line: it stops
    in front of the newline (which is left for the main loop to turn into
    a token) or at the end of the input, and changes neither the line nor
    the tokens; anywhere else it does nothing. *)
Theorem skip_comment_stops_before_the_newline (pre body rest : list ascii)
    (l c : nat) (toks : list Token) :
  Forall (fun ch => Ascii.eqb ch "010" = false) body ->
  stops_at (fun ch => negb (Ascii.eqb ch "010")) rest ->
  skip_comment (MkLexer (pre ++ "#"%char :: body ++ rest) (length pre)
                        l c toks)
  = Ok (MkLexer (pre ++ "#"%char :: body ++ rest)
                (length (pre ++ "#"%char :: body)) l
                (c + S (length body)) toks)
  /\ (forall ch, ch <> "#"%char ->
        skip_comment (MkLexer (pre ++ ch :: rest) (length pre) l c toks)
        = Ok (MkLexer (pre ++ ch :: rest) (length pre) l c toks)).
Proof.
  intros Hb Hrest. split.
  - unfold skip_comment. rewrite current_char_middle.
    apply (skip_comment_loop_run ("#"%char :: body) rest).
    + constructor; [reflexivity | exact Hb].
    + exact Hrest.
    + unfold remaining. simpl. rewrite !length_app. simpl.
      rewrite !length_app. lia.
  - intros ch Hch. unfold skip_comment. rewrite current_char_middle.
    destruct ch as [[] [] [] [] [] [] [] []]; try reflexivity.
    contradiction Hch. reflexivity.
Qed.

Lemma skip_comment_stops_before_the_newline_witness :
  skip_comment
    (MkLexer (list_ascii_of_string "x # y") 2 1 3 [])
  = Ok (MkLexer (list_ascii_of_string "x # y") 5 1 6 []).
Proof.
  apply (skip_comment_stops_before_the_newline
           (list_ascii_of_string "x ") (list_ascii_of_string " y") []
           1 3 []).
  - repeat constructor.
  - exact I.
Defined.

Lemma read_identifier_loop_run id rest :
  Forall (fun ch => is_identifier_char ch = true) id ->
  stops_at is_identifier_char rest ->
  forall fuel pre l c toks acc,
    (length id < fuel)%nat ->
    read_identifier_loop fuel
      (MkLexer (pre ++ id ++ rest) (length pre) l c toks) acc
    = Ok (MkLexer (pre ++ id ++ rest) (length (pre ++ id)) l
                  (c + length id) toks,
          (acc ++ string_of_list_ascii id)%string).
Proof.
  intros Hid Hrest. induction Hid as [|ch id Hch _ IH];
    intros fuel pre l c toks acc Hf.
  - destruct fuel; [simpl in Hf; lia |]. simpl.
    rewrite app_nil_r, Nat.add_0_r, string_app_nil_r.
    destruct rest as [|ch rest].
    + rewrite app_nil_r, current_char_end. reflexivity.
    + rewrite current_char_middle. simpl in Hrest.
      unfold is_identifier_char in Hrest. rewrite Hrest. reflexivity.
  - destruct fuel; [simpl in Hf; lia |]. simpl in Hf.
    pose proof (identifier_char_facts ch Hch) as Hnl.
    simpl. rewrite current_char_middle.
    unfold is_identifier_char in Hch. rewrite Hch.
    rewrite (advance_same_line pre ch (id ++ rest) l c toks Hnl).
    rewrite (IH fuel (pre ++ [ch]) l (c + 1)%nat toks (add_char acc ch))
      by lia.
    unfold add_char. rewrite string_app_assoc.
    rewrite <- !app_assoc. simpl.
    replace (c + 1 + length id)%nat with (c + S (length id))%nat by lia.
    reflexivity.
Qed.

(** X11. [read_identifier] reads the longest run of letters, digits and
    underscores at the current position and stays on the line.  The token
    is the keyword of that spelling if there is one and an IDENTIFIER
    otherwise; it carries the text, except that [true] and [false] carry
    the boolean and [null] carries [None]. *)
Theorem read_identifier_reads_the_longest_word (pre id rest : list ascii)
    (l c : nat) (toks : list Token) :
  Forall (fun ch => is_identifier_char ch = true) id ->
  stops_at is_identifier_char rest ->
  read_identifier (MkLexer (pre ++ id ++ rest) (length pre) l c toks)
  = Ok (word_token (string_of_list_ascii id) l c,
        MkLexer (pre ++ id ++ rest) (length (pre ++ id)) l
                (c + length id) toks).
Proof.
  intros Hid Hrest. unfold read_identifier.
  rewrite (read_identifier_loop_run id rest Hid Hrest).
  2:{ unfold remaining. simpl. rewrite !length_app. lia. }
  cbn [bind]. change ("" ++ string_of_list_ascii id)%string
    with (string_of_list_ascii id).
  unfold word_token. cbv zeta.
  destruct (keywords_get (string_of_list_ascii id) keywords IDENTIFIER);
    reflexivity.
Qed.

Lemma read_identifier_reads_the_longest_word_witness :
  read_identifier (MkLexer (list_ascii_of_string "x = true;") 4 1 5 [])
  = Ok (MkToken BOOLEAN (VBool true) 1 5,
        MkLexer (list_ascii_of_string "x = true;") 8 1 9 []).
Proof.
  apply (read_identifier_reads_the_longest_word
           (list_ascii_of_string "x = ") (list_ascii_of_string "true")
           (list_ascii_of_string ";") 1 5 []).
  - repeat constructor.
  - reflexivity.
Defined.

End LexerLoops.

(** ** The lexer: literals *)

Section LexerLiterals.
Import Lexer Props.
Local Open Scope list_scope.

Lemma isdigit_facts d :
  isdigit d = true ->
  Ascii.eqb d "." = false /\ Ascii.eqb d "010" = false.
Proof.
  destruct d as [[] [] [] [] [] [] [] []]; vm_compute; intros H;
    try discriminate H; split; reflexivity.
Qed.

(** The loop of [read_number] goes through a run of digits. *)
Lemma read_number_loop_run ds :
  Forall (fun d => isdigit d = true) ds ->
  forall fuel pre rest l c toks acc has_dot,
    read_number_loop (length ds + fuel)
      (MkLexer (pre ++ ds ++ rest) (length pre) l c toks) acc has_dot
    = read_number_loop fuel
        (MkLexer (pre ++ ds ++ rest) (length (pre ++ ds)) l
                 (c + length ds) toks)
        (acc ++ string_of_list_ascii ds)%string has_dot.
Proof.
  induction 1 as [|d ds Hd _ IH]; intros fuel pre rest l c toks acc has_dot.
  - simpl. rewrite app_nil_r, Nat.add_0_r, string_app_nil_r. reflexivity.
  - destruct (isdigit_facts d Hd) as (Hdot & Hnl).
    cbn [length Nat.add read_number_loop app].
    rewrite current_char_middle, Hd, Hdot. cbn [orb].
    rewrite (advance_same_line pre d (ds ++ rest) l c toks Hnl).
    rewrite (IH fuel (pre ++ [d]) rest l (c + 1)%nat toks (add_char acc d)
               has_dot).
    unfold add_char. rewrite string_app_assoc.
    rewrite <- !app_assoc. simpl.
    replace (c + 1 + length ds)%nat with (c + S (length ds))%nat by lia.
    reflexivity.
Qed.

(** The loop takes a first dot. *)
Lemma read_number_loop_dot fuel pre rest l c toks acc :
  read_number_loop (S fuel)
    (MkLexer (pre ++ "."%char :: rest) (length pre) l c toks) acc false
  = read_number_loop fuel
      (MkLexer (pre ++ "."%char :: rest) (length (pre ++ ["."%char])) l
               (c + 1) toks)
      (acc ++ ".")%string true.
Proof.
  cbn [read_number_loop]. rewrite current_char_middle.
  change (isdigit "." || Ascii.eqb "." ".") with true. cbv iota.
  change (Ascii.eqb "." ".") with true. cbv iota.
  rewrite (advance_same_line pre "."%char rest l c toks eq_refl).
  rewrite <- app_assoc. reflexivity.
Qed.

(** The loop stops once a dot has been taken, at a second dot, at any
    other character that is not a digit, and at the end of the input. *)
Lemma read_number_loop_stop fuel pre rest l c toks acc :
  stops_at isdigit rest ->
  read_number_loop (S fuel)
    (MkLexer (pre ++ rest) (length pre) l c toks) acc true
  = Ok (MkLexer (pre ++ rest) (length pre) l c toks, acc, true).
Proof.
  intros Hrest. cbn [read_number_loop].
  destruct rest as [|ch rest].
  - rewrite app_nil_r, current_char_end. reflexivity.
  - rewrite current_char_middle. simpl in Hrest. rewrite Hrest.
    destruct (Ascii.eqb ch "."); reflexivity.
Qed.

Lemma ascii_digit_isdigit ds :
  Forall (fun d => is_ascii_digit d = true) ds ->
  Forall (fun d => isdigit d = true) ds.
Proof.
  intros H. eapply Forall_impl; [exact H |].
  intros d Hd. unfold isdigit. rewrite Hd. reflexivity.
Qed.

(** X12. A number with a dot is read up to a second dot, or to the first
    character that is not a digit: [1.2.3] starts with the literal [1.2].
    The token carries the text read, which [float()] converts. *)
Theorem float_literal_ends_at_a_second_dot (limit : option nat)
    (pre ds1 ds2 rest : list ascii) (l c : nat) (toks : list Token) :
  ds1 <> [] ->
  Forall (fun d => is_ascii_digit d = true) ds1 ->
  Forall (fun d => is_ascii_digit d = true) ds2 ->
  stops_at isdigit rest ->
  let literal := ds1 ++ "."%char :: ds2 in
  read_number limit
    (MkLexer (pre ++ literal ++ rest) (length pre) l c toks)
  = Ok (MkToken NUMBER (VFloat (string_of_list_ascii literal)) l c,
        MkLexer (pre ++ literal ++ rest) (length (pre ++ literal)) l
                (c + length literal) toks).
Proof.
  intros Hne H1 H2 Hrest literal. unfold read_number.
  set (src := pre ++ literal ++ rest).
  assert (Hloop :
    read_number_loop (S (remaining (MkLexer src (length pre) l c toks)))
      (MkLexer src (length pre) l c toks) "" false
    = Ok (MkLexer src (length (pre ++ literal)) l (c + length literal) toks,
          string_of_list_ascii literal, true)).
  { unfold remaining. cbn [source pos].
    replace (S (length src - length pre))
      with (length ds1 + S (length ds2 + S (length rest)))%nat
      by (unfold src, literal; rewrite ?length_app; simpl;
          rewrite ?length_app; simpl; lia).
    unfold src, literal. rewrite <- (app_assoc ds1).
    rewrite (read_number_loop_run ds1 (ascii_digit_isdigit ds1 H1)).
    cbn [app].
    replace (pre ++ ds1 ++ "."%char :: ds2 ++ rest)
      with ((pre ++ ds1) ++ "."%char :: ds2 ++ rest)
      by (rewrite <- app_assoc; reflexivity).
    rewrite read_number_loop_dot.
    replace ((pre ++ ds1) ++ "."%char :: ds2 ++ rest)
      with (((pre ++ ds1) ++ ["."%char]) ++ ds2 ++ rest)
      by (rewrite <- !app_assoc; reflexivity).
    rewrite (read_number_loop_run ds2 (ascii_digit_isdigit ds2 H2)).
    replace ((((pre ++ ds1) ++ ["."%char]) ++ ds2) ++ rest)
      with ((((pre ++ ds1) ++ ["."%char]) ++ ds2) ++ rest) by reflexivity.
    rewrite (app_assoc _ ds2 rest).
    rewrite read_number_loop_stop by exact Hrest.
    f_equal. f_equal. f_equal.
    - f_equal.
      + rewrite ?length_app. simpl. rewrite ?length_app. simpl. lia.
      + rewrite ?length_app. simpl. lia.
    - change ("" ++ string_of_list_ascii ds1)%string
        with (string_of_list_ascii ds1).
      clear. induction ds1 as [|d ds1 IH]; simpl.
      + reflexivity.
      + change ((String d (string_of_list_ascii ds1) ++ ".") ++
                string_of_list_ascii ds2)%string
          with (String d ((string_of_list_ascii ds1 ++ ".") ++
                          string_of_list_ascii ds2)%string).
        rewrite IH. reflexivity. }
  rewrite Hloop. cbn [bind].
  unfold py_float. rewrite list_ascii_of_string_of_list_ascii.
  assert (Hall : forallb (fun ch => is_ascii_digit ch || Ascii.eqb ch ".")
                         literal = true).
  { unfold literal. rewrite forallb_app. simpl.
    apply andb_true_iff. split; apply forallb_forall; intros x Hx.
    - rewrite Forall_forall in H1.
      rewrite (H1 x) by (apply list_elem_of_In; exact Hx). reflexivity.
    - rewrite Forall_forall in H2.
      rewrite (H2 x) by (apply list_elem_of_In; exact Hx). reflexivity. }
  assert (Hex : existsb is_ascii_digit literal = true).
  { unfold literal. destruct ds1 as [|d ds1]; [contradiction |].
    inversion H1; subst. simpl. rewrite H3. reflexivity. }
  rewrite Hall, Hex. reflexivity.
Qed.

Lemma float_literal_ends_at_a_second_dot_witness :
  read_number default_int_max_str_digits
    (MkLexer (list_ascii_of_string "1.2.3") 0 1 1 [])
  = Ok (MkToken NUMBER (VFloat "1.2") 1 1,
        MkLexer (list_ascii_of_string "1.2.3") 3 1 4 []).
Proof.
  apply (float_literal_ends_at_a_second_dot default_int_max_str_digits
           [] ["1"%char] ["2"%char] (list_ascii_of_string ".3") 1 1 []).
  - discriminate.
  - repeat constructor.
  - repeat constructor.
  - reflexivity.
Defined.

Lemma decimal_value_rejects ds :
  Exists (fun d => is_ascii_digit d = false) ds ->
  forall acc, decimal_value acc (string_of_list_ascii ds) = None.
Proof.
  induction 1 as [d ds Hd | d ds _ IH]; intros acc; simpl.
  - rewrite Hd. reflexivity.
  - destruct (is_ascii_digit d); [apply IH | reflexivity].
Qed.

(** X13. The lexer takes for a digit every character [str.isdigit]
    accepts, but [int()] converts decimal digits only: an integer literal
    that holds another digit character (a superscript two, say) leaves
    the lexer as a [ValueError], not as a token and not as the lexer's
    own error. *)
Theorem digit_that_int_rejects_is_a_ValueError (limit : option nat)
    (pre ds rest : list ascii) (l c : nat) (toks : list Token) :
  Forall (fun d => isdigit d = true) ds ->
  Exists (fun d => is_ascii_digit d = false) ds ->
  ends_number rest ->
  read_number limit (MkLexer (pre ++ ds ++ rest) (length pre) l c toks)
  = Raise ValueError.
Proof.
  intros Hds Hex Hrest. unfold read_number, remaining. cbn [source pos].
  replace (S (length (pre ++ ds ++ rest) - length pre))
    with (length ds + S (length rest))%nat
    by (rewrite !length_app; lia).
  rewrite (read_number_loop_run ds Hds).
  assert (Hstop :
    read_number_loop (S (length rest))
      (MkLexer (pre ++ ds ++ rest) (length (pre ++ ds)) l
               (c + length ds) toks)
      ("" ++ string_of_list_ascii ds)%string false
    = Ok (MkLexer (pre ++ ds ++ rest) (length (pre ++ ds)) l
                  (c + length ds) toks,
          string_of_list_ascii ds, false)).
  { rewrite app_assoc. cbn [read_number_loop].
    destruct rest as [|ch rest].
    - rewrite app_nil_r, current_char_end. reflexivity.
    - rewrite current_char_middle. destruct Hrest as [Hdig Hdot].
      rewrite Hdig. destruct (Ascii.eqb ch ".") eqn:E; [| reflexivity].
      apply Ascii.eqb_eq in E. contradiction. }
  rewrite Hstop. cbn [bind]. unfold py_int.
  rewrite (decimal_value_rejects ds Hex).
  destruct (string_of_list_ascii ds); reflexivity.
Qed.

Lemma digit_that_int_rejects_is_a_ValueError_witness :
  read_number default_int_max_str_digits
    (MkLexer (["x"; "="; "2"; "178"; ";"]%char) 2 1 3 [])
  = Raise ValueError.
Proof.
  apply (digit_that_int_rejects_is_a_ValueError default_int_max_str_digits
           ["x"; "="]%char ["2"; "178"]%char [";"%char] 1 3 []).
  - repeat constructor.
  - right. left. reflexivity.
  - split; [reflexivity | discriminate].
Defined.

End LexerLiterals.

(** ** The lexer: strings, unknown characters, termination *)

Section LexerOutcome.
Import Lexer Props.
Local Open Scope list_scope.
Local Open Scope nat_scope.

Lemma read_string_loop_body quote n :
  forall body, length body <= n ->
  forall text, unescape quote body = Some text ->
  forall rest, stops_at (fun ch => negb (Ascii.eqb ch quote)) rest ->
  forall fuel pre l c toks acc, length body < fuel ->
  exists l' c',
    read_string_loop fuel quote
      (MkLexer (pre ++ body ++ rest) (length pre) l c toks) acc
    = Ok (MkLexer (pre ++ body ++ rest) (length (pre ++ body)) l' c' toks,
          (acc ++ text)%string).
Proof.
  induction n as [|n IH]; intros body Hn text Hu rest Hrest fuel pre l c
                                 toks acc Hf.
  - destruct body; [| simpl in Hn; lia]. simpl in Hu. inversion Hu; subst.
    destruct fuel; [simpl in Hf; lia |]. cbn [read_string_loop app].
    rewrite app_nil_r, string_app_nil_r. exists l, c.
    destruct rest as [|ch rest].
    + rewrite app_nil_r, current_char_end. reflexivity.
    + rewrite current_char_middle. simpl in Hrest. rewrite Hrest.
      reflexivity.
  - destruct body as [|ch body].
    { apply (IH [] ltac:(simpl; lia) text Hu rest Hrest fuel pre l c toks
                acc Hf). }
    destruct fuel; [simpl in Hf; lia |]. simpl in Hf, Hn.
    cbn [unescape] in Hu.
    destruct (Ascii.eqb ch quote) eqn:Eq; [discriminate |].
    cbn [read_string_loop app]. rewrite current_char_middle, Eq.
    cbn [negb].
    destruct (Ascii.eqb ch "\") eqn:Eb.
    + destruct body as [|e body]; [discriminate |].
      destruct (unescape quote body) as [t|] eqn:Eu; [| discriminate].
      simpl in Hu. inversion Hu; subst text. clear Hu.
      destruct (advance_any pre ch ((e :: body) ++ rest) l c toks)
        as (l1 & c1 & ->).
      cbn [app]. rewrite current_char_middle.
      destruct (advance_any (pre ++ [ch]) e (body ++ rest) l1 c1 toks)
        as (l2 & c2 & ->).
      simpl in Hn, Hf.
      set (decoded := if Ascii.eqb e "n" then "010"%char
                      else if Ascii.eqb e "t" then "009"%char else e).
      assert (Hdec :
        (if Ascii.eqb e "n" then add_char acc "010"
         else if Ascii.eqb e "t" then add_char acc "009"
         else if Ascii.eqb e "\" then add_char acc "\"
         else if Ascii.eqb e quote then add_char acc quote
         else add_char acc e)
        = add_char acc decoded).
      { unfold decoded.
        destruct (Ascii.eqb e "n"); [reflexivity |].
        destruct (Ascii.eqb e "t"); [reflexivity |].
        destruct (Ascii.eqb_spec e "\"); [subst; reflexivity |].
        destruct (Ascii.eqb_spec e quote); [subst; reflexivity |].
        reflexivity. }
      rewrite Hdec.
      destruct (IH body ltac:(lia) t Eu rest Hrest fuel
                   ((pre ++ [ch]) ++ [e]) l2 c2 toks (add_char acc decoded)
                   ltac:(lia)) as (l' & c' & E).
      exists l', c'. rewrite E.
      unfold add_char. rewrite string_app_assoc.
      rewrite <- !app_assoc. reflexivity.
    + destruct (unescape quote body) as [t|] eqn:Eu; [| discriminate].
      simpl in Hu. inversion Hu; subst text. clear Hu.
      destruct (advance_any pre ch (body ++ rest) l c toks)
        as (l1 & c1 & ->).
      destruct (IH body ltac:(lia) t Eu rest Hrest fuel (pre ++ [ch]) l1 c1
                   toks (add_char acc ch) ltac:(lia)) as (l' & c' & E).
      exists l', c'. rewrite E.
      unfold add_char. rewrite string_app_assoc.
      rewrite <- !app_assoc. reflexivity.
Qed.

(** X14. [read_string] on a string that is closed returns its body with
    the escapes decoded (a backslash takes the next character, [\n] and
    [\t] giving a newline and a tab) and leaves the lexer behind the
    closing quote; the token is placed at the opening quote. *)
Theorem read_string_decodes_the_body (quote : ascii)
    (pre body rest : list ascii) (text : string) (l c : nat)
    (toks : list Token) :
  unescape quote body = Some text ->
  exists l' c',
    read_string quote
      (MkLexer (pre ++ quote :: body ++ quote :: rest) (length pre) l c toks)
    = Ok (MkToken STRING (VStr text) l c,
          MkLexer (pre ++ quote :: body ++ quote :: rest)
                  (length (pre ++ quote :: body ++ [quote])) l' c' toks).
Proof.
  intros Hu. unfold read_string.
  destruct (advance_any pre quote (body ++ quote :: rest) l c toks)
    as (l1 & c1 & Hadv).
  rewrite !Hadv.
  destruct (read_string_loop_body quote (length body) body (le_n _) text Hu
              (quote :: rest)
              ltac:(simpl; rewrite Ascii.eqb_refl; reflexivity)
              (S (remaining
                    (MkLexer ((pre ++ [quote]) ++ body ++ quote :: rest)
                             (length (pre ++ [quote])) l1 c1 toks)))
              (pre ++ [quote]) l1 c1 toks ""%string)
    as (l2 & c2 & E).
  { unfold remaining. cbn [source pos]. rewrite ?length_app. simpl.
    rewrite ?length_app. simpl. lia. }
  rewrite E. cbn [bind].
  change ("" ++ text)%string with text.
  rewrite (app_assoc (pre ++ [quote]) body (quote :: rest)).
  destruct (advance_any ((pre ++ [quote]) ++ body) quote rest l2 c2 toks)
    as (l3 & c3 & ->).
  exists l3, c3. f_equal. f_equal. f_equal.
  - rewrite <- !app_assoc. reflexivity.
  - rewrite ?length_app. simpl. rewrite ?length_app. simpl. lia.
Qed.

Lemma read_string_decodes_the_body_witness :
  exists l' c',
    read_string "'"
      (MkLexer (list_ascii_of_string "s = 'a\nb';") 4 1 5 [])
    = Ok (MkToken STRING (VStr (String "a" (String "010" "b"))) 1 5,
          MkLexer (list_ascii_of_string "s = 'a\nb';") 10 l' c' []).
Proof.
  apply (read_string_decodes_the_body "'"
           (list_ascii_of_string "s = ") (list_ascii_of_string "a\nb")
           (list_ascii_of_string ";") (String "a" (String "010" "b"))
           1 5 []).
  reflexivity.
Defined.

(** X15. A character that starts no token makes [tokenize] raise the
    lexer's [SyntaxError] naming that character: a character that is not
    blank, [#], a newline, a digit, a quote, a letter or an underscore,
    and that starts neither a two-character nor a one-character operator
    (an exclamation mark that no [=] follows, for one). *)
Theorem unknown_character_raises_SyntaxError (limit : option nat)
    (lx : Lexer) (ch : ascii) :
  current_char lx = Some ch ->
  starts_no_token ch (peek lx) ->
  tokenize limit lx = Raise (SyntaxError (String ch "")).
Proof.
  intros Hc (Hblank & Hhash & Hnl & Hdig & Hdq & Hsq & Halpha & Hus
             & Htwo & Hone).
  unfold tokenize. cbn [tokenize_loop]. rewrite Hc.
  unfold skip_whitespace. cbn [skip_whitespace_loop]. rewrite Hc.
  fold (is_blank ch). rewrite Hblank. cbn [bind]. rewrite Hc.
  rewrite Hhash, Hnl, Hdig, Hdq, Hsq, Halpha, Hus. cbn [orb].
  rewrite Htwo, Hone. reflexivity.
Qed.

Lemma unknown_character_raises_SyntaxError_witness :
  tokenize default_int_max_str_digits
    (MkLexer (list_ascii_of_string "a ! b") 2 1 3 [])
  = Raise (SyntaxError "!").
Proof.
  apply (unknown_character_raises_SyntaxError default_int_max_str_digits
           (MkLexer (list_ascii_of_string "a ! b") 2 1 3 []) "!"%char).
  - reflexivity.
  - repeat split.
Defined.

End LexerOutcome.

(** ** The lexer: every loop ends *)

Section LexerTermination.
Import Lexer Props.
Local Open Scope list_scope.
Local Open Scope nat_scope.

Lemma advance_fields lx :
  source (advance lx) = source lx /\ pos (advance lx) = pos lx + 1.
Proof.
  unfold advance.
  destruct (source lx !! pos lx) as [[[] [] [] [] [] [] [] []]|];
    split; reflexivity.
Qed.

Lemma current_char_in_range lx ch :
  current_char lx = Some ch -> pos lx < length (source lx).
Proof. unfold current_char. apply lookup_lt_Some. Qed.

Lemma remaining_advance lx ch :
  current_char lx = Some ch -> remaining (advance lx) < remaining lx.
Proof.
  intros H. apply current_char_in_range in H.
  destruct (advance_fields lx) as [Hs Hp].
  unfold remaining. rewrite Hs, Hp. lia.
Qed.

Lemma remaining_lt lx lx' :
  source lx' = source lx -> pos lx < pos lx' ->
  pos lx < length (source lx) -> remaining lx' < remaining lx.
Proof. intros Hs Hp Hl. unfold remaining. rewrite Hs. lia. Qed.

Lemma skip_whitespace_loop_total fuel :
  forall lx, remaining lx < fuel ->
  exists lx', skip_whitespace_loop fuel lx = Ok lx'
              /\ source lx' = source lx /\ pos lx <= pos lx'.
Proof.
  induction fuel as [|fuel IH]; intros lx Hf; [lia |].
  cbn [skip_whitespace_loop].
  destruct (current_char lx) as [ch|] eqn:Hc; [| eauto].
  destruct (existsb _ _); [| eauto].
  pose proof (remaining_advance lx ch Hc) as Hr.
  destruct (IH (advance lx) ltac:(lia)) as (lx' & E & Hs & Hp).
  destruct (advance_fields lx) as [Hs' Hp'].
  exists lx'. rewrite E. repeat split; [congruence | lia].
Qed.

Lemma skip_comment_loop_total fuel :
  forall lx, remaining lx < fuel ->
  exists lx', skip_comment_loop fuel lx = Ok lx'
              /\ source lx' = source lx /\ pos lx <= pos lx'.
Proof.
  induction fuel as [|fuel IH]; intros lx Hf; [lia |].
  cbn [skip_comment_loop].
  destruct (current_char lx) as [ch|] eqn:Hc; [| eauto].
  destruct (negb _); [| eauto].
  pose proof (remaining_advance lx ch Hc) as Hr.
  destruct (IH (advance lx) ltac:(lia)) as (lx' & E & Hs & Hp).
  destruct (advance_fields lx) as [Hs' Hp'].
  exists lx'. rewrite E. repeat split; [congruence | lia].
Qed.

Lemma read_identifier_loop_total fuel :
  forall lx acc, remaining lx < fuel ->
  exists lx' id_str,
    read_identifier_loop fuel lx acc = Ok (lx', id_str)
    /\ source lx' = source lx /\ pos lx <= pos lx'.
Proof.
  induction fuel as [|fuel IH]; intros lx acc Hf; [lia |].
  cbn [read_identifier_loop].
  destruct (current_char lx) as [ch|] eqn:Hc; [| eauto 6].
  destruct (_ || _); [| eauto 6].
  pose proof (remaining_advance lx ch Hc) as Hr.
  destruct (IH (advance lx) (add_char acc ch) ltac:(lia))
    as (lx' & s & E & Hs & Hp).
  destruct (advance_fields lx) as [Hs' Hp'].
  exists lx', s. rewrite E. repeat split; [congruence | lia].
Qed.

Lemma read_number_loop_total fuel :
  forall lx acc has_dot, remaining lx < fuel ->
  exists lx' num_str has_dot',
    read_number_loop fuel lx acc has_dot = Ok (lx', num_str, has_dot')
    /\ source lx' = source lx /\ pos lx <= pos lx'.
Proof.
  induction fuel as [|fuel IH]; intros lx acc has_dot Hf; [lia |].
  cbn [read_number_loop].
  destruct (current_char lx) as [ch|] eqn:Hc; [| eauto 8].
  destruct (_ || _); [| eauto 8].
  pose proof (remaining_advance lx ch Hc) as Hr.
  destruct (advance_fields lx) as [Hs' Hp'].
  destruct (Ascii.eqb ch ".").
  - destruct has_dot; [eauto 8 |].
    destruct (IH (advance lx) (add_char acc ch) true ltac:(lia))
      as (lx' & s & hd & E & Hs & Hp).
    exists lx', s, hd. rewrite E. repeat split; [congruence | lia].
  - destruct (IH (advance lx) (add_char acc ch) has_dot ltac:(lia))
      as (lx' & s & hd & E & Hs & Hp).
    exists lx', s, hd. rewrite E. repeat split; [congruence | lia].
Qed.

Lemma read_string_loop_total quote fuel :
  forall lx acc, remaining lx < fuel ->
  match read_string_loop fuel quote lx acc with
  | Ok (lx', _) => source lx' = source lx /\ pos lx <= pos lx'
  | Raise e => e = TypeError
  | OutOfFuel => False
  end.
Proof.
  induction fuel as [|fuel IH]; intros lx acc Hf; [lia |].
  cbn [read_string_loop].
  destruct (current_char lx) as [ch|] eqn:Hc; [| split; [reflexivity | lia]].
  destruct (negb _); [| split; [reflexivity | lia]].
  pose proof (remaining_advance lx ch Hc) as Hr.
  destruct (advance_fields lx) as [Hs' Hp'].
  destruct (Ascii.eqb ch "\").
  - destruct (current_char (advance lx)) as [e|] eqn:Hc1; [| reflexivity].
    pose proof (remaining_advance (advance lx) e Hc1) as Hr1.
    destruct (advance_fields (advance lx)) as [Hs1 Hp1].
    match goal with
    | |- match read_string_loop fuel quote ?lx2 ?acc2 with _ => _ end =>
      specialize (IH lx2 acc2 ltac:(lia));
      destruct (read_string_loop fuel quote lx2 acc2) as [[lx' s]|err|]
    end; [| exact IH | exact IH].
    destruct IH as [Hs Hp]. split; [congruence | lia].
  - specialize (IH (advance lx) (add_char acc ch) ltac:(lia)).
    destruct (read_string_loop fuel quote (advance lx) (add_char acc ch))
      as [[lx' s]|err|]; [| exact IH | exact IH].
    destruct IH as [Hs Hp]. split; [congruence | lia].
Qed.

Lemma read_number_total limit lx ch :
  current_char lx = Some ch -> isdigit ch = true ->
  match read_number limit lx with
  | Ok (_, lx') => source lx' = source lx /\ pos lx < pos lx'
  | Raise e => e = ValueError
  | OutOfFuel => False
  end.
Proof.
  intros Hc Hd. unfold read_number. cbn [read_number_loop].
  rewrite Hc, Hd. cbn [orb].
  rewrite (proj1 (isdigit_facts ch Hd)).
  pose proof (remaining_advance lx ch Hc) as Hr.
  destruct (advance_fields lx) as [Hs' Hp'].
  destruct (read_number_loop_total (remaining lx) (advance lx)
              (add_char "" ch) false Hr)
    as (lx' & s & hd & E & Hs & Hp).
  rewrite E. cbn [bind].
  destruct hd.
  - unfold py_float. destruct (_ && _); cbn [bind];
      [split; [congruence | lia] | reflexivity].
  - unfold py_int. destruct s; cbn [bind]; [reflexivity |].
    destruct (decimal_value 0 _); cbn [bind]; [| reflexivity].
    destruct limit as [n|]; [destruct (n <? _) |]; cbn [bind];
      try reflexivity; (split; [congruence | lia]).
Qed.

Lemma read_string_total quote lx ch :
  current_char lx = Some ch ->
  match read_string quote lx with
  | Ok (_, lx') => source lx' = source lx /\ pos lx < pos lx'
  | Raise e => e = TypeError
  | OutOfFuel => False
  end.
Proof.
  intros Hc. unfold read_string.
  destruct (advance_fields lx) as [Hs' Hp'].
  pose proof (read_string_loop_total quote (S (remaining (advance lx)))
                (advance lx) "" ltac:(lia)) as T.
  destruct (read_string_loop _ quote (advance lx) "") as [[lx1 s]|err|];
    cbn [bind]; [| exact T | exact T].
  destruct T as [Hs Hp].
  destruct (advance_fields lx1) as [Hs1 Hp1].
  split; [congruence | lia].
Qed.

Lemma isalpha_isalnum ch : isalpha ch = true -> isalnum ch = true.
Proof. intros H. unfold isalnum. rewrite H. reflexivity. Qed.

Lemma read_identifier_total lx ch :
  current_char lx = Some ch -> isalpha ch || Ascii.eqb ch "_" = true ->
  exists tok lx',
    read_identifier lx = Ok (tok, lx')
    /\ source lx' = source lx /\ pos lx < pos lx'.
Proof.
  intros Hc Hstart. unfold read_identifier. cbn [read_identifier_loop].
  rewrite Hc.
  assert (Hid : isalnum ch || Ascii.eqb ch "_" = true).
  { apply orb_true_iff in Hstart. apply orb_true_iff.
    destruct Hstart as [H|H]; [left; apply isalpha_isalnum; exact H |].
    right. exact H. }
  rewrite Hid.
  pose proof (remaining_advance lx ch Hc) as Hr.
  destruct (advance_fields lx) as [Hs' Hp'].
  destruct (read_identifier_loop_total (remaining lx) (advance lx)
              (add_char "" ch) Hr) as (lx' & s & E & Hs & Hp).
  rewrite E. cbn [bind]. eexists _, lx'.
  split; [reflexivity |]. split; [congruence | lia].
Qed.

(** The main loop: with fuel for every character left, it returns or
    raises one of the lexer's errors. *)
Lemma tokenize_loop_outcome limit fuel :
  forall lx, remaining lx < fuel ->
  match tokenize_loop limit fuel lx with
  | Ok _ => True
  | Raise e => lexer_error e
  | OutOfFuel => False
  end.
Proof.
  induction fuel as [|fuel IH]; intros lx Hf; [lia |].
  cbn [tokenize_loop].
  destruct (current_char lx) as [ch0|] eqn:Hc0; [| exact I].
  unfold skip_whitespace.
  destruct (skip_whitespace_loop_total (S (remaining lx)) lx ltac:(lia))
    as (lx1 & E1 & Hs1 & Hp1).
  rewrite E1. cbn [bind].
  destruct (current_char lx1) as [ch|] eqn:Hc; [| exact I].
  pose proof (current_char_in_range lx1 ch Hc) as Hin.
  assert (Hle : remaining lx1 <= remaining lx)
    by (unfold remaining; rewrite Hs1; lia).
  assert (Hnext : forall lx2 tok,
            source lx2 = source lx1 -> pos lx1 < pos lx2 ->
            match tokenize_loop limit fuel (append_token tok lx2) with
            | Ok _ => True
            | Raise e => lexer_error e
            | OutOfFuel => False
            end).
  { intros lx2 tok Hs Hp. apply IH.
    pose proof (remaining_lt lx1 lx2 Hs Hp Hin) as Hlt.
    change (remaining (append_token tok lx2)) with (remaining lx2). lia. }
  assert (Hnext' : forall lx2,
            source lx2 = source lx1 -> pos lx1 < pos lx2 ->
            match tokenize_loop limit fuel lx2 with
            | Ok _ => True
            | Raise e => lexer_error e
            | OutOfFuel => False
            end).
  { intros lx2 Hs Hp. apply IH.
    pose proof (remaining_lt lx1 lx2 Hs Hp Hin) as Hlt. lia. }
  destruct (Ascii.eqb ch "#") eqn:Ehash.
  { apply Ascii.eqb_eq in Ehash. subst ch.
    unfold skip_comment. rewrite Hc. cbn [skip_comment_loop].
    rewrite Hc. cbn [Ascii.eqb Bool.eqb negb].
    pose proof (remaining_advance lx1 _ Hc) as Hr.
    destruct (skip_comment_loop_total (remaining lx1) (advance lx1) Hr)
      as (lx2 & E2 & Hs2 & Hp2).
    rewrite E2. cbn [bind].
    destruct (advance_fields lx1) as [Hs' Hp'].
    apply Hnext'; [congruence | lia]. }
  destruct (Ascii.eqb ch "010").
  { destruct (advance_fields
                (append_token
                   (MkToken NEWLINE (VStr (String "010" ""))
                      (cur_line lx1) (cur_column lx1)) lx1)) as [Hs' Hp'].
    apply Hnext'; [exact Hs' | rewrite Hp'; simpl; lia]. }
  destruct (isdigit ch) eqn:Edig.
  { pose proof (read_number_total limit lx1 ch Hc Edig) as T.
    destruct (read_number limit lx1) as [[tok lx2]|err|]; cbn [bind].
    - apply Hnext; apply T.
    - subst err. right. left. reflexivity.
    - exact T. }
  destruct (Ascii.eqb ch "034" || Ascii.eqb ch "'").
  { pose proof (read_string_total ch lx1 ch Hc) as T.
    destruct (read_string ch lx1) as [[tok lx2]|err|]; cbn [bind].
    - apply Hnext; apply T.
    - subst err. right. right. reflexivity.
    - exact T. }
  destruct (isalpha ch || Ascii.eqb ch "_") eqn:Ealpha.
  { destruct (read_identifier_total lx1 ch Hc Ealpha)
      as (tok & lx2 & E & Hs & Hp).
    rewrite E. cbn [bind]. apply Hnext; assumption. }
  destruct (two_char_operator ch (peek lx1)) as [[ty text]|].
  { match goal with
    | |- match tokenize_loop limit fuel (advance (advance ?x)) with
         | _ => _ end =>
      destruct (advance_fields x) as [Hs' Hp'];
      destruct (advance_fields (advance x)) as [Hs'' Hp'']
    end.
    apply Hnext'; [rewrite Hs'', Hs'; reflexivity |].
    rewrite Hp'', Hp'. simpl. lia. }
  destruct (one_char_operator ch) as [[ty text]|].
  { match goal with
    | |- match tokenize_loop limit fuel (advance ?x) with _ => _ end =>
      destruct (advance_fields x) as [Hs' Hp']
    end.
    apply Hnext'; [exact Hs' | rewrite Hp'; simpl; lia]. }
  left. eexists. reflexivity.
Qed.

(** X16. The lexer ends on every input: [tokenize] returns a list of
    tokens or raises, and what it raises is its own [SyntaxError] (an
    unknown character), a [ValueError] (a number [int()] or [float()]
    refuses) or a [TypeError] (a string that ends in a backslash). *)
Theorem tokenize_returns_or_raises (limit : option nat) (lx : Lexer) :
  (exists toks, tokenize limit lx = Ok toks)
  \/ (exists e, tokenize limit lx = Raise e /\ lexer_error e).
Proof.
  unfold tokenize.
  pose proof (tokenize_loop_outcome limit (S (remaining lx)) lx
                ltac:(lia)) as T.
  destruct (tokenize_loop limit (S (remaining lx)) lx) as [lx'|e|];
    cbn [bind].
  - left. eexists. reflexivity.
  - right. exists e. split; [reflexivity | exact T].
  - contradiction.
Qed.

End LexerTermination.

(** ** The lexer: the payload of its tokens *)

Section LexerPayload.
Import Lexer Props.
Local Open Scope list_scope.
Local Open Scope nat_scope.

Lemma tokens_advance lx : tokens (advance lx) = tokens lx.
Proof.
  unfold advance.
  destruct (source lx !! pos lx) as [[[] [] [] [] [] [] [] []]|];
    reflexivity.
Qed.

Lemma skip_whitespace_loop_tokens fuel :
  forall lx lx', skip_whitespace_loop fuel lx = Ok lx' ->
                 tokens lx' = tokens lx.
Proof.
  induction fuel as [|fuel IH]; intros lx lx' H; [discriminate |].
  cbn [skip_whitespace_loop] in H.
  destruct (current_char lx); [| congruence].
  destruct (existsb _ _); [| congruence].
  rewrite (IH _ _ H). apply tokens_advance.
Qed.

Lemma skip_comment_loop_tokens fuel :
  forall lx lx', skip_comment_loop fuel lx = Ok lx' ->
                 tokens lx' = tokens lx.
Proof.
  induction fuel as [|fuel IH]; intros lx lx' H; [discriminate |].
  cbn [skip_comment_loop] in H.
  destruct (current_char lx); [| congruence].
  destruct (negb _); [| congruence].
  rewrite (IH _ _ H). apply tokens_advance.
Qed.

Lemma skip_comment_tokens lx lx' :
  skip_comment lx = Ok lx' -> tokens lx' = tokens lx.
Proof.
  unfold skip_comment. intros H.
  destruct (current_char lx) as [ch|]; [| congruence].
  destruct (Ascii.eqb ch "#") eqn:E.
  - apply Ascii.eqb_eq in E. subst ch.
    exact (skip_comment_loop_tokens _ _ _ H).
  - destruct ch as [[] [] [] [] [] [] [] []]; try congruence;
      discriminate E.
Qed.

Lemma read_number_loop_tokens fuel :
  forall lx acc has_dot lx' num_str has_dot',
    read_number_loop fuel lx acc has_dot = Ok (lx', num_str, has_dot') ->
    tokens lx' = tokens lx.
Proof.
  induction fuel as [|fuel IH]; intros lx acc d lx' s d' H; [discriminate |].
  cbn [read_number_loop] in H.
  destruct (current_char lx) as [ch|]; [| congruence].
  destruct (isdigit ch || Ascii.eqb ch "."); [| congruence].
  destruct (Ascii.eqb ch ".").
  - destruct d; [congruence |].
    rewrite (IH _ _ _ _ _ _ H). apply tokens_advance.
  - rewrite (IH _ _ _ _ _ _ H). apply tokens_advance.
Qed.

Lemma read_number_token limit lx tok lx' :
  read_number limit lx = Ok (tok, lx') ->
  tokens lx' = tokens lx /\ lexed tok = true.
Proof.
  unfold read_number. intros H.
  destruct (read_number_loop (S (remaining lx)) lx "" false)
    as [[[lx1 s] d]| |] eqn:E; cbn [bind] in H; try discriminate H.
  apply read_number_loop_tokens in E.
  destruct d.
  - unfold py_float in H. destruct (_ && _); cbn [bind] in H;
      [| discriminate H].
    injection H as <- <-. split; [exact E | reflexivity].
  - destruct (py_int limit s) as [z| |]; cbn [bind] in H;
      try discriminate H.
    injection H as <- <-. split; [exact E | reflexivity].
Qed.

Lemma read_string_loop_tokens quote fuel :
  forall lx acc lx' s,
    read_string_loop fuel quote lx acc = Ok (lx', s) ->
    tokens lx' = tokens lx.
Proof.
  induction fuel as [|fuel IH]; intros lx acc lx' s H; [discriminate |].
  cbn [read_string_loop] in H.
  destruct (current_char lx) as [ch|]; [| congruence].
  destruct (negb (Ascii.eqb ch quote)); [| congruence].
  destruct (Ascii.eqb ch "\").
  - cbv zeta in H.
    destruct (current_char (advance lx)); [| discriminate H].
    rewrite (IH _ _ _ _ H), !tokens_advance. reflexivity.
  - rewrite (IH _ _ _ _ H). apply tokens_advance.
Qed.

Lemma read_string_token quote lx tok lx' :
  read_string quote lx = Ok (tok, lx') ->
  tokens lx' = tokens lx /\ lexed tok = true.
Proof.
  unfold read_string. intros H. cbv zeta in H.
  destruct (read_string_loop _ quote (advance lx) "")
    as [[lx1 s]| |] eqn:E; cbn [bind] in H; try discriminate H.
  apply read_string_loop_tokens in E.
  injection H as <- <-.
  rewrite tokens_advance, E, tokens_advance. split; reflexivity.
Qed.

Lemma read_identifier_loop_tokens fuel :
  forall lx acc lx' s,
    read_identifier_loop fuel lx acc = Ok (lx', s) ->
    tokens lx' = tokens lx.
Proof.
  induction fuel as [|fuel IH]; intros lx acc lx' s H; [discriminate |].
  cbn [read_identifier_loop] in H.
  destruct (current_char lx) as [ch|]; [| congruence].
  destruct (isalnum ch || Ascii.eqb ch "_"); [| congruence].
  rewrite (IH _ _ _ _ H). apply tokens_advance.
Qed.

(** The table of keywords holds word types only. *)
Lemma keywords_get_word_type k table :
  forallb (fun p => is_word_type (snd p)) table = true ->
  is_word_type (keywords_get k table IDENTIFIER) = true.
Proof.
  induction table as [|[k' t] table IH]; intros H; [reflexivity |].
  cbn [keywords_get]. cbn [forallb snd] in H.
  apply andb_true_iff in H as [Ht Hrest].
  destruct (String.eqb k k'); auto.
Qed.

Lemma read_identifier_token lx tok lx' :
  read_identifier lx = Ok (tok, lx') ->
  tokens lx' = tokens lx /\ lexed tok = true.
Proof.
  unfold read_identifier. intros H. cbv zeta in H.
  destruct (read_identifier_loop _ lx "") as [[lx1 s]| |] eqn:E;
    cbn [bind] in H; try discriminate H.
  apply read_identifier_loop_tokens in E.
  pose proof (keywords_get_word_type s keywords eq_refl) as Hw.
  destruct (keywords_get s keywords IDENTIFIER);
    first [discriminate Hw | injection H as <- <-; split; [exact E |];
                             reflexivity].
Qed.

Lemma two_char_operator_lexed ch next ty text l c :
  two_char_operator ch next = Some (ty, text) ->
  lexed (MkToken ty (VStr text) l c) = true.
Proof.
  unfold two_char_operator. destruct next as [n|]; [| discriminate].
  repeat (destruct (_ && _);
          [intros H; injection H as <- <-; reflexivity |]).
  discriminate.
Qed.

Lemma one_char_operator_lexed ch ty text l c :
  one_char_operator ch = Some (ty, text) ->
  lexed (MkToken ty (VStr text) l c) = true.
Proof.
  unfold one_char_operator.
  repeat (destruct (Ascii.eqb ch _);
          [intros H; injection H as <- <-; reflexivity |]).
  discriminate.
Qed.

Lemma lexed_snoc toks t :
  forallb lexed toks = true -> lexed t = true ->
  forallb lexed (toks ++ [t]) = true.
Proof.
  intros H Ht. rewrite forallb_app, H. cbn [forallb]. rewrite Ht.
  reflexivity.
Qed.

Lemma tokenize_loop_lexed limit fuel :
  forall lx lx', forallb lexed (tokens lx) = true ->
    tokenize_loop limit fuel lx = Ok lx' ->
    forallb lexed (tokens lx') = true.
Proof.
  induction fuel as [|fuel IH]; intros lx lx' Hl H; [discriminate |].
  cbn [tokenize_loop] in H.
  destruct (current_char lx); [| congruence].
  destruct (skip_whitespace lx) as [lx1| |] eqn:E1; cbn [bind] in H;
    try discriminate H.
  apply skip_whitespace_loop_tokens in E1. rewrite <- E1 in Hl.
  destruct (current_char lx1) as [ch|]; [| congruence].
  destruct (Ascii.eqb ch "#").
  { destruct (skip_comment lx1) as [lx2| |] eqn:E2; cbn [bind] in H;
      try discriminate H.
    apply skip_comment_tokens in E2.
    apply (IH _ _ ltac:(rewrite E2; exact Hl) H). }
  destruct (Ascii.eqb ch "010").
  { apply (IH _ _) in H; [exact H |].
    rewrite tokens_advance. cbn [append_token tokens].
    apply lexed_snoc; [exact Hl | reflexivity]. }
  destruct (isdigit ch).
  { destruct (read_number limit lx1) as [[tok lx2]| |] eqn:E2;
      cbn [bind] in H; try discriminate H.
    apply read_number_token in E2 as [E2 Ht].
    apply (IH _ _) in H; [exact H |].
    cbn [append_token tokens]. rewrite E2.
    apply lexed_snoc; assumption. }
  destruct (Ascii.eqb ch "034" || Ascii.eqb ch "'").
  { destruct (read_string ch lx1) as [[tok lx2]| |] eqn:E2;
      cbn [bind] in H; try discriminate H.
    apply read_string_token in E2 as [E2 Ht].
    apply (IH _ _) in H; [exact H |].
    cbn [append_token tokens]. rewrite E2.
    apply lexed_snoc; assumption. }
  destruct (isalpha ch || Ascii.eqb ch "_").
  { destruct (read_identifier lx1) as [[tok lx2]| |] eqn:E2;
      cbn [bind] in H; try discriminate H.
    apply read_identifier_token in E2 as [E2 Ht].
    apply (IH _ _) in H; [exact H |].
    cbn [append_token tokens]. rewrite E2.
    apply lexed_snoc; assumption. }
  cbv zeta in H.
  destruct (two_char_operator ch (peek lx1)) as [[ty text]|] eqn:E2.
  { apply (IH _ _) in H; [exact H |].
    rewrite !tokens_advance. cbn [append_token tokens].
    apply lexed_snoc; [exact Hl |].
    exact (two_char_operator_lexed _ _ _ _ _ _ E2). }
  destruct (one_char_operator ch) as [[ty text]|] eqn:E3;
    [| discriminate H].
  apply (IH _ _) in H; [exact H |].
  rewrite tokens_advance. cbn [append_token tokens].
  apply lexed_snoc; [exact Hl |].
  exact (one_char_operator_lexed _ _ _ _ _ E3).
Qed.

(** X29. Every token the lexer returns carries the payload the parser
    reads from a token of its type: a [NUMBER] an integer or a float, a
    [BOOLEAN] a boolean, [NULL] and the end of input nothing, and every
    other token a string.  No token is a [COMMENT]: comments are
    skipped. *)
Theorem lexer_tokens_carry_their_payload (limit : option nat) (src : string)
    (toks : list Token) :
  lex limit src = Ok toks -> forallb lexed toks = true.
Proof.
  unfold lex, tokenize. intros H.
  destruct (tokenize_loop limit _ (init src)) as [lx| |] eqn:E;
    cbn [bind] in H; try discriminate H.
  injection H as <-.
  apply lexed_snoc; [| reflexivity].
  eapply tokenize_loop_lexed; [| exact E]. reflexivity.
Qed.

Lemma lexer_tokens_carry_their_payload_witness :
  forallb lexed
    [MkToken IDENTIFIER (VStr "x") 1 1; MkToken ASSIGN (VStr "=") 1 3;
     MkToken NUMBER (VInt 42) 1 5; MkToken EOF VNone 1 7] = true.
Proof.
  apply (lexer_tokens_carry_their_payload default_int_max_str_digits
           "x = 42").
  vm_compute. reflexivity.
Defined.

End LexerPayload.

(** ** The lowerer: what holds across every step *)

Section Preservation.
Import Ast IR Compiler Props.
Local Open Scope list_scope.
Context (R : LLVMCompiler -> LLVMCompiler -> Prop) (HR : Extension R).

Lemma preserves_ret {A : Type} (a : A) : preserves R (ret a).
Proof. intros c. apply (ext_refl R HR). Qed.

Lemma preserves_raise {A : Type} e : preserves R (@raise A e).
Proof. intros c. exact I. Qed.

Lemma preserves_lift {A : Type} (r : Result A) :
  r <> OutOfFuel -> preserves R (lift r).
Proof.
  intros Hr c. unfold lift. destruct r; [apply (ext_refl R HR) | exact I |].
  contradiction.
Qed.

Lemma preserves_bind {A B : Type} (m : M A) (k : A -> M B) :
  preserves R m -> (forall a, preserves R (k a)) -> preserves R (mbind m k).
Proof.
  intros Hm Hk c. unfold mbind. specialize (Hm c).
  destruct (m c) as [[a c1]| |]; [| exact I | exact Hm].
  specialize (Hk a c1). destruct (k a c1) as [[b c2]| |]; [| exact I | exact Hk].
  exact (ext_trans R HR _ _ _ Hm Hk).
Qed.

Lemma preserves_modify (f : LLVMCompiler -> LLVMCompiler) :
  (forall c, R c (f c)) -> preserves R (modify f).
Proof. intros H c. apply H. Qed.

Lemma preserves_fun {A : Type} (f : LLVMCompiler -> M A) :
  (forall c, preserves R (f c)) -> preserves R (fun c => f c c).
Proof. intros H c. apply (H c c). Qed.

Lemma preserves_get_builder : preserves R get_builder.
Proof.
  intros c. unfold get_builder.
  destruct (builder c); [apply (ext_refl R HR) | exact I].
Qed.

Lemma preserves_fresh : preserves R fresh.
Proof. intros c. apply (ext_next_id R HR). Qed.

Lemma preserves_insert i : preserves R (insert i).
Proof.
  unfold insert. apply preserves_bind; [apply preserves_get_builder |].
  intros b. apply preserves_modify. intros c. apply (ext_insert R HR).
Qed.

Lemma preserves_add_global n ty init : preserves R (add_global n ty init).
Proof. intros c. apply (ext_new_global R HR). Qed.

Lemma preserves_block_is_terminated : preserves R block_is_terminated.
Proof.
  unfold block_is_terminated.
  apply preserves_bind; [apply preserves_get_builder |].
  intros b c. apply (ext_refl R HR).
Qed.

Lemma type_of_total v : type_of v <> OutOfFuel.
Proof. destruct v; discriminate. Qed.

Lemma check_call_args_total expected :
  forall args, check_call_args expected args <> OutOfFuel.
Proof.
  induction expected as [|ety expected IH]; intros args; simpl;
    [discriminate |].
  destruct args as [|a args]; [discriminate |].
  destruct a; simpl; try discriminate;
    destruct (LType_eqb _ _); try discriminate; apply IH.
Qed.

Ltac pres_step :=
  match goal with
  | |- preserves _ (mbind _ _) => apply preserves_bind; [| intros ?]
  | |- preserves _ (ret _) => apply preserves_ret
  | |- preserves _ (raise _) => apply preserves_raise
  | |- preserves _ (lift (type_of _)) =>
    apply preserves_lift, type_of_total
  | |- preserves _ (lift (check_call_args _ _)) =>
    apply preserves_lift, check_call_args_total
  | |- preserves _ get_builder => apply preserves_get_builder
  | |- preserves _ fresh => apply preserves_fresh
  | |- preserves _ (insert _) => apply preserves_insert
  | |- preserves _ (add_global _ _ _) => apply preserves_add_global
  | |- preserves _ block_is_terminated => apply preserves_block_is_terminated
  | |- preserves _ (if ?b then _ else _) => destruct b
  | |- preserves _ (match ?x with _ => _ end) => destruct x
  end.

Lemma preserves_set_terminator t : preserves R (set_terminator t).
Proof. unfold set_terminator. repeat pres_step. Qed.

Lemma preserves_append_basic_block name :
  preserves R (append_basic_block name).
Proof.
  intros c. unfold append_basic_block.
  destruct (current_function c) as [f|]; [| exact I].
  destruct (module_functions c !! f); [| exact I].
  apply (ext_append_block R HR).
Qed.

Lemma preserves_position_at_end r : preserves R (position_at_end r).
Proof.
  unfold position_at_end. repeat pres_step.
  apply preserves_modify. intros c. apply (ext_builder R HR).
Qed.

Lemma preserves_alloca ty name : preserves R (alloca ty name).
Proof. unfold alloca. repeat pres_step. Qed.

Lemma preserves_store v p : preserves R (store v p).
Proof. unfold store. repeat pres_step. Qed.

Lemma preserves_load p name : preserves R (load p name).
Proof. unfold load. repeat pres_step. Qed.

Lemma preserves_binop op l r : preserves R (binop op l r).
Proof. unfold binop. repeat pres_step. Qed.

Lemma preserves_icmp_signed op l r : preserves R (icmp_signed op l r).
Proof. unfold icmp_signed. repeat pres_step. Qed.

Lemma preserves_fcmp_ordered op l r : preserves R (fcmp_ordered op l r).
Proof. unfold fcmp_ordered. repeat pres_step. Qed.

Lemma preserves_not_ v : preserves R (not_ v).
Proof. unfold not_. repeat pres_step; apply preserves_binop. Qed.

Lemma preserves_bitcast v ty : preserves R (bitcast v ty).
Proof. unfold bitcast. repeat pres_step. Qed.

Lemma preserves_call fn args : preserves R (call fn args).
Proof.
  unfold call. apply preserves_bind; [apply preserves_get_builder |].
  intros _ c. destruct (module_functions c !! fn) as [f|]; [| exact I].
  revert c. change (preserves R
    (lift (check_call_args (fn_args f) args) ;;
     let! id := fresh in
     insert (Call id fn args) ;;
     ret (InstrValue id (fn_return_type f)))).
  repeat pres_step.
Qed.

Lemma preserves_builder_ret v : preserves R (builder_ret v).
Proof.
  unfold builder_ret. repeat pres_step; apply preserves_set_terminator.
Qed.

Lemma preserves_ret_void : preserves R ret_void.
Proof.
  unfold ret_void. repeat pres_step; apply preserves_set_terminator.
Qed.

Lemma preserves_branch r : preserves R (branch r).
Proof.
  unfold branch. repeat pres_step; apply preserves_set_terminator.
Qed.

Lemma preserves_cbranch v r1 r2 : preserves R (cbranch v r1 r2).
Proof.
  unfold cbranch. repeat pres_step; apply preserves_set_terminator.
Qed.

Lemma preserves_float_or_int fop iop l r :
  preserves R (float_or_int fop iop l r).
Proof. unfold float_or_int. repeat pres_step; apply preserves_binop. Qed.

Lemma preserves_compare op l r : preserves R (compare op l r).
Proof.
  unfold compare.
  repeat pres_step;
    first [apply preserves_icmp_signed | apply preserves_fcmp_ordered].
Qed.

Lemma preserves_compile_binary op l r : preserves R (compile_binary op l r).
Proof.
  unfold compile_binary.
  repeat (destruct (String.eqb op _);
          [first [apply preserves_float_or_int | apply preserves_binop
                 | apply preserves_compare] |]).
  apply preserves_ret.
Qed.

Lemma preserves_compile_unary op v : preserves R (compile_unary op v).
Proof.
  unfold compile_unary.
  repeat pres_step; first [apply preserves_binop | apply preserves_not_].
Qed.

Lemma preserves_compile_print_string text :
  preserves R (compile_print_string text).
Proof.
  unfold compile_print_string.
  repeat first [pres_step | apply preserves_bitcast | apply preserves_call].
Qed.

Lemma preserves_compile_print_value v :
  preserves R (compile_print_value v).
Proof.
  unfold compile_print_value.
  repeat first [pres_step | apply preserves_bitcast | apply preserves_call].
Qed.

Lemma preserves_compile_expression (e : ASTNode) :
  preserves R (compile_expression e).
Proof.
  induction e using ASTNode_induction; cbn [compile_expression];
    try apply preserves_ret.
  - destruct v; apply preserves_ret.
  - intros c. destruct (variables c !! n); [| exact I].
    apply preserves_load.
  - apply preserves_bind; [exact IHe1 |]. intros l.
    apply preserves_bind; [exact IHe2 |]. intros r.
    apply preserves_compile_binary.
  - apply preserves_bind; [exact IHe |]. intros v.
    apply preserves_compile_unary.
  - destruct e; try apply preserves_ret.
    destruct (String.eqb name "print").
    + destruct args as [|first rest]; [apply preserves_ret |].
      inversion H as [|? ? Hfirst _]; subst.
      assert (G : preserves R (let! arg := compile_expression first in
                               compile_print_value arg)).
      { apply preserves_bind; [exact Hfirst |]. intros v.
        apply preserves_compile_print_value. }
      destruct first; try exact G. apply preserves_compile_print_string.
    + intros c. destruct (functions c !! name) as [func|]; [| exact I].
      revert c. apply preserves_bind; [| intros vs; apply preserves_call].
      induction H as [|a l Ha _ IHl]; [apply preserves_ret |].
      apply preserves_bind; [exact Ha |]. intros v.
      apply preserves_bind; [exact IHl |]. intros vs. apply preserves_ret.
Qed.

Lemma preserves_compile_var_declaration name init :
  preserves R (compile_var_declaration name init).
Proof.
  intros c. unfold compile_var_declaration.
  destruct (builder c); [| apply (ext_refl R HR)].
  revert c. apply preserves_bind; [apply preserves_alloca |]. intros ptr.
  apply preserves_bind.
  - destruct init; [| apply preserves_ret].
    apply preserves_bind; [apply preserves_compile_expression |].
    intros v. apply preserves_store.
  - intros _. apply preserves_modify. intros c. apply (ext_variables R HR).
Qed.

Lemma preserves_compile_assignment target value op :
  preserves R (compile_assignment target value op).
Proof.
  unfold compile_assignment. destruct target; try apply preserves_raise.
  intros c. destruct (variables c !! name) as [p0|]; [| exact I].
  revert c. apply preserves_bind; [apply preserves_compile_expression |].
  intros val c. destruct (variables c !! name) as [p1|]; [| exact I].
  apply preserves_store.
Qed.

Lemma preserves_compile_return value : preserves R (compile_return value).
Proof.
  unfold compile_return. destruct value; [| apply preserves_ret_void].
  apply preserves_bind; [apply preserves_compile_expression |].
  intros v. apply preserves_builder_ret.
Qed.

Lemma preserves_compile_if_with cond (compile_then : M unit)
    (compile_else : option (M unit)) :
  preserves R compile_then ->
  match compile_else with Some m => preserves R m | None => True end ->
  preserves R (compile_if_with cond compile_then compile_else).
Proof.
  intros Ht He. unfold compile_if_with.
  apply preserves_bind; [apply preserves_compile_expression |]. intros v.
  apply preserves_bind; [apply preserves_append_basic_block |]. intros tb.
  apply preserves_bind.
  { destruct compile_else; [| apply preserves_ret].
    apply preserves_bind; [apply preserves_append_basic_block |].
    intros b. apply preserves_ret. }
  intros eb.
  apply preserves_bind; [apply preserves_append_basic_block |]. intros mb.
  apply preserves_bind.
  { destruct eb; apply preserves_cbranch. }
  intros _.
  apply preserves_bind; [apply preserves_position_at_end |]. intros _.
  apply preserves_bind; [exact Ht |]. intros _.
  apply preserves_bind; [apply preserves_block_is_terminated |]. intros t.
  apply preserves_bind.
  { destruct (negb t); [apply preserves_branch | apply preserves_ret]. }
  intros _.
  apply preserves_bind; [| intros _; apply preserves_position_at_end].
  destruct eb as [eb|]; [| apply preserves_ret].
  destruct compile_else as [m|]; [| apply preserves_ret].
  apply preserves_bind; [apply preserves_position_at_end |]. intros _.
  apply preserves_bind; [exact He |]. intros _.
  apply preserves_bind; [apply preserves_block_is_terminated |]. intros t'.
  destruct (negb t'); [apply preserves_branch | apply preserves_ret].
Qed.

Lemma preserves_compile_while_with cond (compile_body : M unit) :
  preserves R compile_body ->
  preserves R (compile_while_with cond compile_body).
Proof.
  intros Hb. unfold compile_while_with.
  apply preserves_bind; [apply preserves_append_basic_block |]. intros cb.
  apply preserves_bind; [apply preserves_append_basic_block |]. intros bb.
  apply preserves_bind; [apply preserves_append_basic_block |]. intros eb.
  apply preserves_bind; [apply preserves_branch |]. intros _.
  apply preserves_bind; [apply preserves_position_at_end |]. intros _.
  apply preserves_bind; [apply preserves_compile_expression |]. intros v.
  apply preserves_bind; [apply preserves_cbranch |]. intros _.
  apply preserves_bind; [apply preserves_position_at_end |]. intros _.
  apply preserves_bind; [exact Hb |]. intros _.
  apply preserves_bind; [apply preserves_block_is_terminated |]. intros t.
  apply preserves_bind; [| intros _; apply preserves_position_at_end].
  destruct (negb t); [apply preserves_branch | apply preserves_ret].
Qed.

Lemma preserves_bind_parameters ps :
  forall f i, preserves R (bind_parameters f i ps).
Proof.
  induction ps as [|[pname pty] ps IH]; intros f i; cbn [bind_parameters];
    [apply preserves_ret |].
  apply preserves_bind; [apply preserves_alloca |]. intros ptr.
  apply preserves_bind; [apply preserves_store |]. intros _.
  apply preserves_bind; [| intros _; apply IH].
  apply preserves_modify. intros c. apply (ext_variables R HR).
Qed.

Lemma parameter_types_Ok (ps : list (string * string)) :
  (fix types (l : list (string * string)) : Result (list LType) :=
     match l with
     | [] => Ok []
     | _ :: l' =>
       let* t := get_llvm_type (Types.Type2 Types.INT "int") in
       let* ts := types l' in
       Ok (t :: ts)
     end) ps
  = Ok (map (fun _ => i64) ps).
Proof.
  induction ps as [|p ps IH]; [reflexivity |].
  rewrite IH. reflexivity.
Qed.

Lemma preserves_compile_function_with name ps rt (compile_body : M unit) :
  preserves R compile_body ->
  preserves R (compile_function_with name ps rt compile_body).
Proof.
  intros Hb. unfold compile_function_with.
  rewrite parameter_types_Ok.
  apply preserves_bind; [apply preserves_lift; discriminate |]. intros pts.
  apply preserves_bind.
  { apply preserves_lift. destruct (String.eqb rt "int"); discriminate. }
  intros rty.
  apply preserves_bind.
  { intros c. destruct (name_is_used name c); [exact I |].
    apply (ext_new_function R HR). }
  intros f.
  apply preserves_bind.
  { apply preserves_modify. intros c. apply (ext_builder R HR). }
  intros _.
  apply preserves_bind.
  { apply preserves_modify. intros c. apply (ext_current_function R HR). }
  intros _.
  apply preserves_bind.
  { apply preserves_modify. intros c. apply (ext_functions R HR). }
  intros _.
  apply preserves_bind; [apply preserves_bind_parameters |]. intros _.
  apply preserves_bind; [exact Hb |]. intros _.
  apply preserves_bind; [apply preserves_block_is_terminated |]. intros t.
  apply preserves_bind.
  { destruct (negb t); [| apply preserves_ret].
    destruct (LType_eqb rty void);
      [apply preserves_ret_void | apply preserves_builder_ret]. }
  intros _.
  apply preserves_bind.
  { apply preserves_modify. intros c. apply (ext_builder R HR). }
  intros _. apply preserves_modify. intros c.
  apply (ext_current_function R HR).
Qed.

Lemma preserves_block (l : list ASTNode) :
  Forall (fun s => preserves R (compile_statement s)) l ->
  preserves R (compile_block l).
Proof.
  induction 1 as [|s l Hs _ IH]; [apply preserves_ret |].
  change (compile_block (s :: l))
    with (compile_statement s ;; compile_block l).
  apply preserves_bind; [exact Hs | intros _; exact IH].
Qed.

(** Every statement is lowered by such steps only. *)
Lemma preserves_compile_statement (stmt : ASTNode) :
  preserves R (compile_statement stmt).
Proof.
  induction stmt using ASTNode_induction; cbn [compile_statement];
    try apply preserves_ret.
  - apply preserves_compile_var_declaration.
  - apply preserves_compile_function_with.
    apply (preserves_block body H).
  - apply (preserves_block ss H).
  - apply preserves_bind; [apply preserves_compile_expression |].
    intros _. apply preserves_ret.
  - apply preserves_compile_return.
  - apply preserves_compile_if_with; [exact IHstmt2 |].
    destruct e; [exact H | exact I].
  - apply preserves_compile_while_with. exact IHstmt2.
  - apply preserves_compile_assignment.
Qed.

Lemma preserves_compile_block (l : list ASTNode) :
  preserves R (compile_block l).
Proof.
  apply preserves_block. apply Forall_forall. intros s _.
  apply preserves_compile_statement.
Qed.

End Preservation.

(** ** The lowerer: what it never undoes *)

Section LoweringInvariants.
Import Ast IR Compiler Props.
Local Open Scope list_scope.
Local Open Scope nat_scope.

Lemma preserves_Ok {A : Type} R (m : M A) c a c' :
  preserves R m -> m c = Ok (a, c') -> R c c'.
Proof. intros P H. specialize (P c). rewrite H in P. exact P. Qed.

Lemma map_signature_alter (h : Function -> Function) i fs :
  (forall fn, signature (h fn) = signature fn) ->
  map signature (alter h i fs) = map signature fs.
Proof.
  intros Hh. revert i. induction fs as [|fn fs IH]; intros i; [reflexivity |].
  destruct i as [|i]; simpl.
  - rewrite Hh. reflexivity.
  - f_equal. apply IH.
Qed.

Lemma keeps_functions_Extension : Extension keeps_functions.
Proof.
  split; unfold keeps_functions; simpl; intros.
  - exists []. rewrite app_nil_r. reflexivity.
  - destruct H as (l1 & E1). destruct H0 as (l2 & E2).
    exists (l1 ++ l2). rewrite E2, E1, app_assoc. reflexivity.
  - exists []. rewrite app_nil_r. reflexivity.
  - exists []. rewrite app_nil_r. unfold update_block.
    apply map_signature_alter. intros fn. reflexivity.
  - exists []. rewrite app_nil_r. unfold add_block.
    apply map_signature_alter. intros fn. reflexivity.
  - exists [signature fn]. rewrite map_app. reflexivity.
  - exists []. rewrite app_nil_r. reflexivity.
  - exists []. rewrite app_nil_r. reflexivity.
  - exists []. rewrite app_nil_r. reflexivity.
  - exists []. rewrite app_nil_r. reflexivity.
  - exists []. rewrite app_nil_r. reflexivity.
Qed.

Lemma keeps_symbols_Extension : Extension keeps_symbols.
Proof.
  split; unfold keeps_symbols; simpl; intros; try (split; auto; fail).
  - destruct H as [V1 F1]. destruct H0 as [V2 F2]. split; auto.
  - split; [| auto]. intros y Hy. apply lookup_insert_is_Some.
    destruct (decide (x = y)); [left; assumption | right; auto].
  - split; [auto |]. intros y Hy. apply lookup_insert_is_Some.
    destruct (decide (x = y)); [left; assumption | right; auto].
Qed.

Lemma append_instructions_app e1 e2 b :
  append_instructions e2 (append_instructions e1 b)
  = append_instructions (e1 ++ e2) b.
Proof. unfold append_instructions. simpl. rewrite app_assoc. reflexivity. Qed.

Lemma only_appends_refl c c' :
  module_functions c' = module_functions c -> only_appends c c'.
Proof.
  intros E q Hq. rewrite E. split; [exact Hq |].
  exists []. rewrite append_instructions_nil. reflexivity.
Qed.

Lemma only_appends_Extension : Extension only_appends.
Proof.
  split; try (intros; apply only_appends_refl; reflexivity).
  - intros a b c Hab Hbc q Hq.
    destruct (Hab q Hq) as (Hq1 & e1 & E1).
    destruct (Hbc q Hq1) as (Hq2 & e2 & E2).
    split; [exact Hq2 |]. exists (e1 ++ e2).
    rewrite E2, E1. apply append_instructions_app.
  - intros c b i q Hq. simpl. split; [apply valid_update_block; exact Hq |].
    destruct (decide (q = b)) as [->|Hne].
    + exists [i]. apply block_at_update_block_eq. exact Hq.
    + exists []. rewrite append_instructions_nil.
      apply block_at_update_block_ne. exact Hne.
  - intros c f name q Hq. simpl. split; [apply valid_add_block; exact Hq |].
    exists []. rewrite append_instructions_nil.
    apply block_at_add_block_old. exact Hq.
  - intros c fn q Hq. simpl.
    pose proof (nblocks_valid_lt q _ Hq) as Hlt. split.
    + unfold valid. rewrite nblocks_app_old by exact Hlt. exact Hq.
    + exists []. rewrite append_instructions_nil.
      apply block_at_app_old. exact Hlt.
Qed.

(** X17. Lowering never removes, moves or redeclares a function of the
    module: after any sequence of statements the functions that were
    there are at the same places with the same name, return type,
    parameter types and parameter names; functions are only added at the
    end. *)
Theorem lowering_keeps_every_function (statements : list ASTNode)
    (c c' : LLVMCompiler) :
  compile_block statements c = Ok (tt, c') ->
  exists added,
    map signature (module_functions c')
    = map signature (module_functions c) ++ added.
Proof.
  apply (preserves_Ok keeps_functions).
  apply preserves_compile_block. exact keeps_functions_Extension.
Qed.

Lemma lowering_keeps_every_function_witness :
  exists added,
    map signature (module_functions after_sample_loop)
    = map signature (module_functions in_body) ++ added.
Proof.
  apply (lowering_keeps_every_function [sample_loop]).
  vm_compute. reflexivity.
Defined.

(** X18. Lowering never unbinds a name: a variable or a function that is
    in the symbol tables before a sequence of statements is lowered is in
    them afterwards.  In particular the tables are not reset when the
    lowering of a function ends. *)
Theorem lowering_never_unbinds_a_name (statements : list ASTNode)
    (c c' : LLVMCompiler) :
  compile_block statements c = Ok (tt, c') ->
  (forall x, is_Some (variables c !! x) -> is_Some (variables c' !! x))
  /\ (forall f, is_Some (functions c !! f) -> is_Some (functions c' !! f)).
Proof.
  apply (preserves_Ok keeps_symbols).
  apply preserves_compile_block. exact keeps_symbols_Extension.
Qed.

Lemma lowering_never_unbinds_a_name_witness :
  (forall x, is_Some (variables in_body !! x) ->
             is_Some (variables after_sample_loop !! x))
  /\ (forall f, is_Some (functions in_body !! f) ->
                is_Some (functions after_sample_loop !! f)).
Proof.
  apply (lowering_never_unbinds_a_name [sample_loop]).
  vm_compute. reflexivity.
Defined.

(** X19. Lowering only appends code: every block that is in the module
    before a sequence of statements is lowered is there afterwards, under
    the same name, and starts with the instructions it held; nothing is
    removed, replaced or reordered. *)
Theorem lowering_only_appends_instructions (statements : list ASTNode)
    (c c' : LLVMCompiler) (q : BlockRef) :
  compile_block statements c = Ok (tt, c') ->
  valid q (module_functions c) ->
  valid q (module_functions c')
  /\ exists extra,
       block_at q (module_functions c')
       = append_instructions extra (block_at q (module_functions c)).
Proof.
  intros H. revert q. change (only_appends c c').
  revert H. apply (preserves_Ok only_appends).
  apply preserves_compile_block. exact only_appends_Extension.
Qed.

Lemma lowering_only_appends_instructions_witness :
  valid (3, 0) (module_functions after_sample_loop)
  /\ exists extra,
       block_at (3, 0) (module_functions after_sample_loop)
       = append_instructions extra (block_at (3, 0)
                                      (module_functions in_body)).
Proof.
  apply (lowering_only_appends_instructions [sample_loop]).
  - vm_compute. reflexivity.
  - unfold valid. vm_compute. lia.
Defined.

End LoweringInvariants.

(** ** The lowerer: functions *)

Section FunctionLowering.
Import Ast IR Compiler Props.
Local Open Scope list_scope.
Local Open Scope nat_scope.

Lemma map_signature_emit code c :
  map signature (emit code c) = map signature (module_functions c).
Proof.
  unfold emit. destruct (builder c); [| reflexivity].
  unfold update_block. apply map_signature_alter. reflexivity.
Qed.

(** [compile_function] step by step: the function is created with its
    entry block, the parameters are bound, the body is lowered, and a
    return is inserted when the body leaves its last block open. *)
Lemma compile_function_with_entry name ps rt (body : M unit) c c' :
  compile_function_with name ps rt body c = Ok (tt, c') ->
  name_is_used name c = false
  /\ exists c2 c3 r,
       bind_parameters (length (module_functions c)) 0 ps
         (function_entry name ps rt c) = Ok (tt, c2)
       /\ body c2 = Ok (tt, c3)
       /\ builder c3 = Some r
       /\ module_functions c'
          = (if is_terminated (block_at r (module_functions c3))
             then module_functions c3
             else emit [Ret (if String.eqb rt "int"
                             then Some (Constant i64 (CInt 0))
                             else None)] c3)
       /\ variables c' = variables c3
       /\ functions c' = functions c3.
Proof.
  unfold compile_function_with. rewrite parameter_types_Ok. intros H.
  apply mbind_Ok in H as (pts & c0 & H0 & H).
  apply lift_Ok in H0 as [Epts ->]. inversion Epts; subst pts; clear Epts.
  apply mbind_Ok in H as (rty & c0 & H0 & H).
  apply lift_Ok in H0 as [Erty ->].
  apply mbind_Ok in H as (f & c0 & H0 & H).
  destruct (name_is_used name c) eqn:Hused; [discriminate H0 |].
  inversion H0; subst f c0; clear H0.
  apply mbind_Ok in H as ([] & c0 & H0 & H). apply modify_Ok in H0. subst c0.
  apply mbind_Ok in H as ([] & c0 & H0 & H). apply modify_Ok in H0. subst c0.
  apply mbind_Ok in H as ([] & c0 & H0 & H). apply modify_Ok in H0. subst c0.
  apply mbind_Ok in H as ([] & c2 & H2 & H).
  apply mbind_Ok in H as ([] & c3 & H3 & H).
  apply mbind_Ok in H as (t & c3' & Ht & H).
  apply block_is_terminated_Ok in Ht as (r & Hr & -> & ->).
  apply mbind_Ok in H as ([] & c4 & H4 & H).
  apply mbind_Ok in H as ([] & c5 & H5 & H).
  apply modify_Ok in H5. apply modify_Ok in H. subst c5 c'.
  split; [reflexivity |]. exists c2, c3, r.
  assert (Hrty : rty = if String.eqb rt "int" then i64 else void).
  { destruct (String.eqb rt "int"); simpl in Erty; inversion Erty;
      reflexivity. }
  subst rty.
  split.
  { unfold function_entry. exact H2. }
  split; [exact H3 |]. split; [exact Hr |]. simpl.
  destruct (is_terminated (block_at r (module_functions c3))); simpl in H4.
  - inversion H4. auto.
  - destruct (String.eqb rt "int"); simpl in H4.
    + apply mbind_Ok in H4 as (r0 & c0 & Hg & H4).
      apply get_builder_Ok in Hg as [_ ->].
      apply set_terminator_Ok in H4 as (r1 & Hr1 & _ & ->).
      simpl. unfold emit. rewrite Hr1. auto.
    + apply mbind_Ok in H4 as (r0 & c0 & Hg & H4).
      apply get_builder_Ok in Hg as [_ ->].
      apply set_terminator_Ok in H4 as (r1 & Hr1 & _ & ->).
      simpl. unfold emit. rewrite Hr1. auto.
Qed.

(** The signature a function is created with is the one it has when its
    lowering ends. *)
Lemma compile_function_signature name ps rt body c c' :
  compile_function name ps rt body c = Ok (tt, c') ->
  exists added,
    map signature (module_functions c')
    = map signature (module_functions c)
      ++ (name, if String.eqb rt "int" then i64 else void,
          map (fun _ => i64) ps, map fst ps) :: added.
Proof.
  intros H. apply compile_function_with_entry in H
    as (_ & c2 & c3 & r & H2 & H3 & _ & Hm & _).
  apply (preserves_Ok keeps_functions) in H2 as (a2 & E2);
    [| apply preserves_bind_parameters, keeps_functions_Extension].
  apply (preserves_Ok keeps_functions) in H3 as (a3 & E3);
    [| apply preserves_compile_block, keeps_functions_Extension].
  assert (E : map signature (module_functions c')
              = map signature (module_functions c3)).
  { rewrite Hm. destruct (is_terminated _); [reflexivity |].
    apply map_signature_emit. }
  exists (a2 ++ a3). rewrite E, E3, E2. unfold function_entry. simpl.
  rewrite map_app. simpl. rewrite <- !app_assoc. reflexivity.
Qed.

(** X20. The lowerer ignores the declared types of a function: the
    function it creates takes one 64-bit integer per parameter, whatever
    type each was declared with, and returns a 64-bit integer when the
    declared return type is [int] and nothing otherwise (so a function
    declared to return [float] is a [void] function). *)
Theorem declared_types_are_ignored (name : string)
    (parameters : list (string * string)) (return_type : string)
    (body : list ASTNode) (c c' : LLVMCompiler) :
  compile_function name parameters return_type body c = Ok (tt, c') ->
  signature <$> (module_functions c' !! length (module_functions c))
  = Some (name, if String.eqb return_type "int" then i64 else void,
          map (fun _ => i64) parameters, map fst parameters).
Proof.
  intros H. apply compile_function_signature in H as (added & E).
  rewrite <- list_lookup_fmap.
  change (signature <$> module_functions c')
    with (map signature (module_functions c')).
  rewrite E. rewrite <- (length_map signature (module_functions c)).
  apply list_lookup_middle. reflexivity.
Qed.

Lemma declared_types_are_ignored_witness :
  signature <$> (module_functions
                   (match compile_function "half" [("x", "float")] "float"
                            [] new with
                    | Ok (_, c) => c
                    | _ => new
                    end) !! 3)
  = Some ("half", void, [i64], ["x"]).
Proof.
  apply (declared_types_are_ignored "half" [("x", "float")] "float" []
           new).
  vm_compute. reflexivity.
Defined.

Lemma name_is_used_signature name c sig :
  In sig (map signature (module_functions c)) -> sig.1.1.1 = name ->
  name_is_used name c = true.
Proof.
  intros Hin Hn. unfold name_is_used. apply orb_true_iff. right.
  apply in_map_iff in Hin as (fn & Hs & Hfn).
  apply existsb_exists. exists fn. split; [exact Hfn |].
  subst sig. simpl in Hn. subst name. apply String.eqb_refl.
Qed.

(** X21. A function cannot be defined twice: once a function of some
    name has been lowered, lowering another function of that name raises
    llvmlite's [DuplicateNameError], whatever was lowered in between. *)
Theorem function_cannot_be_redefined (name : string)
    (ps ps' : list (string * string)) (rt rt' : string)
    (body between body' : list ASTNode) (c c1 c2 : LLVMCompiler) :
  compile_function name ps rt body c = Ok (tt, c1) ->
  compile_block between c1 = Ok (tt, c2) ->
  compile_function name ps' rt' body' c2 = Raise (DuplicateNameError name).
Proof.
  intros H1 H2.
  apply compile_function_signature in H1 as (a1 & E1).
  apply (preserves_Ok keeps_functions) in H2 as (a2 & E2);
    [| apply preserves_compile_block, keeps_functions_Extension].
  assert (Hused : name_is_used name c2 = true).
  { apply (name_is_used_signature name c2
             (name, if String.eqb rt "int" then i64 else void,
              map (fun _ => i64) ps, map fst ps)); [| reflexivity].
    rewrite E2, E1. apply in_or_app. left. apply in_or_app. right.
    left. reflexivity. }
  unfold compile_function, compile_function_with.
  rewrite parameter_types_Ok. unfold mbind at 1. unfold lift at 1.
  unfold mbind at 1.
  destruct (String.eqb rt' "int"); simpl; unfold mbind at 1;
    rewrite Hused; reflexivity.
Qed.

Lemma function_cannot_be_redefined_witness :
  compile_function "f" [] "int" []
    (match compile_function "f" [("a", "int")] "void" [] new with
     | Ok (_, c) => c
     | _ => new
     end)
  = Raise (DuplicateNameError "f").
Proof.
  eapply (function_cannot_be_redefined "f" [("a", "int")] [] "void" "int"
            [] [] [] new).
  - vm_compute. reflexivity.
  - vm_compute. reflexivity.
Defined.

End FunctionLowering.

(** ** The lowerer: inside and outside a function *)

Section InsideAndOutside.
Import Ast IR Compiler Props.
Local Open Scope list_scope.
Local Open Scope nat_scope.

(** X22. A function whose body leaves its last block open gets a return
    at its end: [ret i64 0] when the declared return type is [int] and
    [ret void] otherwise; a body that ends in a terminated block is left
    as it is.  Either way the lowering of the function ends outside any
    function, with the symbol tables the body left. *)
Theorem function_without_return_gets_one (name : string)
    (parameters : list (string * string)) (return_type : string)
    (body : list ASTNode) (c c' : LLVMCompiler) :
  compile_function name parameters return_type body c = Ok (tt, c') ->
  exists c2 c3 r,
    bind_parameters (length (module_functions c)) 0 parameters
      (function_entry name parameters return_type c) = Ok (tt, c2)
    /\ compile_block body c2 = Ok (tt, c3)
    /\ builder c3 = Some r
    /\ module_functions c'
       = (if is_terminated (block_at r (module_functions c3))
          then module_functions c3
          else emit [Ret (if String.eqb return_type "int"
                          then Some (Constant i64 (CInt 0))
                          else None)] c3)
    /\ variables c' = variables c3
    /\ functions c' = functions c3
    /\ builder c' = None
    /\ current_function c' = None.
Proof.
  intros H.
  destruct (compile_function_with_Idle _ _ _ _ _ _ H) as [Hb Hcf].
  apply compile_function_with_entry in H
    as (_ & c2 & c3 & r & H2 & H3 & Hr & Hm & Hv & Hf).
  exists c2, c3, r. repeat split; assumption.
Qed.

Lemma function_without_return_gets_one_witness :
  exists c2 c3 r,
    bind_parameters (length (module_functions new)) 0 [("x", "float")]
      (function_entry "half" [("x", "float")] "int" new) = Ok (tt, c2)
    /\ compile_block [] c2 = Ok (tt, c3)
    /\ builder c3 = Some r
    /\ module_functions
         (match compile_function "half" [("x", "float")] "int" [] new with
          | Ok (_, c) => c
          | _ => new
          end)
       = (if is_terminated (block_at r (module_functions c3))
          then module_functions c3
          else emit [Ret (if String.eqb "int" "int"
                          then Some (Constant i64 (CInt 0))
                          else None)] c3).
Proof.
  destruct (function_without_return_gets_one "half" [("x", "float")] "int"
              [] new
              (match compile_function "half" [("x", "float")] "int" [] new
               with
               | Ok (_, c) => c
               | _ => new
               end))
    as (c2 & c3 & r & H2 & H3 & Hr & Hm & _).
  - vm_compute. reflexivity.
  - exists c2, c3, r. repeat split; assumption.
Defined.

Lemma trivial_Extension : Extension (fun _ _ => True).
Proof. split; auto. Qed.

Lemma compile_expression_returns_or_raises e c :
  compile_expression e c <> OutOfFuel.
Proof.
  pose proof (preserves_compile_expression _ trivial_Extension e c) as P.
  destruct (compile_expression e c) as [[v c1]| |];
    [discriminate | discriminate | contradiction].
Qed.

Lemma mbind_Raise {A B : Type} (m : M A) (k : A -> M B) c e :
  m c = Raise e -> mbind m k c = Raise e.
Proof. intros H. unfold mbind. rewrite H. reflexivity. Qed.

Lemma mbind_fails_after {A B : Type} (m : M A) (k : A -> M B) c :
  m c <> OutOfFuel ->
  (forall a c1, m c = Ok (a, c1) -> exists err, k a c1 = Raise err) ->
  exists err, mbind m k c = Raise err.
Proof.
  intros Hm Hk. unfold mbind. destruct (m c) as [[a c1]|e|].
  - apply Hk. reflexivity.
  - exists e. reflexivity.
  - contradiction.
Qed.

Lemma after_expression_outside e c v c1 :
  Idle c -> compile_expression e c = Ok (v, c1) ->
  builder c1 = None /\ current_function c1 = None
  /\ variables c1 = variables c.
Proof.
  intros [Hb Hcf] H.
  apply straight_compile_expression in H
    as (code & _ & _ & Hb1 & Hv1 & _ & Hcf1).
  repeat split; congruence.
Qed.

Lemma get_builder_outside {B : Type} (k : BlockRef -> M B) c :
  builder c = None -> mbind get_builder k c = Raise AttributeError.
Proof.
  intros Hb. apply mbind_Raise. unfold get_builder. rewrite Hb. reflexivity.
Qed.

(** X23. Outside a function only function definitions are lowered: a
    variable declaration is dropped without its initializer being
    lowered, and a [while], an [if], a [return], an assignment or a call
    of [print] with an argument always ends in an exception (the builder
    and the current function are [None]). *)
Theorem only_functions_are_lowered_outside_a_function (c : LLVMCompiler) :
  Idle c ->
  (forall name ty init is_const,
      compile_statement (VarDeclaration name ty init is_const) c
      = Ok (tt, c))
  /\ (forall cond body,
         compile_statement (WhileStatement cond body) c
         = Raise AttributeError)
  /\ (forall cond then_branch else_branch,
         exists err,
           compile_statement (IfStatement cond then_branch else_branch) c
           = Raise err)
  /\ (forall value,
         exists err, compile_statement (ReturnStatement value) c = Raise err)
  /\ (forall target value op,
         exists err,
           compile_statement (AssignmentStatement target value op) c
           = Raise err)
  /\ (forall first rest,
         exists err,
           compile_statement
             (ExpressionStatement
                (CallExpr (Identifier "print") (first :: rest))) c
           = Raise err).
Proof.
  intros Hidle. pose proof Hidle as [Hb Hcf].
  split; [| split; [| split; [| split; [| split]]]].
  - intros name ty init k. cbn [compile_statement].
    unfold compile_var_declaration. rewrite Hb. reflexivity.
  - intros cond body. cbn [compile_statement].
    unfold compile_while_with. apply mbind_Raise.
    unfold append_basic_block. rewrite Hcf. reflexivity.
  - intros cond t e. cbn [compile_statement]. unfold compile_if_with.
    apply mbind_fails_after;
      [apply compile_expression_returns_or_raises |].
    intros v c1 E.
    destruct (after_expression_outside _ _ _ _ Hidle E) as (_ & Hcf1 & _).
    eexists. apply mbind_Raise.
    unfold append_basic_block. rewrite Hcf1. reflexivity.
  - intros [e|]; cbn [compile_statement]; unfold compile_return.
    + apply mbind_fails_after;
        [apply compile_expression_returns_or_raises |].
      intros v c1 E.
      destruct (after_expression_outside _ _ _ _ Hidle E) as (Hb1 & _).
      eexists. unfold builder_ret. apply get_builder_outside. exact Hb1.
    + eexists. unfold ret_void. apply get_builder_outside. exact Hb.
  - intros target value op. cbn [compile_statement].
    unfold compile_assignment.
    destruct target; try (eexists; reflexivity).
    destruct (variables c !! name) as [p|] eqn:Hv;
      [| eexists; reflexivity].
    apply mbind_fails_after;
      [apply compile_expression_returns_or_raises |].
    intros v c1 E.
    destruct (after_expression_outside _ _ _ _ Hidle E) as (Hb1 & _ & Hv1).
    rewrite Hv1, Hv. eexists. unfold store.
    apply get_builder_outside. exact Hb1.
  - intros first rest.
    assert (G : exists err,
              compile_expression
                (CallExpr (Identifier "print") (first :: rest)) c
              = Raise err).
    { cbn [compile_expression].
      change (String.eqb "print" "print") with true. cbv iota.
      assert (G : exists err,
                (let! arg := compile_expression first in
                 compile_print_value arg) c = Raise err).
      { apply mbind_fails_after;
          [apply compile_expression_returns_or_raises |].
        intros v c1 E.
        destruct (after_expression_outside _ _ _ _ Hidle E) as (Hb1 & _).
        unfold compile_print_value, bitcast.
        unfold mbind, lift, fresh, add_global, get_builder.
        destruct v; simpl; rewrite ?Hb1; eexists; reflexivity. }
      destruct first; try exact G.
      unfold compile_print_string, bitcast.
      unfold mbind, fresh, add_global, get_builder. simpl. rewrite Hb.
      eexists. reflexivity. }
    destruct G as (err & G). exists err. cbn [compile_statement].
    apply mbind_Raise. exact G.
Qed.

Lemma only_functions_are_lowered_outside_a_function_witness :
  compile_statement
    (VarDeclaration "x" None (Some (NumberLiteral (NInt 1))) false) new
  = Ok (tt, new)
  /\ compile_statement
       (WhileStatement (BooleanLiteral true) (Block [])) new
     = Raise AttributeError.
Proof.
  destruct (only_functions_are_lowered_outside_a_function new)
    as (H1 & H2 & _).
  - split; reflexivity.
  - split; [apply H1 | apply H2].
Defined.

(** X24. Lowering an expression is straight-line code: it inserts
    instructions that are not terminators at the builder's position and
    nothing else, so it creates no block, leaves the builder where it is
    and changes neither symbol table. *)
Theorem expression_lowering_is_straight_line (e : ASTNode)
    (c c' : LLVMCompiler) (v : Value) :
  compile_expression e c = Ok (v, c') ->
  builder c' = builder c
  /\ current_function c' = current_function c
  /\ variables c' = variables c
  /\ functions c' = functions c
  /\ (forall f, nblocks f (module_functions c')
                = nblocks f (module_functions c))
  /\ exists code,
       nonterminators code /\ module_functions c' = emit code c.
Proof.
  intros H. apply straight_compile_expression in H
    as (code & Hn & Hm & Hb & Hv & Hf & Hcf).
  repeat split; try assumption.
  - intros f. rewrite Hm. unfold emit.
    destruct (builder c); [apply nblocks_update_block | reflexivity].
  - exists code. split; assumption.
Qed.

Lemma expression_lowering_is_straight_line_witness :
  exists code,
    nonterminators code
    /\ module_functions (inserted (Load 2 (slot 0) "a") in_body)
       = emit code in_body.
Proof.
  destruct (expression_lowering_is_straight_line (Identifier "a") in_body
              (inserted (Load 2 (slot 0) "a") in_body)
              (InstrValue 2 i64)) as (_ & _ & _ & _ & _ & H).
  - vm_compute. reflexivity.
  - exact H.
Defined.

(** X25. A statement lowered inside a function, unless it is a nested
    function definition, appends to the current function the blocks of
    its [if] and [while] statements (three per [while], three per [if]
    with an [else], two per [if] without) and to no other function; it
    leaves every block that existed untouched, except the one the
    builder was in; and the builder ends in a block of the same
    function. *)
Theorem statement_lowering_appends_its_blocks (stmt : ASTNode)
    (c c' : LLVMCompiler) (r : BlockRef) :
  compile_statement stmt c = Ok (tt, c') ->
  InSync c r ->
  builder c' <> None ->
  (forall f,
      nblocks f (module_functions c')
      = nblocks f (module_functions c)
        + (if decide (f = fst r) then new_blocks stmt else 0))
  /\ (forall q, valid q (module_functions c) -> q <> r ->
        block_at q (module_functions c') = block_at q (module_functions c))
  /\ exists r', builder c' = Some r' /\ fst r' = fst r
                /\ valid r' (module_functions c').
Proof.
  intros H Hs Hb.
  destruct (lowers_compile_statement stmt c c' r H Hs)
    as [[Hidle _] | (r' & L)]; [contradiction |].
  split; [apply (low_nblocks _ _ _ _ _ _ L) |].
  split; [apply (low_frame _ _ _ _ _ _ L) |].
  exists r'. destruct (low_sync _ _ _ _ _ _ L) as (Hb' & _ & Hv).
  split; [exact Hb' |]. split; [apply (low_function _ _ _ _ _ _ L) | exact Hv].
Qed.

Lemma statement_lowering_appends_its_blocks_witness :
  (forall f,
      nblocks f (module_functions after_sample_loop)
      = nblocks f (module_functions in_body)
        + (if decide (f = 3) then 3 else 0))
  /\ (forall q, valid q (module_functions in_body) -> q <> (3, 0) ->
        block_at q (module_functions after_sample_loop)
        = block_at q (module_functions in_body)).
Proof.
  destruct (statement_lowering_appends_its_blocks sample_loop in_body
              after_sample_loop (3, 0)) as (H1 & H2 & _).
  - vm_compute. reflexivity.
  - repeat split. unfold valid. vm_compute. lia.
  - vm_compute. discriminate.
  - split; [exact H1 | exact H2].
Defined.

End InsideAndOutside.

(** ** The parser: what it builds *)

Section ParserShape.
Import Lexer Ast Parser Props.
Local Open Scope list_scope.
Local Open Scope nat_scope.
Variable tokens : list Token.

Lemma yields_bind {A B : Type} (Q : A -> Prop) (P : B -> Prop)
    (m : Result A) (k : A -> Result B) :
  yields Q m -> (forall a, Q a -> yields P (k a)) -> yields P (bind m k).
Proof.
  intros Hm Hk. destruct m as [a| |]; simpl; [apply Hk; exact Hm | | ]; exact I.
Qed.

Lemma yields_any {A B : Type} (P : B -> Prop) (m : Result A)
    (k : A -> Result B) :
  (forall a, yields P (k a)) -> yields P (bind m k).
Proof. intros Hk. destruct m as [a| |]; simpl; [apply Hk | | ]; exact I. Qed.

Lemma forallb_snoc {A : Type} (f : A -> bool) l x :
  forallb f l = true -> f x = true -> forallb f (l ++ [x]) = true.
Proof. intros Hl Hx. rewrite forallb_app, Hl. simpl. rewrite Hx. reflexivity. Qed.

Lemma yields_impl {A : Type} (Q P : A -> Prop) (r : Result A) :
  yields Q r -> (forall a, Q a -> P a) -> yields P r.
Proof. intros Hr H. destruct r; simpl; auto. Qed.

Lemma parse_trait_declaration_shape fuel pos :
  yields node_ok (parse_trait_declaration tokens fuel pos).
Proof.
  unfold parse_trait_declaration.
  repeat (apply yields_any; intros ?;
          repeat match goal with
          | |- yields _ (let (_, _) := ?x in _) => destruct x
          end).
  reflexivity.
Qed.

Lemma parse_import_statement_shape fuel pos :
  yields node_ok (parse_import_statement tokens fuel pos).
Proof.
  unfold parse_import_statement.
  repeat first
    [ apply yields_any; intros ?
    | match goal with
      | |- yields _ (let (_, _) := ?x in _) => destruct x
      | |- yields _ (if ?b then _ else _) => destruct b
      end ];
    reflexivity.
Qed.

(** The node returned in the end is checked by computation, from what
    is known of its parts. *)
Ltac shape_finish :=
  unfold node_ok, nodes_ok in *; simpl in *;
  repeat match goal with
  | H : _ /\ _ |- _ => destruct H
  end;
  repeat match goal with
  | |- _ /\ _ => split
  end;
  try reflexivity; try assumption;
  repeat match goal with
  | |- forallb _ (_ ++ [_]) = true =>
    apply forallb_snoc; [assumption | simpl]
  | H : ?x = true |- context [?x] => rewrite H; simpl
  end;
  rewrite ?orb_true_r; simpl;
  try reflexivity; try assumption.

(** One step through the body of a method: a call of another method
    brings what the invariant says of it, any other call brings
    nothing. *)
Ltac shape_step :=
  match goal with
  | |- yields _ (Ok _) => simpl; shape_finish
  | |- yields _ (Raise _) => exact I
  | |- yields _ OutOfFuel => exact I
  | |- yields _ (if ?b then _ else _) => destruct b
  | |- yields _ (let (_, _) := ?x in _) => destruct x
  | |- yields _ (bind (Ok _) _) => cbn [bind]
  | |- yields _ (bind (if ?b then _ else _) _) =>
    first [progress cbv iota | destruct b]
  | H : forall pos, yields _ (?f tokens ?fu pos)
    |- yields _ (bind (?f tokens ?fu _) _) =>
    eapply yields_bind; [apply H | intros [? ?] ?]
  | H : forall pos x, _ -> yields _ (?f tokens ?fu pos x)
    |- yields _ (bind (?f tokens ?fu _ _) _) =>
    eapply yields_bind; [apply H; shape_finish | intros [? ?] ?]
  | H : forall pos x y, _ -> _ -> yields _ (?f tokens ?fu pos x y)
    |- yields _ (bind (?f tokens ?fu _ _ _) _) =>
    eapply yields_bind; [apply H; shape_finish | intros [[? ?] ?] ?]
  | H : forall pos, yields _ (?f tokens ?fu pos)
    |- yields _ (?f tokens ?fu _) =>
    eapply yields_impl; [apply H | intros [? ?] ?; shape_finish]
  | H : forall pos x, _ -> yields _ (?f tokens ?fu pos x)
    |- yields _ (?f tokens ?fu _ _) =>
    eapply yields_impl; [apply H; shape_finish | intros [? ?] ?; shape_finish]
  | H : forall pos x y, _ -> _ -> yields _ (?f tokens ?fu pos x y)
    |- yields _ (?f tokens ?fu _ _ _) =>
    eapply yields_impl;
    [apply H; shape_finish | intros [[? ?] ?] ?; shape_finish]
  | |- yields _ (bind _ _) => apply yields_any; intros ?
  end.

Lemma shape_invariant_holds fuel : shape_invariant tokens fuel.
Proof.
  induction fuel as [|fuel IH].
  - unfold shape_invariant. repeat split; intros; exact I.
  - destruct IH as (Hstmt & Hfun & Hvar & Hclass & Hcbody & Hblock & Hbloop
                    & Hret & Hif & Hwhile & Hfor & Hpar & Hploop & Hexpr
                    & Hpipe & Hpiloop & Hor & Horl & Hand & Handl & Heq
                    & Heql & Hcmp & Hcmpl & Hadd & Haddl & Hmul & Hmull
                    & Hpow & Hun & Hpost & Hpostl & Hargs & Hel & Hprim
                    & Hmatch & Hcl & Hlam).
    pose proof (parse_trait_declaration_shape fuel) as Htrait.
    pose proof (parse_import_statement_shape fuel) as Himport.
    unfold shape_invariant.
    repeat match goal with |- _ /\ _ => split end; intros.
    all: match goal with
         | |- yields _ (?f tokens (S _) _) => cbn [f]
         | |- yields _ (?f tokens (S _) _ _) => cbn [f]
         | |- yields _ (?f tokens (S _) _ _ _) => cbn [f]
         end.
    all: repeat shape_step.
Qed.

Lemma program_loop_shape fuel :
  forall pos acc, forallb parsed acc = true ->
    yields (fun p => forallb parsed p = true)
           (program_loop tokens fuel pos acc).
Proof.
  induction fuel as [|fuel IH]; intros pos acc Hacc; [exact I |].
  cbn [program_loop]. apply yields_any. intros m.
  destruct m; [exact Hacc |].
  eapply yields_bind;
    [apply (proj1 (shape_invariant_holds fuel)) | intros [stmt p] Hs].
  apply yields_any. intros p'. apply IH.
  apply forallb_snoc; [exact Hacc | exact Hs].
Qed.

Lemma parse_shape fuel :
  yields (fun p => forallb parsed p = true) (Parser.parse tokens fuel).
Proof.
  unfold Parser.parse. apply yields_any. intros pos.
  apply program_loop_shape. reflexivity.
Qed.

(** X26. Every node of a program the parser returns has the shape the
    parser gives it: there is no object literal in it (the branch of
    [parse_primary] that would build one is never reached); the body of
    every [while] and [for] and the first branch of every [if] is a
    block, and an [else] branch is a block or another [if]; variable
    declarations have a type and are not constant; the methods of a
    class are function declarations and its fields variable
    declarations. *)
Theorem parse_builds_parsed_nodes (fuel : nat) (program : Program) :
  Parser.parse tokens fuel = Ok program -> forallb parsed program = true.
Proof.
  intros H. pose proof (parse_shape fuel) as Y. rewrite H in Y. exact Y.
Qed.

End ParserShape.

Section ParserShapeWitness.
Import Lexer Ast Parser Props.
Local Open Scope list_scope.

Lemma parse_builds_parsed_nodes_witness :
  forallb parsed
    [WhileStatement (Identifier "x")
       (Block [ExpressionStatement
                 (CallExpr (Identifier "f") [Identifier "x"])])]
  = true.
Proof.
  apply (parse_builds_parsed_nodes
           [MkToken WHILE (VStr "while") 1 1;
            MkToken IDENTIFIER (VStr "x") 1 7;
            MkToken LBRACE (VStr "{") 1 9;
            MkToken IDENTIFIER (VStr "f") 1 11;
            MkToken LPAREN (VStr "(") 1 12;
            MkToken IDENTIFIER (VStr "x") 1 13;
            MkToken RPAREN (VStr ")") 1 14;
            MkToken RBRACE (VStr "}") 1 16;
            MkToken EOF VNone 1 17] 40).
  vm_compute. reflexivity.
Defined.

End ParserShapeWitness.

(** ** The parser: it ends *)

Section ParserTermination.
Import Lexer Ast Parser Props.
Local Open Scope list_scope.
Local Open Scope nat_scope.
Variable tokens : list Token.
Variable eof : Token.
Hypothesis tokens_end : last tokens = Some eof.
Hypothesis eof_type : type eof = EOF.

Lemma finishes_bind {A B : Type} (Q : A -> Prop) (P : B -> Prop)
    (m : Result A) (k : A -> Result B) :
  finishes Q m -> (forall a, Q a -> finishes P (k a)) ->
  finishes P (bind m k).
Proof.
  intros Hm Hk. destruct m as [a|e|]; simpl; [apply Hk | |]; exact Hm.
Qed.

Lemma finishes_impl {A : Type} (Q P : A -> Prop) (r : Result A) :
  finishes Q r -> (forall a, Q a -> P a) -> finishes P r.
Proof. intros Hr H. destruct r; simpl; auto. Qed.

Lemma bind_assoc {A B C : Type} (m : Result A) (f : A -> Result B)
    (k : B -> Result C) :
  bind (bind m f) k = bind m (fun a => bind (f a) k).
Proof. destruct m; reflexivity. Qed.

Lemma tokens_nonempty : 0 < length tokens.
Proof. destruct tokens; [discriminate tokens_end | simpl; lia]. Qed.

Lemma last_token pos t :
  tokens !! pos = Some t -> S pos = length tokens -> t = eof.
Proof.
  intros Ht Hp. rewrite last_lookup in tokens_end.
  replace (Nat.pred (length tokens)) with pos in tokens_end by lia.
  congruence.
Qed.

Lemma current_spec pos :
  pos < length tokens ->
  exists t, current tokens pos = Ok t /\ tokens !! pos = Some t.
Proof.
  intros Hp. unfold current.
  destruct (lookup_lt_is_Some_2 tokens pos Hp) as (t & Ht).
  rewrite Ht. eauto.
Qed.

Lemma not_eof_more pos t :
  tokens !! pos = Some t -> type t <> EOF -> S pos < length tokens.
Proof.
  intros Ht Hne. pose proof (lookup_lt_Some _ _ _ Ht) as Hlt.
  destruct (decide (S pos = length tokens)) as [E|]; [| lia].
  apply (last_token pos t Ht) in E. subst t. contradiction.
Qed.

Lemma advance_moves pos t :
  tokens !! pos = Some t -> type t <> EOF ->
  advance tokens pos = Ok (t, S pos) /\ S pos < length tokens.
Proof.
  intros Ht Hne. split; [| eapply not_eof_more; eassumption].
  unfold advance, current. rewrite Ht. simpl.
  rewrite bool_decide_eq_false_2 by exact Hne. reflexivity.
Qed.

Lemma is_one_of_not_eof ty tys :
  is_one_of ty tys = true -> is_one_of EOF tys = false -> ty <> EOF.
Proof. intros H1 H2 ->. congruence. Qed.

Lemma match_spec tys pos :
  pos < length tokens ->
  exists t, tokens !! pos = Some t
            /\ match_ tokens tys pos = Ok (is_one_of (type t) tys).
Proof.
  intros Hp. destruct (current_spec pos Hp) as (t & Hc & Ht).
  exists t. split; [exact Ht |]. unfold match_. rewrite Hc. reflexivity.
Qed.

Lemma expect_spec ty pos :
  ty <> EOF -> pos < length tokens ->
  finishes (fun r => snd r = S pos /\ S pos < length tokens)
           (expect tokens ty pos).
Proof.
  intros Hty Hp. destruct (current_spec pos Hp) as (t & Hc & Ht).
  unfold expect. rewrite Hc. simpl.
  destruct (bool_decide_reflect (type t = ty)) as [E|E].
  - destruct (advance_moves pos t Ht ltac:(congruence)) as [-> Hlt].
    simpl. auto.
  - simpl. eauto.
Qed.

Lemma skip_newlines_spec fuel :
  forall pos, pos < length tokens -> length tokens - pos < fuel ->
    finishes (fun p => pos <= p /\ p < length tokens)
             (skip_newlines tokens fuel pos).
Proof.
  induction fuel as [|fuel IH]; intros pos Hp Hf; [lia |].
  cbn [skip_newlines].
  destruct (match_spec [NEWLINE] pos Hp) as (t & Ht & ->). cbn [bind].
  destruct (is_one_of (type t) [NEWLINE]) eqn:E; [| simpl; lia].
  destruct (advance_moves pos t Ht) as [-> Hlt].
  { eapply is_one_of_not_eof; [exact E | reflexivity]. }
  cbn [bind]. eapply finishes_impl; [apply IH; lia |].
  simpl. intros p. lia.
Qed.

Lemma parse_type_spec pos :
  pos < length tokens ->
  finishes (fun r => snd r = S pos /\ S pos < length tokens)
           (parse_type tokens pos).
Proof.
  intros Hp. destruct (current_spec pos Hp) as (t & Hc & Ht).
  unfold parse_type. rewrite Hc. cbn [bind].
  repeat match goal with
  | |- finishes _ (if is_one_of (type t) ?tys then _ else _) =>
    destruct (is_one_of (type t) tys) eqn:?;
    [destruct (advance_moves pos t Ht) as [-> ?];
     [eapply is_one_of_not_eof; [eassumption | reflexivity]
     | simpl; auto] |]
  end.
  simpl. eauto.
Qed.

(** One step through the body of a method, with the positions and the
    fuel kept track of. *)
Ltac advance_step :=
  match goal with
  | Ht : tokens !! ?p = Some ?t, E : is_one_of (type ?t) _ = true
    |- finishes _ (bind (advance tokens ?p) _) =>
    let Hlt := fresh "Hlt" in
    destruct (advance_moves p t Ht) as [-> Hlt];
    [eapply is_one_of_not_eof; [exact E | reflexivity] | cbn [bind]]
  end.

Ltac match_step :=
  match goal with
  | |- finishes _ (bind (match_ tokens ?tys ?p) _) =>
    let t := fresh "t" in
    let Ht := fresh "Ht" in
    let E := fresh "E" in
    destruct (match_spec tys p ltac:(lia)) as (t & Ht & ->); cbn [bind];
    destruct (is_one_of (type t) tys) eqn:E; cbn [negb]; cbv iota
  end.

Ltac current_step :=
  match goal with
  | |- finishes _ (bind (current tokens ?p) _) =>
    let t := fresh "t" in
    let Hc := fresh "Hc" in
    let Ht := fresh "Ht" in
    destruct (current_spec p ltac:(lia)) as (t & Hc & Ht);
    rewrite Hc; cbn [bind]; cbv zeta
  end.

Ltac expect_step :=
  match goal with
  | |- finishes _ (bind (expect tokens ?ty ?p) _) =>
    eapply finishes_bind;
    [apply expect_spec; [discriminate | lia]
    | intros [? ?] [? ?]; simpl in *; subst]
  end.

Ltac skip_step :=
  match goal with
  | |- finishes _ (bind (skip_newlines tokens ?f ?p) _) =>
    eapply finishes_bind;
    [apply skip_newlines_spec; lia | intros ? [? ?]]
  end.

Ltac type_step :=
  match goal with
  | |- finishes _ (bind (parse_type tokens ?p) _) =>
    eapply finishes_bind;
    [apply parse_type_spec; lia | intros [? ?] [? ?]; simpl in *; subst]
  end.

Ltac basic_step :=
  first
    [ advance_step | match_step | current_step | expect_step | skip_step
    | type_step
    | match goal with
      | |- finishes _ (Ok _) => simpl; lia
      | |- finishes _ (Raise (SyntaxError _)) => simpl; eauto
      | |- finishes _ (bind (Ok _) _) => cbn [bind]
      | |- finishes _ (bind (bind _ _) _) => rewrite bind_assoc
      | |- finishes _ (let (_, _) := ?x in _) =>
        destruct x; cbn [fst snd] in *
      | |- finishes _ (if is_one_of (type ?t) ?tys then _ else _) =>
        destruct (is_one_of (type t) tys) eqn:?; cbv iota
      | |- finishes _ (bind (if is_one_of (type ?t) ?tys then _ else _) _) =>
        destruct (is_one_of (type t) tys) eqn:?; cbv iota
      end ].

(** A call of a method whose specification is at hand. *)
Ltac call_step :=
  match goal with
  | H : _ |- finishes _ (bind _ _) =>
    eapply finishes_bind; [apply H; lia | cbv beta; intros ? ?]
  | |- finishes _ (let (_, _) := ?x in _) =>
    destruct x; cbn [fst snd] in *
  | H : _ |- finishes _ _ =>
    eapply finishes_impl; [apply H; lia | cbv beta; intros ? ?; lia]
  end.

Ltac parser_step :=
  first [ basic_step | call_step
        | match goal with
          | |- _ /\ _ => lia
          | |- ex _ => eauto
          end ].

Lemma parameter_loop_spec fuel :
  forall pos acc, pos < length tokens -> length tokens - pos < fuel ->
    finishes (fun r => pos < snd r /\ snd r < length tokens)
             (parameter_loop tokens fuel pos acc).
Proof.
  induction fuel as [|fuel IH]; intros pos acc Hp Hf; [lia |].
  cbn [parameter_loop]. repeat basic_step.
  eapply finishes_impl; [apply IH; lia |]. simpl. intros r. lia.
Qed.

Lemma parse_parameter_list_spec fuel pos :
  pos < length tokens -> length tokens - pos < fuel ->
  finishes (fun r => pos <= snd r /\ snd r < length tokens)
           (parse_parameter_list tokens fuel pos).
Proof.
  intros Hp Hf. unfold parse_parameter_list. repeat basic_step.
  eapply finishes_impl; [apply parameter_loop_spec; lia |].
  simpl. intros r. lia.
Qed.

Lemma parse_return_type_spec pos :
  pos < length tokens ->
  finishes (fun r => pos <= snd r /\ snd r < length tokens)
           (parse_return_type tokens pos).
Proof.
  intros Hp. unfold parse_return_type. repeat basic_step.
  eapply finishes_impl; [apply parse_type_spec; lia |].
  simpl. intros r. lia.
Qed.

Lemma identifier_loop_spec fuel :
  forall pos acc, pos < length tokens -> length tokens - pos < fuel ->
    finishes (fun r => pos < snd r /\ snd r < length tokens)
             (identifier_loop tokens fuel pos acc).
Proof.
  induction fuel as [|fuel IH]; intros pos acc Hp Hf; [lia |].
  cbn [identifier_loop]. repeat basic_step.
  eapply finishes_impl; [apply IH; lia |]. simpl. intros r. lia.
Qed.

Lemma lambda_parameter_loop_spec fuel :
  forall pos acc, pos < length tokens -> length tokens - pos < fuel ->
    finishes (fun r => pos < snd r /\ snd r < length tokens)
             (lambda_parameter_loop tokens fuel pos acc).
Proof.
  induction fuel as [|fuel IH]; intros pos acc Hp Hf; [lia |].
  cbn [lambda_parameter_loop]. repeat basic_step.
  all: try (eapply finishes_impl; [apply IH; lia |]; simpl; intros r; lia).
Qed.

Lemma parse_function_signature_spec fuel pos :
  pos < length tokens -> length tokens - pos < fuel ->
  finishes (fun r => pos < snd r /\ snd r < length tokens)
           (parse_function_signature tokens fuel pos).
Proof.
  intros Hp Hf. unfold parse_function_signature.
  pose proof (parse_parameter_list_spec fuel) as Hpl.
  pose proof parse_return_type_spec as Hrt.
  repeat parser_step.
Qed.

Lemma parse_import_statement_spec fuel pos :
  pos < length tokens -> length tokens - pos < fuel ->
  finishes (fun r => pos < snd r /\ snd r < length tokens)
           (parse_import_statement tokens fuel pos).
Proof.
  intros Hp Hf. unfold parse_import_statement.
  pose proof (identifier_loop_spec fuel) as Hil.
  repeat parser_step.
Qed.

Lemma trait_body_loop_spec fuel :
  forall pos acc, pos < length tokens -> 2 * (length tokens - pos) < fuel ->
    finishes (fun r => pos <= snd r /\ snd r < length tokens)
             (trait_body_loop tokens fuel pos acc).
Proof.
  induction fuel as [|fuel IH]; intros pos acc Hp Hf; [lia |].
  cbn [trait_body_loop].
  pose proof (parse_function_signature_spec fuel) as Hsig.
  repeat parser_step.
Qed.

Lemma parse_trait_declaration_spec fuel pos :
  pos < length tokens -> 2 * (length tokens - pos) < fuel ->
  finishes (fun r => pos < snd r /\ snd r < length tokens)
           (parse_trait_declaration tokens fuel pos).
Proof.
  intros Hp Hf. unfold parse_trait_declaration.
  pose proof (trait_body_loop_spec fuel) as Htl.
  repeat parser_step.
Qed.

Lemma ends_invariant_holds fuel : ends_invariant tokens fuel.
Proof.
  induction fuel as [|fuel IH].
  - unfold ends_invariant. repeat split; intros; lia.
  - destruct IH as (Hstmt & Hfun & Hvar & Hclass & Hcbody & Hblock & Hbloop
                    & Hret & Hif & Hwhile & Hfor & Hpar & Hploop & Hexpr
                    & Hpipe & Hpiloop & Hor & Horl & Hand & Handl & Heq
                    & Heql & Hcmp & Hcmpl & Hadd & Haddl & Hmul & Hmull
                    & Hpow & Hun & Hpost & Hpostl & Hargs & Hel & Hprim
                    & Hfl & Hmatch & Hcl & Hlam).
    pose proof (parse_parameter_list_spec fuel) as Hpl.
    pose proof parse_return_type_spec as Hrt.
    pose proof (identifier_loop_spec fuel) as Hil.
    pose proof (lambda_parameter_loop_spec fuel) as Hlpl.
    pose proof (parse_trait_declaration_spec fuel) as Htrait.
    pose proof (parse_import_statement_spec fuel) as Himport.
    unfold ends_invariant, moves, stays in *.
    repeat match goal with |- _ /\ _ => split end; intros.
    all: match goal with
         | |- finishes _ (?f tokens (S _) _) => cbn [f]
         | |- finishes _ (?f tokens (S _) _ _) => cbn [f]
         | |- finishes _ (?f tokens (S _) _ _ _) => cbn [f]
         end.
    all: repeat parser_step.
Qed.

Lemma program_loop_spec fuel :
  forall pos acc, pos < length tokens ->
    20 * (length tokens - pos) + 15 <= fuel ->
    finishes (fun _ => True) (program_loop tokens fuel pos acc).
Proof.
  induction fuel as [|fuel IH]; intros pos acc Hp Hf; [lia |].
  cbn [program_loop].
  destruct (ends_invariant_holds fuel) as (Hstmt & _).
  unfold moves in Hstmt.
  repeat first [ basic_step
               | match goal with
                 | |- finishes _ (bind (parse_statement _ _ _) _) =>
                   eapply finishes_bind;
                   [apply Hstmt; lia | cbv beta; intros [? ?] [? ?];
                                       cbn [fst snd] in *]
                 | |- finishes _ (program_loop _ _ _ _) => apply IH; lia
                 | |- True => exact I
                 end ].
Qed.

Lemma parse_finishes fuel :
  20 * length tokens + 15 <= fuel ->
  finishes (fun _ : Program => True) (parse tokens fuel).
Proof.
  intros Hf. pose proof tokens_nonempty as Hne. unfold parse.
  eapply finishes_bind; [apply skip_newlines_spec; lia |].
  cbv beta. intros p [? ?]. apply program_loop_spec; lia.
Qed.

(** X27. A token list that ends in the end-of-input token is parsed to
    the end: with twenty units of fuel for each token and fifteen more,
    [parse] returns a program or raises a [SyntaxError].  It raises no
    other exception, it does not read past the last token, and none of
    its loops goes round without taking a token.  (The depth of the
    interpreter's stack is outside the model.) *)
Theorem parse_returns_or_raises_SyntaxError fuel :
  20 * length tokens + 15 <= fuel ->
  (exists program, parse tokens fuel = Ok program)
  \/ (exists msg, parse tokens fuel = Raise (SyntaxError msg)).
Proof.
  intros Hf. pose proof (parse_finishes fuel Hf) as H.
  destruct (parse tokens fuel) as [program|e|]; simpl in H.
  - left. eauto.
  - right. destruct H as (msg & ->). eauto.
  - contradiction.
Qed.

End ParserTermination.

Section ParserTerminationWitness.
Import Lexer Ast Parser Props.
Local Open Scope nat_scope.

Lemma parse_returns_or_raises_SyntaxError_witness :
  (exists program,
     parse [MkToken RETURN (VStr "return") 1 1;
            MkToken NUMBER (VInt 1) 1 8;
            MkToken EOF VNone 1 9] 75 = Ok program)
  \/ (exists msg,
        parse [MkToken RETURN (VStr "return") 1 1;
               MkToken NUMBER (VInt 1) 1 8;
               MkToken EOF VNone 1 9] 75 = Raise (SyntaxError msg)).
Proof.
  apply (parse_returns_or_raises_SyntaxError
           [MkToken RETURN (VStr "return") 1 1;
            MkToken NUMBER (VInt 1) 1 8;
            MkToken EOF VNone 1 9]
           (MkToken EOF VNone 1 9)).
  - reflexivity.
  - reflexivity.
  - simpl. lia.
Defined.

End ParserTerminationWitness.

(** ** From the source text to the program *)

Section LexerThenParser.
Import Lexer Ast Parser Props.
Local Open Scope list_scope.
Local Open Scope nat_scope.

(** The token list the lexer returns ends in the end-of-input token. *)
Lemma lex_ends_in_EOF limit src toks :
  lex limit src = Ok toks ->
  exists eof, last toks = Some eof /\ type eof = EOF.
Proof.
  unfold lex, tokenize. intros H.
  destruct (tokenize_loop limit _ (init src)) as [lx| |];
    cbn [bind] in H; try discriminate H.
  injection H as <-. rewrite last_snoc. eauto.
Qed.

(** X28. The lexer and the parser fit together: on the tokens the lexer
    returns for a source text, [parse] (with twenty units of fuel for
    each token and fifteen more) returns a program whose nodes have the
    shape the parser gives them, or raises a [SyntaxError]; it raises
    nothing else. *)
Theorem lexed_source_is_parsed_or_rejected (limit : option nat)
    (src : string) (toks : list Token) (fuel : nat) :
  lex limit src = Ok toks ->
  20 * length toks + 15 <= fuel ->
  (exists program,
     parse toks fuel = Ok program /\ forallb parsed program = true)
  \/ (exists msg, parse toks fuel = Raise (SyntaxError msg)).
Proof.
  intros Hlex Hf.
  destruct (lex_ends_in_EOF _ _ _ Hlex) as (eof & Hlast & Heof).
  pose proof (parse_finishes toks eof Hlast Heof fuel Hf) as H.
  pose proof (parse_shape toks fuel) as Y.
  destruct (parse toks fuel) as [program|e|]; simpl in H, Y.
  - left. eauto.
  - right. destruct H as (msg & ->). eauto.
  - contradiction.
Qed.

Lemma lexed_source_is_parsed_or_rejected_witness :
  (exists program,
     parse [MkToken IDENTIFIER (VStr "x") 1 1; MkToken ASSIGN (VStr "=") 1 3;
            MkToken NUMBER (VInt 42) 1 5; MkToken EOF VNone 1 7] 95
     = Ok program /\ forallb parsed program = true)
  \/ (exists msg,
        parse [MkToken IDENTIFIER (VStr "x") 1 1;
               MkToken ASSIGN (VStr "=") 1 3;
               MkToken NUMBER (VInt 42) 1 5; MkToken EOF VNone 1 7] 95
        = Raise (SyntaxError msg)).
Proof.
  apply (lexed_source_is_parsed_or_rejected default_int_max_str_digits
           "x = 42").
  - vm_compute. reflexivity.
  - simpl. lia.
Defined.

End LexerThenParser.

(** ** The parser: without the end-of-input token *)

Section ParserWithoutSentinel.
Import Lexer Ast Parser Props.
Local Open Scope list_scope.
Local Open Scope nat_scope.
Variable tokens : list Token.
Hypothesis some_token : tokens <> [].
Hypothesis only_newlines : Forall (fun t => type t = NEWLINE) tokens.

(** Past the end too, the current token is a newline. *)
Lemma current_is_a_newline pos :
  exists t, current tokens pos = Ok t /\ type t = NEWLINE.
Proof.
  unfold current. rewrite Forall_forall in only_newlines.
  destruct (tokens !! pos) as [t|] eqn:Ht.
  - exists t. split; [reflexivity |].
    apply only_newlines, (list_elem_of_lookup_2 _ pos), Ht.
  - destruct (last tokens) as [t|] eqn:Hl.
    + exists t. split; [reflexivity |].
      rewrite last_lookup in Hl.
      apply only_newlines,
        (list_elem_of_lookup_2 _ (Nat.pred (length tokens))), Hl.
    + apply last_None in Hl. contradiction.
Qed.

Lemma skip_newlines_goes_on fuel :
  forall pos, skip_newlines tokens fuel pos = OutOfFuel.
Proof.
  induction fuel as [|fuel IH]; intros pos; [reflexivity |].
  cbn [skip_newlines]. unfold match_, advance.
  destruct (current_is_a_newline pos) as (t & -> & Ht).
  cbn [bind]. rewrite Ht. cbn. apply IH.
Qed.

(** X30. The parser relies on the end-of-input token: on a token list
    that is not empty and holds newline tokens only, [skip_newlines]
    goes past the end and on for ever, the current token being the last
    one from there on: [parse] runs out of any fuel. *)
Theorem parse_without_end_of_input_does_not_end (fuel : nat) :
  parse tokens fuel = OutOfFuel.
Proof. unfold parse. rewrite skip_newlines_goes_on. reflexivity. Qed.

End ParserWithoutSentinel.

Section ParserWithoutSentinelWitness.
Import Lexer Ast Parser Props.
Local Open Scope list_scope.
Local Open Scope nat_scope.

Lemma parse_without_end_of_input_does_not_end_witness :
  parse [MkToken NEWLINE (VStr (String "010" "")) 1 1] 1000 = OutOfFuel.
Proof.
  apply parse_without_end_of_input_does_not_end.
  - discriminate.
  - repeat constructor.
Defined.

End ParserWithoutSentinelWitness.
